(** * Heat equation explorer: numerical core

  A shallow embedding of the numerical core of the heat-equation
  explorers (the 1D explorer, the 2D explorer [2d/app.js] and the unified
  1D/2D explorer): the tridiagonal solver, the three time steppers in
  one and two space dimensions, the per-step bookkeeping and the error
  diagnostics.

  JavaScript numbers are kept abstract: the class [Number] lists the
  operations the source applies to them, and every definition is written
  against that interface, statement by statement.  Facts that only depend
  on the control flow are proved for every [Number].  Facts about computed
  values are proved under [Exact], which says that the arithmetic is exact
  real arithmetic (no rounding, no overflow, no NaN); the canonical
  rationals [Qc] give an executable instance and [R] a second one.

  The steppers are given twice: over arrays as values, which is what the
  statements about computed fields use, and over a store of array objects
  ([Store]), which is what the statement about the arrays a call reads,
  writes and allocates uses.  The definitions come first, the properties
  after them. *)

From Stdlib Require Import Reals QArith Qcanon Qreals Qabs Lra Lia.
From Stdlib Require Import String Ascii DecimalString.
From Stdlib Require Import Bool Arith ZArith List.
Import ListNotations.

Close Scope Q_scope.
Close Scope Qc_scope.
Close Scope R_scope.
Close Scope string_scope.
Open Scope nat_scope.

(** ** Numbers *)

(** The operations of JavaScript numbers used by the core.  [lit] reads a
  decimal literal, [undef] is what a hole of [new Array(n)] or a read
  past the end of an array yields once it enters arithmetic, [ltb] is
  [<] and [isFinite] is the global [isFinite]. *)
Class Number : Type := {
num : Type;
lit : Q -> num;
undef : num;
add : num -> num -> num;
sub : num -> num -> num;
mul : num -> num -> num;
div : num -> num -> num;
neg : num -> num;
abs : num -> num;
ltb : num -> num -> bool;
isFinite : num -> bool
}.

Declare Scope num_scope.
Delimit Scope num_scope with num.
Bind Scope num_scope with num.
Infix "+" := add : num_scope.
Infix "-" := sub : num_scope.
Infix "*" := mul : num_scope.
Infix "/" := div : num_scope.
Notation "- x" := (neg x) : num_scope.
Infix "<?" := ltb : num_scope.

Section Literals.
Context {N : Number}.

Definition ofZ (z : Z) : num := lit (inject_Z z).
Definition ofNat (n : nat) : num := ofZ (Z.of_nat n).
Definition zero : num := ofZ 0.
Definition one : num := ofZ 1.
Definition two : num := ofZ 2.

(** [x > y] *)
Definition gtb (x y : num) : bool := ltb y x.

(** The pivot threshold [1e-15] of [thomasAlgorithm]. *)
Definition pivot_eps : num := lit (1 # 1000000000000000).
End Literals.

(** ** Arrays *)

(** A JavaScript array is a list; [hole] stands for a missing element. *)
Section Arrays.
Context {A : Type} (hole : A).

(** [new Array(n)] *)
Definition newArray (n : nat) : list A := repeat hole n.

(** [new Array(n).fill(v)] *)
Definition filled (n : nat) (v : A) : list A := repeat v n.

(** [l[i]] *)
Definition aget (l : list A) (i : nat) : A := nth i l hole.

(** [l[i] = v]: an assignment past the end extends the array. *)
Fixpoint aset (l : list A) (i : nat) (v : A) : list A :=
  match l, i with
  | [], 0 => [v]
  | [], S k => hole :: aset [] k v
  | _ :: t, 0 => v :: t
  | h :: t, S k => h :: aset t k v
  end.

(** [l[n - 1] = v]: for [n = 0] the index is [-1], which is not an array
    index, and the elements are left as they are. *)
Definition aset_last (n : nat) (l : list A) (v : A) : list A :=
  match n with
  | 0 => l
  | S k => aset l k v
  end.

(** [for (let i = lo; i < hi; i++) body], threading the loop state. *)
Definition for_up {S : Type} (lo hi : nat) (body : nat -> S -> S) (s : S) : S :=
  fold_left (fun acc i => body i acc) (seq lo (hi - lo)) s.

(** [for (let i = hi - 1; i >= 0; i--) body] *)
Definition for_down {S : Type} (hi : nat) (body : nat -> S -> S) (s : S) : S :=
  fold_left (fun acc i => body i acc) (rev (seq 0 hi)) s.
End Arrays.

Arguments newArray {A} hole n.
Arguments aget {A} hole l i.
Arguments aset {A} hole l i v.
Arguments aset_last {A} hole n l v.

(** ** The tridiagonal solver *)

Section Thomas.
Context {N : Number}.
Local Open Scope num_scope.

Notation "l .[ i ]" := (aget undef l i) (at level 1, format "l .[ i ]").

(** State of the forward sweep: the arrays [cp] and [dp], and, as a ghost
    field, the divisors of the divisions performed so far. *)
Record sweep : Type := {
  cp : list num;
  dp : list num;
  divisors : list num
}.

(** One iteration of the forward loop; [inl (i, s)] is the early
    [return d] at index [i], reached in state [s]. *)
Definition forwardStep (a b c d : list num) (i : nat) (s : sweep) : nat * sweep + sweep :=
  let denom := b.[i] - a.[i] * (cp s).[i - 1] in
  if abs denom <? pivot_eps then inl (i, s)
  else inr {| cp := aset undef (cp s) i (c.[i] / denom);
              dp := aset undef (dp s) i ((d.[i] - a.[i] * (dp s).[i - 1]) / denom);
              divisors := divisors s ++ [denom; denom] |}.

Fixpoint forwardLoop (a b c d : list num) (idx : list nat) (s : sweep) :
    nat * sweep + sweep :=
  match idx with
  | [] => inr s
  | i :: rest =>
      match forwardStep a b c d i s with
      | inl e => inl e
      | inr s' => forwardLoop a b c d rest s'
      end
  end.

Definition forwardSweep (a b c d : list num) : nat * sweep + sweep :=
  let n := length d in
  let cp := newArray undef n in
  let dp := newArray undef n in
  if abs b.[0] <? pivot_eps then inl (0, {| cp := cp; dp := dp; divisors := [] |})
  else forwardLoop a b c d (seq 1 (n - 1))
         {| cp := aset undef cp 0 (c.[0] / b.[0]);
            dp := aset undef dp 0 (d.[0] / b.[0]);
            divisors := [b.[0]; b.[0]] |}.

Definition backSubst (n : nat) (cp dp : list num) : list num :=
  let x := newArray undef n in
  let x := match n with
           | 0 => x
           | S k => aset undef x k dp.[k]
           end in
  for_down (n - 1) (fun i x => aset undef x i (dp.[i] - cp.[i] * x.[i + 1])) x.

Definition thomasAlgorithm (a b c d : list num) : list num :=
  match forwardSweep a b c d with
  | inl _ => d
  | inr s => backSubst (length d) (cp s) (dp s)
  end.

(** The divisors of all the divisions a call performs. *)
Definition divisorsOf (a b c d : list num) : list num :=
  match forwardSweep a b c d with
  | inl (_, s) => divisors s
  | inr s => divisors s
  end.

(** The message the 1D explorer's [thomasAlgorithm] sends to
    [console.error] before an early return; the other two copies of the
    function return silently. *)
Definition thomasErrors (a b c d : list num) : list string :=
  match forwardSweep a b c d with
  | inl (i, _) =>
      [("Thomas Algorithm: Zero pivot at index "
          ++ NilZero.string_of_uint (Nat.to_uint i))%string]
  | inr _ => []
  end.

(** The normalised coefficients and the effective pivots as the
    recurrence defines them: [cp_0 = c_0 / b_0],
    [cp_i = c_i / (b_i - a_i cp_(i-1))]; the pivot of row [0] is [b_0] and
    the pivot of row [i] is [b_i - a_i cp_(i-1)]. *)
Fixpoint cprime (a b c : list num) (i : nat) : num :=
  match i with
  | 0 => c.[0] / b.[0]
  | S k => c.[i] / (b.[i] - a.[i] * cprime a b c k)
  end.

Definition pivot (a b c : list num) (i : nat) : num :=
  match i with
  | 0 => b.[0]
  | S k => b.[i] - a.[i] * cprime a b c k
  end.

(** [dp_0 = d_0 / b_0], [dp_i = (d_i - a_i dp_(i-1)) / (b_i - a_i cp_(i-1))]. *)
Fixpoint dprime (a b c d : list num) (i : nat) : num :=
  match i with
  | 0 => d.[0] / b.[0]
  | S k => (d.[i] - a.[i] * dprime a b c d k) / pivot a b c i
  end.

(** Back substitution, [x_(n-1) = dp_(n-1)] and [x_i = dp_i - cp_i x_(i+1)]:
    [xback k i] is [x_i] for the row [i] that has [k] rows after it. *)
Fixpoint xback (a b c d : list num) (k i : nat) : num :=
  match k with
  | 0 => dprime a b c d i
  | S k' => dprime a b c d i - cprime a b c i * xback a b c d k' (S i)
  end.

(** The solution of a system of [n] rows by the recurrences. *)
Definition solution (a b c d : list num) (n : nat) : list num :=
  map (fun i => xback a b c d (n - 1 - i) i) (seq 0 n).

(** [Math.abs(p) < 1e-15] *)
Definition degenerate (p : num) : bool := abs p <? pivot_eps.

End Thomas.

(** ** Tridiagonal systems with Dirichlet rows *)

Section Systems.
Context {N : Number}.
Local Open Scope num_scope.

(** The four arrays [a], [b], [c], [d] handed to [thomasAlgorithm]. *)
Record system : Type := {
  sa : list num;
  sb : list num;
  sc : list num;
  sd : list num
}.

Definition solve (s : system) : list num :=
  thomasAlgorithm (sa s) (sb s) (sc s) (sd s).

(** The two lines every implicit stepper runs before the solve:
    [b[0] = 1; c[0] = 0; d[0] = 0;]
    [a[n - 1] = 0; b[n - 1] = 1; d[n - 1] = 0;] *)
Definition dirichletRows (n : nat) (s : system) : system :=
  let b := aset undef (sb s) 0 one in
  let c := aset undef (sc s) 0 zero in
  let d := aset undef (sd s) 0 zero in
  let a := aset_last undef n (sa s) zero in
  let b := aset_last undef n b one in
  let d := aset_last undef n d zero in
  {| sa := a; sb := b; sc := c; sd := d |}.

End Systems.

(** ** One-dimensional steppers

    [forwardEuler], [backwardEuler] and [crankNicolson] of the 1D explorer;
    the unified explorer has the same bodies under the names
    [forwardEuler1D], [backwardEuler1D] and [crankNicolson1D]. *)

Section Steppers1D.
Context {N : Number}.
Local Open Scope num_scope.

Notation "l .[ i ]" := (aget undef l i) (at level 1, format "l .[ i ]").

Definition forwardEuler (u : list num) (r : num) : list num :=
  let n := length u in
  let uNew := newArray undef n in
  let uNew := aset undef uNew 0 zero in
  let uNew := aset_last undef n uNew zero in
  for_up 1 (n - 1)
    (fun i uNew =>
       aset undef uNew i (u.[i] + r * (u.[i + 1] - two * u.[i] + u.[i - 1])))
    uNew.

Definition backwardEulerSystem (u : list num) (r : num) : system :=
  let n := length u in
  let a := filled n (- r) in
  let b := filled n (one + two * r) in
  let c := filled n (- r) in
  let d := u in
  dirichletRows n {| sa := a; sb := b; sc := c; sd := d |}.

Definition backwardEuler (u : list num) (r : num) : list num :=
  solve (backwardEulerSystem u r).

Definition crankNicolsonSystem (u : list num) (r : num) : system :=
  let n := length u in
  let r2 := r / two in
  let a := filled n (- r2) in
  let b := filled n (one + r) in
  let c := filled n (- r2) in
  let d := newArray undef n in
  let d := for_up 1 (n - 1)
             (fun i d =>
                aset undef d i ((one - r) * u.[i] + r2 * (u.[i + 1] + u.[i - 1])))
             d in
  dirichletRows n {| sa := a; sb := b; sc := c; sd := d |}.

Definition crankNicolson (u : list num) (r : num) : list num :=
  solve (crankNicolsonSystem u r).

Definition forwardEuler1D := forwardEuler.
Definition backwardEuler1D := backwardEuler.
Definition crankNicolson1D := crankNicolson.

End Steppers1D.

(** ** Two-dimensional steppers *)

Section Steppers2D.
Context {N : Number}.
Local Open Scope num_scope.

Notation "l .[ i ]" := (aget undef l i) (at level 1, format "l .[ i ]").

(** A field is an array of rows, [u[i][j]]. *)
Definition matrix : Type := list (list num).

(** [new Array(Nx).fill(0).map(() => new Array(Ny).fill(0))] *)
Definition zeros2 (Nx Ny : nat) : matrix := repeat (filled Ny zero) Nx.

(** [u[i][j]] *)
Definition mget (u : matrix) (i j : nat) : num := (aget [] u i).[j].

(** [u[i][j] = v] *)
Definition mset (u : matrix) (i j : nat) (v : num) : matrix :=
  aset [] u i (aset undef (aget [] u i) j v).

(** The steppers start with [Ny = u[0].length], which throws a TypeError on
    an empty [u]: that is the [None] below. *)

(** [forwardEuler2D], the same in the 2D explorer and the unified explorer. *)
Definition forwardEuler2D (u : matrix) (rx ry : num) : option matrix :=
  match u with
  | [] => None
  | row0 :: _ =>
      let Nx := length u in
      let Ny := length row0 in
      let uNew := zeros2 Nx Ny in
      Some (for_up 1 (Nx - 1)
              (fun i uNew =>
                 for_up 1 (Ny - 1)
                   (fun j uNew =>
                      mset uNew i j
                        (mget u i j
                         + rx * (mget u (i + 1) j - two * mget u i j + mget u (i - 1) j)
                         + ry * (mget u i (j + 1) - two * mget u i j + mget u i (j - 1))))
                   uNew)
              uNew)
  end.

(** [for (let i = 0; i < n; i++) uStar[i][j] = res[i]] *)
Definition storeColumn (n j : nat) (res : list num) (m : matrix) : matrix :=
  for_up 0 n (fun i m => mset m i j res.[i]) m.

(** [for (let j = 0; j < n; j++) uNew[i][j] = res[j]] *)
Definition storeRow (n i : nat) (res : list num) (m : matrix) : matrix :=
  for_up 0 n (fun j m => mset m i j res.[j]) m.

(** *** The 2D explorer, [2d/app.js] *)

Definition beX_system (u : matrix) (rx : num) (Nx j : nat) : system :=
  let a := filled Nx (- rx) in
  let b := filled Nx (one + two * rx) in
  let c := filled Nx (- rx) in
  let d := newArray undef Nx in
  let d := for_up 0 Nx (fun i d => aset undef d i (mget u i j)) d in
  dirichletRows Nx {| sa := a; sb := b; sc := c; sd := d |}.

Definition beY_system (uStar : matrix) (ry : num) (Ny i : nat) : system :=
  let a := filled Ny (- ry) in
  let b := filled Ny (one + two * ry) in
  let c := filled Ny (- ry) in
  let d := newArray undef Ny in
  let d := for_up 0 Ny (fun j d => aset undef d j (mget uStar i j)) d in
  dirichletRows Ny {| sa := a; sb := b; sc := c; sd := d |}.

Definition backwardEulerADI (u : matrix) (rx ry : num) : option matrix :=
  match u with
  | [] => None
  | row0 :: _ =>
      let Nx := length u in
      let Ny := length row0 in
      let uStar := zeros2 Nx Ny in
      let uStar := for_up 1 (Ny - 1)
                     (fun j uStar =>
                        let res := solve (beX_system u rx Nx j) in
                        storeColumn Nx j res uStar)
                     uStar in
      let uNew := zeros2 Nx Ny in
      Some (for_up 1 (Nx - 1)
              (fun i uNew =>
                 let res := solve (beY_system uStar ry Ny i) in
                 storeRow Ny i res uNew)
              uNew)
  end.

Definition cnX_system (u : matrix) (rx ry : num) (Nx j : nat) : system :=
  let rx2 := rx / two in
  let ry2 := ry / two in
  let a := filled Nx (- rx2) in
  let b := filled Nx (one + rx) in
  let c := filled Nx (- rx2) in
  let d := newArray undef Nx in
  let d := for_up 1 (Nx - 1)
             (fun i d =>
                aset undef d i
                  (mget u i j
                   + ry2 * (mget u i (j + 1) - two * mget u i j + mget u i (j - 1))))
             d in
  dirichletRows Nx {| sa := a; sb := b; sc := c; sd := d |}.

Definition cnY_system (uStar : matrix) (rx ry : num) (Ny i : nat) : system :=
  let rx2 := rx / two in
  let ry2 := ry / two in
  let a := filled Ny (- ry2) in
  let b := filled Ny (one + ry) in
  let c := filled Ny (- ry2) in
  let d := newArray undef Ny in
  let d := for_up 1 (Ny - 1)
             (fun j d =>
                aset undef d j
                  (mget uStar i j
                   + rx2 * (mget uStar (i + 1) j - two * mget uStar i j
                            + mget uStar (i - 1) j)))
             d in
  dirichletRows Ny {| sa := a; sb := b; sc := c; sd := d |}.

Definition crankNicolsonADI (u : matrix) (rx ry : num) : option matrix :=
  match u with
  | [] => None
  | row0 :: _ =>
      let Nx := length u in
      let Ny := length row0 in
      let uStar := zeros2 Nx Ny in
      let uNew := zeros2 Nx Ny in
      let uStar := for_up 1 (Ny - 1)
                     (fun j uStar =>
                        let res := solve (cnX_system u rx ry Nx j) in
                        storeColumn Nx j res uStar)
                     uStar in
      Some (for_up 1 (Nx - 1)
              (fun i uNew =>
                 let res := solve (cnY_system uStar rx ry Ny i) in
                 storeRow Ny i res uNew)
              uNew)
  end.

(** *** The unified explorer *)

Definition beX_system_unified (u : matrix) (rx : num) (Nx j : nat) : system :=
  let a := filled Nx (- rx) in
  let b := filled Nx (one + two * rx) in
  let c := filled Nx (- rx) in
  let d := newArray undef Nx in
  let d := for_up 1 (Nx - 1) (fun i d => aset undef d i (mget u i j)) d in
  dirichletRows Nx {| sa := a; sb := b; sc := c; sd := d |}.

Definition beY_system_unified (uHalf : matrix) (ry : num) (Ny i : nat) : system :=
  let a := filled Ny (- ry) in
  let b := filled Ny (one + two * ry) in
  let c := filled Ny (- ry) in
  let d := newArray undef Ny in
  let d := for_up 1 (Ny - 1) (fun j d => aset undef d j (mget uHalf i j)) d in
  dirichletRows Ny {| sa := a; sb := b; sc := c; sd := d |}.

Definition backwardEuler2D_ADI (u : matrix) (rx ry : num) : option matrix :=
  match u with
  | [] => None
  | row0 :: _ =>
      let Nx := length u in
      let Ny := length row0 in
      let uHalf := zeros2 Nx Ny in
      let uNew := zeros2 Nx Ny in
      let uHalf := for_up 0 Ny
                     (fun j uHalf =>
                        let sol := solve (beX_system_unified u rx Nx j) in
                        storeColumn Nx j sol uHalf)
                     uHalf in
      Some (for_up 0 Nx
              (fun i uNew =>
                 let sol := solve (beY_system_unified uHalf ry Ny i) in
                 storeRow Ny i sol uNew)
              uNew)
  end.

Definition cnX_system_unified (u : matrix) (rx : num) (Nx j : nat) : system :=
  let rx2 := rx / two in
  let a := filled Nx (- rx2) in
  let b := filled Nx (one + rx) in
  let c := filled Nx (- rx2) in
  let d := newArray undef Nx in
  let d := for_up 1 (Nx - 1)
             (fun i d =>
                aset undef d i
                  ((one - rx) * mget u i j
                   + rx2 * (mget u (i + 1) j + mget u (i - 1) j)))
             d in
  dirichletRows Nx {| sa := a; sb := b; sc := c; sd := d |}.

Definition cnY_system_unified (uHalf : matrix) (ry : num) (Ny i : nat) : system :=
  let ry2 := ry / two in
  let a := filled Ny (- ry2) in
  let b := filled Ny (one + ry) in
  let c := filled Ny (- ry2) in
  let d := newArray undef Ny in
  let d := for_up 1 (Ny - 1)
             (fun j d =>
                aset undef d j
                  ((one - ry) * mget uHalf i j
                   + ry2 * (mget uHalf i (j + 1) + mget uHalf i (j - 1))))
             d in
  dirichletRows Ny {| sa := a; sb := b; sc := c; sd := d |}.

Definition crankNicolson2D_ADI (u : matrix) (rx ry : num) : option matrix :=
  match u with
  | [] => None
  | row0 :: _ =>
      let Nx := length u in
      let Ny := length row0 in
      let uHalf := zeros2 Nx Ny in
      let uNew := zeros2 Nx Ny in
      let uHalf := for_up 0 Ny
                     (fun j uHalf =>
                        let sol := solve (cnX_system_unified u rx Nx j) in
                        storeColumn Nx j sol uHalf)
                     uHalf in
      Some (for_up 0 Nx
              (fun i uNew =>
                 let sol := solve (cnY_system_unified uHalf ry Ny i) in
                 storeRow Ny i sol uNew)
              uNew)
  end.

End Steppers2D.

(** ** Exact arithmetic *)

(** [Exact N] says that the numbers of [N] are real numbers and that every
    operation computes the real result exactly.  ([x / 0] is [0] in [R];
    no statement below depends on the value of a division by zero.) *)
Class Exact (N : Number) : Type := {
  toR : num -> R;
  toR_inj : forall x y : num, toR x = toR y -> x = y;
  toR_lit : forall q : Q, toR (lit q) = Q2R q;
  toR_add : forall x y : num, toR (add x y) = (toR x + toR y)%R;
  toR_sub : forall x y : num, toR (sub x y) = (toR x - toR y)%R;
  toR_mul : forall x y : num, toR (mul x y) = (toR x * toR y)%R;
  toR_div : forall x y : num, toR (div x y) = (toR x / toR y)%R;
  toR_neg : forall x : num, toR (neg x) = (- toR x)%R;
  toR_abs : forall x : num, toR (abs x) = Rabs (toR x);
  ltb_spec : forall x y : num, ltb x y = true <-> (toR x < toR y)%R;
  isFinite_true : forall x : num, isFinite x = true
}.

(** *** The rationals *)

Definition Qc_ltb (x y : Qc) : bool := negb (Qle_bool y x).

Definition QcNumber : Number := {|
  num := Qc;
  lit := Q2Qc;
  undef := Q2Qc 0;
  add := Qcplus;
  sub := Qcminus;
  mul := Qcmult;
  div := Qcdiv;
  neg := Qcopp;
  abs := fun x => Q2Qc (Qabs x);
  ltb := Qc_ltb;
  isFinite := fun _ => true
|}.

(** The rational [z / p] as a number of [QcNumber]. *)
Definition qc (z : Z) (p : positive) : @num QcNumber := Q2Qc (z # p).

(** *** The reals *)

Definition R_ltb (x y : R) : bool := if Rlt_dec x y then true else false.

Definition RNumber : Number := {|
  num := R;
  lit := Q2R;
  undef := 0%R;
  add := Rplus;
  sub := Rminus;
  mul := Rmult;
  div := Rdiv;
  neg := Ropp;
  abs := Rabs;
  ltb := R_ltb;
  isFinite := fun _ => true
|}.

(** ** Initial condition and analytical solution *)

(** The functions and the constant of [Math] the field generators use. *)
Class MathFns (N : Number) : Type := {
  Math_sin : num -> num;
  Math_exp : num -> num;
  Math_sqrt : num -> num;
  Math_pow : num -> num -> num;
  Math_PI : num
}.

(** What the results below use of [Math.exp]: [Math.exp(0)] is [1]. *)
Class MathLaws (N : Number) (F : MathFns N) : Prop := {
  Math_exp_zero : Math_exp (lit (inject_Z 0)) = lit (inject_Z 1)
}.

(** The real functions, as an instance over the reals; [Math_pow] is the
    real power of a positive base. *)
Definition RMath : MathFns RNumber :=
  Build_MathFns RNumber sin exp sqrt Rpower PI.

(** The fields of the [config] / [sharedConfig] object the core reads. *)
Record config {N : Number} : Type := {
  L : num;
  alpha : num;
  Nx : nat;
  dt : num;
  Tmax : num;
  method : string;
  animationSpeed : nat
}.

Section FieldGenerator.
Context {N : Number} {F : MathFns N}.
Local Open Scope num_scope.

Notation "l .[ i ]" := (aget undef l i) (at level 1, format "l .[ i ]").

Definition getSineIC (cfg : config) (x : list num) : list num :=
  let L := L cfg in
  let k := ofZ 3 in
  map (fun xi => Math_sin (k * Math_PI * xi / L)) x.

Definition getAnalyticalSolution (cfg : config) (x : list num) (t : num) : list num :=
  let L := L cfg in
  let alpha := alpha cfg in
  let k := ofZ 3 in
  let decay := Math_exp (- alpha * Math_pow (k * Math_PI) two * t / (L * L)) in
  map (fun xi => Math_sin (k * Math_PI * xi / L) * decay) x.

(** The nested loops of [getSineIC2D] and [getAnalyticalSolution2D]:
    [u[i] = new Array(y.length)], then [u[i][j] = f i j]. *)
Definition tabulate2 (nx ny : nat) (f : nat -> nat -> num) : matrix :=
  for_up 0 nx
    (fun i u =>
       let u := aset [] u i (newArray undef ny) in
       for_up 0 ny (fun j u => mset u i j (f i j)) u)
    (newArray [] nx).

Definition getSineIC2D (x y : list num) : matrix :=
  tabulate2 (length x) (length y)
    (fun i j => Math_sin (two * Math_PI * x.[i]) * Math_sin (Math_PI * y.[j])).

Definition getAnalyticalSolution2D (cfg : config) (x y : list num) (t : num) : matrix :=
  let alpha := alpha cfg in
  let decay := Math_exp (- alpha * Math_PI * Math_PI * ofZ 5 * t) in
  tabulate2 (length x) (length y)
    (fun i j =>
       Math_sin (two * Math_PI * x.[i]) * Math_sin (Math_PI * y.[j]) * decay).

(** [Array.from({ length: n }, (_, i) => i * dx)] *)
Definition gridPoints (n : nat) (dx : num) : list num :=
  map (fun i => ofNat i * dx) (seq 0 n).

End FieldGenerator.

(** ** The 1D explorer *)

Module Explorer1D.
Section Engine.
Context {N : Number} {F : MathFns N}.
Local Open Scope num_scope.

(** The fields of [state] the core uses, and the messages sent to
    [console.error]. *)
Record state : Type := {
  t : num;
  nSteps : nat;
  flops : num;
  u : list num;
  uExact : list num;
  x : list num;
  dx : num;
  r : num;
  hasDiverged : bool;
  errors : list string
}.

(** The two global objects. *)
Record world : Type := {
  cfg : config;
  st : state
}.

Definition initSimulation (w : world) : world :=
  let c := cfg w in
  let dx := L c / (ofNat (Nx c) - one) in
  let x := gridPoints (Nx c) dx in
  let r := alpha c * dt c / (dx * dx) in
  {| cfg := c;
     st := {| t := zero; nSteps := 0; flops := zero;
              u := getSineIC c x;
              uExact := getAnalyticalSolution c x zero;
              x := x; dx := dx; r := r;
              hasDiverged := false;
              errors := errors (st w) |} |}.

(** [reset()]: [stopAnimation(); initSimulation(); updateChart(); updateStatus();] *)
Definition reset (w : world) : world := initSimulation w.

(** The [console.log] of the first step is not recorded: [errors] holds
    what goes to [console.error], that is the messages of the solver and
    of the [default] case. *)
Definition stepNumerical (w : world) : world :=
  let c := cfg w in
  let s := st w in
  let r := r s in
  let N := ofNat (Nx c) in
  let upd (u' : list num) (cost : num) (msgs : list string) : world :=
    {| cfg := c;
       st := {| t := t s; nSteps := nSteps s; flops := flops s + cost;
                u := u'; uExact := uExact s; x := x s; dx := dx s; r := r;
                hasDiverged := hasDiverged s;
                errors := errors s ++ msgs |} |} in
  if String.eqb (method c) "forward-euler" then
    upd (forwardEuler (u s) r) (ofZ 5 * (N - two)) []
  else if String.eqb (method c) "backward-euler" then
    let sys := backwardEulerSystem (u s) r in
    upd (solve sys) (ofZ 8 * N) (thomasErrors (sa sys) (sb sys) (sc sys) (sd sys))
  else if String.eqb (method c) "crank-nicolson" then
    let sys := crankNicolsonSystem (u s) r in
    upd (solve sys) (ofZ 12 * N) (thomasErrors (sa sys) (sb sys) (sc sys) (sd sys))
  else
    {| cfg := c;
       st := {| t := t s; nSteps := nSteps s; flops := flops s;
                u := u s; uExact := uExact s; x := x s; dx := dx s; r := r;
                hasDiverged := hasDiverged s;
                errors := errors s ++ [("Unknown method: " ++ method c)%string] |} |}.

Definition timeStep (w : world) : world :=
  let w := stepNumerical w in
  let c := cfg w in
  let s := st w in
  let t' := t s + dt c in
  {| cfg := c;
     st := {| t := t'; nSteps := S (nSteps s); flops := flops s;
              u := u s; uExact := getAnalyticalSolution c (x s) t';
              x := x s; dx := dx s; r := r s;
              hasDiverged := hasDiverged s; errors := errors s |} |}.

(** *** The handlers of [setupEventListeners] *)

Definition withMethod (c : config) (m : string) : config :=
  {| L := L c; alpha := alpha c; Nx := Nx c; dt := dt c; Tmax := Tmax c;
     method := m; animationSpeed := animationSpeed c |}.

Definition withDt (c : config) (v : num) : config :=
  {| L := L c; alpha := alpha c; Nx := Nx c; dt := v; Tmax := Tmax c;
     method := method c; animationSpeed := animationSpeed c |}.

Definition withNx (c : config) (n : nat) : config :=
  {| L := L c; alpha := alpha c; Nx := n; dt := dt c; Tmax := Tmax c;
     method := method c; animationSpeed := animationSpeed c |}.

(** How a handler ends: normally, or with the TypeError that
    [updateMethodInfo] throws at [info[config.method].title] when the
    method is not a key of [info]. *)
Inductive outcome : Type := Completed | TypeError.

Definition knownMethod (m : string) : bool :=
  String.eqb m "forward-euler" || String.eqb m "backward-euler"
  || String.eqb m "crank-nicolson".

(** Click on a method button:
    [config.method = btn.dataset.method; updateMethodInfo(); updateStatus(); reset();] *)
Definition onMethodClick (m : string) (w : world) : world * outcome :=
  let w := {| cfg := withMethod (cfg w) m; st := st w |} in
  if knownMethod m then (reset w, Completed) else (w, TypeError).

(** Change of the time-step input, [val] being [parseFloat(dtInput.value)]:
    the value is clamped, stored, [state.r] is recomputed and [reset()]
    runs. *)
Definition onDtChange (val : num) (w : world) : world :=
  let val := if val <? lit (1 # 10000) then lit (1 # 10000) else val in
  let val := if gtb val (lit 1) then lit 1 else val in
  let c := withDt (cfg w) val in
  let s := st w in
  let s := {| t := t s; nSteps := nSteps s; flops := flops s;
              u := u s; uExact := uExact s; x := x s; dx := dx s;
              r := alpha c * dt c / (dx s * dx s);
              hasDiverged := hasDiverged s; errors := errors s |} in
  reset {| cfg := c; st := s |}.

(** Move of the grid slider, [n] being [parseInt(dxSlider.value)]. *)
Definition onNxInput (n : nat) (w : world) : world :=
  reset {| cfg := withNx (cfg w) n; st := st w |}.

End Engine.
End Explorer1D.

(** ** The 2D explorer, [2d/app.js] *)

(** What the error loop of a status update computes. *)
Record metrics {N : Number} : Type := {
  l2Error : num;
  maxError : num;
  maxRelError : num
}.

Module Explorer2D.
Section Engine.
Context {N : Number} {F : MathFns N}.
Local Open Scope num_scope.

Record state : Type := {
  t : num;
  nSteps : nat;
  flops : num;
  u : matrix;
  uExact : matrix;
  x : list num;
  y : list num;
  dx : num;
  dy : num;
  rx : num;
  ry : num;
  hasDiverged : bool
}.

Record world : Type := {
  cfg : config;
  st : state
}.

Definition initSimulation (w : world) : world :=
  let c := cfg w in
  let dx := L c / (ofNat (Nx c) - one) in
  let dy := L c / (ofNat (Nx c) - one) in
  let x := gridPoints (Nx c) dx in
  let y := gridPoints (Nx c) dy in
  {| cfg := c;
     st := {| t := zero; nSteps := 0; flops := zero;
              u := getSineIC2D x y;
              uExact := getAnalyticalSolution2D c x y zero;
              x := x; y := y; dx := dx; dy := dy;
              rx := alpha c * dt c / (dx * dx);
              ry := alpha c * dt c / (dy * dy);
              hasDiverged := false |} |}.

(** [reset()] of this file keeps the grid and rebuilds the two fields. *)
Definition reset (w : world) : world :=
  let c := cfg w in
  let s := st w in
  {| cfg := c;
     st := {| t := zero; nSteps := 0; flops := zero;
              u := getSineIC2D (x s) (y s);
              uExact := getAnalyticalSolution2D c (x s) (y s) zero;
              x := x s; y := y s; dx := dx s; dy := dy s;
              rx := rx s; ry := ry s;
              hasDiverged := false |} |}.

Definition stepNumerical (w : world) : option world :=
  let c := cfg w in
  let s := st w in
  let rx := rx s in
  let ry := ry s in
  let N := ofNat (Nx c) in
  let upd (u' : matrix) (cost : num) : world :=
    {| cfg := c;
       st := {| t := t s; nSteps := nSteps s; flops := flops s + cost;
                u := u'; uExact := uExact s; x := x s; y := y s;
                dx := dx s; dy := dy s; rx := rx; ry := ry;
                hasDiverged := hasDiverged s |} |} in
  if String.eqb (method c) "forward-euler" then
    option_map (fun u' => upd u' (ofZ 10 * N * N)) (forwardEuler2D (u s) rx ry)
  else if String.eqb (method c) "backward-euler" then
    option_map (fun u' => upd u' (ofZ 16 * N * N)) (backwardEulerADI (u s) rx ry)
  else if String.eqb (method c) "crank-nicolson" then
    option_map (fun u' => upd u' (ofZ 24 * N * N)) (crankNicolsonADI (u s) rx ry)
  else Some w.

Definition timeStep (w : world) : option world :=
  option_map
    (fun w =>
       let c := cfg w in
       let s := st w in
       let t' := t s + dt c in
       {| cfg := c;
          st := {| t := t'; nSteps := S (nSteps s); flops := flops s;
                   u := u s;
                   uExact := getAnalyticalSolution2D c (x s) (y s) t';
                   x := x s; y := y s; dx := dx s; dy := dy s;
                   rx := rx s; ry := ry s;
                   hasDiverged := hasDiverged s |} |})
    (stepNumerical w).

(** The accumulators of the error loop of [updateStatus]. *)
Record acc : Type := {
  sumSqError : num;
  accMaxError : num;
  maxUExact : num;
  count : nat
}.

Definition errorCell (u uExact : matrix) (i j : nat) (a : acc) : acc :=
  let err := abs (mget u i j - mget uExact i j) in
  let a1 :=
    if isFinite err then
      {| sumSqError := sumSqError a + err * err;
         accMaxError := if gtb err (accMaxError a) then err else accMaxError a;
         maxUExact := maxUExact a; count := count a |}
    else a in
  let a2 :=
    if isFinite (mget uExact i j) && gtb (abs (mget uExact i j)) (maxUExact a1) then
      {| sumSqError := sumSqError a1; accMaxError := accMaxError a1;
         maxUExact := abs (mget uExact i j); count := count a1 |}
    else a1 in
  {| sumSqError := sumSqError a2; accMaxError := accMaxError a2;
     maxUExact := maxUExact a2; count := S (count a2) |}.

Definition errorLoop (n : nat) (u uExact : matrix) : acc :=
  for_up 0 n
    (fun i a => for_up 0 n (fun j a => errorCell u uExact i j a) a)
    {| sumSqError := zero; accMaxError := zero; maxUExact := zero; count := 0 |}.

(** The error computation of [updateStatus], over [config.Nx] rows and
    columns.  Reading [state.u[i][j]] for a row [i] that does not exist
    throws a TypeError: that is the [None]. *)
Definition errorMetrics (n : nat) (u uExact : matrix) : option metrics :=
  if (n <=? length u) && (n <=? length uExact) then
    let a := errorLoop n u uExact in
    let l2 := Math_sqrt (sumSqError a / ofNat (count a)) in
    let rel := if gtb (maxUExact a) (lit (1 # 1000000000))
               then accMaxError a / maxUExact a * ofZ 100
               else zero in
    Some {| l2Error := l2; maxError := accMaxError a; maxRelError := rel |}
  else None.

Definition updateStatus (w : world) : option metrics :=
  errorMetrics (Nx (cfg w)) (u (st w)) (uExact (st w)).

End Engine.
End Explorer2D.

(** ** The unified explorer *)

Module Unified.
Section Engine.
Context {N : Number} {F : MathFns N}.
Local Open Scope num_scope.

Record state1d : Type := {
  t1 : num;
  nSteps1 : nat;
  flops1 : num;
  u1 : list num;
  uExact1 : list num;
  x1 : list num;
  dx1 : num;
  r1 : num;
  hasDiverged1 : bool
}.

Record state2d : Type := {
  t : num;
  nSteps : nat;
  flops : num;
  u : matrix;
  uExact : matrix;
  x : list num;
  y : list num;
  dx : num;
  dy : num;
  rx : num;
  ry : num;
  hasDiverged : bool
}.

Definition initSimulation1D (c : config) : state1d :=
  let dx := L c / (ofNat (Nx c) - one) in
  let x := gridPoints (Nx c) dx in
  {| t1 := zero; nSteps1 := 0; flops1 := zero;
     u1 := getSineIC c x;
     uExact1 := getAnalyticalSolution c x zero;
     x1 := x; dx1 := dx;
     r1 := alpha c * dt c / (dx * dx);
     hasDiverged1 := false |}.

Definition stepNumerical1D (c : config) (s : state1d) : state1d :=
  let r := r1 s in
  let N := ofNat (Nx c) in
  let upd (u' : list num) (cost : num) : state1d :=
    {| t1 := t1 s; nSteps1 := nSteps1 s; flops1 := flops1 s + cost;
       u1 := u'; uExact1 := uExact1 s; x1 := x1 s; dx1 := dx1 s; r1 := r;
       hasDiverged1 := hasDiverged1 s |} in
  if String.eqb (method c) "forward-euler" then
    upd (forwardEuler1D (u1 s) r) (ofZ 5 * (N - two))
  else if String.eqb (method c) "backward-euler" then
    upd (backwardEuler1D (u1 s) r) (ofZ 8 * N)
  else if String.eqb (method c) "crank-nicolson" then
    upd (crankNicolson1D (u1 s) r) (ofZ 12 * N)
  else s.

Definition timeStep1D (c : config) (s : state1d) : state1d :=
  let s := stepNumerical1D c s in
  let t' := t1 s + dt c in
  {| t1 := t'; nSteps1 := S (nSteps1 s); flops1 := flops1 s;
     u1 := u1 s; uExact1 := getAnalyticalSolution c (x1 s) t';
     x1 := x1 s; dx1 := dx1 s; r1 := r1 s;
     hasDiverged1 := hasDiverged1 s |}.

Definition initSimulation2D (c : config) : state2d :=
  let dx := L c / (ofNat (Nx c) - one) in
  let dy := dx in
  let x := gridPoints (Nx c) dx in
  let y := x in
  let rx := alpha c * dt c / (dx * dx) in
  {| t := zero; nSteps := 0; flops := zero;
     u := getSineIC2D x y;
     uExact := getAnalyticalSolution2D c x y zero;
     x := x; y := y; dx := dx; dy := dy; rx := rx; ry := rx;
     hasDiverged := false |}.

Definition stepNumerical2D (c : config) (s : state2d) : option state2d :=
  let rx := rx s in
  let ry := ry s in
  let N := ofNat (Nx c) in
  let upd (u' : matrix) (cost : num) : state2d :=
    {| t := t s; nSteps := nSteps s; flops := flops s + cost;
       u := u'; uExact := uExact s; x := x s; y := y s;
       dx := dx s; dy := dy s; rx := rx; ry := ry;
       hasDiverged := hasDiverged s |} in
  if String.eqb (method c) "forward-euler" then
    option_map (fun u' => upd u' (ofZ 9 * (N - two) * (N - two)))
      (forwardEuler2D (u s) rx ry)
  else if String.eqb (method c) "backward-euler" then
    option_map (fun u' => upd u' (ofZ 16 * N * N)) (backwardEuler2D_ADI (u s) rx ry)
  else if String.eqb (method c) "crank-nicolson" then
    option_map (fun u' => upd u' (ofZ 24 * N * N)) (crankNicolson2D_ADI (u s) rx ry)
  else Some s.

Definition timeStep2D (c : config) (s : state2d) : option state2d :=
  option_map
    (fun s =>
       let t' := t s + dt c in
       {| t := t'; nSteps := S (nSteps s); flops := flops s;
          u := u s; uExact := getAnalyticalSolution2D c (x s) (y s) t';
          x := x s; y := y s; dx := dx s; dy := dy s; rx := rx s; ry := ry s;
          hasDiverged := hasDiverged s |})
    (stepNumerical2D c s).

(** The accumulators of the error loop of [updateStatus2D]. *)
Record acc : Type := {
  sum : num;
  maxErr : num;
  maxRelErr : num
}.

Definition errorCell (u uExact : matrix) (i j : nat) (a : acc) : acc :=
  let diff := abs (mget u i j - mget uExact i j) in
  if isFinite diff then
    let maxErr' := if gtb diff (maxErr a) then diff else maxErr a in
    let maxRelErr' :=
      if gtb (abs (mget uExact i j)) (lit (1 # 10000000000)) then
        let relErr := ofZ 100 * diff / abs (mget uExact i j) in
        if gtb relErr (maxRelErr a) then relErr else maxRelErr a
      else maxRelErr a in
    {| sum := sum a + diff * diff; maxErr := maxErr'; maxRelErr := maxRelErr' |}
  else a.

Definition errorLoop (nx ny : nat) (u uExact : matrix) : acc :=
  for_up 0 nx
    (fun i a => for_up 0 ny (fun j a => errorCell u uExact i j a) a)
    {| sum := zero; maxErr := zero; maxRelErr := zero |}.

(** The error computation of [updateStatus2D], over [u.length] rows and
    [u[0].length] columns.  [u[0].length] throws on an empty [u], and
    [uExact[i][j]] throws when [uExact] has no row [i]. *)
Definition errorMetrics (u uExact : matrix) : option metrics :=
  match u with
  | [] => None
  | row0 :: _ =>
      let nx := length u in
      let ny := length row0 in
      if (ny =? 0) || (nx <=? length uExact) then
        let a := errorLoop nx ny u uExact in
        Some {| l2Error := Math_sqrt (sum a / (ofNat nx * ofNat ny));
                maxError := maxErr a;
                maxRelError := maxRelErr a |}
      else None
  end.

Definition updateStatus2D (s : state2d) : option metrics :=
  errorMetrics (u s) (uExact s).

End Engine.
End Unified.

(** ** The alternating-direction schemes, as formulas *)

Section Schemes.
Context {N : Number}.
Local Open Scope num_scope.

(** The field with the entries [f i j]. *)
Definition mtab (nx ny : nat) (f : nat -> nat -> num) : matrix :=
  map (fun i => map (f i) (seq 0 ny)) (seq 0 nx).

(** [i] is an interior index of a line of [n] points. *)
Definition interior (n i : nat) : bool := ((0 <? i) && (i <? n - 1))%nat.

(** The tridiagonal system of a line of [n] points: identity rows with
    right-hand side [0] at both ends, the coefficients [off], [diag], [off]
    and the right-hand side [rhs i] in the other rows ([a_0] and [c_(n-1)],
    which the solver ignores, keep the value [off]). *)
Definition lineSystem (n : nat) (off diag : num) (rhs : nat -> num) : system :=
  {| sa := map (fun i => if (i =? n - 1)%nat then zero else off) (seq 0 n);
     sb := map (fun i => if ((i =? 0) || (i =? n - 1))%nat then one else diag)
             (seq 0 n);
     sc := map (fun i => if (i =? 0)%nat then zero else off) (seq 0 n);
     sd := map (fun i => if ((i =? 0) || (i =? n - 1))%nat then zero else rhs i)
             (seq 0 n) |}.

(** The field plus an explicit central difference, weighted by half the
    diffusion number, in the [y] direction and in the [x] direction. *)
Definition stencilY (u : matrix) (ry : num) (i j : nat) : num :=
  mget u i j + ry / two * (mget u i (j + 1) - two * mget u i j + mget u i (j - 1)).

Definition stencilX (u : matrix) (rx : num) (i j : nat) : num :=
  mget u i j + rx / two * (mget u (i + 1) j - two * mget u i j + mget u (i - 1) j).

(** The right-hand side of a 1D Crank-Nicolson step along [x], along [y]. *)
Definition crankX (u : matrix) (rx : num) (i j : nat) : num :=
  (one - rx) * mget u i j + rx / two * (mget u (i + 1) j + mget u (i - 1) j).

Definition crankY (u : matrix) (ry : num) (i j : nat) : num :=
  (one - ry) * mget u i j + ry / two * (mget u i (j + 1) + mget u i (j - 1)).

(** Peaceman-Rachford, in the words of the claim.  Half-step 1: every
    interior line [j] is solved implicitly along [x], with coefficients
    from [rx / 2] and the right-hand side [stencilY]; half-step 2: every
    interior line [i] is solved implicitly along [y], with coefficients
    from [ry / 2] and the right-hand side [stencilX] of the half-step-1
    result; the boundary is [0] in both. *)
Definition peacemanRachfordHalf1 (u : matrix) (rx ry : num) (nx ny : nat) : matrix :=
  mtab nx ny
    (fun i j =>
       if interior ny j
       then aget undef
              (solve (lineSystem nx (- (rx / two)) (one + rx)
                        (fun i' => stencilY u ry i' j))) i
       else zero).

Definition peacemanRachfordHalf2 (uStar : matrix) (rx ry : num) (nx ny : nat) : matrix :=
  mtab nx ny
    (fun i j =>
       if interior nx i
       then aget undef
              (solve (lineSystem ny (- (ry / two)) (one + ry)
                        (fun j' => stencilX uStar rx i j'))) j
       else zero).

Definition peacemanRachford (u : matrix) (rx ry : num) (nx ny : nat) : matrix :=
  peacemanRachfordHalf2 (peacemanRachfordHalf1 u rx ry nx ny) rx ry nx ny.

(** Two 1D Crank-Nicolson steps in a row: every line [j], boundary lines
    included, is advanced along [x] with the right-hand side [crankX];
    then every line [i] of the result is advanced along [y] with the
    right-hand side [crankY]. *)
Definition splitCrankNicolsonHalf1 (u : matrix) (rx : num) (nx ny : nat) : matrix :=
  mtab nx ny
    (fun i j =>
       aget undef
         (solve (lineSystem nx (- (rx / two)) (one + rx)
                   (fun i' => crankX u rx i' j))) i).

Definition splitCrankNicolsonHalf2 (uHalf : matrix) (ry : num) (nx ny : nat) : matrix :=
  mtab nx ny
    (fun i j =>
       aget undef
         (solve (lineSystem ny (- (ry / two)) (one + ry)
                   (fun j' => crankY uHalf ry i j'))) j).

Definition splitCrankNicolson (u : matrix) (rx ry : num) (nx ny : nat) : matrix :=
  splitCrankNicolsonHalf2 (splitCrankNicolsonHalf1 u rx nx ny) ry nx ny.

End Schemes.

(** ** The maximum relative error, as a formula *)

Section RelativeError.
Context {N : Number}.
Local Open Scope num_scope.

(** The larger of two numbers. *)
Definition numMax (x y : num) : num := if x <? y then y else x.

(** The values [f i j] over a grid of [n] by [m] points, row by row. *)
Definition gridValues (n m : nat) (f : nat -> nat -> num) : list num :=
  flat_map (fun i => map (f i) (seq 0 m)) (seq 0 n).

(** The maximum of non-negative values ([0] for no value at all). *)
Definition maxOver (vals : list num) : num := fold_right numMax zero vals.

(** [100 * (max error / max |uExact|)] over the grid, and [0] when
    [max |uExact|] is at most [1e-9]: the formula of the claim. *)
Definition claimedMaxRelError (n : nat) (u uExact : matrix) : num :=
  let maxErr := maxOver (gridValues n n (fun i j => abs (mget u i j - mget uExact i j))) in
  let maxEx := maxOver (gridValues n n (fun i j => abs (mget uExact i j))) in
  if gtb maxEx (lit (1 # 1000000000)) then ofZ 100 * (maxErr / maxEx) else zero.

(** The largest pointwise relative error, in percent, over the points
    where [|uExact|] exceeds [1e-10]. *)
Definition pointwiseMaxRelError (nx ny : nat) (u uExact : matrix) : num :=
  maxOver
    (gridValues nx ny
       (fun i j =>
          if gtb (abs (mget uExact i j)) (lit (1 # 10000000000))
          then ofZ 100 * abs (mget u i j - mget uExact i j) / abs (mget uExact i j)
          else zero)).

End RelativeError.

(** ** Operation cost per step *)

(** The amount [stepNumerical] adds to [flops], as a function of the
    method and of the number of grid points per direction: the 1D
    explorers, the 2D explorer and the 2D mode of the unified explorer. *)
Definition stepCost1D (m : string) (n : Z) : Z :=
  if String.eqb m "forward-euler" then 5 * (n - 2)
  else if String.eqb m "backward-euler" then 8 * n
  else if String.eqb m "crank-nicolson" then 12 * n
  else 0.

Definition stepCost2D (m : string) (n : Z) : Z :=
  if String.eqb m "forward-euler" then 10 * n * n
  else if String.eqb m "backward-euler" then 16 * n * n
  else if String.eqb m "crank-nicolson" then 24 * n * n
  else 0.

Definition stepCost2D_unified (m : string) (n : Z) : Z :=
  if String.eqb m "forward-euler" then 9 * (n - 2) * (n - 2)
  else if String.eqb m "backward-euler" then 16 * n * n
  else if String.eqb m "crank-nicolson" then 24 * n * n
  else 0.

(** ** The steppers over a store of array objects

    The definitions above treat arrays as values.  To speak about what a
    call does to the arrays it is given, the same functions are written
    here over a store: an array is a location, [new Array] allocates, and
    reads and writes go through the store. *)

Module Store.
Section Store.
Context {N : Number}.
Local Open Scope num_scope.

Definition loc : Type := nat.

(** What an array element can hold: a number, a reference to an array, or
    nothing ([VUndef]: a hole, or the result of reading past the end). *)
Inductive val : Type :=
| VNum (x : num)
| VRef (l : loc)
| VUndef.

Definition object : Type := list val.

(** Array objects in allocation order; a location is an index. *)
Definition heap : Type := list object.

(** A computation reads and updates the store and returns a value, or
    [None] when a TypeError is thrown. *)
Definition M (A : Type) : Type := heap -> option A * heap.

Definition ret {A : Type} (a : A) : M A := fun h => (Some a, h).

Definition throw {A : Type} : M A := fun h => (None, h).

Definition bind {A B : Type} (m : M A) (k : A -> M B) : M B :=
  fun h =>
    match m h with
    | (Some a, h') => k a h'
    | (None, h') => (None, h')
    end.

Notation "x <- m ;; k" := (bind m (fun x => k))
  (at level 61, m at next level, right associativity).
Notation "m ;;; k" := (bind m (fun _ => k))
  (at level 61, right associativity).

Definition objectAt (h : heap) (l : loc) : object := nth l h [].

Fixpoint replaceAt (h : heap) (l : loc) (o : object) : heap :=
  match h, l with
  | [], _ => []
  | _ :: t, 0 => o :: t
  | x :: t, S k => x :: replaceAt t k o
  end.

(** [new Array(n)] *)
Definition allocArray (n : nat) : M loc :=
  fun h => (Some (length h), h ++ [repeat VUndef n]).

(** [l.fill(v)] *)
Definition fillArray (l : loc) (v : val) : M unit :=
  fun h => (Some tt, replaceAt h l (repeat v (length (objectAt h l)))).

(** [l.length] *)
Definition lengthOf (l : loc) : M nat :=
  fun h => (Some (length (objectAt h l)), h).

(** [l[i]] *)
Definition readCell (l : loc) (i : nat) : M val :=
  fun h => (Some (nth i (objectAt h l) VUndef), h).

(** [l[i] = v] *)
Definition writeCell (l : loc) (i : nat) (v : val) : M unit :=
  fun h => (Some tt, replaceAt h l (aset VUndef (objectAt h l) i v)).

(** [[...l]] *)
Definition copyArray (l : loc) : M loc :=
  fun h => (Some (length h), h ++ [objectAt h l]).

(** A value used as a number. *)
Definition toNumber (v : val) : num :=
  match v with
  | VNum x => x
  | _ => undef
  end.

Definition readNum (l : loc) (i : nat) : M num :=
  v <- readCell l i ;; ret (toNumber v).

Definition writeNum (l : loc) (i : nat) (x : num) : M unit :=
  writeCell l i (VNum x).

(** [l[n - 1] = x] *)
Definition writeLast (l : loc) (n : nat) (x : num) : M unit :=
  match n with
  | 0 => ret tt
  | S k => writeNum l k x
  end.

(** The row [u[i]] of a field; using a missing row throws. *)
Definition rowOf (u : loc) (i : nat) : M loc :=
  v <- readCell u i ;;
  match v with
  | VRef row => ret row
  | _ => throw
  end.

(** [u[i][j]] *)
Definition readNum2 (u : loc) (i j : nat) : M num :=
  row <- rowOf u i ;; readNum row j.

(** [u[i][j] = x] *)
Definition writeNum2 (u : loc) (i j : nat) (x : num) : M unit :=
  row <- rowOf u i ;; writeNum row j x.

Fixpoint forM (idx : list nat) (body : nat -> M unit) : M unit :=
  match idx with
  | [] => ret tt
  | i :: rest => body i ;;; forM rest body
  end.

(** [new Array(n).fill(x)] *)
Definition newFilled (n : nat) (x : num) : M loc :=
  l <- allocArray n ;; fillArray l (VNum x) ;;; ret l.

(** [new Array(Nx).fill(0).map(() => new Array(Ny).fill(0))] *)
Definition newZeros2 (Nx Ny : nat) : M loc :=
  tmp <- newFilled Nx zero ;;
  res <- allocArray Nx ;;
  forM (seq 0 Nx)
    (fun i => row <- newFilled Ny zero ;; writeCell res i (VRef row)) ;;;
  ret res.

(** The forward loop of [thomasAlgorithm]; [false] is the early return. *)
Fixpoint forwardLoopM (a b c d cp dp : loc) (idx : list nat) : M bool :=
  match idx with
  | [] => ret true
  | i :: rest =>
      bi <- readNum b i ;;
      ai <- readNum a i ;;
      cpi <- readNum cp (i - 1) ;;
      let denom := bi - ai * cpi in
      if abs denom <? pivot_eps then ret false
      else
        ci <- readNum c i ;;
        writeNum cp i (ci / denom) ;;;
        di <- readNum d i ;;
        ai' <- readNum a i ;;
        dpi <- readNum dp (i - 1) ;;
        writeNum dp i ((di - ai' * dpi) / denom) ;;;
        forwardLoopM a b c d cp dp rest
  end.

Definition thomasAlgorithmM (a b c d : loc) : M loc :=
  n <- lengthOf d ;;
  cp <- allocArray n ;;
  dp <- allocArray n ;;
  x <- allocArray n ;;
  b0 <- readNum b 0 ;;
  if abs b0 <? pivot_eps then ret d
  else
    c0 <- readNum c 0 ;;
    b0' <- readNum b 0 ;;
    writeNum cp 0 (c0 / b0') ;;;
    d0 <- readNum d 0 ;;
    b0'' <- readNum b 0 ;;
    writeNum dp 0 (d0 / b0'') ;;;
    ok <- forwardLoopM a b c d cp dp (seq 1 (n - 1)) ;;
    if ok then
      match n with
      | 0 => ret tt
      | S k => v <- readNum dp k ;; writeNum x k v
      end ;;;
      forM (rev (seq 0 (n - 1)))
        (fun i =>
           dpi <- readNum dp i ;;
           cpi <- readNum cp i ;;
           xi <- readNum x (i + 1) ;;
           writeNum x i (dpi - cpi * xi)) ;;;
      ret x
    else ret d.

(** The two boundary lines of the implicit steppers. *)
Definition dirichletRowsM (n : nat) (a b c d : loc) : M unit :=
  writeNum b 0 one ;;; writeNum c 0 zero ;;; writeNum d 0 zero ;;;
  writeLast a n zero ;;; writeLast b n one ;;; writeLast d n zero.

Definition forwardEulerM (u : loc) (r : num) : M loc :=
  n <- lengthOf u ;;
  uNew <- allocArray n ;;
  writeNum uNew 0 zero ;;;
  writeLast uNew n zero ;;;
  forM (seq 1 (n - 1 - 1))
    (fun i =>
       ui <- readNum u i ;;
       uip <- readNum u (i + 1) ;;
       ui' <- readNum u i ;;
       uim <- readNum u (i - 1) ;;
       writeNum uNew i (ui + r * (uip - two * ui' + uim))) ;;;
  ret uNew.

Definition backwardEulerM (u : loc) (r : num) : M loc :=
  n <- lengthOf u ;;
  a <- newFilled n (- r) ;;
  b <- newFilled n (one + two * r) ;;
  c <- newFilled n (- r) ;;
  d <- copyArray u ;;
  dirichletRowsM n a b c d ;;;
  thomasAlgorithmM a b c d.

Definition crankNicolsonM (u : loc) (r : num) : M loc :=
  n <- lengthOf u ;;
  let r2 := r / two in
  a <- newFilled n (- r2) ;;
  b <- newFilled n (one + r) ;;
  c <- newFilled n (- r2) ;;
  d <- allocArray n ;;
  forM (seq 1 (n - 1 - 1))
    (fun i =>
       ui <- readNum u i ;;
       uip <- readNum u (i + 1) ;;
       uim <- readNum u (i - 1) ;;
       writeNum d i ((one - r) * ui + r2 * (uip + uim))) ;;;
  dirichletRowsM n a b c d ;;;
  thomasAlgorithmM a b c d.

(** [Nx = u.length; Ny = u[0].length] *)
Definition dimensions (u : loc) : M (nat * nat) :=
  Nx <- lengthOf u ;;
  row0 <- rowOf u 0 ;;
  Ny <- lengthOf row0 ;;
  ret (Nx, Ny).

Definition forwardEuler2DM (u : loc) (rx ry : num) : M loc :=
  dims <- dimensions u ;;
  let (Nx, Ny) := dims in
  uNew <- newZeros2 Nx Ny ;;
  forM (seq 1 (Nx - 1 - 1))
    (fun i =>
       forM (seq 1 (Ny - 1 - 1))
         (fun j =>
            c0 <- readNum2 u i j ;;
            e <- readNum2 u (i + 1) j ;;
            c1 <- readNum2 u i j ;;
            w <- readNum2 u (i - 1) j ;;
            n <- readNum2 u i (j + 1) ;;
            c2 <- readNum2 u i j ;;
            s <- readNum2 u i (j - 1) ;;
            writeNum2 uNew i j
              (c0 + rx * (e - two * c1 + w) + ry * (n - two * c2 + s)))) ;;;
  ret uNew.

(** [for (let i = 0; i < n; i++) m[i][j] = res[i]] *)
Definition storeColumnM (n j : nat) (res m : loc) : M unit :=
  forM (seq 0 n) (fun i => v <- readNum res i ;; writeNum2 m i j v).

(** [for (let j = 0; j < n; j++) m[i][j] = res[j]] *)
Definition storeRowM (n i : nat) (res m : loc) : M unit :=
  forM (seq 0 n) (fun j => v <- readNum res j ;; writeNum2 m i j v).

(** One line solve of an ADI sweep: the three coefficient arrays, the
    right-hand side filled by [rhs] at the indices [idx], the boundary
    rows, the solve. *)
Definition lineSolveM (n : nat) (av bv cv : num) (idx : list nat)
    (rhs : nat -> M num) : M loc :=
  a <- newFilled n av ;;
  b <- newFilled n bv ;;
  c <- newFilled n cv ;;
  d <- allocArray n ;;
  forM idx (fun i => v <- rhs i ;; writeNum d i v) ;;;
  dirichletRowsM n a b c d ;;;
  thomasAlgorithmM a b c d.

Definition backwardEulerADIM (u : loc) (rx ry : num) : M loc :=
  dims <- dimensions u ;;
  let (Nx, Ny) := dims in
  uStar <- newZeros2 Nx Ny ;;
  forM (seq 1 (Ny - 1 - 1))
    (fun j =>
       res <- lineSolveM Nx (- rx) (one + two * rx) (- rx) (seq 0 Nx)
                (fun i => readNum2 u i j) ;;
       storeColumnM Nx j res uStar) ;;;
  uNew <- newZeros2 Nx Ny ;;
  forM (seq 1 (Nx - 1 - 1))
    (fun i =>
       res <- lineSolveM Ny (- ry) (one + two * ry) (- ry) (seq 0 Ny)
                (fun j => readNum2 uStar i j) ;;
       storeRowM Ny i res uNew) ;;;
  ret uNew.

Definition crankNicolsonADIM (u : loc) (rx ry : num) : M loc :=
  dims <- dimensions u ;;
  let (Nx, Ny) := dims in
  uStar <- newZeros2 Nx Ny ;;
  uNew <- newZeros2 Nx Ny ;;
  let rx2 := rx / two in
  let ry2 := ry / two in
  forM (seq 1 (Ny - 1 - 1))
    (fun j =>
       res <- lineSolveM Nx (- rx2) (one + rx) (- rx2) (seq 1 (Nx - 1 - 1))
                (fun i =>
                   c0 <- readNum2 u i j ;;
                   n <- readNum2 u i (j + 1) ;;
                   c1 <- readNum2 u i j ;;
                   s <- readNum2 u i (j - 1) ;;
                   ret (c0 + ry2 * (n - two * c1 + s))) ;;
       storeColumnM Nx j res uStar) ;;;
  forM (seq 1 (Nx - 1 - 1))
    (fun i =>
       res <- lineSolveM Ny (- ry2) (one + ry) (- ry2) (seq 1 (Ny - 1 - 1))
                (fun j =>
                   c0 <- readNum2 uStar i j ;;
                   e <- readNum2 uStar (i + 1) j ;;
                   c1 <- readNum2 uStar i j ;;
                   w <- readNum2 uStar (i - 1) j ;;
                   ret (c0 + rx2 * (e - two * c1 + w))) ;;
       storeRowM Ny i res uNew) ;;;
  ret uNew.

Definition backwardEuler2D_ADIM (u : loc) (rx ry : num) : M loc :=
  dims <- dimensions u ;;
  let (Nx, Ny) := dims in
  uHalf <- newZeros2 Nx Ny ;;
  uNew <- newZeros2 Nx Ny ;;
  forM (seq 0 Ny)
    (fun j =>
       sol <- lineSolveM Nx (- rx) (one + two * rx) (- rx) (seq 1 (Nx - 1 - 1))
                (fun i => readNum2 u i j) ;;
       storeColumnM Nx j sol uHalf) ;;;
  forM (seq 0 Nx)
    (fun i =>
       sol <- lineSolveM Ny (- ry) (one + two * ry) (- ry) (seq 1 (Ny - 1 - 1))
                (fun j => readNum2 uHalf i j) ;;
       storeRowM Ny i sol uNew) ;;;
  ret uNew.

Definition crankNicolson2D_ADIM (u : loc) (rx ry : num) : M loc :=
  dims <- dimensions u ;;
  let (Nx, Ny) := dims in
  uHalf <- newZeros2 Nx Ny ;;
  uNew <- newZeros2 Nx Ny ;;
  let rx2 := rx / two in
  let ry2 := ry / two in
  forM (seq 0 Ny)
    (fun j =>
       sol <- lineSolveM Nx (- rx2) (one + rx) (- rx2) (seq 1 (Nx - 1 - 1))
                (fun i =>
                   c0 <- readNum2 u i j ;;
                   e <- readNum2 u (i + 1) j ;;
                   w <- readNum2 u (i - 1) j ;;
                   ret ((one - rx) * c0 + rx2 * (e + w))) ;;
       storeColumnM Nx j sol uHalf) ;;;
  forM (seq 0 Nx)
    (fun i =>
       sol <- lineSolveM Ny (- ry2) (one + ry) (- ry2) (seq 1 (Ny - 1 - 1))
                (fun j =>
                   c0 <- readNum2 uHalf i j ;;
                   n <- readNum2 uHalf i (j + 1) ;;
                   s <- readNum2 uHalf i (j - 1) ;;
                   ret ((one - ry) * c0 + ry2 * (n + s))) ;;
       storeRowM Ny i sol uNew) ;;;
  ret uNew.

(** *** Reading a value back from the store *)

(** The numbers of the array at [l]. *)
Definition numbersAt (h : heap) (l : loc) : list num :=
  map toNumber (objectAt h l).

(** The field at [l]: the numbers of each row it refers to. *)
Definition fieldAt (h : heap) (l : loc) : matrix :=
  map (fun v => match v with
                | VRef row => numbersAt h row
                | _ => []
                end) (objectAt h l).

(** Storing an array of numbers, a field. *)
Definition storeArray (xs : list num) : M loc :=
  fun h => (Some (length h), h ++ [map VNum xs]).

Fixpoint storeRows (rows : matrix) : M (list loc) :=
  match rows with
  | [] => ret []
  | r :: rest =>
      l <- storeArray r ;; ls <- storeRows rest ;; ret (l :: ls)
  end.

Definition storeField (m : matrix) : M loc :=
  ls <- storeRows m ;;
  fun h => (Some (length h), h ++ [map VRef ls]).

End Store.
End Store.

(** ** The predicates of the statements *)

Section Predicates.
Context {N : Number}.
Notation "l .[ i ]" := (aget undef l i) (at level 1, format "l .[ i ]").

(** No element of [l] passes the test [|x| < 1e-15]. *)
Definition guarded (l : list num) : Prop :=
  Forall (fun x => degenerate x = false) l.

Section Swept.
Variables a b c d : list num.

(** The state of the forward sweep once rows [0..i] are done. *)
Definition swept (i : nat) (s : sweep) : Prop :=
  (forall j, j <= i ->
     (cp s).[j] = cprime a b c j /\ (dp s).[j] = dprime a b c d j)
  /\ guarded (divisors s)
  /\ (forall j, j <= i -> degenerate (pivot a b c j) = false).

End Swept.

(** A system of [n >= 1] rows whose first and last rows are the identity
    with right-hand side [0], and whose other rows have the coefficients
    [off], [diag], [off] and the right-hand side [rhs i]. *)
Definition dirichletSystem (n : nat) (off diag : num) (rhs : nat -> num)
    (s : system) : Prop :=
  length (sd s) = n
  /\ forall i, i < n ->
       (sa s).[i] = (if i =? n - 1 then zero else off)
       /\ (sb s).[i] = (if (i =? 0) || (i =? n - 1) then one else diag)
       /\ (sc s).[i] = (if i =? 0 then zero else off)
       /\ (sd s).[i] = (if (i =? 0) || (i =? n - 1) then zero else rhs i).

(** The right-hand side of [crankNicolson] at an interior point. *)
Definition crankNicolsonRhs (u : list num) (r : num) (i : nat) : num :=
  add (mul (sub one r) u.[i]) (mul (div r two) (add u.[i + 1] u.[i - 1])).

(** The solve of [s] meets a degenerate pivot. *)
Definition hitsDegenerate (s : system) : Prop :=
  exists i, i < length (sd s)
            /\ degenerate (pivot (sa s) (sb s) (sc s) i) = true.

(** [m] has [nx] rows of [ny] entries. *)
Definition shaped (nx ny : nat) (m : matrix) : Prop :=
  length m = nx /\ forall i, i < nx -> length (aget [] m i) = ny.

(** [(i, j)] lies on the border of an [nx] by [ny] grid. *)
Definition border (nx ny i j : nat) : bool :=
  (i =? 0) || (i =? nx - 1) || (j =? 0) || (j =? ny - 1).

(** [m] has [nx] rows of [ny] entries and zeros on its border. *)
Definition zeroBorder (nx ny : nat) (m : matrix) : Prop :=
  shaped nx ny m
  /\ forall i j, i < nx -> j < ny -> border nx ny i j = true -> mget m i j = zero.

(** The entries of the error loops of the status updates. *)
Definition absError (u uExact : matrix) (i j : nat) : num :=
  abs (sub (mget u i j) (mget uExact i j)).

Definition absExact (uExact : matrix) (i j : nat) : num := abs (mget uExact i j).

End Predicates.

Section StorePredicates.
Context {N : Number}.
Import Store.

Section Framing.
(** [base] is the number of arrays that exist when the call starts, and
    [I] a property of the store. *)
Variable base : nat.
Variable I : heap -> Prop.

(** [m] leaves the first [base] arrays as they are, never shrinks the
    store, keeps [I], and returns only values that satisfy [Q]. *)
Definition frames {A : Type} (m : M A) (Q : A -> Prop) : Prop :=
  forall h, base <= length h -> I h ->
    length h <= length (snd (m h))
    /\ firstn base (snd (m h)) = firstn base h
    /\ I (snd (m h))
    /\ forall a, fst (m h) = Some a -> Q a.

End Framing.

Section Linking.
(** [X] lists the fields a 2D stepper uses, [n] is their number of rows. *)
Variable X : list loc.
Variable n : nat.

(** Every array of [X] exists and has [n] elements, each of them a
    reference to an existing array that is not in [X]. *)
Definition linked (h : heap) : Prop :=
  forall x, In x X ->
    x < length h /\ length (objectAt h x) = n
    /\ forall i, i < n ->
         exists r, nth i (objectAt h x) VUndef = VRef r
                   /\ r < length h /\ ~ In r X.

(** Started in a store where the fields of [X] are linked, [m] returns,
    with a value that satisfies [Q], and leaves them linked. *)
Definition completes {A : Type} (m : M A) (Q : A -> Prop) : Prop :=
  forall h, linked h ->
    linked (snd (m h)) /\ exists a, fst (m h) = Some a /\ Q a.
End Linking.

(** [u] is a field of the store: an array with at least one element, each
    element a reference to an existing array other than [u]. *)
Definition isField (h : heap) (u : loc) : Prop :=
  1 <= length (objectAt h u) /\ linked [u] (length (objectAt h u)) h.

(** Over every store the call of [m] returns. *)
Definition returns {A : Type} (m : M A) : Prop :=
  forall h, exists a, fst (m h) = Some a.

(** The arrays at the locations from [base] on refer only to arrays at
    such locations. *)
Definition closed (base : nat) (h : heap) : Prop :=
  forall l i r, base <= l -> nth i (objectAt h l) VUndef = VRef r -> base <= r.

(** What a framed call leaves behind: the arrays that existed before
    hold what they held, and the returned location is new. *)
Definition callKeeps {A : Type} (m : M A) (Q : heap -> heap -> A -> Prop) : Prop :=
  forall h,
    (forall l, l < length h -> objectAt (snd (m h)) l = objectAt h l)
    /\ forall a, fst (m h) = Some a -> Q h (snd (m h)) a.

End StorePredicates.

(** ** Running a stepper over a store that holds one field *)

Section StoreRuns.
Import Store.

Definition run1D (step : loc -> M (N := QcNumber) loc) (u : list (@num QcNumber)) :
    option (bool * list (@num QcNumber) * list (@num QcNumber)) :=
  match bind (storeArray u) (fun l => bind (step l) (fun r => ret (l, r))) [] with
  | (Some (l, r), h) => Some (negb (l =? r), numbersAt h l, numbersAt h r)
  | (None, _) => None
  end.

Definition run2D (step : loc -> M (N := QcNumber) loc) (u : @matrix QcNumber) :
    option (bool * @matrix QcNumber * @matrix QcNumber) :=
  match bind (storeField u) (fun l => bind (step l) (fun r => ret (l, r))) [] with
  | (Some (l, r), h) => Some (negb (l =? r), fieldAt h l, fieldAt h r)
  | (None, _) => None
  end.

Definition rod : list (@num QcNumber) := [qc 0 1; qc 1 1; qc 3 1; qc 0 1].

Definition plate : @matrix QcNumber :=
  [[qc 0 1; qc 0 1; qc 0 1; qc 0 1];
   [qc 0 1; qc 1 1; qc 2 1; qc 0 1];
   [qc 0 1; qc 3 1; qc 1 1; qc 0 1];
   [qc 0 1; qc 0 1; qc 0 1; qc 0 1]].

End StoreRuns.

(** ** The predicates of the further properties *)

Section RowSums.
Context {N : Number}.
Local Open Scope num_scope.
Notation "l .[ i ]" := (aget undef l i) (at level 1, format "l .[ i ]").

(** The left-hand side of row [i] of a tridiagonal system of [n] rows at
    [x]: [a_i x_(i-1) + b_i x_i + c_i x_(i+1)], without the first term in
    row [0] and without the last term in row [n - 1]. *)
Definition rowSum (a b c x : list num) (n i : nat) : num :=
  (if (i =? 0)%nat then zero else a.[i] * x.[i - 1])
  + b.[i] * x.[i]
  + (if (i =? n - 1)%nat then zero else c.[i] * x.[i + 1]).

End RowSums.

Section Norms.
Context {N : Number} {E : Exact N}.

(** Every element of [u] has absolute value at most [B]. *)
Definition bounded (B : R) (u : list num) : Prop :=
  forall i, i < length u -> (Rabs (toR (aget undef u i)) <= B)%R.

(** Every entry of the first [nx] rows and [ny] columns of [m] has
    absolute value at most [B]. *)
Definition bounded2 (B : R) (nx ny : nat) (m : matrix) : Prop :=
  forall i j, i < nx -> j < ny -> (Rabs (toR (mget m i j)) <= B)%R.

End Norms.

(** ** The stability indicator and runs of time steps *)

Section Status.
Context {N : Number}.
Local Open Scope num_scope.

(** [isUnstable] of [updateStatus] and of [updateStatus1D]:
    [method === 'forward-euler' && state.r > 0.5]. *)
Definition isUnstable (method : string) (r : num) : bool :=
  String.eqb method "forward-euler" && gtb r (lit (1 # 2)).

(** [isUnstable] of the two-dimensional status updates:
    [method === 'forward-euler' && (state.rx + state.ry) > 0.5]. *)
Definition isUnstable2D (method : string) (rx ry : num) : bool :=
  String.eqb method "forward-euler" && gtb (rx + ry) (lit (1 # 2)).

End Status.

(** [k] calls of a time step that can throw; the first throw ends the run. *)
Fixpoint repeatM {W : Type} (k : nat) (step : W -> option W) (w : W) : option W :=
  match k with
  | 0 => Some w
  | S k =>
      match step w with
      | Some w' => repeatM k step w'
      | None => None
      end
  end.

Section Shown.
Context {N : Number} {E : Exact N}.

(** The status line shows [Stable] for the method [m] at the diffusion
    number [r >= 0], and [r <= 1] if the method is Crank-Nicolson. *)
Definition shownStable (m : string) (r : num) : Prop :=
  (0 <= toR r)%R /\ isUnstable m r = false
  /\ (m = "crank-nicolson"%string -> (toR r <= 1)%R).

(** The same in two dimensions, for the diffusion numbers [rx, ry >= 0]. *)
Definition shownStable2D (m : string) (rx ry : num) : Prop :=
  (0 <= toR rx)%R /\ (0 <= toR ry)%R /\ isUnstable2D m rx ry = false
  /\ (m = "crank-nicolson"%string -> (toR rx <= 1)%R /\ (toR ry <= 1)%R).

End Shown.

(** ** The animation of the one-dimensional explorers *)

(** The comparison [x >= y] of the arithmetic.  It is not the negation
    of [x < y] where there is a NaN. *)
Class Order (N : Number) : Type := {
  geb : num -> num -> bool
}.

Definition R_geb (x y : R) : bool := if Rle_dec y x then true else false.

Definition ROrder : Order RNumber := Build_Order RNumber R_geb.

(** The simulation with the two fields of [state] that drive the
    animation; [animationId] is [true] when it holds the id of a requested
    frame and [false] when it is [null]. *)
Record player (W : Type) : Type := {
  sim : W;
  isPlaying : bool;
  animationId : bool
}.
Arguments sim {W} _.
Arguments isPlaying {W} _.
Arguments animationId {W} _.

Section Animation.
Context {N : Number} {O : Order N}.
Local Open Scope num_scope.

(** [Math.max(...vals)]; [None] stands for the [-Infinity] of no
    argument. *)
Definition Math_max (vals : list num) : option num :=
  fold_left
    (fun highest v =>
       match highest with
       | None => Some v
       | Some h => Some (if h <? v then v else h)
       end)
    vals None.

(** [maxVal > 10 || u.some(v => !isFinite(v))], with
    [maxVal = Math.max(...u.map(Math.abs))]. *)
Definition divergenceSeen (u : list num) : bool :=
  match Math_max (map abs u) with
  | None => false
  | Some maxVal => gtb maxVal (ofZ 10)
  end
  || existsb (fun v => negb (isFinite v)) u.

(** The loop of a frame: [n] iterations are left; an iteration that finds
    the end time reached ends the frame, which the [true] reports. *)
Fixpoint frameLoop {W : Type} (reached : W -> bool) (body : W -> W) (n : nat)
    (w : W) : W * bool :=
  match n with
  | 0 => (w, false)
  | S n => if reached w then (w, true) else frameLoop reached body n (body w)
  end.

(** A frame.  When the end time is reached it runs [stopAnimation()] and
    returns; otherwise it ends with
    [state.animationId = requestAnimationFrame(animate)].  Nothing in the
    [try] block throws on a field of numbers, so the [catch] is left
    out; the updates of the chart and of the status line change no
    state. *)
Definition frame {W : Type} (reached : W -> bool) (body : W -> W) (speed : W -> nat)
    (p : player W) : player W :=
  if negb (isPlaying p) then p
  else
    let (w, stop) := frameLoop reached body (speed (sim p)) (sim p) in
    if stop then {| sim := w; isPlaying := false; animationId := false |}
    else {| sim := w; isPlaying := true; animationId := true |}.

Section Explorer.
Context {F : MathFns N}.

(** [state.hasDiverged = true] *)
Definition raiseDiverged (w : Explorer1D.world) : Explorer1D.world :=
  let s := Explorer1D.st w in
  {| Explorer1D.cfg := Explorer1D.cfg w;
     Explorer1D.st :=
       {| Explorer1D.t := Explorer1D.t s; Explorer1D.nSteps := Explorer1D.nSteps s;
          Explorer1D.flops := Explorer1D.flops s; Explorer1D.u := Explorer1D.u s;
          Explorer1D.uExact := Explorer1D.uExact s; Explorer1D.x := Explorer1D.x s;
          Explorer1D.dx := Explorer1D.dx s; Explorer1D.r := Explorer1D.r s;
          Explorer1D.hasDiverged := true;
          Explorer1D.errors := Explorer1D.errors s |} |}.

(** The body of the loop of [animate]: [timeStep()] and the check of the
    field. *)
Definition stepAndCheck (w : Explorer1D.world) : Explorer1D.world :=
  let w := Explorer1D.timeStep w in
  if divergenceSeen (Explorer1D.u (Explorer1D.st w)) then
    if negb (Explorer1D.hasDiverged (Explorer1D.st w)) then raiseDiverged w else w
  else w.

(** [animate()] of the 1D explorer. *)
Definition animate (p : player Explorer1D.world) : player Explorer1D.world :=
  frame
    (fun w => geb (Explorer1D.t (Explorer1D.st w)) (Tmax (Explorer1D.cfg w)))
    stepAndCheck
    (fun w => animationSpeed (Explorer1D.cfg w))
    p.

(** [state1d.hasDiverged = true] *)
Definition raiseDiverged1D (s : Unified.state1d) : Unified.state1d :=
  {| Unified.t1 := Unified.t1 s; Unified.nSteps1 := Unified.nSteps1 s;
     Unified.flops1 := Unified.flops1 s; Unified.u1 := Unified.u1 s;
     Unified.uExact1 := Unified.uExact1 s; Unified.x1 := Unified.x1 s;
     Unified.dx1 := Unified.dx1 s; Unified.r1 := Unified.r1 s;
     Unified.hasDiverged1 := true |}.

Definition stepAndCheck1D (c : config) (s : Unified.state1d) : Unified.state1d :=
  let s := Unified.timeStep1D c s in
  if divergenceSeen (Unified.u1 s) then
    if negb (Unified.hasDiverged1 s) then raiseDiverged1D s else s
  else s.

(** [animate1D()] of the unified page, under the shared configuration
    [c]. *)
Definition animate1D (c : config) (p : player Unified.state1d) :
    player Unified.state1d :=
  frame (fun s => geb (Unified.t1 s) (Tmax c)) (stepAndCheck1D c)
    (fun _ => animationSpeed c) p.

End Explorer.
End Animation.

(** In exact arithmetic [x >= y] is the order of the reals. *)
Class ExactOrder (N : Number) (E : Exact N) (O : Order N) : Prop := {
  geb_spec : forall x y : num, geb x y = true <-> (toR y <= toR x)%R
}.

(** ** The error display of the one-dimensional explorers *)

Module Status1D.
Section Errors.
Context {N : Number} {F : MathFns N}.
Local Open Scope num_scope.

Notation "l .[ i ]" := (aget undef l i) (at level 1, format "l .[ i ]").

(** The two accumulators of the error loop of [updateStatus] and of
    [updateStatus1D]. *)
Record acc : Type := {
  sum : num;
  maxErr : num
}.

Definition errorLoop (u uExact : list num) : acc :=
  for_up 0 (length u)
    (fun i a =>
       let diff := abs (u.[i] - uExact.[i]) in
       if isFinite diff then
         {| sum := sum a + diff * diff;
            maxErr := if gtb diff (maxErr a) then diff else maxErr a |}
       else a)
    {| sum := zero; maxErr := zero |}.

(** What the two error fields of the page show. *)
Inductive display : Type :=
| Diverged
| Errors (l2Error maxErr : num).

Definition errorDisplay (u uExact : list num) : display :=
  let a := errorLoop u uExact in
  let l2Error := Math_sqrt (sum a / ofNat (length u)) in
  if gtb l2Error one then Diverged else Errors l2Error (maxErr a).

End Errors.
End Status1D.

(** In exact arithmetic [Math.sqrt] is the square root of the reals. *)
Class ExactSqrt (N : Number) (E : Exact N) (F : MathFns N) : Prop := {
  toR_sqrt : forall x : num, toR (Math_sqrt x) = sqrt (toR x)
}.

Section SquaredErrors.
Context {N : Number} {E : Exact N}.

(** The sum of the squares of the errors at the first [k] grid points. *)
Definition squaredErrors (u uExact : list num) (k : nat) : R :=
  fold_right Rplus 0%R
    (map (fun i =>
            ((toR (aget undef u i) - toR (aget undef uExact i))
             * (toR (aget undef u i) - toR (aget undef uExact i)))%R)
       (seq 0 k)).

End SquaredErrors.

(** ** The events of the 1D explorer *)

Section Events1D.
Context {N : Number} {F : MathFns N}.
Local Open Scope num_scope.

Definition withTmax (c : config) (v : num) : config :=
  {| L := L c; alpha := alpha c; Nx := Nx c; dt := dt c; Tmax := v;
     method := method c; animationSpeed := animationSpeed c |}.

Definition withSpeed (c : config) (k : nat) : config :=
  {| L := L c; alpha := alpha c; Nx := Nx c; dt := dt c; Tmax := Tmax c;
     method := method c; animationSpeed := k |}.

(** Move of the end-time slider, [v] being [parseFloat(tmaxSlider.value)]. *)
Definition onTmaxInput (v : num) (w : Explorer1D.world) : Explorer1D.world :=
  {| Explorer1D.cfg := withTmax (Explorer1D.cfg w) v;
     Explorer1D.st := Explorer1D.st w |}.

(** Move of the speed slider, [k] being [parseInt(speedSlider.value)]. *)
Definition onSpeedInput (k : nat) (w : Explorer1D.world) : Explorer1D.world :=
  {| Explorer1D.cfg := withSpeed (Explorer1D.cfg w) k;
     Explorer1D.st := Explorer1D.st w |}.

(** What changes the two global objects after the page has loaded: an
    iteration of the loop of [animate], the reset button and the
    controls. *)
Inductive event : Type :=
| Step
| ResetClick
| MethodClick (m : string)
| DtChange (val : num)
| NxInput (n : nat)
| TmaxInput (v : num)
| SpeedInput (k : nat).

Definition handle (w : Explorer1D.world) (e : event) : Explorer1D.world :=
  match e with
  | Step => stepAndCheck w
  | ResetClick => Explorer1D.reset w
  | MethodClick m => fst (Explorer1D.onMethodClick m w)
  | DtChange val => Explorer1D.onDtChange val w
  | NxInput n => Explorer1D.onNxInput n w
  | TmaxInput v => onTmaxInput v w
  | SpeedInput k => onSpeedInput k w
  end.

(** The state after the page has loaded, which runs [initSimulation()],
    and the events [es] have been handled in turn. *)
Definition after (es : list event) (w : Explorer1D.world) : Explorer1D.world :=
  fold_left handle es (Explorer1D.initSimulation w).

(** The state fits the configuration: the grid, the diffusion number and
    the sizes of the fields are those of the current [L], [alpha], [Nx]
    and [dt]. *)
Definition consistent (w : Explorer1D.world) : Prop :=
  let c := Explorer1D.cfg w in
  let s := Explorer1D.st w in
  Explorer1D.dx s = L c / (ofNat (Nx c) - one)
  /\ Explorer1D.x s = gridPoints (Nx c) (Explorer1D.dx s)
  /\ Explorer1D.r s = alpha c * dt c / (Explorer1D.dx s * Explorer1D.dx s)
  /\ length (Explorer1D.uExact s) = Nx c
  /\ (1 <= Nx c -> length (Explorer1D.u s) = Nx c).

End Events1D.

(** ** The events of the 2D explorer *)

Module Events2D.
Section Events.
Context {N : Number} {F : MathFns N}.
Local Open Scope num_scope.

(** The slice of [updatePlots]: the entries [u[i][jMid]] and
    [uExact[i][jMid]] for [i < config.Nx], with
    [jMid = Math.floor(config.Nx / 2)].  Reading in a row that does not
    exist throws a TypeError: that is the [None]. *)
Definition updatePlots (w : Explorer2D.world) : option (list num * list num) :=
  let n := Nx (Explorer2D.cfg w) in
  let s := Explorer2D.st w in
  let jMid := Nat.div n 2 in
  if (n <=? length (Explorer2D.u s)) && (n <=? length (Explorer2D.uExact s)) then
    Some (map (fun i => mget (Explorer2D.u s) i jMid) (seq 0 n),
          map (fun i => mget (Explorer2D.uExact s) i jMid) (seq 0 n))
  else None.

(** [state.hasDiverged = true] *)
Definition raiseDiverged (w : Explorer2D.world) : Explorer2D.world :=
  let s := Explorer2D.st w in
  {| Explorer2D.cfg := Explorer2D.cfg w;
     Explorer2D.st :=
       {| Explorer2D.t := Explorer2D.t s; Explorer2D.nSteps := Explorer2D.nSteps s;
          Explorer2D.flops := Explorer2D.flops s; Explorer2D.u := Explorer2D.u s;
          Explorer2D.uExact := Explorer2D.uExact s;
          Explorer2D.x := Explorer2D.x s; Explorer2D.y := Explorer2D.y s;
          Explorer2D.dx := Explorer2D.dx s; Explorer2D.dy := Explorer2D.dy s;
          Explorer2D.rx := Explorer2D.rx s; Explorer2D.ry := Explorer2D.ry s;
          Explorer2D.hasDiverged := true |} |}.

(** The body of the loop of [animate]: [timeStep()], then the check of
    the entry at the centre, [state.u[k][k]] with
    [k = Math.floor(config.Nx / 2)].  The result is the state the body
    leaves and whether it threw: a throw of [timeStep()] leaves the state
    as it was, a throw of the check leaves the state the step made. *)
Definition stepAndCheck (w : Explorer2D.world) : Explorer2D.world * bool :=
  match Explorer2D.timeStep w with
  | None => (w, true)
  | Some w' =>
      let k := Nat.div (Nx (Explorer2D.cfg w')) 2 in
      let u := Explorer2D.u (Explorer2D.st w') in
      if (k <? length u)%nat then
        let centerVal := abs (mget u k k) in
        if gtb centerVal (ofZ 10) || negb (isFinite centerVal) then
          if negb (Explorer2D.hasDiverged (Explorer2D.st w'))
          then (raiseDiverged w', false) else (w', false)
        else (w', false)
      else (w', true)
  end.

Definition withConfig (c : config) (w : Explorer2D.world) : Explorer2D.world :=
  {| Explorer2D.cfg := c; Explorer2D.st := Explorer2D.st w |}.

(** Click on a method button:
    [config.method = btn.dataset.method; updateMethodInfo(); reset();],
    where [updateMethodInfo] throws on a method that is not a key of
    [info]. *)
Definition onMethodClick (m : string) (w : Explorer2D.world) : Explorer2D.world :=
  let w := withConfig (Explorer1D.withMethod (Explorer2D.cfg w) m) w in
  if Explorer1D.knownMethod m then Explorer2D.reset w else w.

(** Change of the time-step input: the value is clamped and stored, the
    two diffusion numbers are recomputed, then [updateStatus(); reset();]. *)
Definition onDtChange (val : num) (w : Explorer2D.world) : Explorer2D.world :=
  let val := if val <? lit (1 # 10000) then lit (1 # 10000) else val in
  let val := if gtb val (lit 1) then lit 1 else val in
  let c := Explorer1D.withDt (Explorer2D.cfg w) val in
  let s := Explorer2D.st w in
  let s := {| Explorer2D.t := Explorer2D.t s; Explorer2D.nSteps := Explorer2D.nSteps s;
              Explorer2D.flops := Explorer2D.flops s; Explorer2D.u := Explorer2D.u s;
              Explorer2D.uExact := Explorer2D.uExact s;
              Explorer2D.x := Explorer2D.x s; Explorer2D.y := Explorer2D.y s;
              Explorer2D.dx := Explorer2D.dx s; Explorer2D.dy := Explorer2D.dy s;
              Explorer2D.rx := alpha c * dt c / (Explorer2D.dx s * Explorer2D.dx s);
              Explorer2D.ry := alpha c * dt c / (Explorer2D.dy s * Explorer2D.dy s);
              Explorer2D.hasDiverged := Explorer2D.hasDiverged s |} in
  let w := {| Explorer2D.cfg := c; Explorer2D.st := s |} in
  match Explorer2D.updateStatus w with
  | Some _ => Explorer2D.reset w
  | None => w
  end.

(** Move of the grid slider: [config.Nx = parseInt(...); initSimulation();]. *)
Definition onNxInput (n : nat) (w : Explorer2D.world) : Explorer2D.world :=
  Explorer2D.initSimulation (withConfig (Explorer1D.withNx (Explorer2D.cfg w) n) w).

Definition onTmaxInput (v : num) (w : Explorer2D.world) : Explorer2D.world :=
  withConfig (withTmax (Explorer2D.cfg w) v) w.

Definition onSpeedInput (k : nat) (w : Explorer2D.world) : Explorer2D.world :=
  withConfig (withSpeed (Explorer2D.cfg w) k) w.

Definition handle (w : Explorer2D.world) (e : event) : Explorer2D.world :=
  match e with
  | Step => fst (stepAndCheck w)
  | ResetClick => Explorer2D.reset w
  | MethodClick m => onMethodClick m w
  | DtChange val => onDtChange val w
  | NxInput n => onNxInput n w
  | TmaxInput v => onTmaxInput v w
  | SpeedInput k => onSpeedInput k w
  end.

(** The state after the page has loaded, which runs [initSimulation()],
    and the events [es] have been handled in turn. *)
Definition after (es : list event) (w : Explorer2D.world) : Explorer2D.world :=
  fold_left handle es (Explorer2D.initSimulation w).

(** The sizes of the grid and of the two fields are those of the
    configuration. *)
Definition sized (w : Explorer2D.world) : Prop :=
  let n := Nx (Explorer2D.cfg w) in
  let s := Explorer2D.st w in
  length (Explorer2D.x s) = n /\ length (Explorer2D.y s) = n
  /\ length (Explorer2D.u s) = n /\ length (Explorer2D.uExact s) = n.

End Events.
End Events2D.

(** ** The 2D animation of the unified page *)

Module Animation2D.
Section Frames.
Context {N : Number} {O : Order N} {F : MathFns N}.
Local Open Scope num_scope.

(** The slice of [updateErrorChart] under the shared configuration [c]:
    nothing when the chart does not exist yet ([chart] is [false]), else
    the entries [u[i][jMid]] and [uExact[i][jMid]] for [i < Nx], with
    [jMid = Math.floor(Nx / 2)].  Reading in a row that does not exist
    throws a TypeError: that is the [None]. *)
Definition updateErrorChart (c : config) (chart : bool) (s : Unified.state2d) :
    option (list num * list num) :=
  if negb chart then Some ([], [])
  else
    let n := Nx c in
    let jMid := Nat.div n 2 in
    if (n <=? length (Unified.u s)) && (n <=? length (Unified.uExact s)) then
      Some (map (fun i => mget (Unified.u s) i jMid) (seq 0 n),
            map (fun i => mget (Unified.uExact s) i jMid) (seq 0 n))
    else None.

(** How the loop of a frame ends: the end time is reached, the loop is
    through, or a time step has thrown. *)
Inductive loopEnd : Type := Reached | Through | Threw.

(** The loop of [animate2D] with [n] iterations left.  A time step that
    throws has not changed the state. *)
Fixpoint frameLoop (c : config) (n : nat) (s : Unified.state2d) :
    Unified.state2d * loopEnd :=
  match n with
  | 0 => (s, Through)
  | S n =>
      if geb (Unified.t s) (Tmax c) then (s, Reached)
      else
        match Unified.timeStep2D c s with
        | Some s' => frameLoop c n s'
        | None => (s, Threw)
        end
  end.

(** [updateSurfacePlot(); updateErrorChart(); updateStatus2D();]: [true]
    when none of them throws. *)
Definition updates (c : config) (chart : bool) (s : Unified.state2d) : bool :=
  match updateErrorChart c chart s with
  | Some _ =>
      match Unified.updateStatus2D s with
      | Some _ => true
      | None => false
      end
  | None => false
  end.

(** [animate2D()].  A throw inside the [try] block runs
    [stopAnimation2D()] in the [catch], after which the function still
    ends with [state2d.animationId = requestAnimationFrame(animate2D)];
    only the [return] at the end time leaves without a request. *)
Definition animate2D (c : config) (chart : bool) (p : player Unified.state2d) :
    player Unified.state2d :=
  if negb (isPlaying p) then p
  else
    let (s, e) := frameLoop c (animationSpeed c) (sim p) in
    match e with
    | Threw => {| sim := s; isPlaying := false; animationId := true |}
    | Reached =>
        if updates c chart s
        then {| sim := s; isPlaying := false; animationId := false |}
        else {| sim := s; isPlaying := false; animationId := true |}
    | Through =>
        if updates c chart s
        then {| sim := s; isPlaying := true; animationId := true |}
        else {| sim := s; isPlaying := false; animationId := true |}
    end.

(** The [input] event of the grid slider: [sharedConfig.Nx = parseInt(...)];
    the fields are rebuilt by [reset()] on its [change] event only. *)
Definition onNxInput (n : nat) (c : config) : config := Explorer1D.withNx c n.

End Frames.
End Animation2D.

(** The grid and the two fields of a state have [k] points and rows. *)
Definition rows2D {N : Number} (k : nat) (s : Unified.state2d) : Prop :=
  length (Unified.x s) = k /\ length (Unified.u s) = k
  /\ length (Unified.uExact s) = k.

(** In exact arithmetic the values of [Math.sin] lie in [[-1, 1]]. *)
Class BoundedSine (N : Number) (E : Exact N) (F : MathFns N) : Prop := {
  sin_bounded : forall x : num, (Rabs (toR (Math_sin x)) <= 1)%R
}.

(** * Properties *)

(** ** Arrays and loops *)

Section ArrayFacts.
Context {A : Type} (hole : A).

Lemma aset_length (l : list A) (i : nat) (v : A) :
  length (aset hole l i v) = Nat.max (length l) (S i).
Proof.
  revert l; induction i as [| i IH]; intros [| h t]; simpl;
    rewrite ?IH; simpl; lia.
Qed.

Lemma aset_length_in (l : list A) (i : nat) (v : A) :
  i < length l -> length (aset hole l i v) = length l.
Proof. intro lt. rewrite aset_length. lia. Qed.

Lemma aget_aset_eq (l : list A) (i : nat) (v : A) :
  aget hole (aset hole l i v) i = v.
Proof.
  revert l; induction i as [| i IH]; intros [| h t]; simpl; try reflexivity.
  - apply (IH []).
  - apply IH.
Qed.

Lemma aget_nil (j : nat) : aget hole [] j = hole.
Proof. destruct j; reflexivity. Qed.

Lemma aget_aset_neq (l : list A) (i j : nat) (v : A) :
  i <> j -> aget hole (aset hole l i v) j = aget hole l j.
Proof.
  revert l j; induction i as [| i IH]; intros [| h t] [| j] ne; simpl;
    try reflexivity; try congruence.
  - destruct j; reflexivity.
  - rewrite (IH [] j) by congruence. apply aget_nil.
  - apply IH. congruence.
Qed.

Lemma aget_aset (l : list A) (i j : nat) (v : A) :
  aget hole (aset hole l i v) j = if Nat.eqb i j then v else aget hole l j.
Proof.
  destruct (Nat.eqb_spec i j) as [-> | ne].
  - apply aget_aset_eq.
  - apply aget_aset_neq. exact ne.
Qed.

Lemma aset_same (l : list A) (i : nat) :
  i < length l -> aset hole l i (aget hole l i) = l.
Proof.
  revert l; induction i as [| i IH]; intros [| h t] lt; simpl in *; try lia.
  - reflexivity.
  - f_equal. apply IH. lia.
Qed.

Lemma aget_outside (l : list A) (i : nat) :
  length l <= i -> aget hole l i = hole.
Proof. intro le. apply nth_overflow. exact le. Qed.

Lemma newArray_length (n : nat) : length (newArray hole n) = n.
Proof. apply repeat_length. Qed.

Lemma aget_newArray (n i : nat) : aget hole (newArray hole n) i = hole.
Proof.
  unfold aget, newArray. revert i; induction n as [| n IH]; intros [| i]; simpl; auto.
Qed.

Lemma filled_length (n : nat) (v : A) : length (filled n v) = n.
Proof. apply repeat_length. Qed.

Lemma aget_filled (n i : nat) (v : A) :
  i < n -> aget hole (filled n v) i = v.
Proof.
  unfold aget, filled. revert i; induction n as [| n IH]; intros [| i] lt; simpl;
    try lia; auto. apply IH. lia.
Qed.

(** Two arrays of the same length with the same elements are equal. *)
Lemma array_ext (l l' : list A) :
  length l = length l' ->
  (forall i, i < length l -> aget hole l i = aget hole l' i) ->
  l = l'.
Proof.
  intros len pt. apply (nth_ext l l' hole hole len). exact pt.
Qed.

Lemma aset_last_length (n : nat) (l : list A) (v : A) :
  length l = n -> length (aset_last hole n l v) = n.
Proof.
  intro len. destruct n as [| k]; simpl; [exact len |].
  rewrite aset_length_in; lia.
Qed.

Lemma aget_aset_last (n : nat) (l : list A) (v : A) (j : nat) :
  aget hole (aset_last hole n l v) j
  = if (0 <? n) && (j =? n - 1) then v else aget hole l j.
Proof.
  destruct n as [| k]; simpl; [reflexivity |].
  rewrite Nat.sub_0_r, aget_aset.
  rewrite (Nat.eqb_sym k j). reflexivity.
Qed.

End ArrayFacts.

Section LoopFacts.
Context {S : Type}.

Lemma for_up_nil (lo hi : nat) (body : nat -> S -> S) (s : S) :
  hi <= lo -> for_up lo hi body s = s.
Proof.
  intro le. unfold for_up. replace (hi - lo) with 0 by lia. reflexivity.
Qed.

Lemma for_up_snoc (lo hi : nat) (body : nat -> S -> S) (s : S) :
  lo <= hi -> for_up lo (Datatypes.S hi) body s = body hi (for_up lo hi body s).
Proof.
  intro le. unfold for_up.
  replace (Datatypes.S hi - lo) with (Datatypes.S (hi - lo)) by lia.
  rewrite seq_S, fold_left_app. simpl.
  replace (lo + (hi - lo)) with hi by lia. reflexivity.
Qed.

(** The loop rule: an invariant that holds on entry and is kept by every
    iteration holds on exit. *)
Lemma for_up_invariant (P : nat -> S -> Prop) (lo hi : nat)
    (body : nat -> S -> S) (s : S) :
  lo <= hi ->
  P lo s ->
  (forall i acc, lo <= i < hi -> P i acc -> P (Datatypes.S i) (body i acc)) ->
  P hi (for_up lo hi body s).
Proof.
  intros le init step. induction hi as [| hi IH].
  - assert (lo = 0) by lia. subst. rewrite for_up_nil by lia. exact init.
  - destruct (Nat.eq_dec lo (Datatypes.S hi)) as [-> | ne].
    + rewrite for_up_nil by lia. exact init.
    + rewrite for_up_snoc by lia. apply step; [lia |].
      apply IH; [lia |]. intros i acc range. apply step. lia.
Qed.

Lemma for_up_ext (lo hi : nat) (body body' : nat -> S -> S) (s : S) :
  (forall i acc, lo <= i < hi -> body i acc = body' i acc) ->
  for_up lo hi body s = for_up lo hi body' s.
Proof.
  intro eq. unfold for_up.
  assert (gen : forall idx acc, (forall i, In i idx -> lo <= i < hi) ->
            fold_left (fun acc i => body i acc) idx acc
            = fold_left (fun acc i => body' i acc) idx acc).
  { induction idx as [| i idx IH]; intros acc range; simpl; [reflexivity |].
    rewrite eq by (apply range; left; reflexivity).
    apply IH. intros k ink. apply range. right. exact ink. }
  apply gen. intros i ini. apply in_seq in ini. lia.
Qed.

Lemma for_down_0 (body : nat -> S -> S) (s : S) : for_down 0 body s = s.
Proof. reflexivity. Qed.

Lemma for_down_S (hi : nat) (body : nat -> S -> S) (s : S) :
  for_down (Datatypes.S hi) body s = for_down hi body (body hi s).
Proof.
  unfold for_down. rewrite seq_S, rev_app_distr. reflexivity.
Qed.

End LoopFacts.

(** ** Exact arithmetic: the two instances *)

Lemma Q2R_Q2Qc (q : Q) : Q2R (Q2Qc q) = Q2R q.
Proof. apply Qeq_eqR. simpl. apply Qred_correct. Qed.

Lemma Q2R_Qcinv (x : Qc) : Q2R (Qcinv x) = (/ Q2R x)%R.
Proof.
  unfold Qcinv. rewrite Q2R_Q2Qc.
  destruct (Qeq_dec x 0) as [e | ne].
  - rewrite (Qeq_eqR _ _ e).
    assert (h : Qeq (/ x) 0) by (rewrite e; reflexivity).
    rewrite (Qeq_eqR _ _ h). rewrite RMicromega.Q2R_0, Rinv_0. reflexivity.
  - apply Q2R_inv. exact ne.
Qed.

Lemma Q2R_Qabs (q : Q) : Q2R (Qabs q) = Rabs (Q2R q).
Proof.
  destruct (Qlt_le_dec q 0) as [neg | pos].
  - rewrite (Qeq_eqR _ _ (Qabs_neg q (Qlt_le_weak _ _ neg))).
    rewrite Q2R_opp. apply Qlt_Rlt in neg. rewrite RMicromega.Q2R_0 in neg.
    rewrite Rabs_left; lra.
  - rewrite (Qeq_eqR _ _ (Qabs_pos q pos)).
    apply Qle_Rle in pos. rewrite RMicromega.Q2R_0 in pos.
    rewrite Rabs_right; lra.
Qed.

#[refine] Instance QcExact : Exact QcNumber := {|
  toR := fun x : @num QcNumber => Q2R (this x)
|}.
Proof.
  - intros x y h. apply Qc_is_canon. apply eqR_Qeq. exact h.
  - intro q. apply Q2R_Q2Qc.
  - intros x y. change (Q2R (Q2Qc (x + y)) = (Q2R x + Q2R y)%R).
    rewrite Q2R_Q2Qc. apply Q2R_plus.
  - intros x y. change (Q2R (Q2Qc (x + Q2Qc (- y))) = (Q2R x - Q2R y)%R).
    rewrite Q2R_Q2Qc, Q2R_plus, Q2R_Q2Qc, Q2R_opp. reflexivity.
  - intros x y. change (Q2R (Q2Qc (x * y)) = (Q2R x * Q2R y)%R).
    rewrite Q2R_Q2Qc. apply Q2R_mult.
  - intros x y. change (Q2R (Q2Qc (x * Qcinv y)) = (Q2R x / Q2R y)%R).
    rewrite Q2R_Q2Qc, Q2R_mult, Q2R_Qcinv. reflexivity.
  - intro x. change (Q2R (Q2Qc (- x)) = (- Q2R x)%R).
    rewrite Q2R_Q2Qc. apply Q2R_opp.
  - intro x. change (Q2R (Q2Qc (Qabs x)) = Rabs (Q2R x)).
    rewrite Q2R_Q2Qc. apply Q2R_Qabs.
  - intros x y. change (negb (Qle_bool y x) = true <-> (Q2R x < Q2R y)%R).
    rewrite negb_true_iff.
    split.
    + intro h. apply Qlt_Rlt. apply Qnot_le_lt. intro le.
      apply Qle_bool_iff in le. congruence.
    + intro h. apply Rlt_Qlt in h. apply not_true_is_false. intro le.
      apply Qle_bool_iff in le. apply (Qlt_not_le _ _ h le).
  - reflexivity.
Defined.

#[refine] Instance RExact : Exact RNumber := {|
  toR := fun x : @num RNumber => x
|}.
Proof.
  all: try (intros; reflexivity).
  - intros x y h. exact h.
  - intros x y. simpl. unfold R_ltb. destruct (Rlt_dec x y); split; auto; discriminate.
Defined.

Section ExactFacts.
Context {N : Number} {E : Exact N}.

Lemma toR_ofZ (z : Z) : toR (ofZ z) = IZR z.
Proof.
  unfold ofZ. rewrite toR_lit. unfold Q2R, inject_Z. simpl.
  rewrite Rinv_1. apply Rmult_1_r.
Qed.

Lemma toR_ofNat (n : nat) : toR (ofNat n) = INR n.
Proof. unfold ofNat. rewrite toR_ofZ. symmetry. apply INR_IZR_INZ. Qed.

Lemma toR_zero : toR zero = 0%R.
Proof. apply toR_ofZ. Qed.

Lemma toR_one : toR one = 1%R.
Proof. apply toR_ofZ. Qed.

Lemma toR_two : toR two = 2%R.
Proof. apply toR_ofZ. Qed.

Lemma toR_pivot_eps : (0 < toR pivot_eps < 1)%R.
Proof.
  unfold pivot_eps. rewrite toR_lit. unfold Q2R. simpl. lra.
Qed.

Lemma ltb_false (x y : num) : ltb x y = false <-> (toR y <= toR x)%R.
Proof.
  split.
  - intro f. apply Rnot_lt_le. intro lt. apply ltb_spec in lt. congruence.
  - intro le. apply not_true_is_false. intro t. apply ltb_spec in t. lra.
Qed.

Lemma gtb_spec (x y : num) : gtb x y = true <-> (toR y < toR x)%R.
Proof. unfold gtb. apply ltb_spec. Qed.

Lemma gtb_false (x y : num) : gtb x y = false <-> (toR x <= toR y)%R.
Proof. unfold gtb. apply ltb_false. Qed.

(** A pivot of absolute value at least one passes the guard. *)
Lemma degenerate_false (p : num) : (1 <= Rabs (toR p))%R -> degenerate p = false.
Proof.
  intro big. unfold degenerate. apply ltb_false. rewrite toR_abs.
  pose proof toR_pivot_eps. lra.
Qed.

Lemma degenerate_zero : degenerate zero = true.
Proof.
  unfold degenerate. apply ltb_spec. rewrite toR_abs, toR_zero, Rabs_R0.
  apply toR_pivot_eps.
Qed.

End ExactFacts.

Create Rewrite HintDb toR.

#[export] Hint Rewrite @toR_add @toR_sub @toR_mul @toR_div @toR_neg @toR_abs
  @toR_zero @toR_one @toR_two @toR_ofZ @toR_ofNat : toR.

(** Turns an equation between numbers into one between reals. *)
Ltac to_real := apply toR_inj; autorewrite with toR.

(** Equations between concrete rationals, and between lists of them. *)
Ltac qc_eq := apply Qc_is_canon; vm_compute; reflexivity.

Ltac qc_list :=
  vm_compute;
  repeat match goal with
         | |- _ :: _ = _ :: _ => f_equal
         | |- Some _ = Some _ => f_equal
         end;
  try reflexivity; try qc_eq.

(** Inequalities between the real values of concrete rationals. *)
Ltac qc_real :=
  unfold qc;
  repeat match goal with
         | |- context [toR (Q2Qc ?q)] =>
             change (toR (Q2Qc q)) with (@toR QcNumber QcExact (@lit QcNumber q));
             rewrite (@toR_lit QcNumber QcExact q)
         end;
  unfold Q2R; simpl; lra.

Section DownLoop.
Context {S : Type}.

Lemma for_down_invariant (P : nat -> S -> Prop) (hi : nat)
    (body : nat -> S -> S) (s : S) :
  P hi s ->
  (forall i acc, i < hi -> P (Datatypes.S i) acc -> P i (body i acc)) ->
  P 0 (for_down hi body s).
Proof.
  revert s. induction hi as [| hi IH]; intros s init step.
  - exact init.
  - rewrite for_down_S. apply IH.
    + apply step; [lia | exact init].
    + intros i acc lt. apply step. lia.
Qed.

End DownLoop.

(** ** The tridiagonal solver computes the recurrences *)

Section ThomasFacts.
Context {N : Number}.
Notation "l .[ i ]" := (aget undef l i) (at level 1, format "l .[ i ]").
Variables a b c d : list num.

Lemma forwardStep_swept (i : nat) (s : sweep) :
  swept a b c d i s ->
  match forwardStep a b c d (S i) s with
  | inl (k, s') => k = S i /\ s' = s /\ degenerate (pivot a b c (S i)) = true
  | inr s' => swept a b c d (S i) s'
  end.
Proof.
  intros (vals & div & piv).
  unfold forwardStep.
  replace (S i - 1) with i by lia.
  destruct (vals i (le_n i)) as (cpi & dpi). rewrite cpi, dpi.
  change (b.[S i] - a.[S i] * cprime a b c i)%num with (pivot a b c (S i)).
  destruct (abs (pivot a b c (S i)) <? pivot_eps)%num eqn:deg.
  - repeat split. exact deg.
  - split; [| split].
    + intros j le. cbn [cp dp]. rewrite !aget_aset.
      destruct (Nat.eqb_spec (S i) j) as [<- | ne].
      * split; reflexivity.
      * apply vals. lia.
    + cbn [divisors]. apply Forall_app. split; [exact div |].
      repeat constructor; exact deg.
    + intros j le. destruct (Nat.eq_dec j (S i)) as [-> | ne].
      * exact deg.
      * apply piv. lia.
Qed.

Lemma forwardLoop_swept (cnt i : nat) (s : sweep) :
  swept a b c d i s ->
  match forwardLoop a b c d (seq (S i) cnt) s with
  | inl (k, s') =>
      S i <= k <= i + cnt /\ degenerate (pivot a b c k) = true
      /\ (forall j, j < k -> degenerate (pivot a b c j) = false)
      /\ guarded (divisors s')
  | inr s' => swept a b c d (i + cnt) s'
  end.
Proof.
  revert i s. induction cnt as [| cnt IH]; intros i s sw.
  - simpl. rewrite Nat.add_0_r. exact sw.
  - simpl. pose proof (forwardStep_swept i s sw) as step.
    destruct (forwardStep a b c d (S i) s) as [[k s'] | s'].
    + destruct step as (-> & -> & deg). repeat split; try lia; try exact deg.
      * intros j lt. apply sw. lia.
      * apply sw.
    + specialize (IH (S i) s' step).
      destruct (forwardLoop a b c d (seq (S (S i)) cnt) s') as [[k s''] | s''].
      * destruct IH as (range & rest). split; [lia | exact rest].
      * replace (i + S cnt) with (S i + cnt) by lia. exact IH.
Qed.

(** What the forward sweep returns: an early return happens at the first
    degenerate pivot, and a completed sweep holds the recurrences. *)
Lemma forwardSweep_spec :
  match forwardSweep a b c d with
  | inl (k, s') =>
      k < Nat.max 1 (length d) /\ degenerate (pivot a b c k) = true
      /\ (forall j, j < k -> degenerate (pivot a b c j) = false)
      /\ guarded (divisors s')
  | inr s' => swept a b c d (length d - 1) s'
  end.
Proof.
  unfold forwardSweep.
  destruct (abs b.[0] <? pivot_eps)%num eqn:deg.
  - split; [lia |]. split; [exact deg |]. split; [intros j lt; lia | constructor].
  - assert (sw : swept a b c d 0
              {| cp := aset undef (newArray undef (length d)) 0 (c.[0] / b.[0])%num;
                 dp := aset undef (newArray undef (length d)) 0 (d.[0] / b.[0])%num;
                 divisors := [b.[0]; b.[0]] |}).
    { split; [| split].
      - intros j le. assert (j = 0) by lia. subst j. cbn [cp dp].
        rewrite !aget_aset_eq. split; reflexivity.
      - repeat constructor; exact deg.
      - intros j le. assert (j = 0) by lia. subst j. exact deg. }
    pose proof (forwardLoop_swept (length d - 1) 0 _ sw) as loop.
    match goal with
    | |- match ?x with _ => _ end => destruct x as [[k s'] | s']
    end.
    + destruct loop as (range & rest). split; [lia | exact rest].
    + exact loop.
Qed.

Lemma backSubst_solution (n : nat) (cps dps : list num) :
  (forall j, j <= n - 1 ->
     cps.[j] = cprime a b c j /\ dps.[j] = dprime a b c d j) ->
  backSubst n cps dps = solution a b c d n.
Proof.
  intro vals. unfold backSubst.
  destruct n as [| m].
  - reflexivity.
  - replace (S m - 1) with m by lia.
    set (x0 := aset undef (newArray undef (S m)) m dps.[m]).
    assert (inv :
      (fun k x => length x = S m
                  /\ forall j, k <= j < S m -> x.[j] = xback a b c d (m - j) j)
        0 (for_down m
             (fun i x => aset undef x i (dps.[i] - cps.[i] * x.[i + 1])%num) x0)).
    { apply for_down_invariant.
      - split.
        + unfold x0. rewrite aset_length_in; rewrite newArray_length; lia.
        + intros j range. assert (j = m) by lia. subst j. unfold x0.
          rewrite aget_aset_eq, Nat.sub_diag. simpl.
          apply vals. lia.
      - intros i acc lt (len & pt). split.
        + rewrite aset_length_in; lia.
        + intros j range. rewrite aget_aset.
          destruct (Nat.eqb_spec i j) as [<- | ne].
          * replace (m - i) with (S (m - (i + 1))) by lia. simpl.
            destruct (vals i) as (cpi & dpi); [lia |].
            rewrite cpi, dpi, (pt (i + 1)) by lia.
            replace (i + 1) with (S i) by lia. reflexivity.
          * apply pt. lia. }
    destruct inv as (len & pt).
    apply (array_ext undef).
    + rewrite len. unfold solution. rewrite length_map, length_seq. reflexivity.
    + intros i lt. rewrite len in lt. rewrite pt by lia.
      unfold solution, aget.
      rewrite (nth_indep _ undef (xback a b c d (S m - 1 - 0) 0))
        by (rewrite length_map, length_seq; exact lt).
      rewrite (map_nth (fun i => xback a b c d (S m - 1 - i) i) (seq 0 (S m)) 0 i).
      rewrite seq_nth by exact lt. simpl. rewrite Nat.sub_0_r. reflexivity.
Qed.

(** The solver returns [d] itself at the first degenerate pivot and the
    solution by the recurrences otherwise. *)
Lemma thomasAlgorithm_spec :
  match forwardSweep a b c d with
  | inl _ => thomasAlgorithm a b c d = d
  | inr _ => thomasAlgorithm a b c d = solution a b c d (length d)
  end.
Proof.
  unfold thomasAlgorithm. pose proof forwardSweep_spec as sw.
  destruct (forwardSweep a b c d) as [[k s'] | s'].
  - reflexivity.
  - apply backSubst_solution. intros j le. apply sw. exact le.
Qed.

Lemma thomasAlgorithm_cases :
  (thomasAlgorithm a b c d = d
   /\ exists k, k < Nat.max 1 (length d) /\ degenerate (pivot a b c k) = true)
  \/ (thomasAlgorithm a b c d = solution a b c d (length d)
      /\ forall j, j < Nat.max 1 (length d) -> degenerate (pivot a b c j) = false).
Proof.
  pose proof thomasAlgorithm_spec as sp. pose proof forwardSweep_spec as sw.
  destruct (forwardSweep a b c d) as [[k s'] | s'].
  - left. split; [exact sp |]. exists k. split; apply sw.
  - right. split; [exact sp |]. intros j lt. apply sw. lia.
Qed.

Lemma divisorsOf_guarded : guarded (divisorsOf a b c d).
Proof.
  unfold divisorsOf. pose proof forwardSweep_spec as sw.
  destruct (forwardSweep a b c d) as [[k s'] | s']; apply sw.
Qed.

Lemma solution_length (n : nat) : length (solution a b c d n) = n.
Proof. unfold solution. rewrite length_map, length_seq. reflexivity. Qed.

Lemma aget_solution (n i : nat) :
  i < n -> (solution a b c d n).[i] = xback a b c d (n - 1 - i) i.
Proof.
  intro lt. unfold solution, aget.
  rewrite (nth_indep _ undef (xback a b c d (n - 1 - 0) 0))
    by (rewrite length_map, length_seq; exact lt).
  rewrite (map_nth (fun i => xback a b c d (n - 1 - i) i) (seq 0 n) 0 i).
  rewrite seq_nth by exact lt. reflexivity.
Qed.

Lemma thomasAlgorithm_length : length (thomasAlgorithm a b c d) = length d.
Proof.
  destruct thomasAlgorithm_cases as [(-> & _) | (-> & _)].
  - reflexivity.
  - apply solution_length.
Qed.

End ThomasFacts.

(** ** Systems with Dirichlet rows *)

Section SystemFacts.
Context {N : Number}.
Notation "l .[ i ]" := (aget undef l i) (at level 1, format "l .[ i ]").

Lemma dirichletRows_sa (n : nat) (s : system) (i : nat) :
  (sa (dirichletRows n s)).[i]
  = if (0 <? n) && (i =? n - 1) then zero else (sa s).[i].
Proof. unfold dirichletRows. cbn [sa]. apply aget_aset_last. Qed.

Lemma dirichletRows_sb (n : nat) (s : system) (i : nat) :
  (sb (dirichletRows n s)).[i]
  = if (i =? 0) || ((0 <? n) && (i =? n - 1)) then one else (sb s).[i].
Proof.
  unfold dirichletRows. cbn [sb]. rewrite aget_aset_last, aget_aset.
  rewrite (Nat.eqb_sym 0 i).
  destruct ((0 <? n) && (i =? n - 1)), (i =? 0); reflexivity.
Qed.

Lemma dirichletRows_sc (n : nat) (s : system) (i : nat) :
  (sc (dirichletRows n s)).[i] = if i =? 0 then zero else (sc s).[i].
Proof.
  unfold dirichletRows. cbn [sc]. rewrite aget_aset, (Nat.eqb_sym 0 i). reflexivity.
Qed.

Lemma dirichletRows_sd (n : nat) (s : system) (i : nat) :
  (sd (dirichletRows n s)).[i]
  = if (i =? 0) || ((0 <? n) && (i =? n - 1)) then zero else (sd s).[i].
Proof.
  unfold dirichletRows. cbn [sd]. rewrite aget_aset_last, aget_aset.
  rewrite (Nat.eqb_sym 0 i).
  destruct ((0 <? n) && (i =? n - 1)), (i =? 0); reflexivity.
Qed.

Lemma dirichletRows_sd_length (n : nat) (s : system) :
  length (sd s) = n -> length (sd (dirichletRows n s)) = Nat.max 1 n.
Proof.
  intro len. unfold dirichletRows. cbn [sd].
  destruct n as [| k]; unfold aset_last; rewrite !aset_length; lia.
Qed.

(** An array filled by a loop that assigns [f i] at every index of
    [lo .. hi - 1]. *)
Lemma aget_for_up_aset (lo hi : nat) (f : nat -> num) (d0 : list num) (k : nat) :
  (for_up lo hi (fun i d => aset undef d i (f i)) d0).[k]
  = if (lo <=? k) && (k <? hi) then f k else d0.[k].
Proof.
  destruct (Nat.le_gt_cases lo hi) as [le | gt].
  - apply (for_up_invariant
             (fun h acc => acc.[k] = if (lo <=? k) && (k <? h) then f k else d0.[k]));
      [exact le | |].
    + destruct (Nat.leb_spec lo k), (Nat.ltb_spec k lo); try reflexivity; lia.
    + intros i acc range eq. rewrite aget_aset, eq.
      destruct (Nat.eqb_spec i k) as [-> | ne].
      * destruct (Nat.leb_spec lo k), (Nat.ltb_spec k (S k)); try reflexivity; lia.
      * destruct (Nat.leb_spec lo k), (Nat.ltb_spec k i), (Nat.ltb_spec k (S i));
          try reflexivity; lia.
  - rewrite for_up_nil by lia.
    destruct (Nat.leb_spec lo k), (Nat.ltb_spec k hi); try reflexivity; lia.
Qed.

Lemma for_up_aset_length (lo hi : nat) (f : nat -> num) (d0 : list num) :
  hi <= length d0 ->
  length (for_up lo hi (fun i d => aset undef d i (f i)) d0) = length d0.
Proof.
  intro le. destruct (Nat.le_gt_cases lo hi) as [le' | gt].
  - apply (for_up_invariant (fun _ acc => length acc = length d0));
      [exact le' | reflexivity |].
    intros i acc range eq. rewrite aset_length_in; lia.
  - rewrite for_up_nil by lia. reflexivity.
Qed.

End SystemFacts.

(** ** C3: a degenerate pivot makes the solver return [d] *)

(** C3.  For arrays [a], [b], [c], [d] of equal length [n >= 1]: if some
    effective pivot (the pivot of row [0] is [b_0], the pivot of row [i] is
    [b_i - a_i cp_(i-1)]) has absolute value below [1e-15], then
    [thomasAlgorithm] returns the array [d] it was given; no division it
    performs has a divisor of absolute value below [1e-15]; and, in exact
    arithmetic, [b_0 = 0] makes it return [d].  The first two parts hold
    for every arithmetic. *)
Theorem thomas_degenerate_returns_rhs {N : Number} (a b c d : list num) :
  length a = length d -> length b = length d -> length c = length d ->
  1 <= length d ->
  ((exists i, i < length d /\ degenerate (pivot a b c i) = true) ->
   thomasAlgorithm a b c d = d)
  /\ guarded (divisorsOf a b c d)
  /\ (forall E : Exact N, aget undef b 0 = zero -> thomasAlgorithm a b c d = d).
Proof.
  intros _ _ _ pos.
  assert (main : (exists i, i < length d /\ degenerate (pivot a b c i) = true) ->
                 thomasAlgorithm a b c d = d).
  { intros (i & lt & deg).
    destruct (thomasAlgorithm_cases a b c d) as [(eq & _) | (_ & none)].
    - exact eq.
    - rewrite none in deg by lia. discriminate. }
  split; [exact main |]. split; [apply divisorsOf_guarded |].
  intros E b0. apply main. exists 0. split; [lia |].
  simpl. rewrite b0. apply degenerate_zero.
Qed.

Lemma thomas_degenerate_returns_rhs_witness :
  thomasAlgorithm (N := QcNumber)
    [qc 0 1; qc 1 2; qc 0 1] [qc 1 1; qc 0 1; qc 1 1]
    [qc 0 1; qc 1 2; qc 1 2] [qc 0 1; qc 1 1; qc 0 1]
  = [qc 0 1; qc 1 1; qc 0 1].
Proof.
  refine (proj1 (thomas_degenerate_returns_rhs (N := QcNumber)
                   [qc 0 1; qc 1 2; qc 0 1] [qc 1 1; qc 0 1; qc 1 1]
                   [qc 0 1; qc 1 2; qc 1 2] [qc 0 1; qc 1 1; qc 0 1]
                   eq_refl eq_refl eq_refl _) _).
  - simpl. lia.
  - exists 1. split; [simpl; lia | vm_compute; reflexivity].
Defined.

(** ** Diagonally dominant systems *)

Section Dominant.
Context {N : Number} {E : Exact N}.
Notation "l .[ i ]" := (aget undef l i) (at level 1, format "l .[ i ]").
Variables (a b c : list num) (n : nat) (q : R).
Hypothesis q_nonneg : (0 <= q)%R.
Hypothesis first_row : toR b.[0] = 1%R /\ toR c.[0] = 0%R.
Hypothesis inner_rows :
  forall i, 0 < i < n - 1 ->
    toR a.[i] = (- q)%R /\ toR b.[i] = (1 + 2 * q)%R /\ toR c.[i] = (- q)%R.
Hypothesis last_row : 1 <= n - 1 -> toR a.[n - 1] = 0%R /\ toR b.[n - 1] = 1%R.

Lemma dominant_rows (i : nat) :
  (i < Nat.max 1 n -> (1 <= toR (pivot a b c i))%R)
  /\ (i < n - 1 -> (-1 <= toR (cprime a b c i) <= 0)%R).
Proof.
  induction i as [| k IH].
  - destruct first_row as (b0 & c0). split; intros _; simpl.
    + rewrite b0. lra.
    + rewrite toR_div, b0, c0. lra.
  - destruct IH as (_ & cpk).
    destruct (Nat.lt_ge_cases (S k) (n - 1)) as [inner | outer].
    + destruct (inner_rows (S k)) as (ak & bk & ck); [lia |].
      specialize (cpk ltac:(lia)).
      assert (piv : (1 + q <= toR (pivot a b c (S k)))%R).
      { simpl. rewrite toR_sub, toR_mul, ak, bk. nra. }
      split; intros _; [lra |].
      change (cprime a b c (S k)) with (div c.[S k] (pivot a b c (S k))).
      rewrite toR_div, ck.
      set (p := toR (pivot a b c (S k))) in *.
      assert (ppos : (0 < p)%R) by lra.
      assert (inv : (0 < / p)%R) by (apply Rinv_0_lt_compat; exact ppos).
      assert (one : (p * / p = 1)%R) by (apply Rinv_r; lra).
      unfold Rdiv. split; nra.
    + split; [| lia]. intro lt.
      assert (S k = n - 1) by lia.
      destruct last_row as (al & bl); [lia |].
      simpl. rewrite toR_sub, toR_mul.
      replace (S k) with (n - 1) by lia. rewrite al, bl. lra.
Qed.

Lemma dominant_nondegenerate (i : nat) :
  i < Nat.max 1 n -> degenerate (pivot a b c i) = false.
Proof.
  intro lt. apply degenerate_false.
  pose proof (proj1 (dominant_rows i) lt) as big.
  rewrite Rabs_right; lra.
Qed.

End Dominant.

(** ** The systems of the 1D implicit steppers *)

Section Systems1D.
Context {N : Number}.
Notation "l .[ i ]" := (aget undef l i) (at level 1, format "l .[ i ]").

Lemma dirichletRows_system (n : nat) (off diag : num) (rhs : nat -> num)
    (d0 : list num) :
  1 <= n -> length d0 = n ->
  (forall i, 0 < i < n - 1 -> d0.[i] = rhs i) ->
  dirichletSystem n off diag rhs
    (dirichletRows n {| sa := filled n off; sb := filled n diag;
                        sc := filled n off; sd := d0 |}).
Proof.
  intros pos len inner. split.
  - rewrite dirichletRows_sd_length by exact len. lia.
  - intros i lt.
    rewrite dirichletRows_sa, dirichletRows_sb, dirichletRows_sc, dirichletRows_sd.
    cbn [sa sb sc sd]. rewrite !aget_filled by exact lt.
    assert (n0 : (0 <? n) = true) by (apply Nat.ltb_lt; lia). rewrite n0.
    cbn [andb]. repeat split; try reflexivity.
    destruct (Nat.eqb_spec i 0), (Nat.eqb_spec i (n - 1)); cbn [orb];
      try reflexivity.
    apply inner. lia.
Qed.

Lemma backwardEulerSystem_rows (u : list num) (r : num) :
  1 <= length u ->
  dirichletSystem (length u) (neg r) (add one (mul two r)) (fun i => u.[i])
    (backwardEulerSystem u r).
Proof.
  intro pos. apply dirichletRows_system; [exact pos | reflexivity |].
  intros i _. reflexivity.
Qed.

Lemma crankNicolsonSystem_rows (u : list num) (r : num) :
  1 <= length u ->
  dirichletSystem (length u) (neg (div r two)) (add one r) (crankNicolsonRhs u r)
    (crankNicolsonSystem u r).
Proof.
  intro pos. apply dirichletRows_system; [exact pos | |].
  - rewrite for_up_aset_length; rewrite newArray_length; lia.
  - intros i range.
    rewrite (aget_for_up_aset 1 (length u - 1) (crankNicolsonRhs u r)).
    destruct (Nat.leb_spec 1 i), (Nat.ltb_spec i (length u - 1));
      try reflexivity; lia.
Qed.

(** For the empty field the two boundary lines still build one row. *)
Lemma backwardEulerSystem_nil (r : num) :
  backwardEulerSystem [] r
  = {| sa := []; sb := [one]; sc := [zero]; sd := [zero] |}.
Proof. reflexivity. Qed.

Lemma crankNicolsonSystem_nil (r : num) :
  crankNicolsonSystem [] r
  = {| sa := []; sb := [one]; sc := [zero]; sd := [zero] |}.
Proof. reflexivity. Qed.

End Systems1D.

Section Dominant1D.
Context {N : Number} {E : Exact N}.
Notation "l .[ i ]" := (aget undef l i) (at level 1, format "l .[ i ]").

Lemma dirichletSystem_pivots (n : nat) (off diag : num) (rhs : nat -> num)
    (s : system) (q : R) :
  dirichletSystem n off diag rhs s -> 1 <= n ->
  (0 <= q)%R -> toR off = (- q)%R -> toR diag = (1 + 2 * q)%R ->
  forall i, i < n -> (1 <= toR (pivot (sa s) (sb s) (sc s) i))%R.
Proof.
  intros (len & rows) pos qpos offq diagq i lt.
  assert (n1 : Nat.max 1 n = n) by lia.
  apply (dominant_rows (sa s) (sb s) (sc s) n q); try assumption; try lia.
  - destruct (rows 0) as (_ & b0 & c0 & _); [lia |].
    rewrite b0, c0. cbn. rewrite toR_one, toR_zero. split; reflexivity.
  - intros k range. destruct (rows k) as (ak & bk & ck & _); [lia |].
    rewrite ak, bk, ck.
    destruct (Nat.eqb_spec k (n - 1)), (Nat.eqb_spec k 0); try lia.
    cbn. auto.
  - intro big. destruct (rows (n - 1)) as (al & bl & _); [lia |].
    rewrite al, bl, Nat.eqb_refl, orb_true_r. rewrite toR_one, toR_zero.
    split; reflexivity.
Qed.

Lemma dirichletSystem_completes (n : nat) (off diag : num) (rhs : nat -> num)
    (s : system) (q : R) :
  dirichletSystem n off diag rhs s -> 1 <= n ->
  (0 <= q)%R -> toR off = (- q)%R -> toR diag = (1 + 2 * q)%R ->
  (exists sw, forwardSweep (sa s) (sb s) (sc s) (sd s) = inr sw)
  /\ solve s = solution (sa s) (sb s) (sc s) (sd s) n.
Proof.
  intros sys pos qpos offq diagq.
  pose proof (dirichletSystem_pivots n off diag rhs s q sys pos qpos offq diagq)
    as piv.
  destruct sys as (len & rows).
  pose proof (forwardSweep_spec (sa s) (sb s) (sc s) (sd s)) as sw.
  pose proof (thomasAlgorithm_spec (sa s) (sb s) (sc s) (sd s)) as sp.
  unfold solve.
  destruct (forwardSweep (sa s) (sb s) (sc s) (sd s)) as [[k s'] | s'].
  - destruct sw as (lt & deg & _). rewrite len in lt.
    rewrite degenerate_false in deg; [discriminate |].
    rewrite Rabs_right; [apply piv; lia |].
    apply Rle_ge. apply Rle_trans with 1%R; [lra | apply piv; lia].
  - split; [exists s'; reflexivity |]. rewrite <- len. exact sp.
Qed.

End Dominant1D.

(** ** C9: the 1D implicit systems never hit the degenerate branch *)

(** C9.  In exact arithmetic, for every diffusion number [r >= 0] and every
    field [u], the systems assembled by [backwardEuler] ([a = c = -r],
    [b = 1 + 2r]) and [crankNicolson] ([a = c = -r/2], [b = 1 + r]), with
    identity boundary rows, have [|b_0|] and every effective pivot at
    least [1]; the forward sweep therefore never returns early, and both
    steppers return the solution computed by the recurrences. *)
Theorem implicit_1d_pivots_at_least_one {N : Number} {E : Exact N}
    (u : list num) (r : num) :
  (0 <= toR r)%R ->
  let be := backwardEulerSystem u r in
  let cn := crankNicolsonSystem u r in
  (forall i, i < length (sd be) ->
     (1 <= Rabs (toR (pivot (sa be) (sb be) (sc be) i)))%R)
  /\ (forall i, i < length (sd cn) ->
        (1 <= Rabs (toR (pivot (sa cn) (sb cn) (sc cn) i)))%R)
  /\ (exists sw, forwardSweep (sa be) (sb be) (sc be) (sd be) = inr sw)
  /\ (exists sw, forwardSweep (sa cn) (sb cn) (sc cn) (sd cn) = inr sw)
  /\ backwardEuler u r
     = solution (sa be) (sb be) (sc be) (sd be) (length (sd be))
  /\ crankNicolson u r
     = solution (sa cn) (sb cn) (sc cn) (sd cn) (length (sd cn)).
Proof.
  intros rpos be cn.
  destruct u as [| u0 ut].
  - (* the empty field: one identity row *)
    subst be cn. rewrite backwardEulerSystem_nil, crankNicolsonSystem_nil.
    unfold backwardEuler, crankNicolson.
    rewrite backwardEulerSystem_nil, crankNicolsonSystem_nil.
    cbn [sa sb sc sd length].
    assert (p0 : forall i, i < 1 ->
              (1 <= Rabs (toR (pivot [] [one] [zero] i)))%R).
    { intros i lt. assert (i = 0) by lia. subst i. cbn.
      rewrite toR_one, Rabs_R1. lra. }
    assert (nd : degenerate (aget undef [one] 0) = false).
    { apply degenerate_false. cbn. rewrite toR_one, Rabs_R1. lra. }
    assert (sw : exists sw, forwardSweep [] [one] [zero] [zero] = inr sw).
    { unfold forwardSweep. unfold degenerate in nd. rewrite nd.
      cbn. eexists. reflexivity. }
    repeat split; try exact p0; try exact sw.
    + pose proof (thomasAlgorithm_spec [] [one] [zero] [zero]) as sp.
      destruct sw as (s' & eq). rewrite eq in sp. exact sp.
    + pose proof (thomasAlgorithm_spec [] [one] [zero] [zero]) as sp.
      destruct sw as (s' & eq). rewrite eq in sp. exact sp.
  - assert (pos : 1 <= length (u0 :: ut)) by (simpl; lia).
    pose proof (backwardEulerSystem_rows (u0 :: ut) r pos) as bes.
    pose proof (crankNicolsonSystem_rows (u0 :: ut) r pos) as cns.
    fold be in bes. fold cn in cns.
    assert (beq : toR (add one (mul two r)) = (1 + 2 * toR r)%R)
      by (autorewrite with toR; reflexivity).
    assert (cnoff : toR (neg (div r two)) = (- (toR r / 2))%R)
      by (autorewrite with toR; reflexivity).
    assert (cndiag : toR (add one r) = (1 + 2 * (toR r / 2))%R)
      by (autorewrite with toR; lra).
    assert (half : (0 <= toR r / 2)%R) by lra.
    pose proof (dirichletSystem_pivots _ _ _ _ be (toR r) bes pos rpos
                  (toR_neg r) beq) as bep.
    pose proof (dirichletSystem_pivots _ _ _ _ cn (toR r / 2) cns pos half
                  cnoff cndiag) as cnp.
    destruct (dirichletSystem_completes _ _ _ _ be (toR r) bes pos rpos
                (toR_neg r) beq) as (besw & besol).
    destruct (dirichletSystem_completes _ _ _ _ cn (toR r / 2) cns pos half
                cnoff cndiag) as (cnsw & cnsol).
    destruct bes as (belen & _). destruct cns as (cnlen & _).
    rewrite belen, cnlen.
    repeat split; try assumption.
    + intros i lt. specialize (bep i lt). rewrite Rabs_right; lra.
    + intros i lt. specialize (cnp i lt). rewrite Rabs_right; lra.
Qed.

Lemma implicit_1d_pivots_at_least_one_witness :
  backwardEuler (N := QcNumber) [qc 0 1; qc 1 1; qc 0 1] (qc 1 2)
  = [qc 0 1; qc 1 2; qc 0 1].
Proof.
  pose proof (implicit_1d_pivots_at_least_one (N := QcNumber)
                [qc 0 1; qc 1 1; qc 0 1] (qc 1 2)) as h.
  cbv zeta in h.
  destruct h as (_ & _ & _ & _ & be & _).
  - qc_real.
  - rewrite be. qc_list.
Defined.

(** ** C2: what a step returns after a degenerate pivot *)

Lemma solve_degenerate {N : Number} (s : system) :
  hitsDegenerate s -> solve s = sd s.
Proof.
  intros (i & lt & deg). unfold solve.
  destruct (thomasAlgorithm_cases (sa s) (sb s) (sc s) (sd s))
    as [(eq & _) | (_ & none)].
  - exact eq.
  - rewrite none in deg by lia. discriminate.
Qed.

(** C2, as the code has it.  When the solve of a 1D implicit step meets a
    degenerate pivot, the step returns the right-hand side [d] it had
    assembled, for every arithmetic.  For backward Euler [d] is the prior
    field with its first and last entries set to [0], hence the prior field
    itself when those entries are [0].  For Crank-Nicolson [d] has [0] in
    its first and last entries and [(1 - r) u_i + (r/2) (u_(i+1) + u_(i-1))]
    in between, which in general is not the prior field. *)
Theorem implicit_1d_fallback_returns_rhs {N : Number} (u : list num) (r : num) :
  let be := backwardEulerSystem u r in
  let cn := crankNicolsonSystem u r in
  (hitsDegenerate be ->
     backwardEuler u r = sd be
     /\ sd be = aset_last undef (length u) (aset undef u 0 zero) zero
     /\ (1 <= length u -> aget undef u 0 = zero ->
         aget undef u (length u - 1) = zero -> backwardEuler u r = u))
  /\ (hitsDegenerate cn ->
      crankNicolson u r = sd cn
      /\ (1 <= length u ->
          length (sd cn) = length u
          /\ forall i, i < length u ->
               aget undef (sd cn) i
               = if (i =? 0) || (i =? length u - 1) then zero
                 else crankNicolsonRhs u r i)).
Proof.
  intros be cn. split.
  - intro hit. pose proof (solve_degenerate be hit) as eq.
    split; [exact eq |]. split; [reflexivity |].
    intros pos first last. unfold backwardEuler. fold be. rewrite eq.
    subst be. unfold backwardEulerSystem, dirichletRows. cbn [sd].
    assert (e1 : aset undef u 0 zero = u)
      by (rewrite <- first; apply aset_same; lia).
    rewrite e1. destruct (length u) as [| k] eqn:len; [lia |].
    cbn [aset_last]. replace (S k - 1) with k in last by lia.
    rewrite <- last. apply aset_same. lia.
  - intro hit. split; [exact (solve_degenerate cn hit) |].
    intro pos. destruct (crankNicolsonSystem_rows u r pos) as (len & rows).
    split; [exact len |]. intros i lt. apply rows. exact lt.
Qed.

Lemma implicit_1d_fallback_returns_rhs_witness :
  backwardEuler (N := QcNumber) [qc 0 1; qc 1 1; qc 0 1] (qc (-1) 2)
  = [qc 0 1; qc 1 1; qc 0 1]
  /\ crankNicolson (N := QcNumber) [qc 0 1; qc 1 1; qc 0 1] (qc (-1) 1)
     = sd (crankNicolsonSystem (N := QcNumber) [qc 0 1; qc 1 1; qc 0 1] (qc (-1) 1)).
Proof.
  split.
  - apply (proj1 (implicit_1d_fallback_returns_rhs (N := QcNumber)
                    [qc 0 1; qc 1 1; qc 0 1] (qc (-1) 2))).
    + exists 1. split; [simpl; lia | vm_compute; reflexivity].
    + simpl. lia.
    + qc_eq.
    + qc_eq.
  - apply (proj2 (implicit_1d_fallback_returns_rhs (N := QcNumber)
                    [qc 0 1; qc 1 1; qc 0 1] (qc (-1) 1))).
    exists 1. split; [simpl; lia | vm_compute; reflexivity].
Defined.

(** The claim as stated fails: with [r = -1] the Crank-Nicolson solve for
    the field [0, 1, 0] meets a degenerate pivot in row 1, and the step
    returns [0, 2, 0]. *)
Lemma crankNicolson_fallback_is_not_prior_field :
  hitsDegenerate
    (crankNicolsonSystem (N := QcNumber) [qc 0 1; qc 1 1; qc 0 1] (qc (-1) 1))
  /\ crankNicolson (N := QcNumber) [qc 0 1; qc 1 1; qc 0 1] (qc (-1) 1)
     = [qc 0 1; qc 2 1; qc 0 1]
  /\ crankNicolson (N := QcNumber) [qc 0 1; qc 1 1; qc 0 1] (qc (-1) 1)
     <> [qc 0 1; qc 1 1; qc 0 1].
Proof.
  split; [| split].
  - exists 1. split; [simpl; lia | vm_compute; reflexivity].
  - qc_list.
  - intro h. apply (f_equal (map (fun x : Qc => Qnum (this x)))) in h.
    vm_compute in h. discriminate.
Qed.

(** ** Boundary values *)

Section Boundary1D.
Context {N : Number}.
Notation "l .[ i ]" := (aget undef l i) (at level 1, format "l .[ i ]").

Lemma forwardEuler_boundary (u : list num) (r : num) :
  1 <= length u ->
  length (forwardEuler u r) = length u
  /\ (forwardEuler u r).[0] = zero
  /\ (forwardEuler u r).[length u - 1] = zero.
Proof.
  intro pos. unfold forwardEuler.
  set (n := length u) in *.
  set (f := fun i : nat =>
              add u.[i] (mul r (add (sub u.[i + 1] (mul two u.[i])) u.[i - 1]))).
  set (init := aset_last undef n (aset undef (newArray undef n) 0 zero) zero).
  assert (len : length init = n).
  { unfold init. apply aset_last_length.
    rewrite aset_length_in; rewrite newArray_length; lia. }
  change (length (for_up 1 (n - 1) (fun i d => aset undef d i (f i)) init) = n
          /\ (for_up 1 (n - 1) (fun i d => aset undef d i (f i)) init).[0] = zero
          /\ (for_up 1 (n - 1) (fun i d => aset undef d i (f i)) init).[n - 1]
             = zero).
  rewrite for_up_aset_length by lia.
  rewrite !aget_for_up_aset.
  split; [exact len |]. split.
  - cbn [Nat.leb andb]. unfold init. rewrite aget_aset_last, aget_aset_eq.
    destruct ((0 <? n) && (0 =? n - 1)); reflexivity.
  - replace (n - 1 <? n - 1) with false by (symmetry; apply Nat.ltb_irrefl).
    rewrite andb_false_r. unfold init. rewrite aget_aset_last.
    assert (n0 : (0 <? n) = true) by (apply Nat.ltb_lt; lia).
    rewrite n0, Nat.eqb_refl. reflexivity.
Qed.

End Boundary1D.

Section BoundarySolve.
Context {N : Number} {E : Exact N}.
Notation "l .[ i ]" := (aget undef l i) (at level 1, format "l .[ i ]").

(** With identity boundary rows and zero boundary right-hand sides, the
    recurrences give [0] in the first and in the last row. *)
Lemma xback_first (a b c d : list num) (k : nat) :
  toR b.[0] = 1%R -> toR c.[0] = 0%R -> toR d.[0] = 0%R ->
  toR (xback a b c d k 0) = 0%R.
Proof.
  intros b0 c0 d0. destruct k as [| k]; simpl.
  - rewrite toR_div, b0, d0. lra.
  - rewrite toR_sub, toR_mul, !toR_div, b0, c0, d0. lra.
Qed.

Lemma dprime_last (a b c d : list num) (m : nat) :
  toR b.[0] = 1%R -> toR d.[0] = 0%R ->
  toR a.[m] = 0%R -> toR d.[m] = 0%R ->
  toR (dprime a b c d m) = 0%R.
Proof.
  intros b0 d0 am dm. destruct m as [| k]; simpl.
  - rewrite toR_div, b0, d0. lra.
  - rewrite toR_div, toR_sub, toR_mul, am, dm. unfold Rdiv. lra.
Qed.

Lemma dirichletSystem_boundary (n : nat) (off diag : num) (rhs : nat -> num)
    (s : system) :
  dirichletSystem n off diag rhs s -> 1 <= n ->
  length (solve s) = n /\ (solve s).[0] = zero /\ (solve s).[n - 1] = zero.
Proof.
  intros (len & rows) pos.
  destruct (rows 0) as (_ & b0 & c0 & d0); [lia |].
  destruct (rows (n - 1)) as (al & _ & _ & dl); [lia |].
  rewrite Nat.eqb_refl in al. rewrite Nat.eqb_refl, orb_true_r in dl.
  cbn [Nat.eqb orb] in b0, c0, d0.
  unfold solve. split; [rewrite thomasAlgorithm_length; exact len |].
  destruct (thomasAlgorithm_cases (sa s) (sb s) (sc s) (sd s))
    as [(-> & _) | (-> & _)].
  - split; assumption.
  - rewrite len, !aget_solution by lia.
    assert (b0r : toR (sb s).[0] = 1%R) by (rewrite b0; apply toR_one).
    assert (c0r : toR (sc s).[0] = 0%R) by (rewrite c0; apply toR_zero).
    assert (d0r : toR (sd s).[0] = 0%R) by (rewrite d0; apply toR_zero).
    split; apply toR_inj; rewrite toR_zero.
    + apply xback_first; assumption.
    + replace (n - 1 - (n - 1)) with 0 by lia. cbn [xback].
      apply dprime_last; try assumption.
      * rewrite al. apply toR_zero.
      * rewrite dl. apply toR_zero.
Qed.

(** A zero right-hand side gives the zero solution. *)
Lemma dprime_zero (a b c d : list num) (n i : nat) :
  (forall k, k < n -> toR d.[k] = 0%R) ->
  i < n -> toR (dprime a b c d i) = 0%R.
Proof.
  intro zd. induction i as [| i IH]; intro lt; simpl.
  - rewrite toR_div, zd by lia. unfold Rdiv. lra.
  - rewrite toR_div, toR_sub, toR_mul, zd, IH by lia. unfold Rdiv. lra.
Qed.

Lemma xback_zero (a b c d : list num) (n k i : nat) :
  (forall j, j < n -> toR d.[j] = 0%R) ->
  i + k < n -> toR (xback a b c d k i) = 0%R.
Proof.
  intro zd. revert i. induction k as [| k IH]; intros i lt; simpl.
  - apply (dprime_zero a b c d n); [exact zd | lia].
  - rewrite toR_sub, toR_mul, (dprime_zero a b c d n), IH by (assumption || lia).
    lra.
Qed.

Lemma thomasAlgorithm_zero (a b c d : list num) (i : nat) :
  (forall k, k < length d -> d.[k] = zero) ->
  i < length d -> (thomasAlgorithm a b c d).[i] = zero.
Proof.
  intros zd lt.
  destruct (thomasAlgorithm_cases a b c d) as [(-> & _) | (-> & _)].
  - apply zd. exact lt.
  - rewrite aget_solution by exact lt. apply toR_inj. rewrite toR_zero.
    apply (xback_zero a b c d (length d)); [| lia].
    intros j ltj. rewrite zd by exact ltj. apply toR_zero.
Qed.



End BoundarySolve.

(** ** Fields as matrices *)

Section MatrixFacts.
Context {N : Number}.
Notation "l .[ i ]" := (aget undef l i) (at level 1, format "l .[ i ]").

Lemma mget_mset (m : matrix) (i j : nat) (v : num) (i' j' : nat) :
  mget (mset m i j v) i' j'
  = if (i =? i') && (j =? j') then v else mget m i' j'.
Proof.
  unfold mget, mset. rewrite aget_aset.
  destruct (Nat.eqb_spec i i') as [<- | ne]; cbn [andb]; [| reflexivity].
  apply aget_aset.
Qed.

Lemma mset_shaped (nx ny : nat) (m : matrix) (i j : nat) (v : num) :
  shaped nx ny m -> i < nx -> j < ny -> shaped nx ny (mset m i j v).
Proof.
  intros (len & rows) li lj. unfold mset. split.
  - rewrite aset_length_in; lia.
  - intros k lk. rewrite aget_aset.
    destruct (Nat.eqb_spec i k) as [<- | ne].
    + rewrite aset_length_in; rewrite rows; lia.
    + apply rows. exact lk.
Qed.

Lemma zeros2_shaped (nx ny : nat) : shaped nx ny (zeros2 nx ny).
Proof.
  unfold zeros2. split.
  - apply repeat_length.
  - intros i lt. unfold aget.
    rewrite (nth_indep _ [] (filled ny zero)) by (rewrite repeat_length; exact lt).
    rewrite nth_repeat. apply filled_length.
Qed.

Lemma mget_zeros2 (nx ny i j : nat) :
  i < nx -> j < ny -> mget (zeros2 nx ny) i j = zero.
Proof.
  intros li lj. unfold mget, zeros2, aget at 2.
  rewrite (nth_indep _ [] (filled ny zero)) by (rewrite repeat_length; exact li).
  rewrite nth_repeat. apply aget_filled. exact lj.
Qed.

Lemma matrix_ext (nx ny : nat) (m m' : matrix) :
  shaped nx ny m -> shaped nx ny m' ->
  (forall i j, i < nx -> j < ny -> mget m i j = mget m' i j) ->
  m = m'.
Proof.
  intros (len & rows) (len' & rows') pt.
  apply (array_ext []); [congruence |].
  intros i lt. rewrite len in lt.
  apply (array_ext undef); [rewrite rows, rows'; auto |].
  intros j ltj. rewrite rows in ltj by exact lt. apply pt; assumption.
Qed.

(** A loop whose iteration [k] overwrites the entries [(i, j)] with
    [key i j = k] and [guard i j]. *)
Lemma for_up_mget (key : nat -> nat -> nat) (guard : nat -> nat -> bool)
    (val : nat -> nat -> nat -> num) (body : nat -> matrix -> matrix)
    (lo hi : nat) (m0 : matrix) :
  (forall k m i j, lo <= k < hi ->
     mget (body k m) i j
     = if (key i j =? k) && guard i j then val k i j else mget m i j) ->
  forall i j,
    mget (for_up lo hi body m0) i j
    = if (lo <=? key i j) && (key i j <? hi) && guard i j
      then val (key i j) i j else mget m0 i j.
Proof.
  intros step i j.
  destruct (Nat.le_gt_cases lo hi) as [le | gt].
  - apply (for_up_invariant
             (fun h acc =>
                mget acc i j
                = if (lo <=? key i j) && (key i j <? h) && guard i j
                  then val (key i j) i j else mget m0 i j));
      [exact le | |].
    + destruct (Nat.leb_spec lo (key i j)), (Nat.ltb_spec (key i j) lo);
        try reflexivity; lia.
    + intros k acc range eq. rewrite step by exact range. rewrite eq.
      destruct (Nat.eqb_spec (key i j) k) as [-> | ne].
      * destruct (Nat.leb_spec lo k), (Nat.ltb_spec k (S k)), (Nat.ltb_spec k k);
          try lia. cbn [andb]. destruct (guard i j); reflexivity.
      * destruct (Nat.leb_spec lo (key i j)), (Nat.ltb_spec (key i j) k),
          (Nat.ltb_spec (key i j) (S k)); try reflexivity; lia.
  - rewrite for_up_nil by lia.
    destruct (Nat.leb_spec lo (key i j)), (Nat.ltb_spec (key i j) hi);
      try reflexivity; lia.
Qed.

Lemma for_up_shaped (nx ny : nat) (body : nat -> matrix -> matrix)
    (lo hi : nat) (m0 : matrix) :
  (forall k m, lo <= k < hi -> shaped nx ny m -> shaped nx ny (body k m)) ->
  shaped nx ny m0 -> shaped nx ny (for_up lo hi body m0).
Proof.
  intros step init.
  destruct (Nat.le_gt_cases lo hi) as [le | gt].
  - apply (for_up_invariant (fun _ acc => shaped nx ny acc)); auto.
  - rewrite for_up_nil by lia. exact init.
Qed.

Lemma storeColumn_mget (n j : nat) (res : list num) (m : matrix) (i' j' : nat) :
  mget (storeColumn n j res m) i' j'
  = if (j' =? j) && (i' <? n) then res.[i'] else mget m i' j'.
Proof.
  unfold storeColumn.
  rewrite (for_up_mget (fun i _ => i) (fun _ j' => j' =? j)
             (fun i _ _ => res.[i])).
  - cbn [Nat.leb andb]. rewrite andb_comm. reflexivity.
  - intros k m1 i1 j1 _. rewrite mget_mset.
    rewrite (Nat.eqb_sym k i1), (Nat.eqb_sym j j1).
    destruct (Nat.eqb_spec i1 k) as [-> | ne]; reflexivity.
Qed.

Lemma storeColumn_shaped (nx ny n j : nat) (res : list num) (m : matrix) :
  n <= nx -> j < ny -> shaped nx ny m -> shaped nx ny (storeColumn n j res m).
Proof.
  intros ln lj sh. unfold storeColumn. apply for_up_shaped; [| exact sh].
  intros k m1 range sh1. apply mset_shaped; [exact sh1 | lia | exact lj].
Qed.

Lemma storeRow_mget (n i : nat) (res : list num) (m : matrix) (i' j' : nat) :
  mget (storeRow n i res m) i' j'
  = if (i' =? i) && (j' <? n) then res.[j'] else mget m i' j'.
Proof.
  unfold storeRow.
  rewrite (for_up_mget (fun _ j => j) (fun i' _ => i' =? i)
             (fun j _ _ => res.[j])).
  - cbn [Nat.leb andb]. rewrite andb_comm. reflexivity.
  - intros k m1 i1 j1 _. rewrite mget_mset.
    rewrite (Nat.eqb_sym k j1), (Nat.eqb_sym i i1), andb_comm.
    destruct (Nat.eqb_spec j1 k) as [-> | ne]; reflexivity.
Qed.

Lemma storeRow_shaped (nx ny n i : nat) (res : list num) (m : matrix) :
  n <= ny -> i < nx -> shaped nx ny m -> shaped nx ny (storeRow n i res m).
Proof.
  intros ln li sh. unfold storeRow. apply for_up_shaped; [| exact sh].
  intros k m1 range sh1. apply mset_shaped; [exact sh1 | exact li | lia].
Qed.

(** A sweep over the columns [lo .. hi - 1], column [j] receiving the
    array [res j]; and the same over rows. *)
Lemma sweepColumns_mget (n lo hi : nat) (res : nat -> list num) (m0 : matrix)
    (i j : nat) :
  mget (for_up lo hi (fun j m => storeColumn n j (res j) m) m0) i j
  = if (lo <=? j) && (j <? hi) && (i <? n) then (res j).[i] else mget m0 i j.
Proof.
  rewrite (for_up_mget (fun _ j => j) (fun i _ => i <? n)
             (fun j i _ => (res j).[i])); [reflexivity |].
  intros k m i1 j1 _. apply storeColumn_mget.
Qed.

Lemma sweepRows_mget (n lo hi : nat) (res : nat -> list num) (m0 : matrix)
    (i j : nat) :
  mget (for_up lo hi (fun i m => storeRow n i (res i) m) m0) i j
  = if (lo <=? i) && (i <? hi) && (j <? n) then (res i).[j] else mget m0 i j.
Proof.
  rewrite (for_up_mget (fun i _ => i) (fun _ j => j <? n)
             (fun i _ j => (res i).[j])); [reflexivity |].
  intros k m i1 j1 _. apply storeRow_mget.
Qed.

Lemma sweepColumns_shaped (nx ny n lo hi : nat) (res : nat -> list num)
    (m0 : matrix) :
  n <= nx -> hi <= ny -> shaped nx ny m0 ->
  shaped nx ny (for_up lo hi (fun j m => storeColumn n j (res j) m) m0).
Proof.
  intros ln lh sh. apply for_up_shaped; [| exact sh].
  intros k m range sh1. apply storeColumn_shaped; [exact ln | lia | exact sh1].
Qed.

Lemma sweepRows_shaped (nx ny n lo hi : nat) (res : nat -> list num)
    (m0 : matrix) :
  n <= ny -> hi <= nx -> shaped nx ny m0 ->
  shaped nx ny (for_up lo hi (fun i m => storeRow n i (res i) m) m0).
Proof.
  intros ln lh sh. apply for_up_shaped; [| exact sh].
  intros k m range sh1. apply storeRow_shaped; [exact ln | lia | exact sh1].
Qed.

End MatrixFacts.

(** ** The line systems of the 2D steppers *)

Section Systems2D.
Context {N : Number}.
Notation "l .[ i ]" := (aget undef l i) (at level 1, format "l .[ i ]").

Lemma lineSystem_rows (n lo hi : nat) (off diag : num) (f : nat -> num) :
  1 <= n -> lo <= 1 -> n - 1 <= hi <= n ->
  dirichletSystem n off diag f
    (dirichletRows n
       {| sa := filled n off; sb := filled n diag; sc := filled n off;
          sd := for_up lo hi (fun i d => aset undef d i (f i))
                  (newArray undef n) |}).
Proof.
  intros pos llo lhi. apply dirichletRows_system; [exact pos | |].
  - rewrite for_up_aset_length; rewrite newArray_length; lia.
  - intros i range. rewrite aget_for_up_aset.
    destruct (Nat.leb_spec lo i), (Nat.ltb_spec i hi); try reflexivity; lia.
Qed.

Lemma beX_system_rows (u : matrix) (rx : num) (Nx j : nat) :
  1 <= Nx ->
  dirichletSystem Nx (neg rx) (add one (mul two rx)) (fun i => mget u i j)
    (beX_system u rx Nx j).
Proof. intro pos. apply lineSystem_rows; lia. Qed.

Lemma beY_system_rows (uStar : matrix) (ry : num) (Ny i : nat) :
  1 <= Ny ->
  dirichletSystem Ny (neg ry) (add one (mul two ry)) (fun j => mget uStar i j)
    (beY_system uStar ry Ny i).
Proof. intro pos. apply lineSystem_rows; lia. Qed.

Lemma cnX_system_rows (u : matrix) (rx ry : num) (Nx j : nat) :
  1 <= Nx ->
  dirichletSystem Nx (neg (div rx two)) (add one rx) (fun i => stencilY u ry i j)
    (cnX_system u rx ry Nx j).
Proof. intro pos. apply lineSystem_rows; lia. Qed.

Lemma cnY_system_rows (uStar : matrix) (rx ry : num) (Ny i : nat) :
  1 <= Ny ->
  dirichletSystem Ny (neg (div ry two)) (add one ry)
    (fun j => stencilX uStar rx i j) (cnY_system uStar rx ry Ny i).
Proof. intro pos. apply lineSystem_rows; lia. Qed.

Lemma beX_system_unified_rows (u : matrix) (rx : num) (Nx j : nat) :
  1 <= Nx ->
  dirichletSystem Nx (neg rx) (add one (mul two rx)) (fun i => mget u i j)
    (beX_system_unified u rx Nx j).
Proof. intro pos. apply lineSystem_rows; lia. Qed.

Lemma beY_system_unified_rows (uHalf : matrix) (ry : num) (Ny i : nat) :
  1 <= Ny ->
  dirichletSystem Ny (neg ry) (add one (mul two ry)) (fun j => mget uHalf i j)
    (beY_system_unified uHalf ry Ny i).
Proof. intro pos. apply lineSystem_rows; lia. Qed.

Lemma cnX_system_unified_rows (u : matrix) (rx : num) (Nx j : nat) :
  1 <= Nx ->
  dirichletSystem Nx (neg (div rx two)) (add one rx) (fun i => crankX u rx i j)
    (cnX_system_unified u rx Nx j).
Proof. intro pos. apply lineSystem_rows; lia. Qed.

Lemma cnY_system_unified_rows (uHalf : matrix) (ry : num) (Ny i : nat) :
  1 <= Ny ->
  dirichletSystem Ny (neg (div ry two)) (add one ry) (fun j => crankY uHalf ry i j)
    (cnY_system_unified uHalf ry Ny i).
Proof. intro pos. apply lineSystem_rows; lia. Qed.

End Systems2D.

(** ** Zero borders *)

Section Border.
Context {N : Number}.
Notation "l .[ i ]" := (aget undef l i) (at level 1, format "l .[ i ]").

Lemma forwardEuler2D_zeroBorder (u : matrix) (rx ry : num) :
  u <> [] ->
  exists res, forwardEuler2D u rx ry = Some res
              /\ zeroBorder (length u) (length (hd [] u)) res.
Proof.
  intro ne. destruct u as [| row0 rest]; [congruence |].
  eexists. split; [reflexivity |].
  set (Nx := length (row0 :: rest)). set (Ny := length (hd [] (row0 :: rest))).
  change (length row0) with Ny.
  split.
  - apply for_up_shaped; [| apply zeros2_shaped].
    intros i m range sh. apply for_up_shaped; [| exact sh].
    intros j m' range' sh'. apply mset_shaped; [exact sh' | lia | lia].
  - intros i j li lj bd.
    set (f := fun i j : nat =>
      add (add (mget (row0 :: rest) i j)
               (mul rx (add (sub (mget (row0 :: rest) (i + 1) j)
                                 (mul two (mget (row0 :: rest) i j)))
                            (mget (row0 :: rest) (i - 1) j))))
          (mul ry (add (sub (mget (row0 :: rest) i (j + 1))
                            (mul two (mget (row0 :: rest) i j)))
                       (mget (row0 :: rest) i (j - 1))))).
    rewrite (for_up_mget (fun i _ => i)
               (fun _ j => (1 <=? j) && (j <? Ny - 1)) (fun i _ j => f i j)).
    + unfold border in bd.
      destruct (Nat.leb_spec 1 i), (Nat.ltb_spec i (Nx - 1)),
        (Nat.leb_spec 1 j), (Nat.ltb_spec j (Ny - 1)); cbn [andb];
        try (apply mget_zeros2; assumption).
      destruct (Nat.eqb_spec i 0), (Nat.eqb_spec i (Nx - 1)),
        (Nat.eqb_spec j 0), (Nat.eqb_spec j (Ny - 1)); try lia; discriminate.
    + intros k m i1 j1 _.
      rewrite (for_up_mget (fun _ j => j) (fun i _ => i =? k)
                 (fun j _ _ => f k j)).
      * rewrite (andb_comm (i1 =? k)).
        destruct (Nat.eqb_spec i1 k) as [-> | ne1]; [reflexivity |].
        rewrite !andb_false_r. reflexivity.
      * intros k' m' i2 j2 _. rewrite mget_mset.
        rewrite (Nat.eqb_sym k i2), (Nat.eqb_sym k' j2), andb_comm.
        reflexivity.
Qed.

End Border.

Section BorderImplicit.
Context {N : Number} {E : Exact N}.
Notation "l .[ i ]" := (aget undef l i) (at level 1, format "l .[ i ]").

(** After a sweep over columns whose line systems have Dirichlet rows, the
    first and the last row of the field are zero. *)
Lemma sweepColumns_outer_rows (nx ny lo hi : nat) (sys : nat -> system) :
  1 <= nx -> hi <= ny ->
  (forall j, lo <= j < hi ->
     exists off diag rhs, dirichletSystem nx off diag rhs (sys j)) ->
  let m := for_up lo hi (fun j m => storeColumn nx j (solve (sys j)) m)
             (zeros2 nx ny) in
  shaped nx ny m
  /\ forall j, j < ny -> mget m 0 j = zero /\ mget m (nx - 1) j = zero.
Proof.
  intros pos lh rows m. split.
  - apply sweepColumns_shaped; [lia | exact lh | apply zeros2_shaped].
  - intros j lj. unfold m. rewrite !sweepColumns_mget.
    destruct (Nat.leb_spec lo j), (Nat.ltb_spec j hi); cbn [andb];
      try (split; apply mget_zeros2; lia).
    destruct (rows j) as (off & diag & rhs & sysj); [lia |].
    destruct (dirichletSystem_boundary nx off diag rhs (sys j) sysj pos)
      as (_ & first & last).
    destruct (Nat.ltb_spec 0 nx), (Nat.ltb_spec (nx - 1) nx); try lia.
    split; assumption.
Qed.

(** After a sweep over the rows [lo .. hi - 1] whose line systems have
    Dirichlet rows, the border of the field is zero, provided the systems
    of the rows [0] and [nx - 1], when the sweep covers them, have a zero
    right-hand side. *)
Lemma sweepRows_zeroBorder (nx ny lo hi : nat) (sys : nat -> system) :
  1 <= nx -> hi <= nx ->
  (forall i, lo <= i < hi -> 1 <= ny ->
     exists off diag rhs, dirichletSystem ny off diag rhs (sys i)) ->
  (forall i, lo <= i < hi -> i = 0 \/ i = nx - 1 ->
     forall k, k < ny -> (sd (sys i)).[k] = zero) ->
  zeroBorder nx ny
    (for_up lo hi (fun i m => storeRow ny i (solve (sys i)) m) (zeros2 nx ny)).
Proof.
  intros pos lh rows outer. split.
  - apply sweepRows_shaped; [lia | exact lh | apply zeros2_shaped].
  - intros i j li lj bd. rewrite sweepRows_mget.
    destruct (Nat.leb_spec lo i), (Nat.ltb_spec i hi); cbn [andb];
      try (apply mget_zeros2; assumption).
    destruct (Nat.ltb_spec j ny); [| lia].
    destruct (rows i) as (off & diag & rhs & sysi); [lia | lia |].
    assert (py : 1 <= ny) by lia.
    destruct (dirichletSystem_boundary ny off diag rhs (sys i) sysi py)
      as (_ & first & last).
    unfold border in bd.
    destruct (Nat.eqb_spec j 0) as [-> | nj0]; [exact first |].
    destruct (Nat.eqb_spec j (ny - 1)) as [-> | njl]; [exact last |].
    assert (io : i = 0 \/ i = nx - 1).
    { destruct (Nat.eqb_spec i 0), (Nat.eqb_spec i (nx - 1)); auto.
      discriminate. }
    unfold solve. apply thomasAlgorithm_zero.
    + destruct sysi as (len & _). rewrite len.
      intros k lk. apply outer; [lia | exact io | exact lk].
    + destruct sysi as (len & _). rewrite len. exact lj.
Qed.

Lemma backwardEulerADI_zeroBorder (u : matrix) (rx ry : num) :
  u <> [] ->
  exists res, backwardEulerADI u rx ry = Some res
              /\ zeroBorder (length u) (length (hd [] u)) res.
Proof.
  intro ne. destruct u as [| row0 rest]; [congruence |].
  eexists. split; [reflexivity |].
  apply sweepRows_zeroBorder.
  - simpl. lia.
  - simpl. lia.
  - intros i range py. do 3 eexists. apply beY_system_rows. exact py.
  - intros i range io. exfalso. simpl in range, io. lia.
Qed.

Lemma crankNicolsonADI_zeroBorder (u : matrix) (rx ry : num) :
  u <> [] ->
  exists res, crankNicolsonADI u rx ry = Some res
              /\ zeroBorder (length u) (length (hd [] u)) res.
Proof.
  intro ne. destruct u as [| row0 rest]; [congruence |].
  eexists. split; [reflexivity |].
  apply sweepRows_zeroBorder.
  - simpl. lia.
  - simpl. lia.
  - intros i range py. do 3 eexists. apply cnY_system_rows. exact py.
  - intros i range io. exfalso. simpl in range, io. lia.
Qed.

Lemma backwardEuler2D_ADI_zeroBorder (u : matrix) (rx ry : num) :
  u <> [] ->
  exists res, backwardEuler2D_ADI u rx ry = Some res
              /\ zeroBorder (length u) (length (hd [] u)) res.
Proof.
  intro ne. destruct u as [| row0 rest]; [congruence |].
  eexists. split; [reflexivity |].
  set (Nx := length (row0 :: rest)). set (Ny := length row0).
  assert (pos : 1 <= Nx) by (unfold Nx; simpl; lia).
  change (length (hd [] (row0 :: rest))) with Ny.
  destruct (sweepColumns_outer_rows Nx Ny 0 Ny
              (fun j => beX_system_unified (row0 :: rest) rx Nx j) pos (le_n Ny))
    as (_ & half).
  { intros j _. do 3 eexists. apply beX_system_unified_rows. exact pos. }
  apply sweepRows_zeroBorder; [exact pos | apply le_n | |].
  - intros i range py. do 3 eexists. apply beY_system_unified_rows. exact py.
  - intros i range io k lk. cbv zeta.
    assert (py : 1 <= Ny) by lia.
    destruct (beY_system_unified_rows
                (for_up 0 Ny
                   (fun j m =>
                      storeColumn Nx j
                        (solve (beX_system_unified (row0 :: rest) rx Nx j)) m)
                   (zeros2 Nx Ny)) ry Ny i py) as (_ & rows).
    destruct (rows k lk) as (_ & _ & _ & dk). rewrite dk.
    destruct ((k =? 0) || (k =? Ny - 1)); [reflexivity |].
    destruct io as [-> | ->]; apply half; exact lk.
Qed.

Lemma crankNicolson2D_ADI_zeroBorder (u : matrix) (rx ry : num) :
  u <> [] ->
  exists res, crankNicolson2D_ADI u rx ry = Some res
              /\ zeroBorder (length u) (length (hd [] u)) res.
Proof.
  intro ne. destruct u as [| row0 rest]; [congruence |].
  eexists. split; [reflexivity |].
  set (Nx := length (row0 :: rest)). set (Ny := length row0).
  assert (pos : 1 <= Nx) by (unfold Nx; simpl; lia).
  change (length (hd [] (row0 :: rest))) with Ny.
  destruct (sweepColumns_outer_rows Nx Ny 0 Ny
              (fun j => cnX_system_unified (row0 :: rest) rx Nx j) pos (le_n Ny))
    as (_ & half).
  { intros j _. do 3 eexists. apply cnX_system_unified_rows. exact pos. }
  apply sweepRows_zeroBorder; [exact pos | apply le_n | |].
  - intros i range py. do 3 eexists. apply cnY_system_unified_rows. exact py.
  - intros i range io k lk. cbv zeta.
    assert (py : 1 <= Ny) by lia.
    destruct (cnY_system_unified_rows
                (for_up 0 Ny
                   (fun j m =>
                      storeColumn Nx j
                        (solve (cnX_system_unified (row0 :: rest) rx Nx j)) m)
                   (zeros2 Nx Ny)) ry Ny i py) as (_ & rows).
    destruct (rows k lk) as (_ & _ & _ & dk). rewrite dk.
    destruct (Nat.eqb_spec k 0) as [-> | k0]; [reflexivity |].
    destruct (Nat.eqb_spec k (Ny - 1)) as [-> | kl]; [reflexivity |].
    cbn [orb]. unfold crankY.
    assert (z : forall k', k' < Ny ->
              mget (for_up 0 Ny
                      (fun j m =>
                         storeColumn Nx j
                           (solve (cnX_system_unified (row0 :: rest) rx Nx j)) m)
                      (zeros2 Nx Ny)) i k' = zero).
    { intros k' lk'. destruct io as [-> | ->]; apply half; exact lk'. }
    rewrite !z by lia. to_real. lra.
Qed.

End BorderImplicit.

(** ** C1: the boundary stays zero *)



(** ** C6: the fields right after a reset *)

Section Fidelity.
Context {N : Number} {E : Exact N} {F : MathFns N} {ML : MathLaws N F}.

Lemma decay_at_zero (arg : num) : toR arg = 0%R -> Math_exp arg = one.
Proof.
  intro z. assert (eq : arg = zero) by (apply toR_inj; rewrite toR_zero; exact z).
  rewrite eq. apply Math_exp_zero.
Qed.

Lemma mul_one_r (v : num) : mul v one = v.
Proof. to_real. ring. Qed.

Lemma getAnalyticalSolution_zero (c : config) (xs : list num) :
  getAnalyticalSolution c xs zero = getSineIC c xs.
Proof.
  unfold getAnalyticalSolution, getSineIC.
  rewrite decay_at_zero by (autorewrite with toR; unfold Rdiv; ring).
  apply map_ext. intro xi. apply mul_one_r.
Qed.

Lemma tabulate2_ext (nx ny : nat) (f g : nat -> nat -> num) :
  (forall i j, f i j = g i j) -> tabulate2 nx ny f = tabulate2 nx ny g.
Proof.
  intro eq. unfold tabulate2. apply for_up_ext. intros i acc _.
  apply for_up_ext. intros j acc' _. rewrite eq. reflexivity.
Qed.

Lemma getAnalyticalSolution2D_zero (c : config) (xs ys : list num) :
  getAnalyticalSolution2D c xs ys zero = getSineIC2D xs ys.
Proof.
  unfold getAnalyticalSolution2D, getSineIC2D.
  rewrite decay_at_zero by (autorewrite with toR; ring).
  apply tabulate2_ext. intros i j. apply mul_one_r.
Qed.

(** C6.  In exact arithmetic with [Math.exp(0) = 1], right after a reset
    the numerical field is the initial condition on the grid and the
    analytical field is equal to it, entry by entry, in 1D and in 2D and
    in each explorer, for every configuration. *)
Theorem fields_agree_after_reset :
  (forall w : Explorer1D.world,
     let s := Explorer1D.st (Explorer1D.reset w) in
     Explorer1D.u s = getSineIC (Explorer1D.cfg w) (Explorer1D.x s)
     /\ Explorer1D.uExact s = Explorer1D.u s
     /\ Explorer1D.t s = zero)
  /\ (forall w : Explorer2D.world,
        let s := Explorer2D.st (Explorer2D.initSimulation w) in
        let s' := Explorer2D.st (Explorer2D.reset w) in
        (Explorer2D.u s = getSineIC2D (Explorer2D.x s) (Explorer2D.y s)
         /\ Explorer2D.uExact s = Explorer2D.u s
         /\ Explorer2D.t s = zero)
        /\ (Explorer2D.u s' = getSineIC2D (Explorer2D.x s') (Explorer2D.y s')
            /\ Explorer2D.uExact s' = Explorer2D.u s'
            /\ Explorer2D.t s' = zero))
  /\ (forall c : config,
        let s1 := Unified.initSimulation1D c in
        let s2 := Unified.initSimulation2D c in
        (Unified.u1 s1 = getSineIC c (Unified.x1 s1)
         /\ Unified.uExact1 s1 = Unified.u1 s1
         /\ Unified.t1 s1 = zero)
        /\ (Unified.u s2 = getSineIC2D (Unified.x s2) (Unified.y s2)
            /\ Unified.uExact s2 = Unified.u s2
            /\ Unified.t s2 = zero)).
Proof.
  split; [| split].
  - intro w. cbn. repeat split. apply getAnalyticalSolution_zero.
  - intro w. cbn. repeat split; apply getAnalyticalSolution2D_zero.
  - intro c. cbn. repeat split;
      [apply getAnalyticalSolution_zero | apply getAnalyticalSolution2D_zero].
Qed.

End Fidelity.

Lemma RMathLaws : MathLaws RNumber RMath.
Proof.
  constructor. cbn. unfold Q2R. cbn. rewrite Rinv_1, Rmult_0_l, Rmult_1_l.
  apply exp_0.
Qed.

Lemma fields_agree_after_reset_witness :
  let c := @Build_config RNumber 1%R (1 / 100)%R 3 (1 / 1000)%R 2%R
             "forward-euler"%string 5 in
  Unified.uExact1 (Unified.initSimulation1D (N := RNumber) (F := RMath) c)
  = Unified.u1 (Unified.initSimulation1D (N := RNumber) (F := RMath) c).
Proof.
  intro c.
  apply (fields_agree_after_reset (N := RNumber) (E := RExact) (F := RMath)
           (ML := RMathLaws)).
Defined.

(** ** C8: the operation-cost estimate *)

Section Cost.
Context {N : Number} {E : Exact N} {F : MathFns N}.

Lemma knownMethod_cases (m : string) :
  Explorer1D.knownMethod m = true ->
  m = "forward-euler"%string \/ m = "backward-euler"%string
  \/ m = "crank-nicolson"%string.
Proof.
  unfold Explorer1D.knownMethod. intro k.
  apply orb_true_iff in k. destruct k as [k | k].
  - apply orb_true_iff in k. destruct k as [k | k]; apply String.eqb_eq in k; auto.
  - apply String.eqb_eq in k. auto.
Qed.

Lemma toR_cost (z : Z) (n : nat) (k : Z) :
  toR (mul (ofZ z) (sub (ofNat n) (ofZ k))) = IZR (z * (Z.of_nat n - k)).
Proof.
  autorewrite with toR. rewrite mult_IZR, minus_IZR, <- INR_IZR_INZ. reflexivity.
Qed.

Lemma toR_cost_lin (z : Z) (n : nat) :
  toR (mul (ofZ z) (ofNat n)) = IZR (z * Z.of_nat n).
Proof.
  autorewrite with toR. rewrite mult_IZR, <- INR_IZR_INZ. reflexivity.
Qed.

Lemma toR_cost_sq (z : Z) (n : nat) :
  toR (mul (mul (ofZ z) (ofNat n)) (ofNat n)) = IZR (z * Z.of_nat n * Z.of_nat n).
Proof.
  autorewrite with toR. rewrite !mult_IZR, <- INR_IZR_INZ. reflexivity.
Qed.

Lemma toR_cost_sq2 (z : Z) (n : nat) :
  toR (mul (mul (ofZ z) (sub (ofNat n) two)) (sub (ofNat n) two))
  = IZR (z * (Z.of_nat n - 2) * (Z.of_nat n - 2)).
Proof.
  autorewrite with toR. rewrite !mult_IZR, !minus_IZR, <- INR_IZR_INZ.
  reflexivity.
Qed.

Lemma timeStep1D_cost (w : Explorer1D.world) :
  Explorer1D.knownMethod (method (Explorer1D.cfg w)) = true ->
  toR (Explorer1D.flops (Explorer1D.st (Explorer1D.timeStep w)))
  = (toR (Explorer1D.flops (Explorer1D.st w))
     + IZR (stepCost1D (method (Explorer1D.cfg w))
              (Z.of_nat (Nx (Explorer1D.cfg w)))))%R.
Proof.
  intro k. unfold Explorer1D.timeStep, Explorer1D.stepNumerical, stepCost1D.
  destruct (knownMethod_cases _ k) as [-> | [-> | ->]]; cbn;
    rewrite toR_add; f_equal;
    first [apply (toR_cost 5 _ 2) | apply toR_cost_lin].
Qed.

Lemma unified_timeStep1D_cost (c : config) (s : Unified.state1d) :
  Explorer1D.knownMethod (method c) = true ->
  toR (Unified.flops1 (Unified.timeStep1D c s))
  = (toR (Unified.flops1 s) + IZR (stepCost1D (method c) (Z.of_nat (Nx c))))%R.
Proof.
  intro k. unfold Unified.timeStep1D, Unified.stepNumerical1D, stepCost1D.
  destruct (knownMethod_cases _ k) as [-> | [-> | ->]]; cbn;
    rewrite toR_add; f_equal;
    first [apply (toR_cost 5 _ 2) | apply toR_cost_lin].
Qed.

Lemma timeStep2D_cost (w w' : Explorer2D.world) :
  Explorer1D.knownMethod (method (Explorer2D.cfg w)) = true ->
  Explorer2D.timeStep w = Some w' ->
  toR (Explorer2D.flops (Explorer2D.st w'))
  = (toR (Explorer2D.flops (Explorer2D.st w))
     + IZR (stepCost2D (method (Explorer2D.cfg w))
              (Z.of_nat (Nx (Explorer2D.cfg w)))))%R.
Proof.
  intros k. unfold Explorer2D.timeStep, Explorer2D.stepNumerical, stepCost2D.
  destruct (knownMethod_cases _ k) as [-> | [-> | ->]]; cbn;
    match goal with
    | |- option_map _ (option_map _ ?o) = _ -> _ => destruct o as [res |]
    end; cbn; intro eq; inversion eq; subst w'; cbn;
    rewrite toR_add; f_equal; apply toR_cost_sq.
Qed.

Lemma unified_timeStep2D_cost (c : config) (s s' : Unified.state2d) :
  Explorer1D.knownMethod (method c) = true ->
  Unified.timeStep2D c s = Some s' ->
  toR (Unified.flops s')
  = (toR (Unified.flops s)
     + IZR (stepCost2D_unified (method c) (Z.of_nat (Nx c))))%R.
Proof.
  intros k. unfold Unified.timeStep2D, Unified.stepNumerical2D, stepCost2D_unified.
  destruct (knownMethod_cases _ k) as [-> | [-> | ->]]; cbn;
    match goal with
    | |- option_map _ (option_map _ ?o) = _ -> _ => destruct o as [res |]
    end; cbn; intro eq; inversion eq; subst s'; cbn;
    rewrite toR_add; f_equal;
    first [apply toR_cost_sq2 | apply toR_cost_sq].
Qed.

End Cost.

Lemma stepCost_forward (n : Z) :
  stepCost1D "forward-euler" n = (5 * (n - 2))%Z
  /\ stepCost2D "forward-euler" n = (10 * n * n)%Z
  /\ stepCost2D_unified "forward-euler" n = (9 * (n - 2) * (n - 2))%Z.
Proof. repeat split. Qed.

Lemma stepCost_backward (n : Z) :
  stepCost1D "backward-euler" n = (8 * n)%Z
  /\ stepCost2D "backward-euler" n = (16 * n * n)%Z
  /\ stepCost2D_unified "backward-euler" n = (16 * n * n)%Z.
Proof. repeat split. Qed.

Lemma stepCost_crank (n : Z) :
  stepCost1D "crank-nicolson" n = (12 * n)%Z
  /\ stepCost2D "crank-nicolson" n = (24 * n * n)%Z
  /\ stepCost2D_unified "crank-nicolson" n = (24 * n * n)%Z.
Proof. repeat split. Qed.

Section CostTotal.
Context {N : Number} {E : Exact N} {F : MathFns N}.

Lemma timeStep2D_total (w : Explorer2D.world) :
  Explorer2D.u (Explorer2D.st w) <> [] ->
  exists w', Explorer2D.timeStep w = Some w'.
Proof.
  intro ne. unfold Explorer2D.timeStep, Explorer2D.stepNumerical.
  destruct (forwardEuler2D_zeroBorder _ (Explorer2D.rx (Explorer2D.st w))
              (Explorer2D.ry (Explorer2D.st w)) ne) as (r1 & e1 & _).
  destruct (backwardEulerADI_zeroBorder _ (Explorer2D.rx (Explorer2D.st w))
              (Explorer2D.ry (Explorer2D.st w)) ne) as (r2 & e2 & _).
  destruct (crankNicolsonADI_zeroBorder _ (Explorer2D.rx (Explorer2D.st w))
              (Explorer2D.ry (Explorer2D.st w)) ne) as (r3 & e3 & _).
  rewrite e1, e2, e3.
  repeat match goal with
         | |- context [if ?b then _ else _] => destruct b
         end; cbn; eexists; reflexivity.
Qed.

Lemma unified_timeStep2D_total (c : config) (s : Unified.state2d) :
  Unified.u s <> [] -> exists s', Unified.timeStep2D c s = Some s'.
Proof.
  intro ne. unfold Unified.timeStep2D, Unified.stepNumerical2D.
  destruct (forwardEuler2D_zeroBorder _ (Unified.rx s) (Unified.ry s) ne)
    as (r1 & e1 & _).
  destruct (backwardEuler2D_ADI_zeroBorder _ (Unified.rx s) (Unified.ry s) ne)
    as (r2 & e2 & _).
  destruct (crankNicolson2D_ADI_zeroBorder _ (Unified.rx s) (Unified.ry s) ne)
    as (r3 & e3 & _).
  rewrite e1, e2, e3.
  repeat match goal with
         | |- context [if ?b then _ else _] => destruct b
         end; cbn; eexists; reflexivity.
Qed.

Lemma stepCost_positive (m : string) (n : Z) :
  Explorer1D.knownMethod m = true -> (3 <= n)%Z ->
  (0 < stepCost1D m n)%Z /\ (0 < stepCost2D m n)%Z
  /\ (0 < stepCost2D_unified m n)%Z.
Proof.
  intros k big.
  destruct (knownMethod_cases m k) as [-> | [-> | ->]].
  - destruct (stepCost_forward n) as (-> & -> & ->). nia.
  - destruct (stepCost_backward n) as (-> & -> & ->). nia.
  - destruct (stepCost_crank n) as (-> & -> & ->). nia.
Qed.

Lemma grows (old new : R) (cost : Z) :
  new = (old + IZR cost)%R -> (0 < cost)%Z -> (old < new)%R.
Proof.
  intros -> pos. apply IZR_lt in pos. lra.
Qed.

(** C8.  In exact arithmetic, for each of the three methods a step adds
    to the cumulative operation-cost estimate an amount that depends only
    on the method and on the number [n] of grid points per direction, not
    on the state or the step index: [5 (n - 2)], [8 n], [12 n] in 1D;
    [10 n^2], [16 n^2], [24 n^2] in the 2D explorer; [9 (n - 2)^2],
    [16 n^2], [24 n^2] in the 2D mode of the unified explorer.  For
    [n >= 3] the amount is positive and the estimate after the step is
    strictly larger than before it; as a function of [n] the amount is
    [c (n - k)] in 1D and [c (n - k)^2] in 2D, with [c > 0]. *)
Theorem operation_cost_increases :
  (forall w : Explorer1D.world,
     Explorer1D.knownMethod (method (Explorer1D.cfg w)) = true ->
     toR (Explorer1D.flops (Explorer1D.st (Explorer1D.timeStep w)))
     = (toR (Explorer1D.flops (Explorer1D.st w))
        + IZR (stepCost1D (method (Explorer1D.cfg w))
                 (Z.of_nat (Nx (Explorer1D.cfg w)))))%R
     /\ (3 <= Nx (Explorer1D.cfg w) ->
         (toR (Explorer1D.flops (Explorer1D.st w))
          < toR (Explorer1D.flops (Explorer1D.st (Explorer1D.timeStep w))))%R))
  /\ (forall (c : config) (s : Unified.state1d),
        Explorer1D.knownMethod (method c) = true ->
        toR (Unified.flops1 (Unified.timeStep1D c s))
        = (toR (Unified.flops1 s)
           + IZR (stepCost1D (method c) (Z.of_nat (Nx c))))%R
        /\ (3 <= Nx c ->
            (toR (Unified.flops1 s)
             < toR (Unified.flops1 (Unified.timeStep1D c s)))%R))
  /\ (forall w : Explorer2D.world,
        Explorer1D.knownMethod (method (Explorer2D.cfg w)) = true ->
        Explorer2D.u (Explorer2D.st w) <> [] ->
        exists w', Explorer2D.timeStep w = Some w'
          /\ toR (Explorer2D.flops (Explorer2D.st w'))
             = (toR (Explorer2D.flops (Explorer2D.st w))
                + IZR (stepCost2D (method (Explorer2D.cfg w))
                         (Z.of_nat (Nx (Explorer2D.cfg w)))))%R
          /\ (3 <= Nx (Explorer2D.cfg w) ->
              (toR (Explorer2D.flops (Explorer2D.st w))
               < toR (Explorer2D.flops (Explorer2D.st w')))%R))
  /\ (forall (c : config) (s : Unified.state2d),
        Explorer1D.knownMethod (method c) = true ->
        Unified.u s <> [] ->
        exists s', Unified.timeStep2D c s = Some s'
          /\ toR (Unified.flops s')
             = (toR (Unified.flops s)
                + IZR (stepCost2D_unified (method c) (Z.of_nat (Nx c))))%R
          /\ (3 <= Nx c -> (toR (Unified.flops s) < toR (Unified.flops s'))%R))
  /\ (forall (m : string) (n : Z),
        Explorer1D.knownMethod m = true -> (3 <= n)%Z ->
        (0 < stepCost1D m n)%Z /\ (0 < stepCost2D m n)%Z
        /\ (0 < stepCost2D_unified m n)%Z)
  /\ (forall m : string,
        Explorer1D.knownMethod m = true ->
        (exists c k, (0 < c)%Z /\ forall n, stepCost1D m n = (c * (n - k))%Z)
        /\ (exists c k, (0 < c)%Z
                        /\ forall n, stepCost2D m n = (c * (n - k) * (n - k))%Z)
        /\ (exists c k, (0 < c)%Z
                        /\ forall n,
                             stepCost2D_unified m n = (c * (n - k) * (n - k))%Z)).
Proof.
  split.
  { intros w k. pose proof (timeStep1D_cost w k) as eq.
    split; [exact eq |]. intro big. apply (grows _ _ _ eq).
    apply stepCost_positive; [exact k | lia]. }
  split.
  { intros c s k. pose proof (unified_timeStep1D_cost c s k) as eq.
    split; [exact eq |]. intro big. apply (grows _ _ _ eq).
    apply stepCost_positive; [exact k | lia]. }
  split.
  { intros w k ne. destruct (timeStep2D_total w ne) as (w' & run).
    pose proof (timeStep2D_cost w w' k run) as eq.
    exists w'. split; [exact run |]. split; [exact eq |].
    intro big. apply (grows _ _ _ eq).
    apply stepCost_positive; [exact k | lia]. }
  split.
  { intros c s k ne. destruct (unified_timeStep2D_total c s ne) as (s' & run).
    pose proof (unified_timeStep2D_cost c s s' k run) as eq.
    exists s'. split; [exact run |]. split; [exact eq |].
    intro big. apply (grows _ _ _ eq).
    apply stepCost_positive; [exact k | lia]. }
  split; [exact stepCost_positive |].
  intros m k.
  destruct (knownMethod_cases m k) as [-> | [-> | ->]].
  - split; [exists 5%Z, 2%Z | split; [exists 10%Z, 0%Z | exists 9%Z, 2%Z]];
      (split; [lia | intro n; destruct (stepCost_forward n) as (e1 & e2 & e3);
                     rewrite ?e1, ?e2, ?e3; ring]).
  - split; [exists 8%Z, 0%Z | split; [exists 16%Z, 0%Z | exists 16%Z, 0%Z]];
      (split; [lia | intro n; destruct (stepCost_backward n) as (e1 & e2 & e3);
                     rewrite ?e1, ?e2, ?e3; ring]).
  - split; [exists 12%Z, 0%Z | split; [exists 24%Z, 0%Z | exists 24%Z, 0%Z]];
      (split; [lia | intro n; destruct (stepCost_crank n) as (e1 & e2 & e3);
                     rewrite ?e1, ?e2, ?e3; ring]).
Qed.

End CostTotal.

Lemma operation_cost_increases_witness :
  let c := @Build_config RNumber 1%R (1 / 100)%R 3 (1 / 1000)%R 2%R
             "backward-euler"%string 5 in
  let s := Unified.initSimulation1D (N := RNumber) (F := RMath) c in
  toR (Unified.flops1 (Unified.timeStep1D (N := RNumber) (F := RMath) c s))
  = (toR (Unified.flops1 s) + 24)%R
  /\ (toR (Unified.flops1 s)
      < toR (Unified.flops1 (Unified.timeStep1D (N := RNumber) (F := RMath) c s)))%R.
Proof.
  intros c s.
  destruct (proj1 (proj2 (operation_cost_increases (N := RNumber) (E := RExact)
                            (F := RMath))) c s) as (eq & lt).
  - reflexivity.
  - split; [exact eq | apply lt; simpl; lia].
Defined.

(** ** C4: configurations are not validated *)

Section Configuration.
Context {N : Number} {E : Exact N} {F : MathFns N}.



End Configuration.



(** ** C7: the maximum relative error *)

Section RunningMax.
Context {N : Number} {E : Exact N}.

Lemma toR_numMax (x y : num) : toR (numMax x y) = Rmax (toR x) (toR y).
Proof.
  unfold numMax. destruct (ltb x y) eqn:lt.
  - apply ltb_spec in lt. rewrite Rmax_right; lra.
  - apply ltb_false in lt. rewrite Rmax_left; lra.
Qed.

Lemma toR_maxOver (vals : list num) :
  toR (maxOver vals) = fold_right Rmax 0%R (map toR vals).
Proof.
  induction vals as [| v vals IH]; simpl.
  - apply toR_zero.
  - rewrite toR_numMax, IH. reflexivity.
Qed.

(** [maxOver] is an upper bound, and it is one of the values or [0]. *)
Lemma maxOver_spec (vals : list num) :
  (forall v, In v vals -> (toR v <= toR (maxOver vals))%R)
  /\ (0 <= toR (maxOver vals))%R
  /\ (maxOver vals = zero \/ In (maxOver vals) vals).
Proof.
  induction vals as [| v vals (ub & pos & att)]; simpl.
  - split; [intros v [] |]. split; [rewrite toR_zero; lra | left; reflexivity].
  - destruct (ltb v (maxOver vals)) eqn:lt;
      [assert (eq : numMax v (maxOver vals) = maxOver vals)
         by (unfold numMax; rewrite lt; reflexivity)
      | assert (eq : numMax v (maxOver vals) = v)
         by (unfold numMax; rewrite lt; reflexivity)];
      rewrite eq.
    + apply ltb_spec in lt. split; [| split].
      * intros w [<- | inw]; [lra | apply ub; exact inw].
      * exact pos.
      * destruct att as [z | inm]; [left; exact z | right; right; exact inm].
    + apply ltb_false in lt. split; [| split].
      * intros w [<- | inw]; [lra | specialize (ub w inw); lra].
      * lra.
      * right. left. reflexivity.
Qed.

Lemma fold_left_Rmax_ge (l : list R) (a : R) : (a <= fold_left Rmax l a)%R.
Proof.
  revert a. induction l as [| x l IH]; intro a; simpl; [lra |].
  apply Rle_trans with (Rmax a x); [apply Rmax_l | apply IH].
Qed.

Lemma fold_Rmax_symmetric (l : list R) :
  fold_left Rmax l 0%R = fold_right Rmax 0%R l.
Proof.
  apply fold_symmetric.
  - intros x y z. apply Rmax_assoc.
  - intro y. apply Rmax_comm.
Qed.

Lemma gridValues_S (n m : nat) (f : nat -> nat -> num) :
  gridValues (S n) m f = gridValues n m f ++ map (f n) (seq 0 m).
Proof.
  unfold gridValues. rewrite seq_S, flat_map_app. simpl.
  rewrite app_nil_r. reflexivity.
Qed.

(** Two nested loops over a grid whose cell update takes the running
    maximum of a field with a value compute [maxOver] of these values. *)
Lemma nested_running_max {S : Type} (n m : nat) (cell : nat -> nat -> S -> S)
    (proj : S -> num) (val : nat -> nat -> num) (s0 : S) :
  toR (proj s0) = 0%R ->
  (forall i j s, (0 <= toR (proj s))%R ->
     toR (proj (cell i j s)) = Rmax (toR (proj s)) (toR (val i j))) ->
  proj (for_up 0 n (fun i s => for_up 0 m (fun j s => cell i j s) s) s0)
  = maxOver (gridValues n m val).
Proof.
  intros init step. apply toR_inj.
  rewrite toR_maxOver, <- fold_Rmax_symmetric.
  apply (for_up_invariant
           (fun i s => toR (proj s)
                       = fold_left Rmax (map toR (gridValues i m val)) 0%R));
    [lia | exact init |].
  intros i s _ inv.
  rewrite gridValues_S, map_app, fold_left_app, <- inv.
  apply (for_up_invariant
           (fun j s' => toR (proj s')
                        = fold_left Rmax (map toR (map (val i) (seq 0 j)))
                            (toR (proj s))));
    [lia | reflexivity |].
  intros j s' _ inv'.
  rewrite seq_S, !map_app, fold_left_app, <- inv'. simpl.
  apply step. rewrite inv', inv.
  apply Rle_trans with (fold_left Rmax (map toR (gridValues i m val)) 0%R);
    apply fold_left_Rmax_ge.
Qed.

End RunningMax.

Section RelativeErrorFacts.
Context {N : Number} {E : Exact N} {F : MathFns N}.

Lemma toR_pick (x acc : num) :
  toR (if gtb x acc then x else acc) = Rmax (toR acc) (toR x).
Proof.
  destruct (gtb x acc) eqn:gt.
  - apply gtb_spec in gt. rewrite Rmax_right; lra.
  - apply gtb_false in gt. rewrite Rmax_left; lra.
Qed.

Lemma errorLoop_maxError (n : nat) (u uExact : matrix) :
  Explorer2D.accMaxError (Explorer2D.errorLoop n u uExact)
  = maxOver (gridValues n n (absError u uExact)).
Proof.
  unfold Explorer2D.errorLoop. apply nested_running_max.
  - cbn. apply toR_zero.
  - intros i j s _. unfold Explorer2D.errorCell.
    rewrite !isFinite_true. cbn [andb].
    destruct (gtb (abs (mget uExact i j)) _); cbn [Explorer2D.accMaxError];
      apply toR_pick.
Qed.

Lemma errorLoop_maxUExact (n : nat) (u uExact : matrix) :
  Explorer2D.maxUExact (Explorer2D.errorLoop n u uExact)
  = maxOver (gridValues n n (absExact uExact)).
Proof.
  unfold Explorer2D.errorLoop. apply nested_running_max.
  - cbn. apply toR_zero.
  - intros i j s _. unfold Explorer2D.errorCell.
    rewrite !isFinite_true. cbn [andb Explorer2D.maxUExact].
    destruct (gtb (abs (mget uExact i j)) (Explorer2D.maxUExact s)) eqn:gt;
      cbn [Explorer2D.maxUExact]; unfold absExact.
    + apply gtb_spec in gt. rewrite Rmax_right; lra.
    + apply gtb_false in gt. rewrite Rmax_left; lra.
Qed.

Lemma unified_errorLoop_maxRelErr (nx ny : nat) (u uExact : matrix) :
  Unified.maxRelErr (Unified.errorLoop nx ny u uExact)
  = pointwiseMaxRelError nx ny u uExact.
Proof.
  unfold Unified.errorLoop, pointwiseMaxRelError. apply nested_running_max.
  - cbn. apply toR_zero.
  - intros i j s pos. unfold Unified.errorCell.
    rewrite isFinite_true. cbn [Unified.maxRelErr].
    destruct (gtb (abs (mget uExact i j)) (lit (1 # 10000000000))).
    + apply toR_pick.
    + rewrite toR_zero, Rmax_left; lra.
Qed.

(** C7, as the code has it.  In exact arithmetic: the status update of
    the 2D explorer reports [100 * (max error / max |uExact|)], both maxima
    taken over the grid, and [0] when [max |uExact|] is at most [1e-9];
    the status update of the unified explorer reports the largest
    pointwise relative error [100 |u - uExact| / |uExact|] over the grid
    points where [|uExact|] exceeds [1e-10]. *)
Theorem max_relative_error_2d :
  (forall (n : nat) (u uExact : matrix),
     n <= length u -> n <= length uExact ->
     exists m, Explorer2D.errorMetrics n u uExact = Some m
       /\ maxError m = maxOver (gridValues n n (absError u uExact))
       /\ maxRelError m = claimedMaxRelError n u uExact
       /\ ((toR (maxOver (gridValues n n (absExact uExact))) <= / 1000000000)%R ->
           maxRelError m = zero))
  /\ (forall u uExact : matrix,
        u <> [] -> length u <= length uExact ->
        exists m, Unified.errorMetrics u uExact = Some m
          /\ maxRelError m
             = pointwiseMaxRelError (length u) (length (hd [] u)) u uExact).
Proof.
  split.
  - intros n u uExact lu le. unfold Explorer2D.errorMetrics.
    apply Nat.leb_le in lu. apply Nat.leb_le in le. rewrite lu, le. cbn [andb].
    eexists. split; [reflexivity |]. cbn [maxError maxRelError].
    rewrite errorLoop_maxError, errorLoop_maxUExact.
    split; [reflexivity |].
    unfold claimedMaxRelError.
    change (fun i j => abs (sub (mget u i j) (mget uExact i j)))
      with (absError u uExact).
    change (fun i j => abs (mget uExact i j)) with (absExact uExact).
    destruct (gtb (maxOver (gridValues n n (absExact uExact)))
                (lit (1 # 1000000000))) eqn:big.
    + split; [to_real; unfold Rdiv; ring |].
      intro small. apply gtb_spec in big. rewrite toR_lit in big.
      unfold Q2R in big. simpl in big. lra.
    + split; reflexivity.
  - intros u uExact ne le. destruct u as [| row0 rest]; [congruence |].
    unfold Unified.errorMetrics.
    apply Nat.leb_le in le. rewrite le, orb_true_r.
    eexists. split; [reflexivity |]. cbn [maxRelError].
    apply unified_errorLoop_maxRelErr.
Qed.

End RelativeErrorFacts.

Lemma max_relative_error_2d_witness :
  exists m,
    Explorer2D.errorMetrics (N := RNumber) (F := RMath) 1 [[1%R]] [[2%R]] = Some m
    /\ maxRelError m = claimedMaxRelError (N := RNumber) 1 [[1%R]] [[2%R]].
Proof.
  destruct (proj1 (max_relative_error_2d (N := RNumber) (E := RExact)
                     (F := RMath)) 1 [[1%R]] [[2%R]])
    as (m & eq & _ & rel & _).
  - simpl. lia.
  - simpl. lia.
  - exists m. split; assumption.
Defined.

(** The claim as stated fails for the unified explorer: for the fields
    below the largest error, [1/10], sits where [uExact] is [1/2], and the
    largest [|uExact|] is [1]; the loop of [updateStatus2D] ends with
    [20] percent, the formula of the claim gives [10]. *)
Lemma unified_max_relative_error_is_pointwise :
  let u := [[qc 1 1; qc 3 5]; [qc 0 1; qc 0 1]] in
  let uExact := [[qc 1 1; qc 1 2]; [qc 0 1; qc 0 1]] in
  Unified.maxRelErr (Unified.errorLoop (N := QcNumber) 2 2 u uExact) = qc 20 1
  /\ claimedMaxRelError (N := QcNumber) 2 u uExact = qc 10 1
  /\ Unified.maxRelErr (Unified.errorLoop (N := QcNumber) 2 2 u uExact)
     <> claimedMaxRelError (N := QcNumber) 2 u uExact.
Proof.
  cbv zeta. split; [qc_eq |]. split; [qc_eq |].
  intro h. apply (f_equal (fun x : Qc => Qnum (this x))) in h.
  vm_compute in h. discriminate.
Qed.

(** ** C5: the 2D Crank-Nicolson steps as schemes *)

Section SchemeFacts.
Context {N : Number}.
Notation "l .[ i ]" := (aget undef l i) (at level 1, format "l .[ i ]").

Lemma aget_map_seq (n : nat) (f : nat -> num) (i : nat) :
  i < n -> (map f (seq 0 n)).[i] = f i.
Proof.
  intro lt. unfold aget.
  rewrite (nth_indep _ undef (f 0)) by (rewrite length_map, length_seq; exact lt).
  rewrite (map_nth f (seq 0 n) 0 i), seq_nth by exact lt. reflexivity.
Qed.

Lemma mtab_shaped (nx ny : nat) (f : nat -> nat -> num) :
  shaped nx ny (mtab nx ny f).
Proof.
  unfold mtab. split.
  - rewrite length_map, length_seq. reflexivity.
  - intros i lt. unfold aget.
    rewrite (nth_indep _ [] (map (f 0) (seq 0 ny)))
      by (rewrite length_map, length_seq; exact lt).
    rewrite (map_nth (fun i => map (f i) (seq 0 ny)) (seq 0 nx) 0 i).
    rewrite length_map, length_seq. reflexivity.
Qed.

Lemma mget_mtab (nx ny : nat) (f : nat -> nat -> num) (i j : nat) :
  i < nx -> j < ny -> mget (mtab nx ny f) i j = f i j.
Proof.
  intros li lj. unfold mget, mtab, aget at 2.
  rewrite (nth_indep _ [] (map (f 0) (seq 0 ny)))
    by (rewrite length_map, length_seq; exact li).
  rewrite (map_nth (fun i => map (f i) (seq 0 ny)) (seq 0 nx) 0 i).
  rewrite seq_nth by exact li. simpl. apply aget_map_seq. exact lj.
Qed.

Lemma dirichletRows_lineSystem (n : nat) (off diag : num) (rhs : nat -> num)
    (d0 : list num) :
  1 <= n -> length d0 = n ->
  (forall i, 0 < i < n - 1 -> d0.[i] = rhs i) ->
  dirichletRows n {| sa := filled n off; sb := filled n diag;
                     sc := filled n off; sd := d0 |}
  = lineSystem n off diag rhs.
Proof.
  intros pos len inner.
  pose proof (dirichletRows_system n off diag rhs d0 pos len inner) as (lend & rows).
  assert (la : length (aset_last undef n (filled n off) zero) = n)
    by (apply aset_last_length; apply filled_length).
  assert (lb : length (aset_last undef n (aset undef (filled n diag) 0 one) one) = n)
    by (apply aset_last_length; rewrite aset_length_in; rewrite filled_length; lia).
  assert (lc : length (aset undef (filled n off) 0 zero) = n)
    by (rewrite aset_length_in; rewrite filled_length; lia).
  assert (ld : length (aset_last undef n (aset undef d0 0 zero) zero) = n)
    by (apply aset_last_length; rewrite aset_length_in; lia).
  unfold dirichletRows, lineSystem. cbn [sa sb sc sd].
  f_equal; apply (array_ext undef);
    try (rewrite length_map, length_seq; assumption).
  - intros i lt. rewrite la in lt. rewrite aget_map_seq by exact lt.
    exact (proj1 (rows i lt)).
  - intros i lt. rewrite lb in lt. rewrite aget_map_seq by exact lt.
    exact (proj1 (proj2 (rows i lt))).
  - intros i lt. rewrite lc in lt. rewrite aget_map_seq by exact lt.
    exact (proj1 (proj2 (proj2 (rows i lt)))).
  - intros i lt. rewrite ld in lt. rewrite aget_map_seq by exact lt.
    exact (proj2 (proj2 (proj2 (rows i lt)))).
Qed.

Lemma lineSystem_ext (n : nat) (off diag : num) (f g : nat -> num) :
  (forall i, 0 < i < n - 1 -> f i = g i) ->
  lineSystem n off diag f = lineSystem n off diag g.
Proof.
  intro eq. unfold lineSystem. f_equal. apply map_ext_in.
  intros i ini. apply in_seq in ini.
  destruct (Nat.eqb_spec i 0), (Nat.eqb_spec i (n - 1)); cbn [orb];
    try reflexivity.
  apply eq. lia.
Qed.

Lemma loopSystem_lineSystem (n lo hi : nat) (off diag : num) (f : nat -> num) :
  1 <= n -> lo <= 1 -> n - 1 <= hi <= n ->
  dirichletRows n
    {| sa := filled n off; sb := filled n diag; sc := filled n off;
       sd := for_up lo hi (fun i d => aset undef d i (f i)) (newArray undef n) |}
  = lineSystem n off diag f.
Proof.
  intros pos llo lhi. apply dirichletRows_lineSystem; [exact pos | |].
  - rewrite for_up_aset_length; rewrite newArray_length; lia.
  - intros i range. rewrite aget_for_up_aset.
    destruct (Nat.leb_spec lo i), (Nat.ltb_spec i hi); try reflexivity; lia.
Qed.

Lemma cnX_system_lineSystem (u : matrix) (rx ry : num) (Nx j : nat) :
  1 <= Nx ->
  cnX_system u rx ry Nx j
  = lineSystem Nx (neg (div rx two)) (add one rx) (fun i => stencilY u ry i j).
Proof. intro pos. apply loopSystem_lineSystem; lia. Qed.

Lemma cnY_system_lineSystem (uStar : matrix) (rx ry : num) (Ny i : nat) :
  1 <= Ny ->
  cnY_system uStar rx ry Ny i
  = lineSystem Ny (neg (div ry two)) (add one ry) (fun j => stencilX uStar rx i j).
Proof. intro pos. apply loopSystem_lineSystem; lia. Qed.

Lemma cnX_system_unified_lineSystem (u : matrix) (rx : num) (Nx j : nat) :
  1 <= Nx ->
  cnX_system_unified u rx Nx j
  = lineSystem Nx (neg (div rx two)) (add one rx) (fun i => crankX u rx i j).
Proof. intro pos. apply loopSystem_lineSystem; lia. Qed.

Lemma cnY_system_unified_lineSystem (uHalf : matrix) (ry : num) (Ny i : nat) :
  1 <= Ny ->
  cnY_system_unified uHalf ry Ny i
  = lineSystem Ny (neg (div ry two)) (add one ry) (fun j => crankY uHalf ry i j).
Proof. intro pos. apply loopSystem_lineSystem; lia. Qed.

Lemma crankNicolsonADI_scheme (u : matrix) (rx ry : num) :
  u <> [] ->
  crankNicolsonADI u rx ry
  = Some (peacemanRachford u rx ry (length u) (length (hd [] u))).
Proof.
  intro ne. destruct u as [| row0 rest]; [congruence |].
  unfold crankNicolsonADI. cbv zeta. f_equal.
  set (Nx := length (row0 :: rest)). set (Ny := length row0).
  change (length (hd [] (row0 :: rest))) with Ny.
  assert (pos : 1 <= Nx) by (unfold Nx; simpl; lia).
  set (u := row0 :: rest) in *.
  assert (half : for_up 1 (Ny - 1)
                   (fun j m => storeColumn Nx j (solve (cnX_system u rx ry Nx j)) m)
                   (zeros2 Nx Ny)
                 = peacemanRachfordHalf1 u rx ry Nx Ny).
  { apply (matrix_ext Nx Ny).
    - apply sweepColumns_shaped; [lia | lia | apply zeros2_shaped].
    - apply mtab_shaped.
    - intros i j li lj. rewrite sweepColumns_mget.
      unfold peacemanRachfordHalf1. rewrite mget_mtab by assumption.
      unfold interior.
      destruct (Nat.leb_spec 1 j), (Nat.ltb_spec 0 j), (Nat.ltb_spec j (Ny - 1)),
        (Nat.ltb_spec i Nx); cbn [andb]; try lia;
        try (apply mget_zeros2; assumption).
      rewrite cnX_system_lineSystem by exact pos. reflexivity. }
  rewrite half. unfold peacemanRachford.
  apply (matrix_ext Nx Ny).
  - apply sweepRows_shaped; [lia | lia | apply zeros2_shaped].
  - apply mtab_shaped.
  - intros i j li lj. rewrite sweepRows_mget.
    unfold peacemanRachfordHalf2. rewrite mget_mtab by assumption.
    unfold interior.
    destruct (Nat.leb_spec 1 i), (Nat.ltb_spec 0 i), (Nat.ltb_spec i (Nx - 1)),
      (Nat.ltb_spec j Ny); cbn [andb]; try lia;
      try (apply mget_zeros2; assumption).
    rewrite cnY_system_lineSystem by lia. reflexivity.
Qed.

Lemma crankNicolson2D_ADI_scheme (u : matrix) (rx ry : num) :
  u <> [] ->
  crankNicolson2D_ADI u rx ry
  = Some (splitCrankNicolson u rx ry (length u) (length (hd [] u))).
Proof.
  intro ne. destruct u as [| row0 rest]; [congruence |].
  unfold crankNicolson2D_ADI. cbv zeta. f_equal.
  set (Nx := length (row0 :: rest)). set (Ny := length row0).
  change (length (hd [] (row0 :: rest))) with Ny.
  assert (pos : 1 <= Nx) by (unfold Nx; simpl; lia).
  set (u := row0 :: rest) in *.
  assert (half : for_up 0 Ny
                   (fun j m =>
                      storeColumn Nx j (solve (cnX_system_unified u rx Nx j)) m)
                   (zeros2 Nx Ny)
                 = splitCrankNicolsonHalf1 u rx Nx Ny).
  { apply (matrix_ext Nx Ny).
    - apply sweepColumns_shaped; [lia | lia | apply zeros2_shaped].
    - apply mtab_shaped.
    - intros i j li lj. rewrite sweepColumns_mget.
      unfold splitCrankNicolsonHalf1. rewrite mget_mtab by assumption.
      destruct (Nat.leb_spec 0 j), (Nat.ltb_spec j Ny), (Nat.ltb_spec i Nx);
        cbn [andb]; try lia.
      rewrite cnX_system_unified_lineSystem by exact pos. reflexivity. }
  rewrite half. unfold splitCrankNicolson.
  apply (matrix_ext Nx Ny).
  - apply sweepRows_shaped; [lia | lia | apply zeros2_shaped].
  - apply mtab_shaped.
  - intros i j li lj. rewrite sweepRows_mget.
    unfold splitCrankNicolsonHalf2. rewrite mget_mtab by assumption.
    destruct (Nat.leb_spec 0 i), (Nat.ltb_spec i Nx), (Nat.ltb_spec j Ny);
      cbn [andb]; try lia.
    rewrite cnY_system_unified_lineSystem by lia. reflexivity.
Qed.

End SchemeFacts.

(** C5, as the code has it.  For every arithmetic and every non-empty
    field: [crankNicolsonADI] of the 2D explorer is the Peaceman-Rachford
    step of the claim (half-step 1 implicit along [x] with coefficients
    from [rx / 2] and the right-hand side [u + (ry / 2) d2y u]; half-step 2
    implicit along [y] with coefficients from [ry / 2] and the right-hand
    side [u* + (rx / 2) d2x u*]; zero boundary in both).
    [crankNicolson2D_ADI] of the unified explorer has the same
    coefficients, but each sweep is a 1D Crank-Nicolson step in its own
    direction: the [x] sweep has the right-hand side
    [(1 - rx) u + (rx / 2) (u_(i+1,j) + u_(i-1,j))] and runs over every line
    [j], the [y] sweep has [(1 - ry) u* + (ry / 2) (u*_(i,j+1) + u*_(i,j-1))]
    and runs over every line [i]; the boundary rows of every line system
    are forced to [0]. *)
Theorem crank_nicolson_2d_schemes {N : Number} (u : matrix) (rx ry : num) :
  u <> [] ->
  crankNicolsonADI u rx ry
  = Some (peacemanRachford u rx ry (length u) (length (hd [] u)))
  /\ crankNicolson2D_ADI u rx ry
     = Some (splitCrankNicolson u rx ry (length u) (length (hd [] u))).
Proof.
  intro ne. split.
  - apply crankNicolsonADI_scheme. exact ne.
  - apply crankNicolson2D_ADI_scheme. exact ne.
Qed.

Lemma crank_nicolson_2d_schemes_witness :
  crankNicolsonADI (N := QcNumber)
    [[qc 0 1; qc 0 1; qc 0 1]; [qc 0 1; qc 1 1; qc 0 1]; [qc 0 1; qc 0 1; qc 0 1]]
    (qc 1 2) (qc 1 2)
  = Some (peacemanRachford (N := QcNumber)
            [[qc 0 1; qc 0 1; qc 0 1]; [qc 0 1; qc 1 1; qc 0 1];
             [qc 0 1; qc 0 1; qc 0 1]] (qc 1 2) (qc 1 2) 3 3).
Proof.
  apply (crank_nicolson_2d_schemes (N := QcNumber)
           [[qc 0 1; qc 0 1; qc 0 1]; [qc 0 1; qc 1 1; qc 0 1];
            [qc 0 1; qc 0 1; qc 0 1]] (qc 1 2) (qc 1 2)).
  discriminate.
Defined.

(** The claim as stated fails for the unified explorer.  For the field
    with [1] at [(1,1)] and [(2,1)] on a 4 by 4 grid and [rx = ry = 1/2],
    the right-hand side of the [x] sweep for the line [j = 1] is
    [0, 3/4, 3/4, 0], where [u + (ry / 2) d2y u] is [0, 1/2, 1/2, 0]; and
    for the field with a single [1] in the corner [(0,0)] of a 3 by 3 grid
    the step returns [1/36] at the centre, where Peaceman-Rachford
    returns [0]. *)
Lemma unified_crank_nicolson_is_not_peaceman_rachford :
  let u4 := [[qc 0 1; qc 0 1; qc 0 1; qc 0 1]; [qc 0 1; qc 1 1; qc 0 1; qc 0 1];
             [qc 0 1; qc 1 1; qc 0 1; qc 0 1]; [qc 0 1; qc 0 1; qc 0 1; qc 0 1]] in
  let uc := [[qc 1 1; qc 0 1; qc 0 1]; [qc 0 1; qc 0 1; qc 0 1];
             [qc 0 1; qc 0 1; qc 0 1]] in
  sd (cnX_system_unified (N := QcNumber) u4 (qc 1 2) 4 1)
  <> sd (lineSystem (N := QcNumber) 4 (qc (-1) 4) (qc 3 2)
           (fun i => stencilY (N := QcNumber) u4 (qc 1 2) i 1))
  /\ crankNicolson2D_ADI (N := QcNumber) uc (qc 1 2) (qc 1 2)
     <> Some (peacemanRachford (N := QcNumber) uc (qc 1 2) (qc 1 2) 3 3).
Proof.
  cbv zeta. split.
  - intro h. apply (f_equal (map (fun x : Qc => Qnum (this x)))) in h.
    vm_compute in h. discriminate.
  - intro h.
    apply (f_equal (option_map (map (map (fun x : Qc => Qnum (this x)))))) in h.
    vm_compute in h. discriminate.
Qed.

(** ** C10: the steppers and the arrays they are given *)

Section StoreBasics.
Context {N : Number}.
Import Store.

Lemma replaceAt_length (h : heap) (l : loc) (o : object) :
  length (replaceAt h l o) = length h.
Proof.
  revert l; induction h as [| x h IH]; intros [| l]; simpl; auto.
Qed.

Lemma firstn_replaceAt (k : nat) (h : heap) (l : loc) (o : object) :
  k <= l -> firstn k (replaceAt h l o) = firstn k h.
Proof.
  revert k l; induction h as [| x h IH]; intros [| k] [| l] le; simpl;
    try reflexivity; try lia.
  f_equal. apply IH. lia.
Qed.

Lemma objectAt_replaceAt (h : heap) (l : loc) (o : object) (l' : loc) :
  objectAt (replaceAt h l o) l'
  = if (l =? l') && (l <? length h) then o else objectAt h l'.
Proof.
  unfold objectAt. revert l l'; induction h as [| x h IH]; intros l l'.
  - replace (l <? length (@nil object)) with false
      by (symmetry; apply Nat.ltb_ge; simpl; lia).
    rewrite andb_false_r. destruct l; reflexivity.
  - destruct l as [| l], l' as [| l']; simpl; try reflexivity.
    rewrite IH. reflexivity.
Qed.

Lemma firstn_extend (k : nat) (h ext : heap) :
  k <= length h -> firstn k (h ++ ext) = firstn k h.
Proof.
  intro le. rewrite firstn_app. replace (k - length h) with 0 by lia.
  simpl. apply app_nil_r.
Qed.

Lemma objectAt_extend (h ext : heap) (l : loc) :
  l < length h -> objectAt (h ++ ext) l = objectAt h l.
Proof. intro lt. unfold objectAt. apply app_nth1. exact lt. Qed.

Lemma objectAt_new (h : heap) (o : object) : objectAt (h ++ [o]) (length h) = o.
Proof. unfold objectAt. rewrite app_nth2, Nat.sub_diag by lia. reflexivity. Qed.

Lemma objectAt_outside (h : heap) (l : loc) :
  length h <= l -> objectAt h l = [].
Proof. intro le. unfold objectAt. apply nth_overflow. exact le. Qed.

(** Arrays that agree on the first [k] locations agree at each of them. *)
Lemma firstn_objectAt (k : nat) (h h' : heap) (l : loc) :
  firstn k h' = firstn k h -> l < k -> objectAt h' l = objectAt h l.
Proof.
  intros eq lt. unfold objectAt.
  assert (cut : forall g : heap, nth l g [] = nth l (firstn k g) []).
  { intro g. rewrite nth_firstn.
    destruct (Nat.ltb_spec l k); [reflexivity | lia]. }
  rewrite (cut h'), (cut h), eq. reflexivity.
Qed.

End StoreBasics.

Section Frames.
Context {N : Number}.
Import Store.

(** [base] is the number of arrays that exist when the call starts, and
    [I] a property of the store that allocations and writes of numbers
    keep. *)
Variable base : nat.
Variable I : heap -> Prop.
Hypothesis I_alloc : forall h n, I h -> I (h ++ [repeat VUndef n]).
Hypothesis I_write :
  forall h l i x, I h -> I (replaceAt h l (aset VUndef (objectAt h l) i (VNum x))).
Hypothesis I_fill :
  forall h l x, I h -> I (replaceAt h l (repeat (VNum x) (length (objectAt h l)))).

Lemma frames_ret {A : Type} (a : A) (Q : A -> Prop) : Q a -> frames base I (ret a) Q.
Proof.
  intros qa h le inv. cbn. repeat split; auto. intros a' eq.
  injection eq as <-. exact qa.
Qed.

Lemma frames_throw {A : Type} (Q : A -> Prop) : frames base I (throw (A := A)) Q.
Proof. intros h le inv. cbn. repeat split; auto. intros a eq. discriminate. Qed.

Lemma frames_bind {A B : Type} (m : M A) (k : A -> M B) (P : A -> Prop)
    (Q : B -> Prop) :
  frames base I m P -> (forall a, P a -> frames base I (k a) Q) ->
  frames base I (bind m k) Q.
Proof.
  intros fm fk h le inv. unfold bind.
  destruct (fm h le inv) as (len & pre & inv' & post).
  destruct (m h) as [[a |] h1]; cbn in *.
  - destruct (fk a (post a eq_refl) h1) as (len2 & pre2 & inv2 & post2);
      [lia | exact inv' |].
    repeat split; [lia | congruence | exact inv2 | exact post2].
  - repeat split; auto. intros b' eq. discriminate.
Qed.

Lemma frames_weaken {A : Type} (m : M A) (P Q : A -> Prop) :
  frames base I m P -> (forall a, P a -> Q a) -> frames base I m Q.
Proof.
  intros fm imp h le inv. destruct (fm h le inv) as (len & pre & inv' & post).
  repeat split; auto.
Qed.

Lemma frames_allocArray (n : nat) : frames base I (allocArray n) (fun l => base <= l).
Proof.
  intros h le inv. cbn. rewrite length_app. cbn.
  repeat split; [lia | apply firstn_extend; exact le | apply I_alloc; exact inv |].
  intros a eq. injection eq as <-. exact le.
Qed.

Lemma frames_lengthOf (l : loc) : frames base I (lengthOf l) (fun _ => True).
Proof. intros h le inv. cbn. repeat split; auto. Qed.

Lemma frames_readCell (l : loc) (i : nat) : frames base I (readCell l i) (fun _ => True).
Proof. intros h le inv. cbn. repeat split; auto. Qed.

Lemma frames_readNum (l : loc) (i : nat) : frames base I (readNum l i) (fun _ => True).
Proof.
  unfold readNum. eapply frames_bind; [apply frames_readCell |].
  intros v _. apply frames_ret. exact Logic.I.
Qed.

Lemma frames_rowOf (u : loc) (i : nat) : frames base I (rowOf u i) (fun _ => True).
Proof.
  unfold rowOf. eapply frames_bind; [apply frames_readCell |].
  intros v _. destruct v; [apply frames_throw | apply frames_ret; exact Logic.I
                          | apply frames_throw].
Qed.

Lemma frames_readNum2 (u : loc) (i j : nat) :
  frames base I (readNum2 u i j) (fun _ => True).
Proof.
  unfold readNum2. eapply frames_bind; [apply frames_rowOf |].
  intros row _. apply frames_readNum.
Qed.

Lemma frames_writeNum (l : loc) (i : nat) (x : num) :
  base <= l -> frames base I (writeNum l i x) (fun _ => True).
Proof.
  intros fresh h le inv. cbn. rewrite replaceAt_length.
  repeat split; [lia | apply firstn_replaceAt; exact fresh | apply I_write; exact inv].
Qed.

Lemma frames_writeLast (l : loc) (n : nat) (x : num) :
  base <= l -> frames base I (writeLast l n x) (fun _ => True).
Proof.
  intro fresh. destruct n as [| k]; cbn.
  - apply frames_ret. exact Logic.I.
  - apply frames_writeNum. exact fresh.
Qed.

Lemma frames_fillArray (l : loc) (x : num) :
  base <= l -> frames base I (fillArray l (VNum x)) (fun _ => True).
Proof.
  intros fresh h le inv. cbn. rewrite replaceAt_length.
  repeat split; [lia | apply firstn_replaceAt; exact fresh | apply I_fill; exact inv].
Qed.

Lemma frames_newFilled (n : nat) (x : num) :
  frames base I (newFilled n x) (fun l => base <= l).
Proof.
  unfold newFilled. eapply frames_bind; [apply frames_allocArray |].
  intros l fresh. eapply frames_bind; [apply frames_fillArray; exact fresh |].
  intros _ _. apply frames_ret. exact fresh.
Qed.

Lemma frames_forM (idx : list nat) (body : nat -> M unit) :
  (forall i, In i idx -> frames base I (body i) (fun _ => True)) ->
  frames base I (forM idx body) (fun _ => True).
Proof.
  induction idx as [| i idx IH]; intro each; cbn.
  - apply frames_ret. exact Logic.I.
  - eapply frames_bind; [apply each; left; reflexivity |].
    intros _ _. apply IH. intros k ink. apply each. right. exact ink.
Qed.

Ltac frame_prim :=
  first
    [ apply frames_allocArray
    | apply frames_lengthOf
    | apply frames_readNum
    | apply frames_readNum2
    | apply frames_readCell
    | apply frames_rowOf
    | apply frames_newFilled
    | apply frames_writeNum; assumption
    | apply frames_writeLast; assumption
    | apply frames_fillArray; assumption
    | apply frames_ret; first [exact Logic.I | assumption] ].

Ltac frame_steps :=
  repeat lazymatch goal with
         | |- frames base I (bind _ _) _ => eapply frames_bind; [frame_prim | intros]
         end.

Lemma frames_forwardLoopM (a b c d cp dp : loc) (idx : list nat) :
  base <= cp -> base <= dp ->
  frames base I (forwardLoopM a b c d cp dp idx) (fun _ => True).
Proof.
  intros fcp fdp. induction idx as [| i idx IH]; cbn.
  - apply frames_ret. exact Logic.I.
  - frame_steps.
    match goal with
    | |- frames base I (if ?t then _ else _) _ => destruct t
    end.
    + apply frames_ret. exact Logic.I.
    + frame_steps. exact IH.
Qed.

Lemma frames_thomasAlgorithmM (a b c d : loc) :
  base <= d -> frames base I (thomasAlgorithmM a b c d) (fun l => base <= l).
Proof.
  intro fd. unfold thomasAlgorithmM. frame_steps.
  match goal with
  | |- frames base I (if ?t then _ else _) _ => destruct t
  end; [apply frames_ret; exact fd |].
  frame_steps.
  eapply frames_bind; [apply frames_forwardLoopM; assumption |].
  intros ok _. destruct ok; [| apply frames_ret; exact fd].
  apply (frames_bind _ _ (fun _ => True)).
  { match goal with
    | |- frames base I (match ?n with 0 => _ | S _ => _ end) _ => destruct n
    end; [apply frames_ret; exact Logic.I |].
    frame_steps. frame_prim. }
  intros _ _.
  eapply frames_bind.
  { apply frames_forM. intros i _. frame_steps. frame_prim. }
  intros _ _. apply frames_ret. assumption.
Qed.

Lemma frames_dirichletRowsM (n : nat) (a b c d : loc) :
  base <= a -> base <= b -> base <= c -> base <= d ->
  frames base I (dirichletRowsM n a b c d) (fun _ => True).
Proof.
  intros fa fb fc fd. unfold dirichletRowsM. frame_steps. frame_prim.
Qed.

Lemma frames_forwardEulerM (u : loc) (r : num) :
  frames base I (forwardEulerM u r) (fun l => base <= l).
Proof.
  unfold forwardEulerM. frame_steps.
  eapply frames_bind.
  { apply frames_forM. intros i _. frame_steps. frame_prim. }
  intros _ _. apply frames_ret. assumption.
Qed.

Lemma frames_crankNicolsonM (u : loc) (r : num) :
  frames base I (crankNicolsonM u r) (fun l => base <= l).
Proof.
  unfold crankNicolsonM. frame_steps.
  eapply frames_bind.
  { apply frames_forM. intros i _. frame_steps. frame_prim. }
  intros _ _.
  eapply frames_bind; [apply frames_dirichletRowsM; assumption |].
  intros _ _. apply frames_thomasAlgorithmM. assumption.
Qed.

Lemma frames_lineSolveM (n : nat) (av bv cv : num) (idx : list nat)
    (rhs : nat -> M num) :
  (forall i, frames base I (rhs i) (fun _ => True)) ->
  frames base I (lineSolveM n av bv cv idx rhs) (fun l => base <= l).
Proof.
  intro frhs. unfold lineSolveM. frame_steps.
  eapply frames_bind.
  { apply frames_forM. intros i _.
    eapply frames_bind; [apply frhs |]. intros v _. frame_prim. }
  intros _ _.
  eapply frames_bind; [apply frames_dirichletRowsM; assumption |].
  intros _ _. apply frames_thomasAlgorithmM. assumption.
Qed.

Lemma frames_dimensions (u : loc) : frames base I (dimensions u) (fun _ => True).
Proof. unfold dimensions. frame_steps. frame_prim. Qed.

Section WithCopy.
Hypothesis I_copy : forall h l, I h -> I (h ++ [objectAt h l]).

Lemma frames_copyArray (l : loc) : frames base I (copyArray l) (fun l' => base <= l').
Proof.
  intros h le inv. cbn. rewrite length_app. cbn.
  repeat split; [lia | apply firstn_extend; exact le | apply I_copy; exact inv |].
  intros a eq. injection eq as <-. exact le.
Qed.

Lemma frames_backwardEulerM (u : loc) (r : num) :
  frames base I (backwardEulerM u r) (fun l => base <= l).
Proof.
  unfold backwardEulerM. frame_steps.
  eapply frames_bind; [apply frames_copyArray |]. intros d fd.
  eapply frames_bind; [apply frames_dirichletRowsM; assumption |].
  intros _ _. apply frames_thomasAlgorithmM. assumption.
Qed.

End WithCopy.

Section WithRows.
(** [I] says that the arrays allocated since the call started refer only
    to arrays allocated since the call started. *)
Hypothesis I_ref :
  forall h l i r, base <= r -> I h ->
    I (replaceAt h l (aset VUndef (objectAt h l) i (VRef r))).
Hypothesis I_rows :
  forall h l i r, I h -> base <= l ->
    nth i (objectAt h l) VUndef = VRef r -> base <= r.

Lemma frames_writeRef (l : loc) (i : nat) (r : loc) :
  base <= l -> base <= r -> frames base I (writeCell l i (VRef r)) (fun _ => True).
Proof.
  intros fl fr h le inv. cbn. rewrite replaceAt_length.
  repeat split; [lia | apply firstn_replaceAt; exact fl | apply I_ref; assumption].
Qed.

Lemma frames_newZeros2 (Nx Ny : nat) :
  frames base I (newZeros2 Nx Ny) (fun l => base <= l).
Proof.
  unfold newZeros2. frame_steps.
  eapply frames_bind.
  { apply frames_forM. intros i _. frame_steps.
    apply frames_writeRef; assumption. }
  intros _ _. apply frames_ret. assumption.
Qed.

Lemma frames_writeNum2 (u : loc) (i j : nat) (x : num) :
  base <= u -> frames base I (writeNum2 u i j x) (fun _ => True).
Proof.
  intros fu h le inv. unfold writeNum2, bind, rowOf, bind, readCell.
  destruct (nth i (objectAt h u) VUndef) as [y | row |] eqn:cell; cbn;
    try (repeat split; auto; intros a eq; discriminate).
  rewrite replaceAt_length.
  assert (frow : base <= row) by (apply (I_rows h u i row inv fu cell)).
  repeat split; [lia | apply firstn_replaceAt; exact frow | apply I_write; exact inv].
Qed.

Lemma frames_storeColumnM (n j : nat) (res m : loc) :
  base <= m -> frames base I (storeColumnM n j res m) (fun _ => True).
Proof.
  intro fm. unfold storeColumnM. apply frames_forM. intros i _.
  frame_steps. apply frames_writeNum2. exact fm.
Qed.

Lemma frames_storeRowM (n i : nat) (res m : loc) :
  base <= m -> frames base I (storeRowM n i res m) (fun _ => True).
Proof.
  intro fm. unfold storeRowM. apply frames_forM. intros j _.
  frame_steps. apply frames_writeNum2. exact fm.
Qed.

Ltac frame_rhs := intro; frame_steps; frame_prim.

Lemma frames_forwardEuler2DM (u : loc) (rx ry : num) :
  frames base I (forwardEuler2DM u rx ry) (fun l => base <= l).
Proof.
  unfold forwardEuler2DM.
  eapply frames_bind; [apply frames_dimensions |]. intros [Nx Ny] _.
  eapply frames_bind; [apply frames_newZeros2 |]. intros uNew fnew.
  eapply frames_bind.
  { apply frames_forM. intros i _. apply frames_forM. intros j _.
    frame_steps. apply frames_writeNum2. exact fnew. }
  intros _ _. apply frames_ret. exact fnew.
Qed.

Lemma frames_sweepM (idx : list nat) (line : nat -> M loc)
    (store : nat -> loc -> M unit) :
  (forall k, frames base I (line k) (fun l => base <= l)) ->
  (forall k res, frames base I (store k res) (fun _ => True)) ->
  frames base I (forM idx (fun k => bind (line k) (fun res => store k res)))
    (fun _ => True).
Proof.
  intros fl fs. apply frames_forM. intros k _.
  eapply frames_bind; [apply fl |]. intros res _. apply fs.
Qed.

Lemma frames_backwardEulerADIM (u : loc) (rx ry : num) :
  frames base I (backwardEulerADIM u rx ry) (fun l => base <= l).
Proof.
  unfold backwardEulerADIM.
  eapply frames_bind; [apply frames_dimensions |]. intros [Nx Ny] _.
  eapply frames_bind; [apply frames_newZeros2 |]. intros uStar fstar.
  eapply frames_bind.
  { apply frames_sweepM.
    - intro j. apply frames_lineSolveM. frame_rhs.
    - intros j res. apply frames_storeColumnM. exact fstar. }
  intros _ _.
  eapply frames_bind; [apply frames_newZeros2 |]. intros uNew fnew.
  eapply frames_bind.
  { apply frames_sweepM.
    - intro i. apply frames_lineSolveM. frame_rhs.
    - intros i res. apply frames_storeRowM. exact fnew. }
  intros _ _. apply frames_ret. exact fnew.
Qed.

Lemma frames_twoSweeps (u : loc)
    (lineX : nat -> nat -> loc -> nat -> M loc)
    (lineY : nat -> nat -> loc -> nat -> M loc) (idxX idxY : nat -> nat -> list nat) :
  (forall Nx Ny k, frames base I (lineX Nx Ny u k) (fun l => base <= l)) ->
  (forall Nx Ny uHalf k, frames base I (lineY Nx Ny uHalf k) (fun l => base <= l)) ->
  frames base I
    (bind (dimensions u) (fun dims =>
       let (Nx, Ny) := dims in
       bind (newZeros2 Nx Ny) (fun uHalf =>
       bind (newZeros2 Nx Ny) (fun uNew =>
       bind (forM (idxX Nx Ny)
               (fun j => bind (lineX Nx Ny u j)
                           (fun sol => storeColumnM Nx j sol uHalf)))
         (fun _ =>
       bind (forM (idxY Nx Ny)
               (fun i => bind (lineY Nx Ny uHalf i)
                           (fun sol => storeRowM Ny i sol uNew)))
         (fun _ => ret uNew))))))
    (fun l => base <= l).
Proof.
  intros fx fy.
  eapply frames_bind; [apply frames_dimensions |]. intros [Nx Ny] _.
  eapply frames_bind; [apply frames_newZeros2 |]. intros uHalf fhalf.
  eapply frames_bind; [apply frames_newZeros2 |]. intros uNew fnew.
  eapply frames_bind.
  { apply frames_sweepM.
    - intro j. apply fx.
    - intros j res. apply frames_storeColumnM. exact fhalf. }
  intros _ _.
  eapply frames_bind.
  { apply frames_sweepM.
    - intro i. apply fy.
    - intros i res. apply frames_storeRowM. exact fnew. }
  intros _ _. apply frames_ret. exact fnew.
Qed.

Lemma frames_crankNicolsonADIM (u : loc) (rx ry : num) :
  frames base I (crankNicolsonADIM u rx ry) (fun l => base <= l).
Proof.
  apply (frames_twoSweeps u
           (fun Nx Ny u j =>
              lineSolveM Nx (neg (div rx two)) (add one rx) (neg (div rx two))
                (seq 1 (Nx - 1 - 1)) _)
           (fun Nx Ny uStar i =>
              lineSolveM Ny (neg (div ry two)) (add one ry) (neg (div ry two))
                (seq 1 (Ny - 1 - 1)) _)
           (fun Nx Ny => seq 1 (Ny - 1 - 1)) (fun Nx Ny => seq 1 (Nx - 1 - 1)));
    intros; apply frames_lineSolveM; frame_rhs.
Qed.

Lemma frames_backwardEuler2D_ADIM (u : loc) (rx ry : num) :
  frames base I (backwardEuler2D_ADIM u rx ry) (fun l => base <= l).
Proof.
  apply (frames_twoSweeps u
           (fun Nx Ny u j =>
              lineSolveM Nx (neg rx) (add one (mul two rx)) (neg rx)
                (seq 1 (Nx - 1 - 1)) _)
           (fun Nx Ny uHalf i =>
              lineSolveM Ny (neg ry) (add one (mul two ry)) (neg ry)
                (seq 1 (Ny - 1 - 1)) _)
           (fun Nx Ny => seq 0 Ny) (fun Nx Ny => seq 0 Nx));
    intros; apply frames_lineSolveM; frame_rhs.
Qed.

Lemma frames_crankNicolson2D_ADIM (u : loc) (rx ry : num) :
  frames base I (crankNicolson2D_ADIM u rx ry) (fun l => base <= l).
Proof.
  apply (frames_twoSweeps u
           (fun Nx Ny u j =>
              lineSolveM Nx (neg (div rx two)) (add one rx) (neg (div rx two))
                (seq 1 (Nx - 1 - 1)) _)
           (fun Nx Ny uHalf i =>
              lineSolveM Ny (neg (div ry two)) (add one ry) (neg (div ry two))
                (seq 1 (Ny - 1 - 1)) _)
           (fun Nx Ny => seq 0 Ny) (fun Nx Ny => seq 0 Nx));
    intros; apply frames_lineSolveM; frame_rhs.
Qed.

End WithRows.

End Frames.

(** ** Calls that return *)

(** No 1D stepper uses a row of a field: over every store its call
    returns. *)

Section Returns.
Context {N : Number}.
Import Store.

Lemma returns_ret {A : Type} (a : A) : returns (ret a).
Proof. intro h. exists a. reflexivity. Qed.

Lemma returns_bind {A B : Type} (m : M A) (k : A -> M B) :
  returns m -> (forall a, returns (k a)) -> returns (bind m k).
Proof.
  intros rm rk h. unfold bind. destruct (rm h) as (a & eq).
  destruct (m h) as [[a' |] h']; simpl in eq; [| discriminate].
  apply rk.
Qed.

Lemma returns_forM (idx : list nat) (body : nat -> M unit) :
  (forall i, returns (body i)) -> returns (forM idx body).
Proof.
  intro each. induction idx as [| i idx IH]; cbn [forM].
  - apply returns_ret.
  - apply returns_bind; [apply each | intros _; exact IH].
Qed.

Ltac returns_steps :=
  repeat first
    [ apply returns_ret
    | apply returns_forM; intros
    | lazymatch goal with
      | |- returns (bind _ _) => apply returns_bind; [| intros]
      | |- returns (if ?t then _ else _) => destruct t
      | |- returns (match ?n with 0 => _ | S _ => _ end) => destruct n
      end
    | solve [intro; eexists; reflexivity] ].

Lemma returns_readNum (l : loc) (i : nat) : returns (readNum l i).
Proof. unfold readNum. returns_steps. Qed.

Lemma returns_writeNum (l : loc) (i : nat) (x : num) : returns (writeNum l i x).
Proof. unfold writeNum. returns_steps. Qed.

Lemma returns_writeLast (l : loc) (n : nat) (x : num) : returns (writeLast l n x).
Proof. unfold writeLast, writeNum. returns_steps. Qed.

Lemma returns_newFilled (n : nat) (x : num) : returns (newFilled n x).
Proof. unfold newFilled. returns_steps. Qed.

Lemma returns_forwardLoopM (a b c d cp dp : loc) (idx : list nat) :
  returns (forwardLoopM a b c d cp dp idx).
Proof.
  induction idx as [| i idx IH]; cbn [forwardLoopM].
  - apply returns_ret.
  - apply returns_bind; [apply returns_readNum | intro bi].
    apply returns_bind; [apply returns_readNum | intro ai].
    apply returns_bind; [apply returns_readNum | intro cpi].
    cbv zeta. destruct (abs (bi - ai * cpi) <? pivot_eps)%num.
    + apply returns_ret.
    + apply returns_bind; [apply returns_readNum | intro ci].
      apply returns_bind; [apply returns_writeNum | intros _].
      apply returns_bind; [apply returns_readNum | intro di].
      apply returns_bind; [apply returns_readNum | intro ai'].
      apply returns_bind; [apply returns_readNum | intro dpi].
      apply returns_bind; [apply returns_writeNum | intros _].
      exact IH.
Qed.

Lemma returns_thomasAlgorithmM (a b c d : loc) :
  returns (thomasAlgorithmM a b c d).
Proof.
  unfold thomasAlgorithmM.
  repeat first
    [ apply returns_ret
    | apply returns_forwardLoopM
    | apply returns_readNum
    | apply returns_writeNum
    | apply returns_forM; intros
    | lazymatch goal with
      | |- returns (bind _ _) => apply returns_bind; [| intros]
      | |- returns (if ?t then _ else _) => destruct t
      | |- returns (match ?n with 0 => _ | S _ => _ end) => destruct n
      end
    | solve [intro; eexists; reflexivity] ].
Qed.

Lemma returns_dirichletRowsM (n : nat) (a b c d : loc) :
  returns (dirichletRowsM n a b c d).
Proof.
  unfold dirichletRowsM.
  repeat first
    [ apply returns_writeNum | apply returns_writeLast
    | apply returns_bind; [| intros] ].
Qed.

Ltac returns_stepper :=
  repeat first
    [ apply returns_ret
    | apply returns_thomasAlgorithmM
    | apply returns_dirichletRowsM
    | apply returns_newFilled
    | apply returns_readNum
    | apply returns_writeNum
    | apply returns_writeLast
    | apply returns_forM; intros
    | lazymatch goal with
      | |- returns (bind _ _) => apply returns_bind; [| intros]
      end
    | solve [intro; eexists; reflexivity] ].

Lemma returns_forwardEulerM (u : loc) (r : num) : returns (forwardEulerM u r).
Proof. unfold forwardEulerM. returns_stepper. Qed.

Lemma returns_backwardEulerM (u : loc) (r : num) : returns (backwardEulerM u r).
Proof. unfold backwardEulerM. returns_stepper. Qed.

Lemma returns_crankNicolsonM (u : loc) (r : num) : returns (crankNicolsonM u r).
Proof. unfold crankNicolsonM. cbv zeta. returns_stepper. Qed.

End Returns.

(** ** Calls of the 2D steppers that return *)

(** A 2D stepper throws only when it uses an element of a field as a row
    and the element is not a reference.  The fields it uses, the input and
    the ones it allocates, stay linked all along, because it writes
    numbers to rows and to its own work arrays only. *)

Section Completes.
Context {N : Number}.
Import Store.
Variable X : list loc.
Variable n : nat.

Lemma linked_kept (h h' : heap) :
  length h <= length h' ->
  (forall x, In x X -> objectAt h' x = objectAt h x) ->
  linked X n h -> linked X n h'.
Proof.
  intros le same lk x inx. destruct (lk x inx) as (lt & len & cells).
  rewrite (same x inx). split; [lia |]. split; [exact len |].
  intros i li. destruct (cells i li) as (r & cell & lr & out).
  exists r. split; [exact cell |]. split; [lia | exact out].
Qed.

Lemma linked_write (h : heap) (l : loc) (o : object) :
  ~ In l X -> linked X n h -> linked X n (replaceAt h l o).
Proof.
  intros out. apply linked_kept.
  - rewrite replaceAt_length. lia.
  - intros x inx. rewrite objectAt_replaceAt.
    destruct (Nat.eqb_spec l x) as [-> | ne]; [contradiction | reflexivity].
Qed.

Lemma linked_alloc (h : heap) (o : object) :
  linked X n h -> linked X n (h ++ [o]).
Proof.
  intro lk. apply (linked_kept h); [rewrite length_app; lia | | exact lk].
  intros x inx. apply objectAt_extend. apply (lk x inx).
Qed.

Lemma linked_fresh (h : heap) : linked X n h -> ~ In (length h) X.
Proof.
  intros lk inx. destruct (lk _ inx) as (lt & _). lia.
Qed.

Lemma completes_ret {A : Type} (a : A) (Q : A -> Prop) :
  Q a -> completes X n (ret a) Q.
Proof. intros q h lk. split; [exact lk |]. exists a. split; [reflexivity | exact q]. Qed.

Lemma completes_bind {A B : Type} (m : M A) (k : A -> M B) (P : A -> Prop)
    (Q : B -> Prop) :
  completes X n m P -> (forall a, P a -> completes X n (k a) Q) ->
  completes X n (bind m k) Q.
Proof.
  intros cm ck h lk. unfold bind.
  destruct (cm h lk) as (lk' & a & eq & pa).
  destruct (m h) as [[a' |] h']; simpl in eq; [| discriminate].
  injection eq as ->. apply (ck a pa). exact lk'.
Qed.

Lemma completes_weaken {A : Type} (m : M A) (P Q : A -> Prop) :
  completes X n m P -> (forall a, P a -> Q a) -> completes X n m Q.
Proof.
  intros cm pq h lk. destruct (cm h lk) as (lk' & a & eq & pa).
  split; [exact lk' |]. exists a. split; [exact eq | apply pq; exact pa].
Qed.

Lemma completes_allocArray (k : nat) :
  completes X n (allocArray k) (fun l => ~ In l X).
Proof.
  intros h lk. split; [apply linked_alloc; exact lk |].
  exists (length h). split; [reflexivity | apply linked_fresh; exact lk].
Qed.

Lemma completes_lengthOf (l : loc) : completes X n (lengthOf l) (fun _ => True).
Proof. intros h lk. split; [exact lk |]. eexists. split; [reflexivity | exact Logic.I]. Qed.

Lemma completes_rows (x : loc) :
  In x X -> completes X n (lengthOf x) (fun k => k = n).
Proof.
  intros inx h lk. split; [exact lk |]. eexists. split; [reflexivity |].
  apply (lk x inx).
Qed.

Lemma completes_readNum (l : loc) (i : nat) :
  completes X n (readNum l i) (fun _ => True).
Proof. intros h lk. split; [exact lk |]. eexists. split; [reflexivity | exact Logic.I]. Qed.

Lemma completes_writeNum (l : loc) (i : nat) (x : num) :
  ~ In l X -> completes X n (writeNum l i x) (fun _ => True).
Proof.
  intros out h lk. split; [apply linked_write; assumption |].
  exists tt. split; [reflexivity | exact Logic.I].
Qed.

Lemma completes_writeRef (l : loc) (i : nat) (r : loc) :
  ~ In l X -> completes X n (writeCell l i (VRef r)) (fun _ => True).
Proof.
  intros out h lk. split; [apply linked_write; assumption |].
  exists tt. split; [reflexivity | exact Logic.I].
Qed.

Lemma completes_writeLast (l : loc) (k : nat) (x : num) :
  ~ In l X -> completes X n (writeLast l k x) (fun _ => True).
Proof.
  intro out. destruct k as [| k]; cbn [writeLast].
  - apply completes_ret. exact Logic.I.
  - apply completes_writeNum. exact out.
Qed.

Lemma completes_fillArray (l : loc) (v : val) :
  ~ In l X -> completes X n (fillArray l v) (fun _ => True).
Proof.
  intros out h lk. split; [apply linked_write; assumption |].
  exists tt. split; [reflexivity | exact Logic.I].
Qed.

Lemma completes_newFilled (k : nat) (x : num) :
  completes X n (newFilled k x) (fun l => ~ In l X).
Proof.
  unfold newFilled.
  eapply completes_bind; [apply completes_allocArray |]. intros l out.
  eapply completes_bind; [apply completes_fillArray; exact out |]. intros _ _.
  apply completes_ret. exact out.
Qed.

Lemma completes_rowOf (x : loc) (i : nat) :
  In x X -> i < n -> completes X n (rowOf x i) (fun r => ~ In r X).
Proof.
  intros inx li h lk. unfold rowOf, bind, readCell.
  destruct (lk x inx) as (_ & _ & cells).
  destruct (cells i li) as (r & cell & _ & out).
  rewrite cell. split; [exact lk |]. exists r. split; [reflexivity | exact out].
Qed.

Lemma completes_readNum2 (x : loc) (i j : nat) :
  In x X -> i < n -> completes X n (readNum2 x i j) (fun _ => True).
Proof.
  intros inx li. unfold readNum2.
  eapply completes_bind; [apply completes_rowOf; assumption |]. intros r _.
  apply completes_readNum.
Qed.

Lemma completes_writeNum2 (x : loc) (i j : nat) (v : num) :
  In x X -> i < n -> completes X n (writeNum2 x i j v) (fun _ => True).
Proof.
  intros inx li. unfold writeNum2.
  eapply completes_bind; [apply completes_rowOf; assumption |]. intros r out.
  apply completes_writeNum. exact out.
Qed.

Lemma completes_forM (idx : list nat) (body : nat -> M unit) :
  (forall i, In i idx -> completes X n (body i) (fun _ => True)) ->
  completes X n (forM idx body) (fun _ => True).
Proof.
  induction idx as [| i idx IH]; intro each; cbn [forM].
  - apply completes_ret. exact Logic.I.
  - eapply completes_bind; [apply each; left; reflexivity |].
    intros _ _. apply IH. intros k ink. apply each. right. exact ink.
Qed.


Ltac completes_prim :=
  first
    [ apply completes_allocArray
    | apply completes_newFilled
    | apply completes_readNum
    | apply completes_readNum2; [assumption | lia]
    | apply completes_writeNum; assumption
    | apply completes_writeLast; assumption
    | apply completes_lengthOf
    | apply completes_ret; first [exact Logic.I | assumption] ].

Ltac completes_steps :=
  repeat lazymatch goal with
         | |- completes _ _ (bind _ _) _ =>
             eapply completes_bind; [completes_prim | intros]
         end.

Lemma completes_forwardLoopM (a b c d cp dp : loc) (idx : list nat) :
  ~ In cp X -> ~ In dp X ->
  completes X n (forwardLoopM a b c d cp dp idx) (fun _ => True).
Proof.
  intros ocp odp. induction idx as [| i idx IH]; cbn [forwardLoopM].
  - apply completes_ret. exact Logic.I.
  - completes_steps. cbv zeta.
    match goal with
    | |- completes _ _ (if ?t then _ else _) _ => destruct t
    end; [apply completes_ret; exact Logic.I |].
    completes_steps. exact IH.
Qed.

Lemma completes_thomasAlgorithmM (a b c d : loc) :
  ~ In d X -> completes X n (thomasAlgorithmM a b c d) (fun l => ~ In l X).
Proof.
  intro od. unfold thomasAlgorithmM. completes_steps.
  match goal with
  | |- completes _ _ (if ?t then _ else _) _ => destruct t
  end; [apply completes_ret; exact od |].
  completes_steps.
  eapply completes_bind; [apply completes_forwardLoopM; assumption |].
  intros ok _. destruct ok; [| apply completes_ret; exact od].
  apply (completes_bind _ _ (fun _ => True)).
  { match goal with
    | |- completes _ _ (match ?k with 0 => _ | S _ => _ end) _ => destruct k
    end; [apply completes_ret; exact Logic.I |].
    completes_steps. completes_prim. }
  intros _ _.
  eapply completes_bind.
  { apply completes_forM. intros i _. completes_steps. completes_prim. }
  intros _ _. apply completes_ret. assumption.
Qed.

Lemma completes_dirichletRowsM (k : nat) (a b c d : loc) :
  ~ In a X -> ~ In b X -> ~ In c X -> ~ In d X ->
  completes X n (dirichletRowsM k a b c d) (fun _ => True).
Proof.
  intros oa ob oc od. unfold dirichletRowsM. completes_steps. completes_prim.
Qed.

Lemma completes_lineSolveM (k : nat) (av bv cv : num) (idx : list nat)
    (rhs : nat -> M num) :
  (forall i, In i idx -> completes X n (rhs i) (fun _ => True)) ->
  completes X n (lineSolveM k av bv cv idx rhs) (fun l => ~ In l X).
Proof.
  intro safe. unfold lineSolveM. completes_steps.
  eapply completes_bind.
  { apply completes_forM. intros i ini.
    eapply completes_bind; [apply safe; exact ini |]. intros v _.
    completes_prim. }
  intros _ _.
  eapply completes_bind; [apply completes_dirichletRowsM; assumption |].
  intros _ _. apply completes_thomasAlgorithmM. assumption.
Qed.

Lemma completes_storeColumnM (j : nat) (res m : loc) :
  In m X -> completes X n (storeColumnM n j res m) (fun _ => True).
Proof.
  intro inm. unfold storeColumnM. apply completes_forM. intros i ini.
  apply in_seq in ini. completes_steps.
  apply completes_writeNum2; [exact inm | lia].
Qed.

Lemma completes_storeRowM (k i : nat) (res m : loc) :
  In m X -> i < n -> completes X n (storeRowM k i res m) (fun _ => True).
Proof.
  intros inm li. unfold storeRowM. apply completes_forM. intros j _.
  completes_steps. apply completes_writeNum2; assumption.
Qed.

Lemma completes_dimensions (u : loc) :
  In u X -> 1 <= n -> completes X n (dimensions u) (fun dims => fst dims = n).
Proof.
  intros inu pos. unfold dimensions.
  eapply completes_bind; [apply completes_rows; exact inu |]. intros Nx ->.
  eapply completes_bind; [apply completes_rowOf; [exact inu | lia] |].
  intros row0 _.
  eapply completes_bind; [apply completes_lengthOf |]. intros Ny _.
  apply completes_ret. reflexivity.
Qed.

End Completes.

Section Fields.
Context {N : Number}.
Import Store.

Lemma linked_sub (l : loc) (X : list loc) (n : nat) (h : heap) :
  linked (l :: X) n h -> linked X n h.
Proof.
  intros lk x inx. destruct (lk x (or_intror inx)) as (lt & len & cells).
  split; [exact lt |]. split; [exact len |].
  intros i li. destruct (cells i li) as (r & cell & lr & out).
  exists r. split; [exact cell |]. split; [exact lr |].
  intro inr. apply out. right. exact inr.
Qed.

Lemma replaceAt_new (h : heap) (o o' : object) :
  replaceAt (h ++ [o]) (length h) o' = h ++ [o'].
Proof.
  induction h as [| x h IH]; simpl; [reflexivity | rewrite IH; reflexivity].
Qed.

Lemma newFilled_run (k : nat) (x : num) (h : heap) :
  newFilled k x h = (Some (length h), h ++ [repeat (VNum x) k]).
Proof.
  unfold newFilled, bind, allocArray, fillArray, ret. cbv beta iota.
  pose proof (objectAt_new h (repeat VUndef k)) as e1.
  pose proof (replaceAt_new h (repeat VUndef k) (repeat (VNum x) k)) as e2.
  unfold object, heap in *. rewrite e1, repeat_length, e2. reflexivity.
Qed.

(** The loop of [newZeros2] that allocates the rows: the rows are new
    arrays, one after the other, and the cells of [l] refer to them. *)
Lemma rows_built (l : loc) (Ny : nat) (m : nat) :
  forall (k : nat) (h : heap),
    l < length h ->
    let run := forM (seq k m)
                 (fun i => bind (newFilled Ny zero)
                             (fun row => writeCell l i (VRef row))) h in
    fst run = Some tt
    /\ length (snd run) = length h + m
    /\ (forall x, x <> l -> x < length h -> objectAt (snd run) x = objectAt h x)
    /\ (k + m <= length (objectAt h l) ->
        length (objectAt (snd run) l) = length (objectAt h l))
    /\ (forall i, nth i (objectAt (snd run) l) VUndef
                  = if (k <=? i) && (i <? k + m)
                    then VRef (length h + (i - k))
                    else nth i (objectAt h l) VUndef).
Proof.
  induction m as [| m IH]; intros k h lt.
  - cbv zeta. cbn [seq forM]. unfold ret. cbn [fst snd].
    split; [reflexivity |]. split; [lia |]. split; [reflexivity |].
    split; [reflexivity |].
    intro i. destruct (Nat.leb_spec k i), (Nat.ltb_spec i (k + 0));
      cbn [andb]; try reflexivity; lia.
  - set (body := fun i => bind (newFilled Ny zero)
                            (fun row => writeCell l i (VRef row))).
    set (h1 := h ++ [repeat (VNum zero) Ny]).
    set (h2 := replaceAt h1 l (aset VUndef (objectAt h1 l) k (VRef (length h)))).
    assert (step : forM (seq k (S m)) body h = forM (seq (S k) m) body h2).
    { cbn [seq forM]. unfold bind at 1. unfold body at 1.
      unfold bind at 1. rewrite newFilled_run. reflexivity. }
    cbv zeta. rewrite step.
    assert (len1 : length h1 = S (length h))
      by (unfold h1; rewrite length_app; simpl; lia).
    assert (len2 : length h2 = S (length h))
      by (unfold h2; rewrite replaceAt_length; exact len1).
    assert (at1 : objectAt h1 l = objectAt h l)
      by (unfold h1; apply objectAt_extend; exact lt).
    assert (at2 : objectAt h2 l = aset VUndef (objectAt h l) k (VRef (length h))).
    { unfold h2. rewrite objectAt_replaceAt, Nat.eqb_refl, at1.
      replace (l <? length h1) with true
        by (symmetry; apply Nat.ltb_lt; lia).
      reflexivity. }
    assert (other : forall x, x <> l -> x < length h -> objectAt h2 x = objectAt h x).
    { intros x ne lx. unfold h2. rewrite objectAt_replaceAt.
      destruct (Nat.eqb_spec l x) as [-> | _]; [congruence |].
      cbn [andb]. unfold h1. apply objectAt_extend. exact lx. }
    assert (lt2 : l < length h2) by lia.
    destruct (IH (S k) h2 lt2) as (ok & len & same & keep & cells).
    fold body in ok, len, same, keep, cells.
    unfold heap, object in *.
    split; [exact ok |]. split; [lia |]. split.
    { intros x ne lx. rewrite same by (try assumption; lia).
      apply other; assumption. }
    split.
    { intro fits. rewrite keep; rewrite at2.
      - apply aset_length_in. lia.
      - rewrite aset_length_in by lia. lia. }
    intro i. rewrite cells, at2, len2.
    change (nth i (aset VUndef (objectAt h l) k (VRef (length h))) VUndef)
      with (aget VUndef (aset VUndef (objectAt h l) k (VRef (length h))) i).
    rewrite aget_aset.
    destruct (Nat.leb_spec (S k) i), (Nat.ltb_spec i (S k + m)),
      (Nat.leb_spec k i), (Nat.ltb_spec i (k + S m)), (Nat.eqb_spec k i);
      cbn [andb]; try lia; try reflexivity.
    + f_equal. lia.
    + f_equal. lia.
Qed.

(** After [newZeros2] the new field is linked as well. *)
Lemma completes_newZeros2 {A : Type} (X : list loc) (n Ny : nat)
    (k : loc -> M A) (Q : A -> Prop) :
  (forall l, ~ In l X -> completes (l :: X) n (k l) Q) ->
  completes X n (bind (newZeros2 n Ny) k) Q.
Proof.
  intros ck h lk.
  set (h1 := h ++ [repeat (VNum zero) n]).
  set (h2 := h1 ++ [repeat VUndef n]).
  set (l := length h1).
  assert (len1 : length h1 = S (length h))
    by (unfold h1; rewrite length_app; simpl; lia).
  assert (len2 : length h2 = S (S (length h)))
    by (unfold h2; rewrite length_app; simpl; lia).
  assert (hdr : objectAt h2 l = repeat VUndef n)
    by (unfold h2, l; apply objectAt_new).
  assert (lt : l < length h2) by (unfold l; lia).
  destruct (rows_built l Ny n 0 h2 lt) as (ok & len & same & keep & cells).
  set (h3 := snd (forM (seq 0 n)
                    (fun i => bind (newFilled Ny zero)
                                (fun row => writeCell l i (VRef row))) h2)) in *.
  assert (run : newZeros2 n Ny h = (Some l, h3)).
  { unfold newZeros2. unfold bind at 1. rewrite newFilled_run. fold h1.
    unfold bind at 1. cbn [allocArray]. fold h2. fold l.
    unfold bind at 1.
    destruct (forM (seq 0 n)
                (fun i => bind (newFilled Ny zero)
                            (fun row => writeCell l i (VRef row))) h2)
      as [[[] |] h'] eqn:loop; cbn in ok; [| discriminate].
    reflexivity. }
  assert (fresh : ~ In l X).
  { intro inl. destruct (lk l inl) as (bad & _). unfold l in bad. lia. }
  assert (lk3 : linked (l :: X) n h3).
  { intros x [<- | inx].
    - split; [lia |]. split.
      + rewrite keep; rewrite hdr, repeat_length; lia.
      + intros i li. exists (length h2 + i). rewrite cells.
        destruct (Nat.leb_spec 0 i), (Nat.ltb_spec i (0 + n)); cbn [andb];
          try lia.
        split; [f_equal; lia |]. split; [lia |].
        intros [eq | inr]; [unfold l in eq; lia |].
        destruct (lk _ inr) as (bad & _). lia.
    - destruct (lk x inx) as (lx & lenx & cellsx).
      assert (ne : x <> l) by (unfold l; lia).
      assert (at3 : objectAt h3 x = objectAt h x).
      { rewrite same by (try assumption; lia).
        unfold h2, h1. rewrite !objectAt_extend;
          rewrite ?length_app; simpl; try lia. reflexivity. }
      rewrite at3. split; [lia |]. split; [exact lenx |].
      intros i li. destruct (cellsx i li) as (r & cell & lr & out).
      exists r. split; [exact cell |]. split; [lia |].
      intros [eq | inr]; [unfold l in eq; lia | contradiction]. }
  unfold bind. rewrite run.
  destruct (ck l fresh h3 lk3) as (lk' & res).
  split; [exact (linked_sub _ _ _ _ lk') | exact res].
Qed.

End Fields.

Section Steppers2DReturn.
Context {N : Number}.
Import Store.

Ltac reads :=
  repeat lazymatch goal with
         | |- completes _ _ (bind (readNum2 _ _ _) _) _ =>
             eapply completes_bind;
             [apply completes_readNum2; [simpl; auto 6 | lia] | intros]
         | |- completes _ _ (bind (readNum _ _) _) _ =>
             eapply completes_bind; [apply completes_readNum | intros]
         end.

Lemma completes_forwardEuler2DM (X : list loc) (n : nat) (u : loc) (rx ry : num) :
  In u X -> 1 <= n ->
  completes X n (forwardEuler2DM u rx ry) (fun _ => True).
Proof.
  intros inu pos. unfold forwardEuler2DM.
  eapply completes_bind; [apply completes_dimensions; assumption |].
  intros [Nx Ny] e. cbn in e. subst Nx.
  apply completes_newZeros2. intros uNew out.
  eapply completes_bind.
  { apply completes_forM. intros i ini. apply in_seq in ini.
    apply completes_forM. intros j _.
    reads. apply completes_writeNum2; [simpl; auto | lia]. }
  intros _ _. apply completes_ret. exact Logic.I.
Qed.

Lemma completes_sweepM (X : list loc) (n : nat) (idx : list nat)
    (line : nat -> M loc) (store : nat -> loc -> M unit) :
  (forall k, In k idx -> completes X n (line k) (fun _ => True)) ->
  (forall k res, In k idx -> completes X n (store k res) (fun _ => True)) ->
  completes X n (forM idx (fun k => bind (line k) (fun res => store k res)))
    (fun _ => True).
Proof.
  intros cl cs. apply completes_forM. intros k ink.
  eapply completes_bind; [apply cl; exact ink |]. intros res _.
  apply cs. exact ink.
Qed.

Ltac line_solve :=
  eapply completes_weaken;
  [ apply completes_lineSolveM; intros ? inner; apply in_seq in inner;
    reads;
    first [ apply completes_ret; exact Logic.I
          | apply completes_readNum2; [simpl; auto 6 | lia] ]
  | intros; exact Logic.I ].

Lemma completes_backwardEulerADIM (X : list loc) (n : nat) (u : loc) (rx ry : num) :
  In u X -> 1 <= n ->
  completes X n (backwardEulerADIM u rx ry) (fun _ => True).
Proof.
  intros inu pos. unfold backwardEulerADIM.
  eapply completes_bind; [apply completes_dimensions; assumption |].
  intros [Nx Ny] e. cbn in e. subst Nx.
  apply completes_newZeros2. intros uStar outs.
  eapply completes_bind.
  { apply completes_sweepM.
    - intros j _. line_solve.
    - intros j res _. apply completes_storeColumnM. simpl. auto. }
  intros _ _.
  apply completes_newZeros2. intros uNew outn.
  eapply completes_bind.
  { apply completes_sweepM.
    - intros i ini. apply in_seq in ini. line_solve.
    - intros i res ini. apply in_seq in ini.
      apply completes_storeRowM; [simpl; auto | lia]. }
  intros _ _. apply completes_ret. exact Logic.I.
Qed.

Lemma completes_crankNicolsonADIM (X : list loc) (n : nat) (u : loc) (rx ry : num) :
  In u X -> 1 <= n ->
  completes X n (crankNicolsonADIM u rx ry) (fun _ => True).
Proof.
  intros inu pos. unfold crankNicolsonADIM.
  eapply completes_bind; [apply completes_dimensions; assumption |].
  intros [Nx Ny] e. cbn in e. subst Nx.
  apply completes_newZeros2. intros uStar outs.
  apply completes_newZeros2. intros uNew outn. cbv zeta.
  eapply completes_bind.
  { apply completes_sweepM.
    - intros j _. line_solve.
    - intros j res _. apply completes_storeColumnM. simpl. auto. }
  intros _ _.
  eapply completes_bind.
  { apply completes_sweepM.
    - intros i ini. apply in_seq in ini. line_solve.
    - intros i res ini. apply in_seq in ini.
      apply completes_storeRowM; [simpl; auto | lia]. }
  intros _ _. apply completes_ret. exact Logic.I.
Qed.

Lemma completes_backwardEuler2D_ADIM (X : list loc) (n : nat) (u : loc)
    (rx ry : num) :
  In u X -> 1 <= n ->
  completes X n (backwardEuler2D_ADIM u rx ry) (fun _ => True).
Proof.
  intros inu pos. unfold backwardEuler2D_ADIM.
  eapply completes_bind; [apply completes_dimensions; assumption |].
  intros [Nx Ny] e. cbn in e. subst Nx.
  apply completes_newZeros2. intros uHalf outh.
  apply completes_newZeros2. intros uNew outn.
  eapply completes_bind.
  { apply completes_sweepM.
    - intros j _. line_solve.
    - intros j res _. apply completes_storeColumnM. simpl. auto. }
  intros _ _.
  eapply completes_bind.
  { apply completes_sweepM.
    - intros i ini. apply in_seq in ini. line_solve.
    - intros i res ini. apply in_seq in ini.
      apply completes_storeRowM; [simpl; auto | lia]. }
  intros _ _. apply completes_ret. exact Logic.I.
Qed.

Lemma completes_crankNicolson2D_ADIM (X : list loc) (n : nat) (u : loc)
    (rx ry : num) :
  In u X -> 1 <= n ->
  completes X n (crankNicolson2D_ADIM u rx ry) (fun _ => True).
Proof.
  intros inu pos. unfold crankNicolson2D_ADIM.
  eapply completes_bind; [apply completes_dimensions; assumption |].
  intros [Nx Ny] e. cbn in e. subst Nx.
  apply completes_newZeros2. intros uHalf outh.
  apply completes_newZeros2. intros uNew outn. cbv zeta.
  eapply completes_bind.
  { apply completes_sweepM.
    - intros j _. line_solve.
    - intros j res _. apply completes_storeColumnM. simpl. auto. }
  intros _ _.
  eapply completes_bind.
  { apply completes_sweepM.
    - intros i ini. apply in_seq in ini. line_solve.
    - intros i res ini. apply in_seq in ini.
      apply completes_storeRowM; [simpl; auto | lia]. }
  intros _ _. apply completes_ret. exact Logic.I.
Qed.

End Steppers2DReturn.

Section Closed.
Context {N : Number}.
Import Store.

Lemma nth_repeat_cases (v d : val) (k j : nat) :
  nth j (repeat v k) d = v \/ nth j (repeat v k) d = d.
Proof.
  revert j; induction k as [| k IH]; intros [| j]; simpl; auto.
Qed.

Lemma objectAt_snoc (h : heap) (o : object) (l : loc) :
  objectAt (h ++ [o]) l
  = if l <? length h then objectAt h l else if l =? length h then o else [].
Proof.
  destruct (Nat.ltb_spec l (length h)) as [lt | ge].
  - apply objectAt_extend. exact lt.
  - destruct (Nat.eqb_spec l (length h)) as [-> | ne].
    + apply objectAt_new.
    + apply objectAt_outside. rewrite length_app. simpl. lia.
Qed.

Lemma closed_start (h : heap) : closed (length h) h.
Proof.
  intros l i r le cell. rewrite objectAt_outside in cell by exact le.
  destruct i; discriminate.
Qed.

Lemma closed_alloc (base : nat) (h : heap) (n : nat) :
  closed base h -> closed base (h ++ [repeat VUndef n]).
Proof.
  intros cl l i r le cell. rewrite objectAt_snoc in cell.
  destruct (l <? length h); [exact (cl l i r le cell) |].
  destruct (l =? length h).
  - destruct (nth_repeat_cases VUndef VUndef n i) as [e | e];
      rewrite e in cell; discriminate.
  - destruct i; discriminate.
Qed.

Lemma closed_replace (base : nat) (h : heap) (l : loc) (o : object) :
  closed base h ->
  (forall i r, nth i o VUndef = VRef r -> base <= r) ->
  closed base (replaceAt h l o).
Proof.
  intros cl refs l' i r le cell. rewrite objectAt_replaceAt in cell.
  destruct ((l =? l') && (l <? length h)).
  - exact (refs i r cell).
  - exact (cl l' i r le cell).
Qed.

Lemma closed_write (base : nat) (h : heap) (l : loc) (i : nat) (x : num) :
  closed base h ->
  closed base (replaceAt h l (aset VUndef (objectAt h l) i (VNum x))).
Proof.
  intro cl. destruct (Nat.le_gt_cases base l) as [fresh | old].
  - apply closed_replace; [exact cl |]. intros j r cell.
    change (aget VUndef (aset VUndef (objectAt h l) i (VNum x)) j = VRef r) in cell.
    rewrite aget_aset in cell. destruct (i =? j); [discriminate |].
    exact (cl l j r fresh cell).
  - intros l' j r le cell. rewrite objectAt_replaceAt in cell.
    destruct (Nat.eqb_spec l l') as [-> | ne]; [lia |].
    exact (cl l' j r le cell).
Qed.

Lemma closed_fill (base : nat) (h : heap) (l : loc) (x : num) :
  closed base h ->
  closed base (replaceAt h l (repeat (VNum x) (length (objectAt h l)))).
Proof.
  intro cl. apply closed_replace; [exact cl |]. intros j r cell.
  destruct (nth_repeat_cases (VNum x) VUndef (length (objectAt h l)) j) as [e | e];
    rewrite e in cell; discriminate.
Qed.

Lemma closed_ref (base : nat) (h : heap) (l : loc) (i : nat) (r : loc) :
  base <= r -> closed base h ->
  closed base (replaceAt h l (aset VUndef (objectAt h l) i (VRef r))).
Proof.
  intros fr cl. destruct (Nat.le_gt_cases base l) as [fresh | old].
  - apply closed_replace; [exact cl |]. intros j r' cell.
    change (aget VUndef (aset VUndef (objectAt h l) i (VRef r)) j = VRef r') in cell.
    rewrite aget_aset in cell. destruct (i =? j).
    + injection cell as <-. exact fr.
    + exact (cl l j r' fresh cell).
  - intros l' j r' le cell. rewrite objectAt_replaceAt in cell.
    destruct (Nat.eqb_spec l l') as [-> | ne]; [lia |].
    exact (cl l' j r' le cell).
Qed.

Lemma frames_plain (m : M loc) :
  (forall base, frames base (fun _ => True) m (fun l => base <= l)) ->
  callKeeps m (fun h _ lr => length h <= lr).
Proof.
  intros fr h. destruct (fr (length h) h (le_n _) Logic.I) as (_ & pre & _ & post).
  split; [| exact post].
  intros l lt. apply (firstn_objectAt (length h)); assumption.
Qed.

Lemma frames_closed (m : M loc) :
  (forall base, frames base (closed base) m (fun l => base <= l)) ->
  callKeeps m
    (fun h h' lr =>
       length h <= lr
       /\ forall i row, nth i (objectAt h' lr) VUndef = VRef row -> length h <= row).
Proof.
  intros fr h.
  destruct (fr (length h) h (le_n _) (closed_start h)) as (_ & pre & cl & post).
  split.
  - intros l lt. apply (firstn_objectAt (length h)); assumption.
  - intros lr eq. split; [exact (post lr eq) |].
    intros i row cell. exact (cl lr i row (post lr eq) cell).
Qed.

End Closed.

(** C10.  Over the store, for every arithmetic, every store and every
    argument: a call of a stepper leaves every array that existed before
    the call with the elements it had, the field [u] and, in 2D, its rows
    among them; and the location it returns is not one of them: it was
    allocated by the call, and in 2D so was every row of the returned field.
    A call of a 1D stepper always returns.  A call of a 2D stepper returns
    when [u] is a field, an array of at least one reference to other
    arrays; on other arguments it can throw, and then too the arrays hold
    what they held.  Since the statement covers every diffusion number, it
    covers the calls in which the solver returns early with its right-hand
    side. *)
Theorem steppers_keep_their_input {N : Number} :
  (forall step : Store.loc -> num -> Store.M Store.loc,
     In step [Store.forwardEulerM; Store.backwardEulerM; Store.crankNicolsonM] ->
     forall (u : Store.loc) (r : num),
       returns (step u r)
       /\ callKeeps (step u r) (fun h _ lr => length h <= lr))
  /\ (forall step : Store.loc -> num -> num -> Store.M Store.loc,
        In step [Store.forwardEuler2DM; Store.backwardEulerADIM;
                 Store.crankNicolsonADIM; Store.backwardEuler2D_ADIM;
                 Store.crankNicolson2D_ADIM] ->
        forall (u : Store.loc) (rx ry : num),
          (forall h, isField h u -> exists lr, fst (step u rx ry h) = Some lr)
          /\ callKeeps (step u rx ry)
               (fun h h' lr =>
                  length h <= lr
                  /\ forall i row,
                       nth i (Store.objectAt h' lr) Store.VUndef = Store.VRef row ->
                       length h <= row)).
Proof.
  split.
  - intros step mem u r. simpl in mem.
    destruct mem as [<- | [<- | [<- | []]]];
      (split; [| apply frames_plain; intro base]).
    + apply returns_forwardEulerM.
    + apply frames_forwardEulerM; auto.
    + apply returns_backwardEulerM.
    + apply frames_backwardEulerM; auto.
    + apply returns_crankNicolsonM.
    + apply frames_crankNicolsonM; auto.
  - intros step mem u rx ry. simpl in mem. split.
    + intros h (pos & lk).
      assert (inu : In u [u]) by (left; reflexivity).
      destruct mem as [<- | [<- | [<- | [<- | [<- | []]]]]];
        [ destruct (completes_forwardEuler2DM _ _ u rx ry inu pos h lk)
            as (_ & lr & eq & _)
        | destruct (completes_backwardEulerADIM _ _ u rx ry inu pos h lk)
            as (_ & lr & eq & _)
        | destruct (completes_crankNicolsonADIM _ _ u rx ry inu pos h lk)
            as (_ & lr & eq & _)
        | destruct (completes_backwardEuler2D_ADIM _ _ u rx ry inu pos h lk)
            as (_ & lr & eq & _)
        | destruct (completes_crankNicolson2D_ADIM _ _ u rx ry inu pos h lk)
            as (_ & lr & eq & _) ];
        exists lr; exact eq.
    + destruct mem as [<- | [<- | [<- | [<- | [<- | []]]]]];
        apply frames_closed; intro base;
        [apply frames_forwardEuler2DM | apply frames_backwardEulerADIM
         | apply frames_crankNicolsonADIM | apply frames_backwardEuler2D_ADIM
         | apply frames_crankNicolson2D_ADIM];
        first [ intros h n; apply closed_alloc
              | intros h l i x; apply closed_write
              | intros h l x; apply closed_fill
              | intros h l i r fr; apply closed_ref; exact fr
              | intros h l i r cl le cell; exact (cl l i r le cell) ].
Qed.

Lemma plate_isField : isField (snd (Store.storeField plate [])) 4.
Proof.
  split; [simpl; lia |].
  intros x [<- | []]. split; [simpl; lia |]. split; [reflexivity |].
  intros i li. change (i < 4) in li.
  exists i. split; [| split; [simpl; lia | simpl; lia]].
  destruct i as [| [| [| [| i]]]]; try reflexivity. lia.
Qed.

Lemma steppers_keep_their_input_witness :
  let h := snd (Store.storeField plate []) in
  let call1 := Store.crankNicolsonM (N := QcNumber) 1 (qc (-1) 1) h in
  let call2 := Store.crankNicolsonADIM (N := QcNumber) 4 (qc 1 2) (qc 1 3) h in
  (exists lr, fst call1 = Some lr /\ length h <= lr
              /\ Store.objectAt (snd call1) 1 = Store.objectAt h 1)
  /\ (exists lr, fst call2 = Some lr /\ length h <= lr
                 /\ Store.objectAt (snd call2) 4 = Store.objectAt h 4
                 /\ Store.objectAt (snd call2) 1 = Store.objectAt h 1).
Proof.
  intros h call1 call2.
  destruct (steppers_keep_their_input (N := QcNumber)) as (one_d & two_d).
  split.
  - destruct (one_d Store.crankNicolsonM) with (u := 1) (r := qc (-1) 1)
      as (ret & keeps); [simpl; auto |].
    destruct (ret h) as (lr & eq). destruct (keeps h) as (old & new).
    exists lr. split; [exact eq |]. split; [exact (new lr eq) |].
    apply old. simpl. lia.
  - destruct (two_d Store.crankNicolsonADIM) with (u := 4) (rx := qc 1 2)
      (ry := qc 1 3) as (ret & keeps); [simpl; auto 10 |].
    destruct (ret h plate_isField) as (lr & eq).
    destruct (keeps h) as (old & new).
    exists lr. split; [exact eq |]. split; [exact (proj1 (new lr eq)) |].
    split; apply old; simpl; lia.
Defined.

(** The steppers over the store on concrete fields: each call returns, the
    array it returns holds what the stepper over values computes, it is a
    new array, and the input holds what it held. *)

Section StoreRunFacts.
Import Store.

Ltac qc_run :=
  vm_compute;
  repeat match goal with
         | |- Some _ = Some _ => f_equal
         | |- (_, _) = (_, _) => f_equal
         | |- _ :: _ = _ :: _ => f_equal
         end;
  try reflexivity; try qc_eq.

Example forwardEuler_run :
  run1D (fun l => forwardEulerM l (qc 1 4)) rod
  = Some (true, rod, forwardEuler rod (qc 1 4)).
Proof. qc_run. Qed.

Example backwardEuler_run :
  run1D (fun l => backwardEulerM l (qc 1 2)) rod
  = Some (true, rod, backwardEuler rod (qc 1 2)).
Proof. qc_run. Qed.

Example crankNicolson_run :
  run1D (fun l => crankNicolsonM l (qc 1 2)) rod
  = Some (true, rod, crankNicolson rod (qc 1 2)).
Proof. qc_run. Qed.

(** With r = -1/2 the second pivot of backward Euler is 0, with r = -1 the
    first interior pivot of Crank-Nicolson: the calls return the right-hand
    side, in an array of its own. *)
Example backwardEuler_fallback_run :
  run1D (fun l => backwardEulerM l (qc (-1) 2)) rod
  = Some (true, rod, backwardEuler rod (qc (-1) 2))
  /\ backwardEuler rod (qc (-1) 2) = rod.
Proof. split; qc_run. Qed.

Example crankNicolson_fallback_run :
  run1D (fun l => crankNicolsonM l (qc (-1) 1)) rod
  = Some (true, rod, crankNicolson rod (qc (-1) 1))
  /\ crankNicolson rod (qc (-1) 1) = [qc 0 1; qc 1 2; qc 11 2; qc 0 1].
Proof. split; qc_run. Qed.

Example forwardEuler2D_run :
  option_map (fun out => (true, plate, out)) (forwardEuler2D plate (qc 1 8) (qc 1 8))
  = run2D (fun l => forwardEuler2DM l (qc 1 8) (qc 1 8)) plate.
Proof. qc_run. Qed.

Example backwardEulerADI_run :
  option_map (fun out => (true, plate, out)) (backwardEulerADI plate (qc 1 2) (qc 1 3))
  = run2D (fun l => backwardEulerADIM l (qc 1 2) (qc 1 3)) plate.
Proof. qc_run. Qed.

Example crankNicolsonADI_run :
  option_map (fun out => (true, plate, out)) (crankNicolsonADI plate (qc 1 2) (qc 1 3))
  = run2D (fun l => crankNicolsonADIM l (qc 1 2) (qc 1 3)) plate.
Proof. qc_run. Qed.

Example backwardEuler2D_ADI_run :
  option_map (fun out => (true, plate, out))
    (backwardEuler2D_ADI plate (qc 1 2) (qc 1 3))
  = run2D (fun l => backwardEuler2D_ADIM l (qc 1 2) (qc 1 3)) plate.
Proof. qc_run. Qed.

Example crankNicolson2D_ADI_run :
  option_map (fun out => (true, plate, out))
    (crankNicolson2D_ADI plate (qc 1 2) (qc 1 3))
  = run2D (fun l => crankNicolson2D_ADIM l (qc 1 2) (qc 1 3)) plate.
Proof. qc_run. Qed.

(** A line solve that falls back (rx = -1/2) inside a 2D step. *)
Example backwardEulerADI_fallback_run :
  option_map (fun out => (true, plate, out))
    (backwardEulerADI plate (qc (-1) 2) (qc 1 3))
  = run2D (fun l => backwardEulerADIM l (qc (-1) 2) (qc 1 3)) plate.
Proof. qc_run. Qed.

(** On a field without rows the 2D steppers throw, over the store as over
    values, and the store holds what it held. *)
Example empty_field_run :
  crankNicolsonADI (N := QcNumber) [] (qc 1 2) (qc 1 3) = None
  /\ bind (storeField []) (fun l => crankNicolsonADIM l (qc 1 2) (qc 1 3)) []
     = (None, [[]]).
Proof. split; reflexivity. Qed.

End StoreRunFacts.

(** * Further properties *)

(** The solver and the steppers as numerical schemes (what they solve,
    the maximum principle and its range), runs of time steps, the
    animation, the error display and the events of the pages. *)

(** ** The solver solves the system *)


Section Residual.
Context {N : Number} {E : Exact N}.
Notation "l .[ i ]" := (aget undef l i) (at level 1, format "l .[ i ]").
Variables a b c d : list num.
Variable n : nat.
Hypothesis regular : forall j, j < n -> degenerate (pivot a b c j) = false.

Let X (i : nat) : R := toR (xback a b c d (n - 1 - i) i).
Let P (i : nat) : R := toR (pivot a b c i).
Let C (i : nat) : R := toR (cprime a b c i).
Let D (i : nat) : R := toR (dprime a b c d i).

Lemma pivot_nonzero (j : nat) : j < n -> P j <> 0%R.
Proof.
  intro lt. pose proof (regular j lt) as nd. unfold degenerate in nd.
  apply ltb_false in nd. rewrite toR_abs in nd.
  pose proof toR_pivot_eps as eps. fold (P j) in nd.
  intro z. rewrite z, Rabs_R0 in nd. lra.
Qed.

Lemma cprime_pivot (j : nat) : j < n -> (C j * P j = toR c.[j])%R.
Proof.
  intro lt. pose proof (pivot_nonzero j lt) as nz. unfold C, P in *.
  destruct j as [| k].
  - cbn. rewrite toR_div. cbn in nz. field. exact nz.
  - change (cprime a b c (S k)) with (div c.[S k] (pivot a b c (S k))).
    rewrite toR_div. field. exact nz.
Qed.

Lemma dprime_pivot (j : nat) :
  j < n ->
  (D j * P j
   = toR d.[j] - (if j =? 0 then 0 else toR a.[j] * D (j - 1)))%R.
Proof.
  intro lt. pose proof (pivot_nonzero j lt) as nz. unfold D, P in *.
  destruct j as [| k].
  - cbn. rewrite toR_div. cbn in nz. field. exact nz.
  - change (dprime a b c d (S k))
      with (div (sub d.[S k] (mul a.[S k] (dprime a b c d k)))
              (pivot a b c (S k))).
    rewrite toR_div, toR_sub, toR_mul. cbn [Nat.eqb].
    replace (S k - 1) with k by lia. field. exact nz.
Qed.

Lemma pivot_step (j : nat) :
  (P (S j) = toR b.[S j] - toR a.[S j] * C j)%R.
Proof. unfold P, C. cbn. rewrite toR_sub, toR_mul. reflexivity. Qed.

Lemma xback_last : 1 <= n -> X (n - 1) = D (n - 1).
Proof.
  intro pos. unfold X, D. replace (n - 1 - (n - 1)) with 0 by lia. reflexivity.
Qed.

Lemma xback_step (i : nat) : i + 1 < n -> (X i = D i - C i * X (i + 1))%R.
Proof.
  intro lt. unfold X, D, C.
  replace (n - 1 - i) with (S (n - 1 - (i + 1))) by lia.
  cbn [xback]. rewrite toR_sub, toR_mul.
  replace (S i) with (i + 1) by lia. reflexivity.
Qed.

(** The values of the recurrences satisfy every row of the system. *)
Lemma recurrences_solve (i : nat) :
  i < n ->
  ((if i =? 0 then 0 else toR a.[i] * X (i - 1))
   + toR b.[i] * X i
   + (if i =? n - 1 then 0 else toR c.[i] * X (i + 1))
   = toR d.[i])%R.
Proof.
  intro lt.
  pose proof (cprime_pivot i lt) as cp. pose proof (dprime_pivot i lt) as dp.
  destruct i as [| k].
  - change (0 =? 0) with true in *. cbv iota in *.
    change (P 0) with (toR b.[0]) in *.
    destruct (Nat.eqb_spec 0 (n - 1)) as [last | more].
    + pose proof (xback_last ltac:(lia)) as xl. rewrite <- last in xl.
      rewrite xl. nra.
    + rewrite (xback_step 0) by lia. cbn [Nat.add]. nra.
  - change (S k =? 0) with false in *. cbv iota in *.
    replace (S k - 1) with k in * by lia.
    rewrite (xback_step k) by lia. replace (k + 1) with (S k) by lia.
    pose proof (pivot_step k) as ps.
    destruct (Nat.eqb_spec (S k) (n - 1)) as [last | more].
    + assert (xl : X (S k) = D (S k)) by (rewrite last; apply xback_last; lia).
      rewrite xl. nra.
    + rewrite (xback_step (S k)) by lia. nra.
Qed.

End Residual.

Section Solves.
Context {N : Number} {E : Exact N}.
Notation "l .[ i ]" := (aget undef l i) (at level 1, format "l .[ i ]").

Lemma solution_solves (a b c d : list num) (n i : nat) :
  (forall j, j < n -> degenerate (pivot a b c j) = false) ->
  i < n ->
  rowSum a b c (solution a b c d n) n i = d.[i].
Proof.
  intros regular lt. unfold rowSum.
  pose proof (recurrences_solve a b c d n regular i lt) as eq.
  cbv zeta in eq.
  apply toR_inj. rewrite <- eq. rewrite !toR_add, toR_mul.
  rewrite (aget_solution a b c d n i lt).
  f_equal; [f_equal |].
  - destruct (Nat.eqb_spec i 0) as [-> | pos]; [apply toR_zero |].
    rewrite toR_mul, aget_solution by lia.
    replace (n - 1 - (i - 1)) with (S (n - 1 - i)) by lia. reflexivity.
  - destruct (Nat.eqb_spec i (n - 1)) as [-> | more]; [apply toR_zero |].
    rewrite toR_mul, aget_solution by lia. reflexivity.
Qed.

(** X1.  In exact arithmetic, when no effective pivot of the system is
    below the threshold in absolute value, so that the solver does not
    return early, the array [x] it returns solves the system: in every
    row [i], [a_i x_(i-1) + b_i x_i + c_i x_(i+1) = d_i], where row [0] has
    no [a] term and the last row no [c] term ([a_0] and [c_(n-1)] are
    never used). *)
Theorem thomasAlgorithm_solves (a b c d : list num) :
  (forall j, j < length d -> degenerate (pivot a b c j) = false) ->
  forall i, i < length d ->
    rowSum a b c (thomasAlgorithm a b c d) (length d) i = d.[i].
Proof.
  intros regular i lt.
  destruct (thomasAlgorithm_cases a b c d) as [(_ & k & lk & deg) | (-> & _)].
  - rewrite regular in deg by lia. discriminate.
  - apply solution_solves; assumption.
Qed.

End Solves.

Lemma thomasAlgorithm_solves_witness :
  let a := [qc 0 1; qc 1 1; qc 1 1] in
  let b := [qc 2 1; qc 3 1; qc 2 1] in
  let c := [qc 1 1; qc 1 1; qc 0 1] in
  let d := [qc 4 1; qc 10 1; qc 8 1] in
  rowSum (N := QcNumber) a b c (thomasAlgorithm a b c d) 3 1 = qc 10 1.
Proof.
  intros a b c d.
  apply (thomasAlgorithm_solves (N := QcNumber) (E := QcExact) a b c d).
  - intros j lt. change (j < 3) in lt.
    destruct j as [| [| [| j]]]; try lia; vm_compute; reflexivity.
  - simpl. lia.
Defined.

Section DirichletSolutions.
Context {N : Number} {E : Exact N}.
Notation "l .[ i ]" := (aget undef l i) (at level 1, format "l .[ i ]").

(** A finite sequence has a largest element. *)
Lemma largest_exists (f : nat -> R) (n : nat) :
  1 <= n -> exists k, k < n /\ forall j, j < n -> (f j <= f k)%R.
Proof.
  induction n as [| n IH]; [lia |]. intros _.
  destruct n as [| m].
  - exists 0. split; [lia |]. intros j lt. replace j with 0 by lia. lra.
  - destruct (IH ltac:(lia)) as (k & lk & best).
    destruct (Rle_lt_dec (f (S m)) (f k)) as [le | gt].
    + exists k. split; [lia |]. intros j lt.
      destruct (Nat.eq_dec j (S m)) as [-> | ne]; [exact le | apply best; lia].
    + exists (S m). split; [lia |]. intros j lt.
      destruct (Nat.eq_dec j (S m)) as [-> | ne]; [lra |].
      specialize (best j ltac:(lia)). lra.
Qed.

Variables (n : nat) (off diag : num) (rhs : nat -> num) (s : system) (q : R).
Hypothesis sys : dirichletSystem n off diag rhs s.
Hypothesis pos : 1 <= n.
Hypothesis q_nonneg : (0 <= q)%R.
Hypothesis off_q : toR off = (- q)%R.
Hypothesis diag_q : toR diag = (1 + 2 * q)%R.

Lemma dirichletSystem_regular (j : nat) :
  j < n -> degenerate (pivot (sa s) (sb s) (sc s) j) = false.
Proof.
  intro lt. apply degenerate_false.
  pose proof (dirichletSystem_pivots n off diag rhs s q sys pos q_nonneg
                off_q diag_q j lt) as big.
  rewrite Rabs_right; lra.
Qed.

Lemma dirichletSystem_solution_rows (i : nat) :
  i < n -> rowSum (sa s) (sb s) (sc s) (solve s) n i = (sd s).[i].
Proof.
  intro lt.
  destruct (dirichletSystem_completes n off diag rhs s q sys pos q_nonneg
              off_q diag_q) as (_ & ->).
  apply solution_solves; [exact dirichletSystem_regular | exact lt].
Qed.

(** The solution is [0] in the first and in the last row and satisfies
    [- q x_(i-1) + (1 + 2 q) x_i - q x_(i+1) = rhs_i] in between. *)
Lemma dirichletSystem_equations :
  toR (solve s).[0] = 0%R
  /\ toR (solve s).[n - 1] = 0%R
  /\ forall i, 0 < i < n - 1 ->
       ((1 + 2 * q) * toR (solve s).[i]
        - q * (toR (solve s).[i + 1] + toR (solve s).[i - 1])
        = toR (rhs i))%R.
Proof.
  destruct sys as (len & rows).
  assert (first : toR (solve s).[0] = 0%R).
  { pose proof (dirichletSystem_solution_rows 0 ltac:(lia)) as eq.
    destruct (rows 0 ltac:(lia)) as (_ & b0 & c0 & d0).
    unfold rowSum in eq. rewrite b0, c0, d0 in eq.
    change (0 =? 0) with true in eq. cbn [orb] in eq.
    apply (f_equal toR) in eq.
    destruct (0 =? n - 1); autorewrite with toR in eq; lra. }
  assert (last : toR (solve s).[n - 1] = 0%R).
  { destruct (Nat.eq_dec n 1) as [-> | more]; [exact first |].
    pose proof (dirichletSystem_solution_rows (n - 1) ltac:(lia)) as eq.
    destruct (rows (n - 1) ltac:(lia)) as (al & bl & _ & dl).
    unfold rowSum in eq. rewrite al, bl, dl in eq.
    rewrite Nat.eqb_refl, orb_true_r in eq.
    apply (f_equal toR) in eq.
    destruct (n - 1 =? 0); autorewrite with toR in eq; lra. }
  split; [exact first |]. split; [exact last |].
  intros i range.
  pose proof (dirichletSystem_solution_rows i ltac:(lia)) as eq.
  destruct (rows i ltac:(lia)) as (ai & bi & ci & di).
  unfold rowSum in eq. rewrite ai, bi, ci, di in eq.
  destruct (Nat.eqb_spec i 0), (Nat.eqb_spec i (n - 1)); try lia.
  cbn [orb] in eq. apply (f_equal toR) in eq.
  autorewrite with toR in eq. rewrite off_q, diag_q in eq. lra.
Qed.

(** The maximum principle: the solution is bounded by the right-hand
    side. *)
Lemma dirichletSystem_bound (B : R) :
  (forall i, 0 < i < n - 1 -> (Rabs (toR (rhs i)) <= B)%R) ->
  (0 <= B)%R ->
  forall i, i < n -> (Rabs (toR (solve s).[i]) <= B)%R.
Proof.
  intros small bpos.
  destruct dirichletSystem_equations as (first & last & inner).
  destruct (largest_exists (fun i => Rabs (toR (solve s).[i])) n pos)
    as (k & lk & best).
  cbv beta in best.
  assert (top : (Rabs (toR (solve s).[k]) <= B)%R).
  { destruct (Nat.eq_dec k 0) as [-> | k0];
      [rewrite first, Rabs_R0; exact bpos |].
    destruct (Nat.eq_dec k (n - 1)) as [-> | kl];
      [rewrite last, Rabs_R0; exact bpos |].
    pose proof (inner k ltac:(lia)) as eq.
    pose proof (small k ltac:(lia)) as sm.
    pose proof (best (k + 1) ltac:(lia)) as up.
    pose proof (best (k - 1) ltac:(lia)) as down.
    set (x := toR (solve s).[k]) in *.
    set (y := toR (solve s).[k + 1]) in *.
    set (z := toR (solve s).[k - 1]) in *.
    set (f := toR (rhs k)) in *.
    assert (tri : ((1 + 2 * q) * Rabs x <= Rabs f + q * Rabs y + q * Rabs z)%R).
    { replace ((1 + 2 * q) * Rabs x)%R with (Rabs ((1 + 2 * q) * x)).
      - replace ((1 + 2 * q) * x)%R with (f + q * y + q * z)%R by lra.
        eapply Rle_trans; [apply Rabs_triang |].
        apply Rplus_le_compat.
        + eapply Rle_trans; [apply Rabs_triang |].
          apply Rplus_le_compat_l.
          rewrite Rabs_mult, (Rabs_right q) by lra. lra.
        + rewrite Rabs_mult, (Rabs_right q) by lra. lra.
      - rewrite Rabs_mult, (Rabs_right (1 + 2 * q)) by lra. reflexivity. }
    pose proof (Rabs_pos x). nra. }
  intros i lt. specialize (best i lt). lra.
Qed.

End DirichletSolutions.

(** The real value of a concrete rational. *)
Lemma toR_qc (z : Z) (p : positive) :
  @toR QcNumber QcExact (qc z p) = (IZR z / IZR (Zpos p))%R.
Proof.
  unfold qc. change (Q2Qc (z # p)) with (@lit QcNumber (z # p)).
  rewrite (@toR_lit QcNumber QcExact). unfold Q2R. reflexivity.
Qed.

(** Bounds on the elements of a concrete array of rationals. *)
Ltac qc_bounded :=
  let i := fresh "i" in
  let lt := fresh "lt" in
  intros i lt; simpl in lt;
  repeat (destruct i as [| i]; [| try lia]);
  cbn [aget nth]; rewrite toR_qc; apply Rabs_le; lra.

(** Bounds on the entries of a concrete matrix of rationals. *)
Ltac qc_bounded2 :=
  let i := fresh "i" in
  let j := fresh "j" in
  let li := fresh "li" in
  let lj := fresh "lj" in
  intros i j li lj; simpl in li, lj;
  repeat (destruct i as [| i]; [| try lia]);
  repeat (destruct j as [| j]; [| try lia]);
  unfold mget, plate; cbn [aget nth]; rewrite toR_qc; apply Rabs_le; lra.

(** ** The one-dimensional schemes *)


Section Schemes1D.
Context {N : Number} {E : Exact N}.
Notation "l .[ i ]" := (aget undef l i) (at level 1, format "l .[ i ]").

Lemma forwardEuler_inner (u : list num) (r : num) (i : nat) :
  0 < i < length u - 1 ->
  (forwardEuler u r).[i]
  = add u.[i] (mul r (add (sub u.[i + 1] (mul two u.[i])) u.[i - 1])).
Proof.
  intro range. unfold forwardEuler. cbv zeta.
  rewrite (aget_for_up_aset 1 (length u - 1)
             (fun i => add u.[i] (mul r (add (sub u.[i + 1] (mul two u.[i])) u.[i - 1])))).
  destruct (Nat.leb_spec 1 i), (Nat.ltb_spec i (length u - 1)); try lia.
  reflexivity.
Qed.

Lemma bounded_nonneg (B : R) (u : list num) :
  1 <= length u -> bounded B u -> (0 <= B)%R.
Proof.
  intros pos bd. specialize (bd 0 ltac:(lia)).
  pose proof (Rabs_pos (toR u.[0])). lra.
Qed.

Lemma convex3 (p q B x y z : R) :
  (0 <= p)%R -> (0 <= q)%R ->
  (Rabs x <= B)%R -> (Rabs y <= B)%R -> (Rabs z <= B)%R ->
  (Rabs (p * x + q * y + q * z) <= (p + 2 * q) * B)%R.
Proof.
  intros pp qq bx by_ bz.
  eapply Rle_trans; [apply Rabs_triang |].
  eapply Rle_trans; [apply Rplus_le_compat_r; apply Rabs_triang |].
  rewrite !Rabs_mult, (Rabs_right p), (Rabs_right q) by lra. nra.
Qed.

Lemma bounded_one_zero (B : R) (x : list num) :
  (0 <= B)%R -> length x = 1 -> toR x.[0] = 0%R -> bounded B x.
Proof.
  intros bpos len z i lt. rewrite len in lt. replace i with 0 by lia.
  rewrite z, Rabs_R0. exact bpos.
Qed.

Lemma forwardEuler_interior (u : list num) (r : num) (i : nat) :
  0 < i < length u - 1 ->
  toR (forwardEuler u r).[i]
  = (toR u.[i] + toR r * (toR u.[i + 1] - 2 * toR u.[i] + toR u.[i - 1]))%R.
Proof.
  intro ri. rewrite forwardEuler_inner by exact ri.
  autorewrite with toR. reflexivity.
Qed.

(** Forward Euler forms convex combinations of three neighbours when
    [0 <= r <= 1/2]. *)
Lemma forwardEuler_bounded (u : list num) (r : num) (B : R) :
  (0 <= toR r <= 1 / 2)%R -> (0 <= B)%R -> bounded B u ->
  bounded B (forwardEuler u r).
Proof.
  intros range bpos bd.
  destruct (Nat.eq_dec (length u) 0) as [empty | some].
  - destruct u; [| discriminate].
    apply bounded_one_zero; [exact bpos | reflexivity | apply toR_zero].
  - destruct (forwardEuler_boundary u r ltac:(lia)) as (len & first & last).
    intros i lt. rewrite len in lt.
    destruct (Nat.eq_dec i 0) as [-> | i0];
      [rewrite first, toR_zero, Rabs_R0; exact bpos |].
    destruct (Nat.eq_dec i (length u - 1)) as [-> | il];
      [rewrite last, toR_zero, Rabs_R0; exact bpos |].
    rewrite forwardEuler_interior by lia.
    pose proof (bd i ltac:(lia)) as b0.
    pose proof (bd (i + 1) ltac:(lia)) as b1.
    pose proof (bd (i - 1) ltac:(lia)) as b2.
    replace (toR u.[i]
             + toR r * (toR u.[i + 1] - 2 * toR u.[i] + toR u.[i - 1]))%R
      with ((1 - 2 * toR r) * toR u.[i] + toR r * toR u.[i + 1]
            + toR r * toR u.[i - 1])%R by lra.
    eapply Rle_trans; [apply convex3; try eassumption; lra |]. nra.
Qed.

(** X3.  In exact arithmetic, forward Euler sets every interior entry to
    [u_i + r (u_(i+1) - 2 u_i + u_(i-1))], and for [0 <= r <= 1/2] it does
    not increase the largest absolute value of the field: a bound [B >= 0]
    on the entries of [u] is a bound on the entries of the result. *)
Theorem forwardEuler_stable (u : list num) (r : num) (B : R) :
  (0 <= toR r <= 1 / 2)%R -> (0 <= B)%R -> bounded B u ->
  (forall i, 0 < i < length u - 1 ->
     toR (forwardEuler u r).[i]
     = (toR u.[i] + toR r * (toR u.[i + 1] - 2 * toR u.[i] + toR u.[i - 1]))%R)
  /\ bounded B (forwardEuler u r).
Proof.
  intros range bpos bd. split.
  - intros i ri. apply forwardEuler_interior. exact ri.
  - apply forwardEuler_bounded; assumption.
Qed.

(** The system the implicit steppers build for the empty field. *)
Lemma one_row_solution :
  let x := solve {| sa := []; sb := [one]; sc := [zero]; sd := [zero] |} in
  length x = 1 /\ toR x.[0] = 0%R.
Proof.
  cbv zeta. unfold solve. cbn [sa sb sc sd].
  split; [apply thomasAlgorithm_length |].
  destruct (thomasAlgorithm_cases [] [one] [zero] [zero])
    as [(-> & _) | (-> & _)].
  - cbn. apply toR_zero.
  - cbn. autorewrite with toR. lra.
Qed.

Lemma solve_length (s : system) : length (solve s) = length (sd s).
Proof. apply thomasAlgorithm_length. Qed.

(** X2.  In exact arithmetic and for [r >= 0], the fields the two implicit
    steppers return satisfy the equations of their schemes at every
    interior point: backward Euler
    [(1 + 2r) x_i - r (x_(i+1) + x_(i-1)) = u_i], and Crank-Nicolson
    [(1 + r) y_i - (r/2) (y_(i+1) + y_(i-1))
     = (1 - r) u_i + (r/2) (u_(i+1) + u_(i-1))]. *)
Theorem implicit_steps_solve_their_schemes (u : list num) (r : num) (i : nat) :
  (0 <= toR r)%R -> 0 < i < length u - 1 ->
  ((1 + 2 * toR r) * toR (backwardEuler u r).[i]
   - toR r * (toR (backwardEuler u r).[i + 1] + toR (backwardEuler u r).[i - 1])
   = toR u.[i])%R
  /\ ((1 + toR r) * toR (crankNicolson u r).[i]
      - toR r / 2
        * (toR (crankNicolson u r).[i + 1] + toR (crankNicolson u r).[i - 1])
      = (1 - toR r) * toR u.[i]
        + toR r / 2 * (toR u.[i + 1] + toR u.[i - 1]))%R.
Proof.
  intros rpos range.
  assert (pos : 1 <= length u) by lia.
  split.
  - pose proof (backwardEulerSystem_rows u r pos) as sys.
    destruct (dirichletSystem_equations (length u) _ _ _ _ (toR r) sys pos rpos
                (toR_neg r)) as (_ & _ & inner).
    { autorewrite with toR. reflexivity. }
    exact (inner i range).
  - pose proof (crankNicolsonSystem_rows u r pos) as sys.
    destruct (dirichletSystem_equations (length u) _ _ _ _ (toR r / 2) sys pos)
      as (_ & _ & inner).
    { lra. }
    { autorewrite with toR. reflexivity. }
    { autorewrite with toR. lra. }
    specialize (inner i range). unfold crankNicolson.
    unfold crankNicolsonRhs in inner. autorewrite with toR in inner. lra.
Qed.

(** The maximum principle of the backward Euler system. *)
Lemma backwardEuler_bounded (u : list num) (r : num) (B : R) :
  (0 <= toR r)%R -> (0 <= B)%R -> bounded B u ->
  bounded B (backwardEuler u r).
Proof.
  intros rpos bpos bd.
  destruct (Nat.eq_dec (length u) 0) as [empty | some].
  { destruct u; [| discriminate].
    unfold backwardEuler. rewrite backwardEulerSystem_nil.
    destruct one_row_solution as (len & z).
    apply bounded_one_zero; assumption. }
  assert (pos : 1 <= length u) by lia.
  pose proof (backwardEulerSystem_rows u r pos) as sys.
  assert (len : length (backwardEuler u r) = length u).
  { unfold backwardEuler. rewrite solve_length. apply sys. }
  intros i lt. rewrite len in lt.
  apply (dirichletSystem_bound (length u) _ _ _ _ (toR r) sys pos rpos
           (toR_neg r)); try assumption.
  - autorewrite with toR. reflexivity.
  - intros k range. apply bd. lia.
Qed.

(** The right-hand side of Crank-Nicolson is a convex combination when
    [r <= 1]; the maximum principle of its system does the rest. *)
Lemma crankNicolson_bounded (u : list num) (r : num) (B : R) :
  (0 <= toR r <= 1)%R -> (0 <= B)%R -> bounded B u ->
  bounded B (crankNicolson u r).
Proof.
  intros (rpos & small) bpos bd.
  destruct (Nat.eq_dec (length u) 0) as [empty | some].
  { destruct u; [| discriminate].
    unfold crankNicolson. rewrite crankNicolsonSystem_nil.
    destruct one_row_solution as (len & z).
    apply bounded_one_zero; assumption. }
  assert (pos : 1 <= length u) by lia.
  pose proof (crankNicolsonSystem_rows u r pos) as sys.
  assert (len : length (crankNicolson u r) = length u).
  { unfold crankNicolson. rewrite solve_length. apply sys. }
  intros i lt. rewrite len in lt.
  apply (dirichletSystem_bound (length u) _ _ _ _ (toR r / 2) sys pos);
    try assumption.
  - lra.
  - autorewrite with toR. reflexivity.
  - autorewrite with toR. lra.
  - intros k range. unfold crankNicolsonRhs. autorewrite with toR.
    pose proof (bd k ltac:(lia)) as b0.
    pose proof (bd (k + 1) ltac:(lia)) as b1.
    pose proof (bd (k - 1) ltac:(lia)) as b2.
    replace ((1 - toR r) * toR u.[k]
             + toR r / 2 * (toR u.[k + 1] + toR u.[k - 1]))%R
      with ((1 - toR r) * toR u.[k] + toR r / 2 * toR u.[k + 1]
            + toR r / 2 * toR u.[k - 1])%R by lra.
    eapply Rle_trans; [apply convex3; try eassumption; lra |]. nra.
Qed.

(** X4.  In exact arithmetic backward Euler never increases the largest
    absolute value of the field, for every [r >= 0]; Crank-Nicolson does not
    for [0 <= r <= 1]. *)
Theorem implicit_steps_stable (u : list num) (r : num) (B : R) :
  (0 <= toR r)%R -> (0 <= B)%R -> bounded B u ->
  bounded B (backwardEuler u r)
  /\ ((toR r <= 1)%R -> bounded B (crankNicolson u r)).
Proof.
  intros rpos bpos bd. split.
  - apply backwardEuler_bounded; assumption.
  - intro small. apply crankNicolson_bounded; [lra | assumption | assumption].
Qed.

End Schemes1D.

Lemma forwardEuler_stable_witness :
  bounded (N := QcNumber) 1
    (forwardEuler (N := QcNumber) [qc 0 1; qc 1 1; qc (-1) 2; qc 0 1] (qc 1 4)).
Proof.
  apply (forwardEuler_stable (N := QcNumber) (E := QcExact)
           [qc 0 1; qc 1 1; qc (-1) 2; qc 0 1] (qc 1 4) 1).
  - rewrite toR_qc. lra.
  - lra.
  - qc_bounded.
Defined.

Lemma implicit_steps_solve_their_schemes_witness :
  let u := [qc 0 1; qc 1 1; qc 0 1] in
  let r := qc 1 2 in
  ((1 + 2 * toR r) * toR (aget undef (backwardEuler (N := QcNumber) u r) 1)
   - toR r * (toR (aget undef (backwardEuler u r) 2)
              + toR (aget undef (backwardEuler u r) 0))
   = toR (aget undef u 1))%R.
Proof.
  intros u r.
  apply (proj1 (implicit_steps_solve_their_schemes (N := QcNumber) (E := QcExact)
                  u r 1 ltac:(unfold r; rewrite toR_qc; lra)
                  ltac:(simpl; lia))).
Defined.

Lemma implicit_steps_stable_witness :
  bounded (N := QcNumber) 1
    (backwardEuler (N := QcNumber) [qc 0 1; qc 1 1; qc (-1) 2; qc 0 1] (qc 5 1)).
Proof.
  apply (proj1 (implicit_steps_stable (N := QcNumber) (E := QcExact)
                  [qc 0 1; qc 1 1; qc (-1) 2; qc 0 1] (qc 5 1) 1
                  ltac:(rewrite toR_qc; lra) ltac:(lra) ltac:(qc_bounded))).
Defined.

(** ** The two-dimensional schemes *)


Section Stable2D.
Context {N : Number} {E : Exact N}.
Notation "l .[ i ]" := (aget undef l i) (at level 1, format "l .[ i ]").

Lemma forwardEuler2D_inner (u : matrix) (rx ry : num) (res : matrix) (i j : nat) :
  forwardEuler2D u rx ry = Some res ->
  0 < i < length u - 1 -> 0 < j < length (hd [] u) - 1 ->
  mget res i j
  = add (add (mget u i j)
             (mul rx (add (sub (mget u (i + 1) j) (mul two (mget u i j)))
                          (mget u (i - 1) j))))
        (mul ry (add (sub (mget u i (j + 1)) (mul two (mget u i j)))
                     (mget u i (j - 1)))).
Proof.
  intros run ri rj. destruct u as [| row0 rest]; [discriminate |].
  injection run as <-.
  set (Nx := length (row0 :: rest)) in *.
  set (Ny := length (hd [] (row0 :: rest))) in *.
  change (length row0) with Ny.
  set (f := fun i j : nat =>
    add (add (mget (row0 :: rest) i j)
             (mul rx (add (sub (mget (row0 :: rest) (i + 1) j)
                               (mul two (mget (row0 :: rest) i j)))
                          (mget (row0 :: rest) (i - 1) j))))
        (mul ry (add (sub (mget (row0 :: rest) i (j + 1))
                          (mul two (mget (row0 :: rest) i j)))
                     (mget (row0 :: rest) i (j - 1))))).
  rewrite (for_up_mget (fun i _ => i)
             (fun _ j => (1 <=? j) && (j <? Ny - 1)) (fun i _ j => f i j)).
  - repeat match goal with
           | |- context [(?x <=? ?y)] =>
               replace (x <=? y) with true
                 by (symmetry; apply Nat.leb_le; subst Nx Ny; simpl in *; lia)
           | |- context [(?x <? ?y)] =>
               replace (x <? y) with true
                 by (symmetry; apply Nat.ltb_lt; subst Nx Ny; simpl in *; lia)
           end.
    reflexivity.
  - intros k m i1 j1 _.
    rewrite (for_up_mget (fun _ j => j) (fun i _ => i =? k)
               (fun j _ _ => f k j)).
    + rewrite (andb_comm (i1 =? k)).
      destruct (Nat.eqb_spec i1 k) as [-> | ne1]; [reflexivity |].
      rewrite !andb_false_r. reflexivity.
    + intros k' m' i2 j2 _. rewrite mget_mset.
      rewrite (Nat.eqb_sym k i2), (Nat.eqb_sym k' j2), andb_comm.
      reflexivity.
Qed.

Lemma convex5 (p q s B x e w n o : R) :
  (0 <= p)%R -> (0 <= q)%R -> (0 <= s)%R ->
  (Rabs x <= B)%R -> (Rabs e <= B)%R -> (Rabs w <= B)%R ->
  (Rabs n <= B)%R -> (Rabs o <= B)%R ->
  (Rabs (p * x + q * e + q * w + s * n + s * o) <= (p + 2 * q + 2 * s) * B)%R.
Proof.
  intros pp qq ss bx be bw bn bo.
  repeat (eapply Rle_trans;
          [first [apply Rabs_triang
                 | apply Rplus_le_compat_r; apply Rabs_triang
                 | apply Rplus_le_compat_r; apply Rplus_le_compat_r;
                   apply Rabs_triang
                 | apply Rplus_le_compat_r; apply Rplus_le_compat_r;
                   apply Rplus_le_compat_r; apply Rabs_triang] |]).
  rewrite !Rabs_mult, (Rabs_right p), (Rabs_right q), (Rabs_right s) by lra.
  nra.
Qed.

(** Forward Euler forms convex combinations of five neighbours when
    [rx + ry <= 1/2]. *)
Lemma forwardEuler2D_bounded (u : matrix) (rx ry : num) (B : R) (res : matrix) :
  forwardEuler2D u rx ry = Some res ->
  (0 <= toR rx)%R -> (0 <= toR ry)%R -> (toR rx + toR ry <= 1 / 2)%R ->
  (0 <= B)%R ->
  bounded2 B (length u) (length (hd [] u)) u ->
  bounded2 B (length u) (length (hd [] u)) res.
Proof.
  intros run px py small bpos bd.
  assert (ne : u <> []) by (intro e; rewrite e in run; discriminate).
  destruct (forwardEuler2D_zeroBorder u rx ry ne) as (res' & run' & _ & zero).
  rewrite run in run'. injection run' as <-.
  intros i j li lj.
  destruct (border (length u) (length (hd [] u)) i j) eqn:bdr.
  - rewrite (zero i j li lj bdr), toR_zero, Rabs_R0. exact bpos.
  - unfold border in bdr.
    destruct (Nat.eqb_spec i 0), (Nat.eqb_spec i (length u - 1)),
      (Nat.eqb_spec j 0), (Nat.eqb_spec j (length (hd [] u) - 1));
      try discriminate.
    rewrite (forwardEuler2D_inner u rx ry res i j run) by lia.
    autorewrite with toR.
    pose proof (bd i j ltac:(lia) ltac:(lia)) as b0.
    pose proof (bd (i + 1) j ltac:(lia) ltac:(lia)) as b1.
    pose proof (bd (i - 1) j ltac:(lia) ltac:(lia)) as b2.
    pose proof (bd i (j + 1) ltac:(lia) ltac:(lia)) as b3.
    pose proof (bd i (j - 1) ltac:(lia) ltac:(lia)) as b4.
    set (x := toR (mget u i j)) in *.
    set (e := toR (mget u (i + 1) j)) in *.
    set (w := toR (mget u (i - 1) j)) in *.
    set (n' := toR (mget u i (j + 1))) in *.
    set (s := toR (mget u i (j - 1))) in *.
    replace (x + toR rx * (e - 2 * x + w) + toR ry * (n' - 2 * x + s))%R
      with ((1 - 2 * toR rx - 2 * toR ry) * x + toR rx * e + toR rx * w
            + toR ry * n' + toR ry * s)%R by lra.
    eapply Rle_trans; [apply convex5; try eassumption; lra |]. nra.
Qed.

(** X5.  In exact arithmetic, for a nonempty field and diffusion numbers
    [rx, ry >= 0] with [rx + ry <= 1/2], the explicit step in two
    dimensions returns a field and does not increase the largest absolute
    value: a bound [B >= 0] on the entries of [u] is a bound on the entries
    of the result. *)
Theorem forwardEuler2D_stable (u : matrix) (rx ry : num) (B : R) :
  u <> [] ->
  (0 <= toR rx)%R -> (0 <= toR ry)%R -> (toR rx + toR ry <= 1 / 2)%R ->
  (0 <= B)%R ->
  bounded2 B (length u) (length (hd [] u)) u ->
  exists res, forwardEuler2D u rx ry = Some res
              /\ bounded2 B (length u) (length (hd [] u)) res.
Proof.
  intros ne px py small bpos bd.
  destruct (forwardEuler2D_zeroBorder u rx ry ne) as (res & run & _).
  exists res. split.
  - exact run.
  - apply (forwardEuler2D_bounded u rx ry B res run); assumption.
Qed.

Lemma sweepColumns_bounded (nx ny lo hi : nat) (sys : nat -> system) (B : R) :
  (0 <= B)%R ->
  (forall j, lo <= j < hi -> forall i, i < nx ->
     (Rabs (toR (solve (sys j)).[i]) <= B)%R) ->
  bounded2 B nx ny
    (for_up lo hi (fun j m => storeColumn nx j (solve (sys j)) m) (zeros2 nx ny)).
Proof.
  intros bpos lines i j li lj.
  rewrite (sweepColumns_mget nx lo hi (fun j => solve (sys j))).
  destruct (Nat.leb_spec lo j), (Nat.ltb_spec j hi), (Nat.ltb_spec i nx);
    cbn [andb]; try lia;
    try (rewrite mget_zeros2 by assumption; rewrite toR_zero, Rabs_R0;
         exact bpos).
  apply lines; [lia | assumption].
Qed.

Lemma sweepRows_bounded (nx ny lo hi : nat) (sys : nat -> system) (B : R) :
  (0 <= B)%R ->
  (forall i, lo <= i < hi -> forall j, j < ny ->
     (Rabs (toR (solve (sys i)).[j]) <= B)%R) ->
  bounded2 B nx ny
    (for_up lo hi (fun i m => storeRow ny i (solve (sys i)) m) (zeros2 nx ny)).
Proof.
  intros bpos lines i j li lj.
  rewrite (sweepRows_mget ny lo hi (fun i => solve (sys i))).
  destruct (Nat.leb_spec lo i), (Nat.ltb_spec i hi), (Nat.ltb_spec j ny);
    cbn [andb]; try lia;
    try (rewrite mget_zeros2 by assumption; rewrite toR_zero, Rabs_R0;
         exact bpos).
  apply lines; [lia | assumption].
Qed.

(** The solution of a line system is bounded by its right-hand side. *)
Lemma line_bounded (n : nat) (off diag : num) (rhs : nat -> num) (s : system)
    (q B : R) :
  dirichletSystem n off diag rhs s ->
  (0 <= q)%R -> toR off = (- q)%R -> toR diag = (1 + 2 * q)%R ->
  (0 <= B)%R ->
  (forall k, 0 < k < n - 1 -> (Rabs (toR (rhs k)) <= B)%R) ->
  forall i, i < n -> (Rabs (toR (solve s).[i]) <= B)%R.
Proof.
  intros sys qpos offq diagq bpos small i lt.
  apply (dirichletSystem_bound n off diag rhs s q); try assumption. lia.
Qed.

Lemma toR_be_diag (r : num) : toR (add one (mul two r)) = (1 + 2 * toR r)%R.
Proof. autorewrite with toR. reflexivity. Qed.

Lemma toR_cn_off (r : num) : toR (neg (div r two)) = (- (toR r / 2))%R.
Proof. autorewrite with toR. reflexivity. Qed.

Lemma toR_cn_diag (r : num) : toR (add one r) = (1 + 2 * (toR r / 2))%R.
Proof. autorewrite with toR. lra. Qed.

(** Both sweeps of the backward Euler steppers obey the maximum principle. *)
Lemma backwardEulerADI_bounded (u : matrix) (rx ry : num) (B : R) :
  u <> [] -> (0 <= toR rx)%R -> (0 <= toR ry)%R -> (0 <= B)%R ->
  bounded2 B (length u) (length (hd [] u)) u ->
  exists res, backwardEulerADI u rx ry = Some res
              /\ bounded2 B (length u) (length (hd [] u)) res.
Proof.
  intros ne px py bpos bd. destruct u as [| row0 rest]; [congruence |].
  set (u := row0 :: rest) in *.
  set (Nx := length u) in *. set (Ny := length (hd [] u)) in *.
  assert (posx : 1 <= Nx) by (unfold Nx, u; simpl; lia).
  eexists. split; [reflexivity |]. change (length row0) with Ny. fold u Nx.
  apply sweepRows_bounded; [exact bpos |].
  intros i ri j lj.
  apply (line_bounded Ny _ _ _ _ (toR ry) B
           (beY_system_rows _ ry Ny i ltac:(lia)) py (toR_neg ry)
           (toR_be_diag ry) bpos); [| exact lj].
  intros k rk.
  apply sweepColumns_bounded; try lia; [exact bpos |].
  intros j' rj' i' li'.
  apply (line_bounded Nx _ _ _ _ (toR rx) B
           (beX_system_rows u rx Nx j' posx) px (toR_neg rx)
           (toR_be_diag rx) bpos); [| exact li'].
  intros k' rk'. apply bd; lia.
Qed.

Lemma backwardEuler2D_ADI_bounded (u : matrix) (rx ry : num) (B : R) :
  u <> [] -> (0 <= toR rx)%R -> (0 <= toR ry)%R -> (0 <= B)%R ->
  bounded2 B (length u) (length (hd [] u)) u ->
  exists res, backwardEuler2D_ADI u rx ry = Some res
              /\ bounded2 B (length u) (length (hd [] u)) res.
Proof.
  intros ne px py bpos bd. destruct u as [| row0 rest]; [congruence |].
  set (u := row0 :: rest) in *.
  set (Nx := length u) in *. set (Ny := length (hd [] u)) in *.
  assert (posx : 1 <= Nx) by (unfold Nx, u; simpl; lia).
  eexists. split; [reflexivity |]. change (length row0) with Ny. fold u Nx.
  apply sweepRows_bounded; [exact bpos |].
  intros i ri j lj.
  apply (line_bounded Ny _ _ _ _ (toR ry) B
           (beY_system_unified_rows _ ry Ny i ltac:(lia)) py (toR_neg ry)
           (toR_be_diag ry) bpos); [| exact lj].
  intros k rk.
  apply sweepColumns_bounded; try lia; [exact bpos |].
  intros j' rj' i' li'.
  apply (line_bounded Nx _ _ _ _ (toR rx) B
           (beX_system_unified_rows u rx Nx j' posx) px (toR_neg rx)
           (toR_be_diag rx) bpos); [| exact li'].
  intros k' rk'. apply bd; lia.
Qed.

(** X6.  In exact arithmetic and for every [rx, ry >= 0], the two backward
    Euler steppers in two dimensions, the explorer's and the unified
    page's, return a field and never increase the largest absolute value:
    a bound [B >= 0] on the entries of [u] is a bound on the entries of the
    result. *)
Theorem backwardEuler_ADI_stable (u : matrix) (rx ry : num) (B : R) :
  u <> [] -> (0 <= toR rx)%R -> (0 <= toR ry)%R -> (0 <= B)%R ->
  bounded2 B (length u) (length (hd [] u)) u ->
  (exists res, backwardEulerADI u rx ry = Some res
               /\ bounded2 B (length u) (length (hd [] u)) res)
  /\ (exists res, backwardEuler2D_ADI u rx ry = Some res
                  /\ bounded2 B (length u) (length (hd [] u)) res).
Proof.
  intros ne px py bpos bd. split.
  - apply backwardEulerADI_bounded; assumption.
  - apply backwardEuler2D_ADI_bounded; assumption.
Qed.

Lemma stencil_bounded (r B x p m : R) :
  (0 <= r <= 1)%R ->
  (Rabs x <= B)%R -> (Rabs p <= B)%R -> (Rabs m <= B)%R ->
  (Rabs ((1 - r) * x + r / 2 * p + r / 2 * m) <= B)%R.
Proof.
  intros range bx bp bm.
  eapply Rle_trans; [apply convex3; try eassumption; lra |].
  pose proof (Rabs_pos x). nra.
Qed.

(** The explicit halves are convex combinations when [rx, ry <= 1]; the
    implicit halves obey the maximum principle. *)
Lemma crankNicolsonADI_bounded (u : matrix) (rx ry : num) (B : R) :
  u <> [] -> (0 <= toR rx <= 1)%R -> (0 <= toR ry <= 1)%R -> (0 <= B)%R ->
  bounded2 B (length u) (length (hd [] u)) u ->
  exists res, crankNicolsonADI u rx ry = Some res
              /\ bounded2 B (length u) (length (hd [] u)) res.
Proof.
  intros ne px py bpos bd. destruct u as [| row0 rest]; [congruence |].
  set (u := row0 :: rest) in *.
  set (Nx := length u) in *. set (Ny := length (hd [] u)) in *.
  assert (posx : 1 <= Nx) by (unfold Nx, u; simpl; lia).
  assert (hx : (0 <= toR rx / 2)%R) by lra.
  assert (hy : (0 <= toR ry / 2)%R) by lra.
  eexists. split; [reflexivity |]. change (length row0) with Ny. fold u Nx.
  apply sweepRows_bounded; [exact bpos |].
  intros i ri j lj.
  apply (line_bounded Ny _ _ _ _ (toR ry / 2) B
           (cnY_system_rows _ rx ry Ny i ltac:(lia)) hy (toR_cn_off ry)
           (toR_cn_diag ry) bpos); [| exact lj].
  intros k rk. unfold stencilX. autorewrite with toR.
  match goal with
  | |- (Rabs (?x + ?r / 2 * (?p - 2 * ?x + ?m)) <= _)%R =>
      replace (x + r / 2 * (p - 2 * x + m))%R
        with ((1 - r) * x + r / 2 * p + r / 2 * m)%R by lra
  end.
  apply stencil_bounded; [exact px | | |];
    (apply sweepColumns_bounded; try lia; [exact bpos |];
     intros j' rj' i' li';
     apply (line_bounded Nx _ _ _ _ (toR rx / 2) B
              (cnX_system_rows u rx ry Nx j' posx) hx (toR_cn_off rx)
              (toR_cn_diag rx) bpos); [| exact li'];
     intros k' rk'; unfold stencilY; autorewrite with toR;
     match goal with
     | |- (Rabs (?x + ?r / 2 * (?p - 2 * ?x + ?m)) <= _)%R =>
         replace (x + r / 2 * (p - 2 * x + m))%R
           with ((1 - r) * x + r / 2 * p + r / 2 * m)%R by lra
     end;
     apply stencil_bounded; [exact py | | |]; apply bd; lia).
Qed.

Lemma crankNicolson2D_ADI_bounded (u : matrix) (rx ry : num) (B : R) :
  u <> [] -> (0 <= toR rx <= 1)%R -> (0 <= toR ry <= 1)%R -> (0 <= B)%R ->
  bounded2 B (length u) (length (hd [] u)) u ->
  exists res, crankNicolson2D_ADI u rx ry = Some res
              /\ bounded2 B (length u) (length (hd [] u)) res.
Proof.
  intros ne px py bpos bd. destruct u as [| row0 rest]; [congruence |].
  set (u := row0 :: rest) in *.
  set (Nx := length u) in *. set (Ny := length (hd [] u)) in *.
  assert (posx : 1 <= Nx) by (unfold Nx, u; simpl; lia).
  assert (hx : (0 <= toR rx / 2)%R) by lra.
  assert (hy : (0 <= toR ry / 2)%R) by lra.
  eexists. split; [reflexivity |]. change (length row0) with Ny. fold u Nx.
  apply sweepRows_bounded; [exact bpos |].
  intros i ri j lj.
  apply (line_bounded Ny _ _ _ _ (toR ry / 2) B
           (cnY_system_unified_rows _ ry Ny i ltac:(lia)) hy (toR_cn_off ry)
           (toR_cn_diag ry) bpos); [| exact lj].
  intros k rk. unfold crankY. autorewrite with toR.
  match goal with
  | |- (Rabs ((1 - ?r) * ?x + ?r / 2 * (?p + ?m)) <= _)%R =>
      replace ((1 - r) * x + r / 2 * (p + m))%R
        with ((1 - r) * x + r / 2 * p + r / 2 * m)%R by lra
  end.
  apply stencil_bounded; [exact py | | |];
    (apply sweepColumns_bounded; try lia; [exact bpos |];
     intros j' rj' i' li';
     apply (line_bounded Nx _ _ _ _ (toR rx / 2) B
              (cnX_system_unified_rows u rx Nx j' posx) hx (toR_cn_off rx)
              (toR_cn_diag rx) bpos); [| exact li'];
     intros k' rk'; unfold crankX; autorewrite with toR;
     match goal with
     | |- (Rabs ((1 - ?r) * ?x + ?r / 2 * (?p + ?m)) <= _)%R =>
         replace ((1 - r) * x + r / 2 * (p + m))%R
           with ((1 - r) * x + r / 2 * p + r / 2 * m)%R by lra
     end;
     apply stencil_bounded; [exact px | | |]; apply bd; lia).
Qed.

(** X7.  In exact arithmetic and for [0 <= rx <= 1] and [0 <= ry <= 1],
    the two Crank-Nicolson steppers in two dimensions, the explorer's and
    the unified page's, return a field and do not increase the largest
    absolute value: a bound [B >= 0] on the entries of [u] is a bound on the
    entries of the result. *)
Theorem crankNicolson_ADI_stable (u : matrix) (rx ry : num) (B : R) :
  u <> [] -> (0 <= toR rx <= 1)%R -> (0 <= toR ry <= 1)%R -> (0 <= B)%R ->
  bounded2 B (length u) (length (hd [] u)) u ->
  (exists res, crankNicolsonADI u rx ry = Some res
               /\ bounded2 B (length u) (length (hd [] u)) res)
  /\ (exists res, crankNicolson2D_ADI u rx ry = Some res
                  /\ bounded2 B (length u) (length (hd [] u)) res).
Proof.
  intros ne px py bpos bd. split.
  - apply crankNicolsonADI_bounded; assumption.
  - apply crankNicolson2D_ADI_bounded; assumption.
Qed.

End Stable2D.

Lemma forwardEuler2D_stable_witness :
  exists res, forwardEuler2D plate (qc 1 8) (qc 1 4) = Some res
              /\ bounded2 (N := QcNumber) 3 4 4 res.
Proof.
  apply (forwardEuler2D_stable (N := QcNumber) (E := QcExact)
           plate (qc 1 8) (qc 1 4) 3).
  - discriminate.
  - rewrite toR_qc. lra.
  - rewrite toR_qc. lra.
  - rewrite !toR_qc. lra.
  - lra.
  - qc_bounded2.
Defined.

Lemma backwardEuler_ADI_stable_witness :
  exists res, backwardEulerADI plate (qc 2 1) (qc 3 1) = Some res
              /\ bounded2 (N := QcNumber) 3 4 4 res.
Proof.
  apply (proj1 (backwardEuler_ADI_stable (N := QcNumber) (E := QcExact)
                  plate (qc 2 1) (qc 3 1) 3 ltac:(discriminate)
                  ltac:(rewrite toR_qc; lra) ltac:(rewrite toR_qc; lra)
                  ltac:(lra) ltac:(qc_bounded2))).
Defined.

Lemma crankNicolson_ADI_stable_witness :
  exists res, crankNicolson2D_ADI plate (qc 1 1) (qc 1 2) = Some res
              /\ bounded2 (N := QcNumber) 3 4 4 res.
Proof.
  apply (proj2 (crankNicolson_ADI_stable (N := QcNumber) (E := QcExact)
                  plate (qc 1 1) (qc 1 2) 3 ltac:(discriminate)
                  ltac:(rewrite toR_qc; lra) ltac:(rewrite toR_qc; lra)
                  ltac:(lra) ltac:(qc_bounded2))).
Defined.

(** ** The two backward Euler steppers in two dimensions *)

Section Siblings.
Context {N : Number} {E : Exact N}.
Notation "l .[ i ]" := (aget undef l i) (at level 1, format "l .[ i ]").

Lemma beX_systems_equal (u : matrix) (rx : num) (Nx j : nat) :
  1 <= Nx -> beX_system u rx Nx j = beX_system_unified u rx Nx j.
Proof.
  intro pos. unfold beX_system, beX_system_unified. cbv zeta.
  rewrite !(loopSystem_lineSystem Nx _ _ _ _ (fun i => mget u i j)) by lia.
  reflexivity.
Qed.

Lemma beY_systems_equal (m : matrix) (ry : num) (Ny i : nat) :
  1 <= Ny -> beY_system m ry Ny i = beY_system_unified m ry Ny i.
Proof.
  intro pos. unfold beY_system, beY_system_unified. cbv zeta.
  rewrite !(loopSystem_lineSystem Ny _ _ _ _ (fun j => mget m i j)) by lia.
  reflexivity.
Qed.

(** A line system whose right-hand side vanishes has the solution [0]. *)
Lemma zero_line (n : nat) (off diag : num) (rhs : nat -> num) (s : system)
    (k : nat) :
  dirichletSystem n off diag rhs s ->
  (forall i, 0 < i < n - 1 -> rhs i = zero) ->
  k < n -> (solve s).[k] = zero.
Proof.
  intros (len & rows) vanish lt. unfold solve.
  apply thomasAlgorithm_zero; rewrite len; [| exact lt].
  intros i li. destruct (rows i li) as (_ & _ & _ & ->).
  destruct ((i =? 0) || (i =? n - 1)) eqn:edge; [reflexivity |].
  apply vanish. apply orb_false_iff in edge. destruct edge as (e0 & e1).
  apply Nat.eqb_neq in e0. apply Nat.eqb_neq in e1. lia.
Qed.

(** X8.  In exact arithmetic the backward Euler stepper of the
    two-dimensional explorer and the one of the unified page return the same
    result on every input, although the first solves only the interior
    lines in each sweep and reads the whole line into the right-hand side,
    while the second solves every line and reads only the interior
    entries: the lines the first one skips come out as zeros in the
    second. *)
Theorem backwardEuler_ADI_agree (u : matrix) (rx ry : num) :
  backwardEulerADI u rx ry = backwardEuler2D_ADI u rx ry.
Proof.
  destruct u as [| row0 rest]; [reflexivity |].
  unfold backwardEulerADI, backwardEuler2D_ADI. cbv beta iota zeta.
  set (u := row0 :: rest) in *.
  set (Nx := length u) in *.
  set (Ny := length row0) in *.
  assert (posx : 1 <= Nx) by (unfold Nx, u; simpl; lia).
  set (uStar := for_up 1 (Ny - 1)
                  (fun j m => storeColumn Nx j (solve (beX_system u rx Nx j)) m)
                  (zeros2 Nx Ny)).
  set (uHalf := for_up 0 Ny
                  (fun j m =>
                     storeColumn Nx j (solve (beX_system_unified u rx Nx j)) m)
                  (zeros2 Nx Ny)).
  assert (half : forall i j, 0 < j < Ny - 1 -> mget uStar i j = mget uHalf i j).
  { intros i j rj. unfold uStar, uHalf.
    rewrite (sweepColumns_mget Nx 1 (Ny - 1)
               (fun j => solve (beX_system u rx Nx j))).
    rewrite (sweepColumns_mget Nx 0 Ny
               (fun j => solve (beX_system_unified u rx Nx j))).
    destruct (Nat.leb_spec 0 j), (Nat.ltb_spec j Ny),
      (Nat.leb_spec 1 j), (Nat.ltb_spec j (Ny - 1)); try lia.
    cbn [andb]. rewrite beX_systems_equal by exact posx. reflexivity. }
  f_equal.
  apply (matrix_ext Nx Ny).
  - apply sweepRows_shaped; [lia | lia | apply zeros2_shaped].
  - apply sweepRows_shaped; [lia | lia | apply zeros2_shaped].
  - intros i j li lj.
    rewrite (sweepRows_mget Ny 1 (Nx - 1)
               (fun i => solve (beY_system uStar ry Ny i))).
    rewrite (sweepRows_mget Ny 0 Nx
               (fun i => solve (beY_system_unified uHalf ry Ny i))).
    rewrite mget_zeros2 by assumption.
    assert (posy : 1 <= Ny) by lia.
    destruct (Nat.leb_spec 0 i), (Nat.ltb_spec i Nx), (Nat.ltb_spec j Ny);
      cbn [andb]; try lia.
    destruct (sweepColumns_outer_rows Nx Ny 0 Ny
                (fun j => beX_system_unified u rx Nx j) posx (le_n Ny))
      as (_ & outer).
    { intros j' _. do 3 eexists. apply beX_system_unified_rows. exact posx. }
    fold uHalf in outer.
    destruct (Nat.leb_spec 1 i), (Nat.ltb_spec i (Nx - 1)); cbn [andb].
    + unfold beY_system, beY_system_unified. cbv zeta.
      rewrite (loopSystem_lineSystem Ny 0 Ny _ _ (fun j => mget uStar i j))
        by lia.
      rewrite (loopSystem_lineSystem Ny 1 (Ny - 1) _ _
                 (fun j => mget uHalf i j)) by lia.
      rewrite (lineSystem_ext Ny _ _ (fun j => mget uStar i j)
                 (fun j => mget uHalf i j)); [reflexivity |].
      intros k rk. apply half. exact rk.
    + symmetry.
      apply (zero_line Ny _ _ _ _ j
               (beY_system_unified_rows uHalf ry Ny i posy)); [| exact lj].
      intros k rk. assert (side : i = 0 \/ i = Nx - 1) by lia.
      destruct side as [-> | ->]; apply outer; lia.
    + symmetry.
      apply (zero_line Ny _ _ _ _ j
               (beY_system_unified_rows uHalf ry Ny i posy)); [| exact lj].
      intros k rk. assert (side : i = 0 \/ i = Nx - 1) by lia.
      destruct side as [-> | ->]; apply outer; lia.
    + symmetry.
      apply (zero_line Ny _ _ _ _ j
               (beY_system_unified_rows uHalf ry Ny i posy)); [| exact lj].
      intros k rk. assert (side : i = 0 \/ i = Nx - 1) by lia.
      destruct side as [-> | ->]; apply outer; lia.
Qed.

End Siblings.

(** ** The lengths of the fields *)

Section Lengths.
Context {N : Number}.
Notation "l .[ i ]" := (aget undef l i) (at level 1, format "l .[ i ]").

Lemma forwardEuler_length (u : list num) (r : num) :
  length (forwardEuler u r) = Nat.max 1 (length u).
Proof.
  unfold forwardEuler. cbv zeta.
  assert (len : length (aset_last undef (length u)
                          (aset undef (newArray undef (length u)) 0 zero) zero)
                = Nat.max 1 (length u)).
  { destruct (length u) as [| k] eqn:n; unfold aset_last;
      rewrite !aset_length, newArray_length; lia. }
  rewrite for_up_aset_length; [exact len | lia].
Qed.

Lemma crankNicolsonSystem_length (u : list num) (r : num) :
  length (sd (crankNicolsonSystem u r)) = Nat.max 1 (length u).
Proof.
  unfold crankNicolsonSystem. cbv zeta.
  apply dirichletRows_sd_length. cbn [sd].
  rewrite for_up_aset_length; rewrite newArray_length; [reflexivity | lia].
Qed.

(** X9.  Whatever the arithmetic, each of the three one-dimensional
    steppers returns an array of [max 1 n] entries for a field of [n]
    entries: the field's length, and one entry for the empty field, where
    the assignment to index [0] creates it. *)
Theorem steppers_1d_length (u : list num) (r : num) :
  length (forwardEuler u r) = Nat.max 1 (length u)
  /\ length (backwardEuler u r) = Nat.max 1 (length u)
  /\ length (crankNicolson u r) = Nat.max 1 (length u).
Proof.
  split; [apply forwardEuler_length | split].
  - unfold backwardEuler. rewrite solve_length. unfold backwardEulerSystem.
    cbv zeta. apply dirichletRows_sd_length. reflexivity.
  - unfold crankNicolson. rewrite solve_length.
    apply crankNicolsonSystem_length.
Qed.

End Lengths.

(** ** Runs of time steps in one dimension *)

Section Runs1D.
Context {N : Number} {E : Exact N} {F : MathFns N}.
Notation "l .[ i ]" := (aget undef l i) (at level 1, format "l .[ i ]").

Lemma toR_half : toR (lit (1 # 2)) = (1 / 2)%R.
Proof. rewrite toR_lit. unfold Q2R. simpl. lra. Qed.

(** One step of a method inside its range keeps a bound. *)
Lemma method_bounded (m : string) (u : list num) (r : num) (B : R) :
  shownStable m r -> (0 <= B)%R -> bounded B u ->
  bounded B
    (if String.eqb m "forward-euler" then forwardEuler u r
     else if String.eqb m "backward-euler" then backwardEuler u r
     else if String.eqb m "crank-nicolson" then crankNicolson u r
     else u).
Proof.
  intros (rpos & stable & cn) bpos bd. unfold isUnstable in stable.
  destruct (String.eqb_spec m "forward-euler") as [fe | nfe].
  - cbn [andb] in stable. apply gtb_false in stable. rewrite toR_half in stable.
    apply forwardEuler_bounded; [lra | assumption | assumption].
  - destruct (String.eqb_spec m "backward-euler") as [be | nbe].
    + apply backwardEuler_bounded; assumption.
    + destruct (String.eqb_spec m "crank-nicolson") as [c | nc].
      * apply crankNicolson_bounded; [| assumption | assumption].
        split; [exact rpos | apply cn; exact c].
      * exact bd.
Qed.

Lemma explorer_timeStep_field (w : Explorer1D.world) :
  let c := Explorer1D.cfg w in
  let s := Explorer1D.st w in
  let w' := Explorer1D.timeStep w in
  Explorer1D.u (Explorer1D.st w')
  = (if String.eqb (method c) "forward-euler"
     then forwardEuler (Explorer1D.u s) (Explorer1D.r s)
     else if String.eqb (method c) "backward-euler"
          then backwardEuler (Explorer1D.u s) (Explorer1D.r s)
          else if String.eqb (method c) "crank-nicolson"
               then crankNicolson (Explorer1D.u s) (Explorer1D.r s)
               else Explorer1D.u s)
  /\ Explorer1D.cfg w' = c
  /\ Explorer1D.r (Explorer1D.st w') = Explorer1D.r s
  /\ Explorer1D.nSteps (Explorer1D.st w') = S (Explorer1D.nSteps s)
  /\ Explorer1D.t (Explorer1D.st w') = add (Explorer1D.t s) (dt c).
Proof.
  cbv zeta. unfold Explorer1D.timeStep, Explorer1D.stepNumerical.
  destruct (String.eqb (method (Explorer1D.cfg w)) "forward-euler");
    [repeat split |].
  destruct (String.eqb (method (Explorer1D.cfg w)) "backward-euler");
    [repeat split |].
  destruct (String.eqb (method (Explorer1D.cfg w)) "crank-nicolson");
    repeat split.
Qed.

Lemma unified_timeStep1D_field (c : config) (s : Unified.state1d) :
  let s' := Unified.timeStep1D c s in
  Unified.u1 s'
  = (if String.eqb (method c) "forward-euler"
     then forwardEuler (Unified.u1 s) (Unified.r1 s)
     else if String.eqb (method c) "backward-euler"
          then backwardEuler (Unified.u1 s) (Unified.r1 s)
          else if String.eqb (method c) "crank-nicolson"
               then crankNicolson (Unified.u1 s) (Unified.r1 s)
               else Unified.u1 s)
  /\ Unified.r1 s' = Unified.r1 s
  /\ Unified.nSteps1 s' = S (Unified.nSteps1 s)
  /\ Unified.t1 s' = add (Unified.t1 s) (dt c).
Proof.
  cbv zeta. unfold Unified.timeStep1D, Unified.stepNumerical1D.
  destruct (String.eqb (method c) "forward-euler"); [repeat split |].
  destruct (String.eqb (method c) "backward-euler"); [repeat split |].
  destruct (String.eqb (method c) "crank-nicolson"); repeat split.
Qed.

Lemma explorer_run_bounded (k : nat) (w : Explorer1D.world) (B : R) :
  let c := Explorer1D.cfg w in
  let s := Explorer1D.st w in
  shownStable (method c) (Explorer1D.r s) ->
  (0 <= B)%R -> bounded B (Explorer1D.u s) ->
  let w' := Nat.iter k Explorer1D.timeStep w in
  bounded B (Explorer1D.u (Explorer1D.st w'))
  /\ Explorer1D.cfg w' = c
  /\ Explorer1D.r (Explorer1D.st w') = Explorer1D.r s
  /\ Explorer1D.nSteps (Explorer1D.st w') = Explorer1D.nSteps s + k
  /\ toR (Explorer1D.t (Explorer1D.st w'))
     = (toR (Explorer1D.t s) + INR k * toR (dt c))%R.
Proof.
  cbv zeta. intros stable bpos bd.
  induction k as [| k IH].
  - change (Nat.iter 0 ?f ?x) with x. cbn [INR]. rewrite Nat.add_0_r, Rmult_0_l, Rplus_0_r.
    repeat split; assumption.
  - rewrite Nat.iter_succ. destruct IH as (bk & ck & rk & nk & tk).
    destruct (explorer_timeStep_field (Nat.iter k Explorer1D.timeStep w))
      as (fu & fc & fr & fn & ft).
    rewrite fu, fc, fr, fn, ft, ck, rk, nk, toR_add, tk, S_INR.
    repeat split; try lia; try lra.
    apply method_bounded; assumption.
Qed.

Lemma unified_run_bounded (k : nat) (c : config) (s : Unified.state1d) (B : R) :
  shownStable (method c) (Unified.r1 s) ->
  (0 <= B)%R -> bounded B (Unified.u1 s) ->
  let s' := Nat.iter k (Unified.timeStep1D c) s in
  bounded B (Unified.u1 s')
  /\ Unified.r1 s' = Unified.r1 s
  /\ Unified.nSteps1 s' = Unified.nSteps1 s + k
  /\ toR (Unified.t1 s') = (toR (Unified.t1 s) + INR k * toR (dt c))%R.
Proof.
  cbv zeta. intros stable bpos bd.
  induction k as [| k IH].
  - change (Nat.iter 0 ?f ?x) with x. cbn [INR]. rewrite Nat.add_0_r, Rmult_0_l, Rplus_0_r.
    repeat split; assumption.
  - rewrite Nat.iter_succ. destruct IH as (bk & rk & nk & tk).
    destruct (unified_timeStep1D_field c (Nat.iter k (Unified.timeStep1D c) s))
      as (fu & fr & fn & ft).
    rewrite fu, fr, fn, ft, rk, nk, toR_add, tk, S_INR.
    repeat split; try lia; try lra.
    apply method_bounded; assumption.
Qed.

(** X10.  In exact arithmetic, when the status line of a one-dimensional
    explorer shows Stable and the diffusion number is in the range of the
    method ([r >= 0], and [r <= 1] for Crank-Nicolson), any number [k] of
    time steps keeps every bound [B >= 0] on the absolute values of the
    field; the steps leave [r] unchanged, count [k] steps and advance the
    time by [k dt].  This holds for the 1D explorer and for the 1D half of
    the unified page, also for a method name that is not one of the three,
    where the field does not change. *)
Theorem stable_run_1d (k : nat) (B : R) :
  (0 <= B)%R ->
  (forall w : Explorer1D.world,
     shownStable (method (Explorer1D.cfg w)) (Explorer1D.r (Explorer1D.st w)) ->
     bounded B (Explorer1D.u (Explorer1D.st w)) ->
     let w' := Nat.iter k Explorer1D.timeStep w in
     bounded B (Explorer1D.u (Explorer1D.st w'))
     /\ Explorer1D.r (Explorer1D.st w') = Explorer1D.r (Explorer1D.st w)
     /\ Explorer1D.nSteps (Explorer1D.st w')
        = Explorer1D.nSteps (Explorer1D.st w) + k
     /\ toR (Explorer1D.t (Explorer1D.st w'))
        = (toR (Explorer1D.t (Explorer1D.st w))
           + INR k * toR (dt (Explorer1D.cfg w)))%R)
  /\ (forall (c : config) (s : Unified.state1d),
        shownStable (method c) (Unified.r1 s) ->
        bounded B (Unified.u1 s) ->
        let s' := Nat.iter k (Unified.timeStep1D c) s in
        bounded B (Unified.u1 s')
        /\ Unified.r1 s' = Unified.r1 s
        /\ Unified.nSteps1 s' = Unified.nSteps1 s + k
        /\ toR (Unified.t1 s') = (toR (Unified.t1 s) + INR k * toR (dt c))%R).
Proof.
  intro bpos. split.
  - intros w stable bd.
    destruct (explorer_run_bounded k w B stable bpos bd)
      as (bk & _ & rk & nk & tk).
    cbv zeta. repeat split; assumption.
  - intros c s stable bd. apply unified_run_bounded; assumption.
Qed.

End Runs1D.

Lemma stable_run_1d_witness :
  let c := @Build_config RNumber 1%R (1 / 100)%R 3 (1 / 1000)%R 2%R
             "backward-euler"%string 5 in
  let s := @Explorer1D.Build_state RNumber 0%R 0 0%R [0%R; 1%R; 0%R] [] []
             (1 / 2)%R 10%R false [] in
  let w := @Explorer1D.Build_world RNumber c s in
  bounded (N := RNumber) 1
    (Explorer1D.u
       (Explorer1D.st (Nat.iter 3 (Explorer1D.timeStep (F := RMath)) w))).
Proof.
  intros c s w.
  assert (bpos : (0 <= 1)%R) by lra.
  apply (proj1 (stable_run_1d (N := RNumber) (E := RExact) (F := RMath) 3 1 bpos)
           w).
  - split; [simpl; lra | split; [reflexivity | intro cn; discriminate cn]].
  - intros i lt. simpl in lt.
    repeat (destruct i as [| i]; [| try lia]);
      simpl; apply Rabs_le; lra.
Defined.

(** ** Runs of time steps in two dimensions *)

Section Runs2D.
Context {N : Number} {E : Exact N} {F : MathFns N}.
Notation "l .[ i ]" := (aget undef l i) (at level 1, format "l .[ i ]").

(** A result of the shape of a nonempty field is a nonempty field of the
    same dimensions. *)
Lemma shaped_dimensions (u res : matrix) :
  u <> [] -> shaped (length u) (length (hd [] u)) res ->
  res <> [] /\ length res = length u /\ length (hd [] res) = length (hd [] u).
Proof.
  intros ne (len & rows).
  destruct u as [| row0 rest]; [congruence |].
  destruct res as [| r0 rs]; [discriminate |].
  split; [discriminate | split; [exact len |]].
  apply (rows 0). simpl. lia.
Qed.

(** A stepper that returns a field of the input's shape and keeps the
    bound lets a run go on. *)
Lemma step_carries (step : option matrix) (u : matrix) (B : R) :
  u <> [] ->
  (exists res, step = Some res /\ zeroBorder (length u) (length (hd [] u)) res) ->
  (exists res, step = Some res /\ bounded2 B (length u) (length (hd [] u)) res) ->
  exists u', step = Some u' /\ u' <> [] /\ length u' = length u
             /\ length (hd [] u') = length (hd [] u)
             /\ bounded2 B (length u) (length (hd [] u)) u'.
Proof.
  intros ne (res & run & shape & _) (res' & run' & bd).
  rewrite run in run'. injection run' as <-.
  destruct (shaped_dimensions u res ne shape) as (ne' & lx & ly).
  exists res. repeat split; assumption.
Qed.

Lemma explorer_method_carries (m : string) (u : matrix) (rx ry : num) (B : R) :
  u <> [] -> shownStable2D m rx ry -> (0 <= B)%R ->
  bounded2 B (length u) (length (hd [] u)) u ->
  exists u',
    (if String.eqb m "forward-euler" then forwardEuler2D u rx ry
     else if String.eqb m "backward-euler" then backwardEulerADI u rx ry
     else if String.eqb m "crank-nicolson" then crankNicolsonADI u rx ry
     else Some u) = Some u'
    /\ u' <> [] /\ length u' = length u
    /\ length (hd [] u') = length (hd [] u)
    /\ bounded2 B (length u) (length (hd [] u)) u'.
Proof.
  intros ne (px & py & stable & cn) bpos bd. unfold isUnstable2D in stable.
  destruct (String.eqb_spec m "forward-euler") as [fe | nfe].
  - cbn [andb] in stable. apply gtb_false in stable.
    rewrite toR_add, toR_half in stable.
    apply step_carries; [exact ne | apply forwardEuler2D_zeroBorder; exact ne |].
    destruct (forwardEuler2D_zeroBorder u rx ry ne) as (res & run & _).
    exists res. split; [exact run |].
    apply (forwardEuler2D_bounded u rx ry B res run); assumption.
  - destruct (String.eqb_spec m "backward-euler") as [be | nbe].
    + apply step_carries;
        [exact ne | apply backwardEulerADI_zeroBorder; exact ne |].
      apply backwardEulerADI_bounded; assumption.
    + destruct (String.eqb_spec m "crank-nicolson") as [c | nc].
      * destruct (cn c) as (sx & sy).
        apply step_carries;
          [exact ne | apply crankNicolsonADI_zeroBorder; exact ne |].
        apply crankNicolsonADI_bounded; try assumption; split; assumption.
      * exists u. repeat split; assumption.
Qed.

Lemma unified_method_carries (m : string) (u : matrix) (rx ry : num) (B : R) :
  u <> [] -> shownStable2D m rx ry -> (0 <= B)%R ->
  bounded2 B (length u) (length (hd [] u)) u ->
  exists u',
    (if String.eqb m "forward-euler" then forwardEuler2D u rx ry
     else if String.eqb m "backward-euler" then backwardEuler2D_ADI u rx ry
     else if String.eqb m "crank-nicolson" then crankNicolson2D_ADI u rx ry
     else Some u) = Some u'
    /\ u' <> [] /\ length u' = length u
    /\ length (hd [] u') = length (hd [] u)
    /\ bounded2 B (length u) (length (hd [] u)) u'.
Proof.
  intros ne (px & py & stable & cn) bpos bd. unfold isUnstable2D in stable.
  destruct (String.eqb_spec m "forward-euler") as [fe | nfe].
  - cbn [andb] in stable. apply gtb_false in stable.
    rewrite toR_add, toR_half in stable.
    apply step_carries; [exact ne | apply forwardEuler2D_zeroBorder; exact ne |].
    destruct (forwardEuler2D_zeroBorder u rx ry ne) as (res & run & _).
    exists res. split; [exact run |].
    apply (forwardEuler2D_bounded u rx ry B res run); assumption.
  - destruct (String.eqb_spec m "backward-euler") as [be | nbe].
    + apply step_carries;
        [exact ne | apply backwardEuler2D_ADI_zeroBorder; exact ne |].
      apply backwardEuler2D_ADI_bounded; assumption.
    + destruct (String.eqb_spec m "crank-nicolson") as [c | nc].
      * destruct (cn c) as (sx & sy).
        apply step_carries;
          [exact ne | apply crankNicolson2D_ADI_zeroBorder; exact ne |].
        apply crankNicolson2D_ADI_bounded; try assumption; split; assumption.
      * exists u. repeat split; assumption.
Qed.

(** A time step of the 2D explorer, from the result of the method. *)
Lemma explorer2D_timeStep_field (w : Explorer2D.world) (u' : matrix) :
  let c := Explorer2D.cfg w in
  let s := Explorer2D.st w in
  (if String.eqb (method c) "forward-euler"
   then forwardEuler2D (Explorer2D.u s) (Explorer2D.rx s) (Explorer2D.ry s)
   else if String.eqb (method c) "backward-euler"
        then backwardEulerADI (Explorer2D.u s) (Explorer2D.rx s) (Explorer2D.ry s)
        else if String.eqb (method c) "crank-nicolson"
             then crankNicolsonADI (Explorer2D.u s) (Explorer2D.rx s)
                    (Explorer2D.ry s)
             else Some (Explorer2D.u s)) = Some u' ->
  exists w', Explorer2D.timeStep w = Some w'
             /\ Explorer2D.u (Explorer2D.st w') = u'
             /\ Explorer2D.cfg w' = c
             /\ Explorer2D.rx (Explorer2D.st w') = Explorer2D.rx s
             /\ Explorer2D.ry (Explorer2D.st w') = Explorer2D.ry s
             /\ Explorer2D.nSteps (Explorer2D.st w') = S (Explorer2D.nSteps s)
             /\ Explorer2D.t (Explorer2D.st w') = add (Explorer2D.t s) (dt c).
Proof.
  cbv zeta. unfold Explorer2D.timeStep, Explorer2D.stepNumerical.
  destruct (String.eqb (method (Explorer2D.cfg w)) "forward-euler").
  { intros ->. eexists. repeat split. }
  destruct (String.eqb (method (Explorer2D.cfg w)) "backward-euler").
  { intros ->. eexists. repeat split. }
  destruct (String.eqb (method (Explorer2D.cfg w)) "crank-nicolson").
  { intros ->. eexists. repeat split. }
  intro e. injection e as <-. eexists. repeat split.
Qed.

Lemma unified_timeStep2D_field (c : config) (s : Unified.state2d) (u' : matrix) :
  (if String.eqb (method c) "forward-euler"
   then forwardEuler2D (Unified.u s) (Unified.rx s) (Unified.ry s)
   else if String.eqb (method c) "backward-euler"
        then backwardEuler2D_ADI (Unified.u s) (Unified.rx s) (Unified.ry s)
        else if String.eqb (method c) "crank-nicolson"
             then crankNicolson2D_ADI (Unified.u s) (Unified.rx s) (Unified.ry s)
             else Some (Unified.u s)) = Some u' ->
  exists s', Unified.timeStep2D c s = Some s'
             /\ Unified.u s' = u'
             /\ Unified.rx s' = Unified.rx s
             /\ Unified.ry s' = Unified.ry s
             /\ Unified.nSteps s' = S (Unified.nSteps s)
             /\ Unified.t s' = add (Unified.t s) (dt c).
Proof.
  unfold Unified.timeStep2D, Unified.stepNumerical2D.
  destruct (String.eqb (method c) "forward-euler").
  { intros ->. eexists. repeat split. }
  destruct (String.eqb (method c) "backward-euler").
  { intros ->. eexists. repeat split. }
  destruct (String.eqb (method c) "crank-nicolson").
  { intros ->. eexists. repeat split. }
  intro e. injection e as <-. eexists. repeat split.
Qed.

Lemma explorer2D_run (k : nat) (B : R) :
  (0 <= B)%R ->
  forall w : Explorer2D.world,
    let c := Explorer2D.cfg w in
    let s := Explorer2D.st w in
    Explorer2D.u s <> [] ->
    shownStable2D (method c) (Explorer2D.rx s) (Explorer2D.ry s) ->
    bounded2 B (length (Explorer2D.u s)) (length (hd [] (Explorer2D.u s)))
      (Explorer2D.u s) ->
    exists w', repeatM k Explorer2D.timeStep w = Some w'
               /\ bounded2 B (length (Explorer2D.u s))
                    (length (hd [] (Explorer2D.u s)))
                    (Explorer2D.u (Explorer2D.st w'))
               /\ length (Explorer2D.u (Explorer2D.st w'))
                  = length (Explorer2D.u s)
               /\ Explorer2D.nSteps (Explorer2D.st w')
                  = Explorer2D.nSteps s + k
               /\ toR (Explorer2D.t (Explorer2D.st w'))
                  = (toR (Explorer2D.t s) + INR k * toR (dt c))%R.
Proof.
  intro bpos. induction k as [| k IH]; intros w c s ne stable bd; subst c s.
  - exists w. cbn [repeatM INR]. rewrite Nat.add_0_r, Rmult_0_l, Rplus_0_r.
    repeat split. exact bd.
  - destruct (explorer_method_carries _ _ _ _ B ne stable bpos bd)
      as (u' & run & ne' & lx & ly & bd').
    destruct (explorer2D_timeStep_field w u' run)
      as (w1 & step & fu & fc & frx & fry & fn & ft).
    cbn [repeatM]. rewrite step.
    destruct (IH w1) as (w' & runk & bk & lk & nk & tk).
    + rewrite fu. exact ne'.
    + rewrite fc, frx, fry. exact stable.
    + rewrite fu, lx, ly. exact bd'.
    + exists w'. rewrite fu, lx, ly in bk. rewrite fu, lx in lk.
      rewrite fn in nk. rewrite ft, fc, toR_add in tk.
      split; [exact runk |]. split; [exact bk |]. split; [exact lk |].
      split; [lia |]. rewrite tk, S_INR. lra.
Qed.

Lemma unified2D_run (k : nat) (B : R) (c : config) :
  (0 <= B)%R ->
  forall s : Unified.state2d,
    Unified.u s <> [] ->
    shownStable2D (method c) (Unified.rx s) (Unified.ry s) ->
    bounded2 B (length (Unified.u s)) (length (hd [] (Unified.u s)))
      (Unified.u s) ->
    exists s', repeatM k (Unified.timeStep2D c) s = Some s'
               /\ bounded2 B (length (Unified.u s))
                    (length (hd [] (Unified.u s))) (Unified.u s')
               /\ length (Unified.u s') = length (Unified.u s)
               /\ Unified.nSteps s' = Unified.nSteps s + k
               /\ toR (Unified.t s') = (toR (Unified.t s) + INR k * toR (dt c))%R.
Proof.
  intro bpos. induction k as [| k IH]; intros s ne stable bd.
  - exists s. cbn [repeatM INR]. rewrite Nat.add_0_r, Rmult_0_l, Rplus_0_r.
    repeat split. exact bd.
  - destruct (unified_method_carries (method c) (Unified.u s)
                (Unified.rx s) (Unified.ry s) B ne stable bpos bd)
      as (u' & run & ne' & lx & ly & bd').
    destruct (unified_timeStep2D_field c s u' run)
      as (s1 & step & fu & frx & fry & fn & ft).
    cbn [repeatM]. rewrite step.
    destruct (IH s1) as (s' & runk & bk & lk & nk & tk).
    + rewrite fu. exact ne'.
    + rewrite frx, fry. exact stable.
    + rewrite fu, lx, ly. exact bd'.
    + exists s'. rewrite fu, lx, ly in bk. rewrite fu, lx in lk.
      rewrite fn in nk. rewrite ft, toR_add in tk.
      split; [exact runk |]. split; [exact bk |]. split; [exact lk |].
      split; [lia |]. rewrite tk, S_INR. lra.
Qed.

(** X11.  In exact arithmetic, on a nonempty field, when the status line
    of a two-dimensional explorer shows Stable and the diffusion numbers
    are in the range of the method ([rx, ry >= 0], and [rx, ry <= 1] for
    Crank-Nicolson), a run of any number [k] of time steps never throws
    and keeps every bound [B >= 0] on the absolute values of the field; it
    keeps the number of rows, counts [k] steps and advances the time by
    [k dt].  This holds for the 2D explorer and for the 2D half of the
    unified page. *)
Theorem stable_run_2d (k : nat) (B : R) :
  (0 <= B)%R ->
  (forall w : Explorer2D.world,
     let c := Explorer2D.cfg w in
     let s := Explorer2D.st w in
     Explorer2D.u s <> [] ->
     shownStable2D (method c) (Explorer2D.rx s) (Explorer2D.ry s) ->
     bounded2 B (length (Explorer2D.u s)) (length (hd [] (Explorer2D.u s)))
       (Explorer2D.u s) ->
     exists w', repeatM k Explorer2D.timeStep w = Some w'
                /\ bounded2 B (length (Explorer2D.u s))
                     (length (hd [] (Explorer2D.u s)))
                     (Explorer2D.u (Explorer2D.st w'))
                /\ length (Explorer2D.u (Explorer2D.st w'))
                   = length (Explorer2D.u s)
                /\ Explorer2D.nSteps (Explorer2D.st w')
                   = Explorer2D.nSteps s + k
                /\ toR (Explorer2D.t (Explorer2D.st w'))
                   = (toR (Explorer2D.t s) + INR k * toR (dt c))%R)
  /\ (forall (c : config) (s : Unified.state2d),
        Unified.u s <> [] ->
        shownStable2D (method c) (Unified.rx s) (Unified.ry s) ->
        bounded2 B (length (Unified.u s)) (length (hd [] (Unified.u s)))
          (Unified.u s) ->
        exists s', repeatM k (Unified.timeStep2D c) s = Some s'
                   /\ bounded2 B (length (Unified.u s))
                        (length (hd [] (Unified.u s))) (Unified.u s')
                   /\ length (Unified.u s') = length (Unified.u s)
                   /\ Unified.nSteps s' = Unified.nSteps s + k
                   /\ toR (Unified.t s')
                      = (toR (Unified.t s) + INR k * toR (dt c))%R).
Proof.
  intro bpos. split.
  - intros w c s ne stable bd. apply explorer2D_run; assumption.
  - intros c s ne stable bd. apply unified2D_run; assumption.
Qed.

End Runs2D.

Lemma stable_run_2d_witness :
  let c := @Build_config RNumber 1%R (1 / 100)%R 3 (1 / 1000)%R 2%R
             "backward-euler"%string 5 in
  let field := [[0%R; 0%R; 0%R]; [0%R; 1%R; 0%R]; [0%R; 0%R; 0%R]] in
  let s := @Explorer2D.Build_state RNumber 0%R 0 0%R field [] [] []
             (1 / 2)%R (1 / 2)%R 2%R 3%R false in
  let w := @Explorer2D.Build_world RNumber c s in
  exists w', repeatM 2 (Explorer2D.timeStep (F := RMath)) w = Some w'
             /\ bounded2 (N := RNumber) 1 3 3 (Explorer2D.u (Explorer2D.st w')).
Proof.
  intros c field s w.
  assert (bpos : (0 <= 1)%R) by lra.
  destruct (proj1 (stable_run_2d (N := RNumber) (E := RExact) (F := RMath)
                     2 1 bpos) w) as (w' & run & bk & _).
  - discriminate.
  - split; [simpl; lra | split; [simpl; lra |]].
    split; [reflexivity | intro cn; discriminate cn].
  - intros i j li lj. simpl in li, lj.
    repeat (destruct i as [| i]; [| try lia]);
      repeat (destruct j as [| j]; [| try lia]);
      unfold mget, field; simpl; apply Rabs_le; lra.
  - exists w'. split; [exact run | exact bk].
Defined.

(** ** The animation *)

Instance RExactOrder : ExactOrder RNumber RExact ROrder.
Proof.
  split. intros x y. simpl. unfold R_geb.
  destruct (Rle_dec y x); split; auto; discriminate.
Qed.

Section FrameFacts.
Variable W : Type.
Variables (reached : W -> bool) (body : W -> W) (speed : W -> nat).

Lemma frameLoop_steps (n : nat) (w : W) :
  exists m, m <= n
            /\ fst (frameLoop reached body n w) = Nat.iter m body w
            /\ (forall j, j < m -> reached (Nat.iter j body w) = false)
            /\ (snd (frameLoop reached body n w) = true ->
                reached (Nat.iter m body w) = true)
            /\ (snd (frameLoop reached body n w) = false -> m = n).
Proof.
  revert w. induction n as [| n IH]; intro w.
  - exists 0. cbn. repeat split; try lia; try discriminate.
  - cbn [frameLoop]. destruct (reached w) eqn:now.
    + exists 0. cbn. repeat split; try lia; try discriminate. intros _. exact now.
    + destruct (IH (body w)) as (m & le & run & before & stop & full).
      exists (S m). rewrite Nat.iter_succ_r.
      split; [lia |]. split; [exact run |]. split; [| split].
      * intros [| j] lt; [exact now |]. rewrite Nat.iter_succ_r.
        apply before. lia.
      * exact stop.
      * intro f. rewrite (full f). reflexivity.
Qed.

(** A property that the body of the loop keeps is kept by any number of
    frames. *)
Lemma frames_keep (I : W -> Prop) (k : nat) (p : player W) :
  (forall w, I w -> I (body w)) -> I (sim p) ->
  I (sim (Nat.iter k (frame reached body speed) p)).
Proof.
  intros keep start. induction k as [| k IH]; [exact start |].
  rewrite Nat.iter_succ.
  set (q := Nat.iter k (frame reached body speed) p) in *.
  unfold frame. destruct (isPlaying q); cbn [negb]; [| exact IH].
  destruct (frameLoop_steps (speed (sim q)) (sim q)) as (m & _ & run & _).
  destruct (frameLoop reached body (speed (sim q)) (sim q)) as [w stop].
  cbn [fst] in run. subst w.
  assert (im : I (Nat.iter m body (sim q))).
  { clear - keep IH. induction m as [| m IHm]; [exact IH |].
    rewrite Nat.iter_succ. apply keep. exact IHm. }
  destruct stop; exact im.
Qed.

Variable time : W -> R.
Variables (T d : R).
Variable I : W -> Prop.
Hypothesis keep : forall w, I w -> I (body w).
Hypothesis reached_spec : forall w, I w -> (reached w = true <-> (T <= time w)%R).
Hypothesis body_time : forall w, I w -> time (body w) = (time w + d)%R.
Hypothesis speed_pos : forall w, I w -> 1 <= speed w.




End FrameFacts.

Section Animations.
Context {N : Number} {E : Exact N} {O : Order N} {EO : ExactOrder N E O}
  {F : MathFns N}.

(** The body of the loop of [animate] is a time step, up to the flag. *)
Lemma stepAndCheck_fields (w : Explorer1D.world) :
  let w1 := Explorer1D.timeStep w in
  let w' := stepAndCheck w in
  Explorer1D.cfg w' = Explorer1D.cfg w1
  /\ Explorer1D.u (Explorer1D.st w') = Explorer1D.u (Explorer1D.st w1)
  /\ Explorer1D.r (Explorer1D.st w') = Explorer1D.r (Explorer1D.st w1)
  /\ Explorer1D.t (Explorer1D.st w') = Explorer1D.t (Explorer1D.st w1)
  /\ Explorer1D.nSteps (Explorer1D.st w') = Explorer1D.nSteps (Explorer1D.st w1)
  /\ (divergenceSeen (Explorer1D.u (Explorer1D.st w1)) = false ->
      Explorer1D.hasDiverged (Explorer1D.st w')
      = Explorer1D.hasDiverged (Explorer1D.st w1))
  /\ (Explorer1D.hasDiverged (Explorer1D.st w1) = true ->
      Explorer1D.hasDiverged (Explorer1D.st w') = true).
Proof.
  cbv zeta. unfold stepAndCheck.
  destruct (divergenceSeen (Explorer1D.u (Explorer1D.st (Explorer1D.timeStep w))));
    [| repeat split; auto].
  destruct (Explorer1D.hasDiverged (Explorer1D.st (Explorer1D.timeStep w)))
    eqn:flag;
    cbn [negb]; repeat split; try reflexivity; intro h;
    first [discriminate h | reflexivity | exact flag].
Qed.

Lemma stepAndCheck1D_fields (c : config) (s : Unified.state1d) :
  let s1 := Unified.timeStep1D c s in
  let s' := stepAndCheck1D c s in
  Unified.u1 s' = Unified.u1 s1
  /\ Unified.r1 s' = Unified.r1 s1
  /\ Unified.t1 s' = Unified.t1 s1
  /\ Unified.nSteps1 s' = Unified.nSteps1 s1
  /\ (divergenceSeen (Unified.u1 s1) = false ->
      Unified.hasDiverged1 s' = Unified.hasDiverged1 s1)
  /\ (Unified.hasDiverged1 s1 = true -> Unified.hasDiverged1 s' = true).
Proof.
  cbv zeta. unfold stepAndCheck1D.
  destruct (divergenceSeen (Unified.u1 (Unified.timeStep1D c s)));
    [| repeat split; auto].
  destruct (Unified.hasDiverged1 (Unified.timeStep1D c s)) eqn:flag;
    cbn [negb]; repeat split; try reflexivity; intro h;
    first [discriminate h | reflexivity | exact flag].
Qed.




(** A field bounded by [10] shows no divergence. *)
Lemma Math_max_bounded (B : R) (vals : list num) (start : option num) :
  (forall v, In v vals -> (toR v <= B)%R) ->
  (forall h, start = Some h -> (toR h <= B)%R) ->
  forall m,
    fold_left
      (fun highest v =>
         match highest with
         | None => Some v
         | Some h => Some (if ltb h v then v else h)
         end)
      vals start = Some m ->
    (toR m <= B)%R.
Proof.
  revert start. induction vals as [| v vals IH]; intros start small init m run.
  - apply init. exact run.
  - cbn [fold_left] in run. apply (IH _ (fun x i => small x (or_intror i))) in run.
    + exact run.
    + intros h e. destruct start as [h0 |].
      * injection e as <-. destruct (ltb h0 v).
        -- apply small. left. reflexivity.
        -- apply init. reflexivity.
      * injection e as <-. apply small. left. reflexivity.
Qed.

Lemma divergenceSeen_bounded (B : R) (u : list num) :
  (B <= 10)%R -> bounded B u -> divergenceSeen u = false.
Proof.
  intros small bd. unfold divergenceSeen. apply orb_false_iff. split.
  - destruct (Math_max (map abs u)) as [m |] eqn:mx; [| reflexivity].
    apply gtb_false. rewrite toR_ofZ.
    apply Rle_trans with B; [| exact small].
    apply (Math_max_bounded B (map abs u) None); [| discriminate | exact mx].
    intros v iv. apply in_map_iff in iv. destruct iv as (x & <- & ix).
    destruct (In_nth u x undef ix) as (i & lt & <-).
    rewrite toR_abs. apply bd. exact lt.
  - clear bd. induction u as [| v u IH]; [reflexivity |].
    cbn [existsb]. rewrite isFinite_true, IH. reflexivity.
Qed.

(** Frames over a field bounded by [B <= 10] under a method in its range
    keep the bound and the flag. *)
Lemma explorer_frames_quiet (k : nat) (B : R) (p : player Explorer1D.world) :
  (0 <= B <= 10)%R ->
  shownStable (method (Explorer1D.cfg (sim p)))
    (Explorer1D.r (Explorer1D.st (sim p))) ->
  bounded B (Explorer1D.u (Explorer1D.st (sim p))) ->
  Explorer1D.hasDiverged (Explorer1D.st (sim (Nat.iter k animate p)))
  = Explorer1D.hasDiverged (Explorer1D.st (sim p))
  /\ bounded B (Explorer1D.u (Explorer1D.st (sim (Nat.iter k animate p)))).
Proof.
  intros (bpos & small) stable bd.
  pose (I := fun v : Explorer1D.world =>
               Explorer1D.cfg v = Explorer1D.cfg (sim p)
               /\ Explorer1D.r (Explorer1D.st v)
                  = Explorer1D.r (Explorer1D.st (sim p))
               /\ Explorer1D.hasDiverged (Explorer1D.st v)
                  = Explorer1D.hasDiverged (Explorer1D.st (sim p))
               /\ bounded B (Explorer1D.u (Explorer1D.st v))).
  assert (inv : I (sim (Nat.iter k animate p))).
  { change animate
      with (frame
              (fun w => geb (Explorer1D.t (Explorer1D.st w))
                          (Tmax (Explorer1D.cfg w)))
              stepAndCheck (fun w => animationSpeed (Explorer1D.cfg w))).
    apply (frames_keep _ _ _ _ I k p); [| unfold I; auto].
    intros v (vc & vr & vh & vb).
    destruct (stepAndCheck_fields v) as (fc & fu & fr & _ & _ & fh & _).
    destruct (explorer_timeStep_field v) as (tu & tc & tr & _).
    assert (bd' : bounded B (Explorer1D.u (Explorer1D.st (Explorer1D.timeStep v)))).
    { rewrite tu. apply method_bounded; [rewrite vc, vr | |]; assumption. }
    unfold I. rewrite fc, fu, fr, tc, tr.
    rewrite (fh (divergenceSeen_bounded B _ small bd')).
    repeat split; try assumption.
    rewrite <- vh. unfold Explorer1D.timeStep, Explorer1D.stepNumerical.
    destruct (String.eqb (method (Explorer1D.cfg v)) "forward-euler");
      [reflexivity |].
    destruct (String.eqb (method (Explorer1D.cfg v)) "backward-euler");
      [reflexivity |].
    destruct (String.eqb (method (Explorer1D.cfg v)) "crank-nicolson");
      reflexivity. }
  destruct inv as (_ & _ & ih & ib). split; assumption.
Qed.

Lemma unified_frames_quiet (k : nat) (B : R) (c : config)
    (p : player Unified.state1d) :
  (0 <= B <= 10)%R ->
  shownStable (method c) (Unified.r1 (sim p)) ->
  bounded B (Unified.u1 (sim p)) ->
  Unified.hasDiverged1 (sim (Nat.iter k (animate1D c) p))
  = Unified.hasDiverged1 (sim p)
  /\ bounded B (Unified.u1 (sim (Nat.iter k (animate1D c) p))).
Proof.
  intros (bpos & small) stable bd.
  pose (I := fun v : Unified.state1d =>
               Unified.r1 v = Unified.r1 (sim p)
               /\ Unified.hasDiverged1 v = Unified.hasDiverged1 (sim p)
               /\ bounded B (Unified.u1 v)).
  assert (inv : I (sim (Nat.iter k (animate1D c) p))).
  { change (animate1D c)
      with (frame (fun s => geb (Unified.t1 s) (Tmax c)) (stepAndCheck1D c)
              (fun _ : Unified.state1d => animationSpeed c)).
    apply (frames_keep _ _ _ _ I k p); [| unfold I; auto].
    intros v (vr & vh & vb).
    destruct (stepAndCheck1D_fields c v) as (fu & fr & _ & _ & fh & _).
    destruct (unified_timeStep1D_field c v) as (tu & tr & _).
    assert (bd' : bounded B (Unified.u1 (Unified.timeStep1D c v))).
    { rewrite tu. apply method_bounded; [rewrite vr | |]; assumption. }
    unfold I. rewrite fu, fr, tr.
    rewrite (fh (divergenceSeen_bounded B _ small bd')).
    repeat split; try assumption.
    rewrite <- vh. unfold Unified.timeStep1D, Unified.stepNumerical1D.
    destruct (String.eqb (method c) "forward-euler"); [reflexivity |].
    destruct (String.eqb (method c) "backward-euler"); [reflexivity |].
    destruct (String.eqb (method c) "crank-nicolson"); reflexivity. }
  destruct inv as (_ & ih & ib). split; assumption.
Qed.

(** X13.  In exact arithmetic, when the status line of a one-dimensional
    explorer shows Stable, the diffusion number is in the range of the
    method and the field is bounded by some [B <= 10] in absolute value,
    no number of frames of the animation raises the divergence flag, and
    the field stays bounded by [B]. *)
Theorem no_false_divergence (k : nat) (B : R) :
  (0 <= B <= 10)%R ->
  (forall p : player Explorer1D.world,
     let w := sim p in
     shownStable (method (Explorer1D.cfg w)) (Explorer1D.r (Explorer1D.st w)) ->
     bounded B (Explorer1D.u (Explorer1D.st w)) ->
     let q := Nat.iter k animate p in
     Explorer1D.hasDiverged (Explorer1D.st (sim q))
     = Explorer1D.hasDiverged (Explorer1D.st w)
     /\ bounded B (Explorer1D.u (Explorer1D.st (sim q))))
  /\ (forall (c : config) (p : player Unified.state1d),
        let s := sim p in
        shownStable (method c) (Unified.r1 s) ->
        bounded B (Unified.u1 s) ->
        let q := Nat.iter k (animate1D c) p in
        Unified.hasDiverged1 (sim q) = Unified.hasDiverged1 s
        /\ bounded B (Unified.u1 (sim q))).
Proof.
  intro range. split.
  - intros p w stable bd q. apply explorer_frames_quiet; assumption.
  - intros c p s stable bd q. apply unified_frames_quiet; assumption.
Qed.

End Animations.


Lemma no_false_divergence_witness :
  let c := @Build_config RNumber 1%R (1 / 100)%R 3 (1 / 2)%R 1%R
             "backward-euler"%string 5 in
  let s := @Explorer1D.Build_state RNumber 0%R 0 0%R [0%R; 1%R; 0%R] [] []
             (1 / 2)%R 10%R false [] in
  let p := {| sim := @Explorer1D.Build_world RNumber c s;
              isPlaying := true; animationId := false |} in
  Explorer1D.hasDiverged
    (Explorer1D.st (sim (Nat.iter 4 (animate (O := ROrder) (F := RMath)) p)))
  = false.
Proof.
  intros c s p.
  assert (range : (0 <= 1 <= 10)%R) by lra.
  apply (proj1 (no_false_divergence (N := RNumber) (E := RExact) (O := ROrder)
                  (F := RMath) 4 1 range) p).
  - split; [simpl; lra | split; [reflexivity | intro cn; discriminate cn]].
  - intros i lt. simpl in lt.
    repeat (destruct i as [| i]; [| try lia]);
      simpl; apply Rabs_le; lra.
Defined.

(** ** The solver and the arrays it is given *)

Section SolverArrays.
Context {N : Number}.
Import Store.

Ltac plain_prim :=
  first
    [ apply frames_allocArray; intros; exact Logic.I
    | apply frames_lengthOf
    | apply frames_readNum
    | apply frames_writeNum; [intros; exact Logic.I | assumption]
    | apply frames_ret; first [exact Logic.I | assumption] ].

Ltac plain_steps :=
  repeat lazymatch goal with
         | |- frames _ _ (bind _ _) _ => eapply frames_bind; [plain_prim | intros]
         end.

Lemma thomasAlgorithmM_frames (base : nat) (a b c d : loc) :
  frames base (fun _ => True) (thomasAlgorithmM a b c d)
    (fun l => l = d \/ base <= l).
Proof.
  unfold thomasAlgorithmM. plain_steps.
  match goal with
  | |- frames _ _ (if ?t then _ else _) _ => destruct t
  end; [apply frames_ret; left; reflexivity |].
  plain_steps.
  eapply frames_bind.
  { apply frames_forwardLoopM; try assumption; intros; exact Logic.I. }
  intros ok _. destruct ok; [| apply frames_ret; left; reflexivity].
  apply (frames_bind _ _ _ _ (fun _ => True)).
  { match goal with
    | |- frames _ _ (match ?n with 0 => _ | S _ => _ end) _ => destruct n
    end; [apply frames_ret; exact Logic.I |].
    plain_steps. plain_prim. }
  intros _ _.
  eapply frames_bind.
  { apply frames_forM. intros i _. plain_steps. plain_prim. }
  intros _ _. apply frames_ret. right. assumption.
Qed.

(** X14.  Whatever the arithmetic, a call of the solver returns, never
    writes to an array that existed before the call, its four arguments
    included, and returns either its argument [d] itself, the same array
    object and not a copy, or an array allocated during the call. *)
Theorem thomasAlgorithm_keeps_arguments (a b c d : loc) :
  returns (thomasAlgorithmM a b c d)
  /\ callKeeps (thomasAlgorithmM a b c d)
       (fun h _ x => x = d \/ length h <= x).
Proof.
  split; [apply returns_thomasAlgorithmM |].
  intro h.
  destruct (thomasAlgorithmM_frames (length h) a b c d h (le_n _) Logic.I)
    as (_ & pre & _ & post).
  split.
  - intros l lt. apply (firstn_objectAt (length h)); assumption.
  - exact post.
Qed.

End SolverArrays.

(** ** The error display in one dimension *)

Instance RExactSqrt : ExactSqrt RNumber RExact RMath.
Proof. split. intro x. reflexivity. Qed.

Section ErrorDisplay.
Context {N : Number} {E : Exact N} {F : MathFns N} {S : ExactSqrt N E F}.
Notation "l .[ i ]" := (aget undef l i) (at level 1, format "l .[ i ]").

Lemma squares_S (f : nat -> R) (k : nat) :
  fold_right Rplus 0%R (map f (seq 0 (Datatypes.S k)))
  = (fold_right Rplus 0%R (map f (seq 0 k)) + f k)%R.
Proof.
  rewrite seq_S, map_app, fold_right_app. cbn [map fold_right Nat.add].
  generalize (map f (seq 0 k)). intro l.
  induction l as [| x l IH]; cbn [fold_right]; [lra | rewrite IH; lra].
Qed.

Lemma squares_nonneg (f : nat -> R) (k : nat) :
  (forall i, 0 <= f i)%R -> (0 <= fold_right Rplus 0%R (map f (seq 0 k)))%R.
Proof.
  intro pos. induction k as [| k IH]; [cbn; lra |].
  rewrite squares_S. pose proof (pos k). lra.
Qed.

Lemma errorLoop_spec (u uExact : list num) :
  let a := Status1D.errorLoop u uExact in
  toR (Status1D.sum a) = squaredErrors u uExact (length u)
  /\ (forall i, i < length u ->
        (Rabs (toR u.[i] - toR uExact.[i]) <= toR (Status1D.maxErr a))%R)
  /\ (0 <= toR (Status1D.maxErr a))%R
  /\ (Status1D.maxErr a = zero
      \/ exists i, i < length u
                   /\ Status1D.maxErr a = abs (sub u.[i] uExact.[i])).
Proof.
  cbv zeta. unfold Status1D.errorLoop.
  apply (for_up_invariant
           (fun k a =>
              toR (Status1D.sum a) = squaredErrors u uExact k
              /\ (forall i, i < k ->
                    (Rabs (toR u.[i] - toR uExact.[i]) <= toR (Status1D.maxErr a))%R)
              /\ (0 <= toR (Status1D.maxErr a))%R
              /\ (Status1D.maxErr a = zero
                  \/ exists i, i < k
                               /\ Status1D.maxErr a = abs (sub u.[i] uExact.[i])))).
  - lia.
  - unfold squaredErrors. cbn. rewrite toR_zero. repeat split; try lra; [intros i lt; lia | left; reflexivity].
  - intros k a range (sk & mk & pk & wk).
    rewrite isFinite_true. cbn [Status1D.sum Status1D.maxErr].
    unfold squaredErrors in *. rewrite squares_S, toR_add, toR_mul, toR_abs, toR_sub, sk.
    split.
    { f_equal. rewrite <- Rabs_mult. apply Rabs_pos_eq.
      apply Rle_0_sqr. }
    destruct (gtb (abs (sub u.[k] uExact.[k])) (Status1D.maxErr a)) eqn:cmp.
    + apply gtb_spec in cmp. rewrite toR_abs, toR_sub in *.
      split; [| split; [apply Rabs_pos |]].
      * intros i lt. destruct (Nat.eq_dec i k) as [-> | ne]; [lra |].
        pose proof (mk i ltac:(lia)). lra.
      * right. exists k. split; [lia | reflexivity].
    + apply gtb_false in cmp. rewrite toR_abs, toR_sub in cmp.
      split; [| split; [exact pk |]].
      * intros i lt. destruct (Nat.eq_dec i k) as [-> | ne]; [exact cmp |].
        apply mk. lia.
      * destruct wk as [z | (i & lt & e)]; [left; exact z |].
        right. exists i. split; [lia | exact e].
Qed.

(** X15.  In exact arithmetic, for a field [u] of [n >= 1] entries and an
    exact field with an entry for each of them, the error loop of the
    status update of the one-dimensional explorers computes as [maxErr] the
    largest absolute error [|u_i - uExact_i|]: it bounds every error and
    is one of them, or [0].  The page shows DIVERGED! exactly when the sum
    of the squared errors exceeds [n], that is when the mean squared error
    exceeds [1]; otherwise it shows the root of the mean squared error and
    [maxErr]. *)
Theorem error_display_1d (u uExact : list num) :
  1 <= length u -> length u <= length uExact ->
  let a := Status1D.errorLoop u uExact in
  let n := length u in
  (forall i, i < n ->
     (Rabs (toR u.[i] - toR uExact.[i]) <= toR (Status1D.maxErr a))%R)
  /\ (Status1D.maxErr a = zero
      \/ exists i, i < n /\ Status1D.maxErr a = abs (sub u.[i] uExact.[i]))
  /\ (Status1D.errorDisplay u uExact = Status1D.Diverged
      <-> (INR n < squaredErrors u uExact n)%R)
  /\ (forall l2 m,
        Status1D.errorDisplay u uExact = Status1D.Errors l2 m ->
        toR l2 = sqrt (squaredErrors u uExact n / INR n)
        /\ m = Status1D.maxErr a).
Proof.
  intros pos _ a n.
  destruct (errorLoop_spec u uExact) as (sq & bound & _ & attained).
  fold a n in sq, bound, attained.
  split; [exact bound |]. split; [exact attained |].
  assert (npos : (0 < INR n)%R) by (apply lt_0_INR; unfold n; lia).
  assert (spos : (0 <= squaredErrors u uExact n)%R).
  { unfold squaredErrors. apply squares_nonneg. intro i. apply Rle_0_sqr. }
  assert (l2 : toR (Math_sqrt (div (Status1D.sum a) (ofNat n)))
               = sqrt (squaredErrors u uExact n / INR n)).
  { rewrite toR_sqrt, toR_div, toR_ofNat, sq. reflexivity. }
  assert (mpos : (0 <= squaredErrors u uExact n / INR n)%R).
  { apply Rmult_le_pos; [exact spos |]. apply Rlt_le. apply Rinv_0_lt_compat.
    exact npos. }
  unfold Status1D.errorDisplay. fold a n. cbv zeta.
  destruct (gtb (Math_sqrt (div (Status1D.sum a) (ofNat n))) one) eqn:cmp.
  - apply gtb_spec in cmp. rewrite toR_one, l2 in cmp.
    split; [| intros l2' m e; discriminate e].
    split; [intros _ | reflexivity].
    rewrite <- sqrt_1 in cmp. apply sqrt_lt_0_alt in cmp.
    apply (Rmult_lt_compat_r (INR n)) in cmp; [| exact npos].
    replace (squaredErrors u uExact n / INR n * INR n)%R
      with (squaredErrors u uExact n) in cmp by (field; lra).
    lra.
  - apply gtb_false in cmp. rewrite toR_one, l2 in cmp.
    split.
    + split; [intro e; discriminate e |]. intro big. exfalso.
      assert (one : (1 < squaredErrors u uExact n / INR n)%R).
      { apply (Rmult_lt_reg_r (INR n)); [exact npos |].
        replace (squaredErrors u uExact n / INR n * INR n)%R
          with (squaredErrors u uExact n) by (field; lra).
        lra. }
      assert (lt : (sqrt 1 < sqrt (squaredErrors u uExact n / INR n))%R)
        by (apply sqrt_lt_1_alt; lra).
      rewrite sqrt_1 in lt. lra.
    + intros l2' m e. injection e as <- <-. split; [exact l2 | reflexivity].
Qed.

End ErrorDisplay.

Lemma error_display_1d_witness :
  Status1D.errorDisplay (N := RNumber) (F := RMath)
    [0%R; 3%R; 0%R] [0%R; 1%R; 0%R]
  = Status1D.Diverged.
Proof.
  apply (proj1 (proj2 (proj2 (error_display_1d (N := RNumber) (E := RExact)
                                (F := RMath) [0%R; 3%R; 0%R] [0%R; 1%R; 0%R]
                                ltac:(simpl; lia) ltac:(simpl; lia))))).
  unfold squaredErrors. simpl. lra.
Defined.

(** ** The states the 1D explorer reaches *)

Section Reachable1D.
Context {N : Number} {F : MathFns N}.
Notation "l .[ i ]" := (aget undef l i) (at level 1, format "l .[ i ]").

Lemma gridPoints_length (n : nat) (dx : num) : length (gridPoints n dx) = n.
Proof. unfold gridPoints. rewrite length_map, length_seq. reflexivity. Qed.

Lemma initSimulation_consistent (w : Explorer1D.world) :
  consistent (Explorer1D.initSimulation w).
Proof.
  unfold consistent, Explorer1D.initSimulation. cbn.
  repeat split.
  - unfold getAnalyticalSolution. rewrite length_map. apply gridPoints_length.
  - intros _. unfold getSineIC. rewrite length_map. apply gridPoints_length.
Qed.

(** The field a time step stores has the length of the one it replaces. *)
Lemma stepNumerical_length (w : Explorer1D.world) :
  length (Explorer1D.u (Explorer1D.st (Explorer1D.stepNumerical w)))
  = Nat.max 1 (length (Explorer1D.u (Explorer1D.st w)))
  \/ Explorer1D.u (Explorer1D.st (Explorer1D.stepNumerical w))
     = Explorer1D.u (Explorer1D.st w).
Proof.
  unfold Explorer1D.stepNumerical.
  destruct (String.eqb (method (Explorer1D.cfg w)) "forward-euler").
  { left. cbn. apply forwardEuler_length. }
  destruct (String.eqb (method (Explorer1D.cfg w)) "backward-euler").
  { left. cbn. rewrite solve_length. unfold backwardEulerSystem. cbv zeta.
    apply dirichletRows_sd_length. reflexivity. }
  destruct (String.eqb (method (Explorer1D.cfg w)) "crank-nicolson").
  { left. cbn. rewrite solve_length. apply crankNicolsonSystem_length. }
  right. reflexivity.
Qed.

Lemma stepNumerical_rest (w : Explorer1D.world) :
  let w' := Explorer1D.stepNumerical w in
  Explorer1D.cfg w' = Explorer1D.cfg w
  /\ Explorer1D.dx (Explorer1D.st w') = Explorer1D.dx (Explorer1D.st w)
  /\ Explorer1D.x (Explorer1D.st w') = Explorer1D.x (Explorer1D.st w)
  /\ Explorer1D.r (Explorer1D.st w') = Explorer1D.r (Explorer1D.st w).
Proof.
  cbv zeta. unfold Explorer1D.stepNumerical.
  destruct (String.eqb (method (Explorer1D.cfg w)) "forward-euler");
    [repeat split |].
  destruct (String.eqb (method (Explorer1D.cfg w)) "backward-euler");
    [repeat split |].
  destruct (String.eqb (method (Explorer1D.cfg w)) "crank-nicolson");
    repeat split.
Qed.

Lemma timeStep_consistent (w : Explorer1D.world) :
  consistent w -> consistent (Explorer1D.timeStep w).
Proof.
  intros (cdx & cx & cr & ce & cu).
  destruct (stepNumerical_rest w) as (sc & sdx & sx & sr).
  pose proof (stepNumerical_length w) as sl.
  unfold consistent, Explorer1D.timeStep. cbn.
  rewrite sc, sdx, sx, sr.
  split; [exact cdx |]. split; [exact cx |]. split; [exact cr |]. split.
  - unfold getAnalyticalSolution. rewrite length_map, cx.
    apply gridPoints_length.
  - intro pos. destruct sl as [-> | ->]; [rewrite (cu pos); lia | exact (cu pos)].
Qed.

Lemma stepAndCheck_consistent (w : Explorer1D.world) :
  consistent w -> consistent (stepAndCheck w).
Proof.
  intro c. apply timeStep_consistent in c. unfold stepAndCheck.
  destruct (divergenceSeen _); [| exact c].
  destruct (negb _); exact c.
Qed.

Lemma handle_consistent (w : Explorer1D.world) (e : event) :
  consistent w -> consistent (handle w e).
Proof.
  intro c. destruct e as [| | m | val | n | v | k]; cbn [handle].
  - apply stepAndCheck_consistent. exact c.
  - apply initSimulation_consistent.
  - unfold Explorer1D.onMethodClick. destruct (Explorer1D.knownMethod m).
    + apply initSimulation_consistent.
    + exact c.
  - apply initSimulation_consistent.
  - apply initSimulation_consistent.
  - exact c.
  - exact c.
Qed.

(** X16.  Whatever the arithmetic, in every state the 1D explorer reaches
    from the load of the page through time steps, resets and the
    controls, the state fits the configuration: [dx = L / (Nx - 1)], the
    grid is [x_i = i dx] for [i < Nx], the diffusion number is
    [r = alpha dt / dx^2] for the current time step, the exact field has
    [Nx] entries and, for [Nx >= 1], so has the numerical field. *)
Theorem reachable_states_consistent (w : Explorer1D.world) (es : list event) :
  consistent (after es w).
Proof.
  unfold after.
  assert (start : consistent (Explorer1D.initSimulation w))
    by apply initSimulation_consistent.
  revert start. generalize (Explorer1D.initSimulation w). clear w.
  induction es as [| e es IH]; intros w c; cbn [fold_left].
  - exact c.
  - apply IH. apply handle_consistent. exact c.
Qed.

End Reachable1D.

(** ** The states the 2D explorer reaches *)

Section Reachable2D.
Context {N : Number} {F : MathFns N}.
Notation "l .[ i ]" := (aget undef l i) (at level 1, format "l .[ i ]").

Lemma mset_length (m : matrix) (i j : nat) (v : num) :
  i < length m -> length (mset m i j v) = length m.
Proof. intro lt. unfold mset. apply aset_length_in. exact lt. Qed.

Lemma tabulate2_length (nx ny : nat) (f : nat -> nat -> num) :
  length (tabulate2 nx ny f) = nx.
Proof.
  unfold tabulate2.
  apply (for_up_invariant (fun _ (m : matrix) => length m = nx)).
  - lia.
  - apply newArray_length.
  - intros i m range len.
    assert (row : length (aset [] m i (newArray undef ny)) = nx)
      by (rewrite aset_length_in; lia).
    destruct (Nat.le_gt_cases 0 ny) as [le | gt]; [| lia].
    apply (for_up_invariant (fun _ (m : matrix) => length m = nx));
      [exact le | exact row |].
    intros j m' _ len'. rewrite mset_length; lia.
Qed.

(** The three steppers of the 2D explorer return as many rows as they
    are given. *)
Lemma steppers2D_rows (u : matrix) (rx ry : num) :
  u <> [] ->
  (exists res, forwardEuler2D u rx ry = Some res /\ length res = length u)
  /\ (exists res, backwardEulerADI u rx ry = Some res /\ length res = length u)
  /\ (exists res, crankNicolsonADI u rx ry = Some res /\ length res = length u).
Proof.
  intro ne. split; [| split].
  - destruct (forwardEuler2D_zeroBorder u rx ry ne) as (res & run & (len & _) & _).
    exists res. split; [exact run | exact len].
  - destruct u as [| row0 rest]; [congruence |].
    eexists. split; [reflexivity |].
    apply (sweepRows_shaped (length (row0 :: rest)) (length row0));
      [lia | lia | apply zeros2_shaped].
  - destruct u as [| row0 rest]; [congruence |].
    eexists. split; [reflexivity |].
    apply (sweepRows_shaped (length (row0 :: rest)) (length row0));
      [lia | lia | apply zeros2_shaped].
Qed.

Lemma initSimulation_sized (w : Explorer2D.world) :
  Events2D.sized (Explorer2D.initSimulation w).
Proof.
  unfold Events2D.sized, Explorer2D.initSimulation. cbn.
  unfold getSineIC2D, getAnalyticalSolution2D.
  rewrite !tabulate2_length, !gridPoints_length. repeat split.
Qed.

Lemma reset_sized (w : Explorer2D.world) :
  Events2D.sized w -> Events2D.sized (Explorer2D.reset w).
Proof.
  intros (lx & ly & lu & le). unfold Events2D.sized, Explorer2D.reset. cbn.
  unfold getSineIC2D, getAnalyticalSolution2D.
  rewrite !tabulate2_length. repeat split; assumption.
Qed.

(** A time step keeps the sizes, and it throws only on the empty grid. *)
Lemma stepNumerical_sized (w : Explorer2D.world) :
  Events2D.sized w ->
  match Explorer2D.stepNumerical w with
  | Some w' => Events2D.sized w' /\ Explorer2D.cfg w' = Explorer2D.cfg w
  | None => Nx (Explorer2D.cfg w) = 0
  end.
Proof.
  intros (lx & ly & lu & le). unfold Explorer2D.stepNumerical.
  pose proof (steppers2D_rows (Explorer2D.u (Explorer2D.st w))
                (Explorer2D.rx (Explorer2D.st w)) (Explorer2D.ry (Explorer2D.st w)))
    as rows.
  destruct (Explorer2D.u (Explorer2D.st w)) as [| row0 rest] eqn:eu.
  - repeat match goal with
           | |- context [if ?b then _ else _] => destruct b
           end; cbn; try (rewrite <- lu; reflexivity).
    split; [| reflexivity]. unfold Events2D.sized. rewrite eu. auto.
  - destruct (rows ltac:(discriminate))
      as ((r1 & run1 & len1) & (r2 & run2 & len2) & (r3 & run3 & len3)).
    repeat match goal with
           | |- context [if ?b then _ else _] => destruct b
           end;
      rewrite ?run1, ?run2, ?run3; cbn;
      (split; [| reflexivity]); unfold Events2D.sized; cbn;
      rewrite ?eu; repeat split; try assumption; congruence.
Qed.

Lemma timeStep_sized (w : Explorer2D.world) :
  Events2D.sized w ->
  match Explorer2D.timeStep w with
  | Some w' => Events2D.sized w' /\ Explorer2D.cfg w' = Explorer2D.cfg w
  | None => Nx (Explorer2D.cfg w) = 0
  end.
Proof.
  intro sz. apply stepNumerical_sized in sz. unfold Explorer2D.timeStep.
  destruct (Explorer2D.stepNumerical w) as [w1 |]; cbn; [| exact sz].
  destruct sz as ((lx & ly & lu & le) & same).
  split; [| exact same].
  unfold Events2D.sized. cbn. unfold getAnalyticalSolution2D.
  rewrite tabulate2_length. repeat split; assumption.
Qed.

Lemma raiseDiverged_sized (w : Explorer2D.world) :
  Events2D.sized w -> Events2D.sized (Events2D.raiseDiverged w).
Proof. intro sz. exact sz. Qed.

(** The body of the loop of [animate] keeps the sizes and throws only on
    the empty grid. *)
Lemma stepAndCheck_sized (w : Explorer2D.world) :
  Events2D.sized w ->
  Events2D.sized (fst (Events2D.stepAndCheck w))
  /\ (1 <= Nx (Explorer2D.cfg w) -> snd (Events2D.stepAndCheck w) = false).
Proof.
  intro sz. pose proof (timeStep_sized w sz) as step.
  unfold Events2D.stepAndCheck.
  destruct (Explorer2D.timeStep w) as [w' |]; cbn [fst snd].
  - destruct step as (sz' & same).
    pose proof sz' as (_ & _ & lu & _).
    destruct (Nat.ltb_spec (Nat.div (Nx (Explorer2D.cfg w')) 2)
                (length (Explorer2D.u (Explorer2D.st w')))) as [inside | outside].
    + repeat match goal with
             | |- context [if ?b then _ else _] => destruct b
             end; cbn [fst snd]; split; auto.
    + cbn [fst snd]. split; [exact sz' |]. intro pos. exfalso.
      rewrite lu, same in outside.
      pose proof (Nat.div_lt (Nx (Explorer2D.cfg w)) 2 ltac:(lia) ltac:(lia)).
      lia.
  - split; [exact sz | lia].
Qed.

Lemma updateStatus_sized (w : Explorer2D.world) :
  Events2D.sized w -> exists m, Explorer2D.updateStatus w = Some m.
Proof.
  intros (_ & _ & lu & le). unfold Explorer2D.updateStatus, Explorer2D.errorMetrics.
  rewrite lu, le, Nat.leb_refl. cbn [andb]. eexists. reflexivity.
Qed.

Lemma handle_sized (w : Explorer2D.world) (e : event) :
  Events2D.sized w -> Events2D.sized (Events2D.handle w e).
Proof.
  intro sz. destruct e as [| | m | val | n | v | k]; cbn [Events2D.handle].
  - apply stepAndCheck_sized. exact sz.
  - apply reset_sized. exact sz.
  - unfold Events2D.onMethodClick. destruct (Explorer1D.knownMethod m).
    + apply reset_sized. exact sz.
    + exact sz.
  - unfold Events2D.onDtChange.
    match goal with
    | |- Events2D.sized (match ?s with Some _ => _ | None => _ end) => destruct s
    end; [apply reset_sized |]; exact sz.
  - apply initSimulation_sized.
  - exact sz.
  - exact sz.
Qed.

(** X17.  Whatever the arithmetic, in every state the 2D explorer reaches
    from the load of the page through time steps, resets and the
    controls, the grid and the two fields have [Nx] points and rows; so
    the status update and the plot update, which read [Nx] rows of both
    fields, do not throw, and for [Nx >= 1] neither does an iteration of
    the animation loop: the time step and the check of the centre. *)
Theorem explorer2d_never_throws (w0 : Explorer2D.world) (es : list event) :
  let w := Events2D.after es w0 in
  Events2D.sized w
  /\ (exists m, Explorer2D.updateStatus w = Some m)
  /\ (exists slices, Events2D.updatePlots w = Some slices)
  /\ (1 <= Nx (Explorer2D.cfg w) ->
      snd (Events2D.stepAndCheck w) = false
      /\ exists w', Explorer2D.timeStep w = Some w').
Proof.
  cbv zeta.
  assert (sz : Events2D.sized (Events2D.after es w0)).
  { unfold Events2D.after.
    assert (start : Events2D.sized (Explorer2D.initSimulation w0))
      by apply initSimulation_sized.
    revert start. generalize (Explorer2D.initSimulation w0).
    induction es as [| e es IH]; intros w c; cbn [fold_left].
    - exact c.
    - apply IH. apply handle_sized. exact c. }
  split; [exact sz |]. split; [apply updateStatus_sized; exact sz |]. split.
  - destruct sz as (_ & _ & lu & le). unfold Events2D.updatePlots. cbv zeta.
    rewrite lu, le, Nat.leb_refl. cbn [andb]. eexists. reflexivity.
  - intro pos. split; [apply stepAndCheck_sized; assumption |].
    pose proof (timeStep_sized _ sz) as step.
    destruct (Explorer2D.timeStep (Events2D.after es w0)) as [w' |].
    + exists w'. reflexivity.
    + lia.
Qed.

End Reachable2D.

Lemma explorer2d_never_throws_witness :
  let c := @Build_config RNumber 1%R (1 / 100)%R 3 (1 / 1000)%R 2%R
             "crank-nicolson"%string 5 in
  let s := @Explorer2D.Build_state RNumber 0%R 0 0%R [] [] [] []
             0%R 0%R 0%R 0%R false in
  let w := Events2D.after (N := RNumber) (F := RMath)
             [ResetClick; @NxInput RNumber 4]
             (@Explorer2D.Build_world RNumber c s) in
  exists w', Explorer2D.timeStep (F := RMath) w = Some w'.
Proof.
  intros c s w.
  apply (explorer2d_never_throws (N := RNumber) (F := RMath)
           (@Explorer2D.Build_world RNumber c s)
           [ResetClick; @NxInput RNumber 4]).
  simpl. lia.
Defined.

(** ** The grid slider and the 2D animation of the unified page *)

Section Slider2D.
Context {N : Number} {O : Order N} {F : MathFns N}.

(** The three steppers of the unified page return as many rows as they
    are given. *)
Lemma unified_steppers2D_rows (u : matrix) (rx ry : num) :
  u <> [] ->
  (exists res, forwardEuler2D u rx ry = Some res /\ length res = length u)
  /\ (exists res, backwardEuler2D_ADI u rx ry = Some res /\ length res = length u)
  /\ (exists res, crankNicolson2D_ADI u rx ry = Some res /\ length res = length u).
Proof.
  intro ne. split; [| split].
  - destruct (forwardEuler2D_zeroBorder u rx ry ne) as (res & run & (len & _) & _).
    exists res. split; [exact run | exact len].
  - destruct u as [| row0 rest]; [congruence |].
    eexists. split; [reflexivity |].
    apply (sweepRows_shaped (length (row0 :: rest)) (length row0));
      [lia | lia | apply zeros2_shaped].
  - destruct u as [| row0 rest]; [congruence |].
    eexists. split; [reflexivity |].
    apply (sweepRows_shaped (length (row0 :: rest)) (length row0));
      [lia | lia | apply zeros2_shaped].
Qed.

(** A time step keeps the numbers of points and rows, whatever [Nx] the
    configuration holds, and throws only on the empty field. *)
Lemma timeStep2D_rows (c : config) (k : nat) (s : Unified.state2d) :
  rows2D k s ->
  match Unified.timeStep2D c s with
  | Some s' => rows2D k s'
  | None => k = 0
  end.
Proof.
  intros (lx & lu & le).
  unfold Unified.timeStep2D, Unified.stepNumerical2D.
  pose proof (unified_steppers2D_rows (Unified.u s) (Unified.rx s) (Unified.ry s))
    as rows.
  assert (exact : forall t, length (getAnalyticalSolution2D c (Unified.x s)
                                      (Unified.y s) t) = k).
  { intro t. unfold getAnalyticalSolution2D. rewrite tabulate2_length. exact lx. }
  destruct (Unified.u s) as [| row0 rest] eqn:eu.
  - repeat match goal with
           | |- context [if ?b then _ else _] => destruct b
           end; cbn [option_map]; try (rewrite <- lu; reflexivity).
    unfold rows2D. cbn [Unified.x Unified.u Unified.uExact].
    rewrite eu, exact. auto.
  - destruct (rows ltac:(discriminate))
      as ((r1 & run1 & len1) & (r2 & run2 & len2) & (r3 & run3 & len3)).
    repeat match goal with
           | |- context [if ?b then _ else _] => destruct b
           end;
      rewrite ?run1, ?run2, ?run3; cbn [option_map]; unfold rows2D;
      cbn [Unified.x Unified.u Unified.uExact];
      rewrite ?eu, exact; repeat split; try assumption; congruence.
Qed.

Lemma frameLoop_rows (c : config) (k n : nat) (s : Unified.state2d) :
  rows2D k s ->
  rows2D k (fst (Animation2D.frameLoop c n s))
  /\ (1 <= k -> snd (Animation2D.frameLoop c n s) <> Animation2D.Threw)
  /\ (snd (Animation2D.frameLoop c n s) = Animation2D.Reached ->
      geb (Unified.t (fst (Animation2D.frameLoop c n s))) (Tmax c) = true).
Proof.
  revert s. induction n as [| n IH]; intros s r; cbn [Animation2D.frameLoop].
  - cbn. split; [exact r | split; discriminate].
  - destruct (geb (Unified.t s) (Tmax c)) eqn:g.
    + cbn. split; [exact r | split; [discriminate | intros _; exact g]].
    + pose proof (timeStep2D_rows c k s r) as step.
      destruct (Unified.timeStep2D c s) as [s' |].
      * apply IH. exact step.
      * cbn. split; [exact r | split; [lia | discriminate]].
Qed.

(** X18.  Whatever the arithmetic, a frame of the 2D animation of the
    unified page, over a state whose grid and fields have [k] points and
    rows:  when the configuration holds [Nx = k >= 1], nothing in the
    frame throws, and the frame ends either still playing with the next
    frame requested and the sizes kept, or stopped at the end time with
    no frame requested;  when the grid slider has since been moved to a
    larger [Nx], whose input event does not rebuild the fields, and the
    error chart exists, the update of that chart reads a row that does not
    exist and throws, and the frame ends with the animation stopped and a
    frame still requested. *)
Theorem grid_slider_and_2d_animation (c : config) (k : nat)
    (p : player Unified.state2d) :
  isPlaying p = true -> rows2D k (sim p) ->
  (Nx c = k -> 1 <= k ->
   forall chart,
     let q := Animation2D.animate2D c chart p in
     (isPlaying q = true /\ animationId q = true /\ rows2D k (sim q))
     \/ (isPlaying q = false /\ animationId q = false
         /\ geb (Unified.t (sim q)) (Tmax c) = true))
  /\ (forall n, k < n ->
        let q := Animation2D.animate2D (Animation2D.onNxInput n c) true p in
        isPlaying q = false /\ animationId q = true).
Proof.
  intros playing r. split.
  - intros fits pos chart. unfold Animation2D.animate2D. rewrite playing.
    cbn [negb].
    destruct (frameLoop_rows c k (animationSpeed c) (sim p) r)
      as (r' & nothrow & reached).
    destruct (Animation2D.frameLoop c (animationSpeed c) (sim p)) as [s e].
    cbn [fst snd] in *.
    assert (ok : Animation2D.updates c chart s = true).
    { destruct r' as (lx & lu & le).
      assert (slice : exists v, Animation2D.updateErrorChart c chart s = Some v).
      { unfold Animation2D.updateErrorChart.
        destruct chart; cbn [negb]; [| eexists; reflexivity].
        cbv zeta. rewrite fits, lu, le, Nat.leb_refl. cbn [andb].
        eexists. reflexivity. }
      unfold Animation2D.updates.
      destruct slice as (v & ->).
      unfold Unified.updateStatus2D, Unified.errorMetrics.
      destruct (Unified.u s) as [| row0 rest] eqn:eu; [cbn in lu; lia |].
      rewrite le, lu, Nat.leb_refl, orb_true_r. reflexivity. }
    rewrite ok. destruct e.
    + right. cbn. repeat split. apply reached. reflexivity.
    + left. cbn. split; [reflexivity | split; [reflexivity | exact r']].
    + exfalso. apply (nothrow pos). reflexivity.
  - intros n more. unfold Animation2D.animate2D. rewrite playing. cbn [negb].
    set (c' := Animation2D.onNxInput n c).
    destruct (frameLoop_rows c' k (animationSpeed c') (sim p) r) as (r' & _).
    destruct (Animation2D.frameLoop c' (animationSpeed c') (sim p)) as [s e].
    cbn [fst] in r'.
    assert (thrown : Animation2D.updates c' true s = false).
    { destruct r' as (lx & lu & le).
      unfold Animation2D.updates, Animation2D.updateErrorChart. cbn [negb].
      cbv zeta. change (Nx c') with n. rewrite lu.
      destruct (Nat.leb_spec n k); [lia |]. reflexivity. }
    rewrite thrown. destruct e; cbn; split; reflexivity.
Qed.

End Slider2D.

Lemma grid_slider_and_2d_animation_witness :
  let c := @Build_config RNumber 1%R (1 / 100)%R 1 (1 / 1000)%R 2%R
             "forward-euler"%string 5 in
  let s := @Unified.Build_state2d RNumber 0%R 0 0%R [[0%R]] [[0%R]] [0%R] [0%R]
             1%R 1%R 0%R 0%R false in
  let p := {| sim := s; isPlaying := true; animationId := true |} in
  isPlaying
    (Animation2D.animate2D (O := ROrder) (F := RMath)
       (Animation2D.onNxInput 5 c) true p)
  = false.
Proof.
  intros c s p.
  apply (proj2 (grid_slider_and_2d_animation (N := RNumber) (O := ROrder)
                  (F := RMath) c 1 p eq_refl
                  (conj eq_refl (conj eq_refl eq_refl))) 5).
  lia.
Defined.

(** ** From the load of the page *)

Instance RBoundedSine : BoundedSine RNumber RExact RMath.
Proof.
  split. intro x. apply Rabs_le. cbn. pose proof (SIN_bound x). lra.
Qed.

Section Loaded.
Context {N : Number} {E : Exact N} {O : Order N} {F : MathFns N}
  {B : BoundedSine N E F}.

Lemma getSineIC_bounded (c : config) (x : list num) :
  bounded 1 (getSineIC c x).
Proof.
  intros i lt. unfold getSineIC in *. rewrite length_map in lt.
  unfold aget.
  rewrite (nth_indep _ undef
             (Math_sin (div (mul (mul (ofZ 3) Math_PI) (nth i x undef)) (L c))))
    by (rewrite length_map; exact lt).
  rewrite (map_nth (fun xi => Math_sin (div (mul (mul (ofZ 3) Math_PI) xi) (L c)))).
  apply sin_bounded.
Qed.

(** X19.  In exact arithmetic, where the sine has values in [[-1, 1]], a
    one-dimensional explorer started from the state that the load of the
    page or a reset builds, with the status line showing Stable and the
    diffusion number in the range of the method, never raises the
    divergence flag, and the field stays in [[-1, 1]], over any number of
    frames of the animation. *)
Theorem loaded_simulation_stays_bounded (k : nat) :
  (forall (w0 : Explorer1D.world) (p : player Explorer1D.world),
     sim p = Explorer1D.initSimulation w0 ->
     shownStable (method (Explorer1D.cfg (sim p)))
       (Explorer1D.r (Explorer1D.st (sim p))) ->
     let q := Nat.iter k animate p in
     Explorer1D.hasDiverged (Explorer1D.st (sim q)) = false
     /\ bounded 1 (Explorer1D.u (Explorer1D.st (sim q))))
  /\ (forall (c : config) (p : player Unified.state1d),
        sim p = Unified.initSimulation1D c ->
        shownStable (method c) (Unified.r1 (sim p)) ->
        let q := Nat.iter k (animate1D c) p in
        Unified.hasDiverged1 (sim q) = false
        /\ bounded 1 (Unified.u1 (sim q))).
Proof.
  assert (range : (0 <= 1 <= 10)%R) by lra.
  split.
  - intros w0 p start stable q.
    destruct (explorer_frames_quiet k 1 p range stable) as (flag & bd).
    + rewrite start. apply getSineIC_bounded.
    + split; [| exact bd]. unfold q. rewrite flag, start. reflexivity.
  - intros c p start stable q.
    destruct (unified_frames_quiet k 1 c p range stable) as (flag & bd).
    + rewrite start. apply getSineIC_bounded.
    + split; [| exact bd]. unfold q. rewrite flag, start. reflexivity.
Qed.

End Loaded.

Lemma loaded_simulation_stays_bounded_witness :
  let c := @Build_config RNumber 1%R 1%R 3 (1 / 100)%R 2%R
             "backward-euler"%string 5 in
  let s := @Explorer1D.Build_state RNumber 0%R 0 0%R [] [] [] 0%R 0%R false [] in
  let p := {| sim := Explorer1D.initSimulation (F := RMath)
                       (@Explorer1D.Build_world RNumber c s);
              isPlaying := true; animationId := false |} in
  Explorer1D.hasDiverged
    (Explorer1D.st (sim (Nat.iter 7 (animate (O := ROrder) (F := RMath)) p)))
  = false.
Proof.
  intros c s p.
  apply (proj1 (loaded_simulation_stays_bounded (N := RNumber) (E := RExact)
                  (O := ROrder) (F := RMath) 7)
           (@Explorer1D.Build_world RNumber c s) p eq_refl).
  split; [| split; [reflexivity | intro cn; discriminate cn]].
  cbn. unfold Q2R. cbn.
  apply Rmult_le_pos; [lra |]. apply Rlt_le. apply Rinv_0_lt_compat.
  assert (d : (0 < 1 / (3 * / 1 - 1 * / 1))%R).
  { apply Rdiv_lt_0_compat; lra. }
  apply Rmult_lt_0_compat; exact d.
Defined.

(** ** The split backward Euler step solves its two line systems *)

Section SplitSolves.
Context {N : Number} {E : Exact N}.
Notation "l .[ i ]" := (aget undef l i) (at level 1, format "l .[ i ]").

(** X20.  In exact arithmetic and for [rx, ry >= 0], the backward Euler
    stepper of the 2D explorer solves the two systems of its splitting:
    there is an intermediate field [uStar] with
    [(1 + 2 rx) uStar_ij - rx (uStar_(i+1)j + uStar_(i-1)j) = u_ij] and
    [(1 + 2 ry) res_ij - ry (res_i(j+1) + res_i(j-1)) = uStar_ij] at every
    interior point, with [uStar] zero at both ends of every interior line
    in [x] and [res] zero at both ends of every interior line in [y]; the
    early return of the solver never fires. *)
Theorem backwardEuler_ADI_solves (u : matrix) (rx ry : num) :
  u <> [] -> (0 <= toR rx)%R -> (0 <= toR ry)%R ->
  exists res uStar,
    backwardEulerADI u rx ry = Some res
    /\ (forall i j,
          0 < i < length u - 1 -> 0 < j < length (hd [] u) - 1 ->
          ((1 + 2 * toR rx) * toR (mget uStar i j)
           - toR rx * (toR (mget uStar (i + 1) j) + toR (mget uStar (i - 1) j))
           = toR (mget u i j))%R)
    /\ (forall i j,
          0 < i < length u - 1 -> 0 < j < length (hd [] u) - 1 ->
          ((1 + 2 * toR ry) * toR (mget res i j)
           - toR ry * (toR (mget res i (j + 1)) + toR (mget res i (j - 1)))
           = toR (mget uStar i j))%R)
    /\ (forall j, 0 < j < length (hd [] u) - 1 ->
          toR (mget uStar 0 j) = 0%R /\ toR (mget uStar (length u - 1) j) = 0%R)
    /\ (forall i, 0 < i < length u - 1 -> 1 <= length (hd [] u) ->
          toR (mget res i 0) = 0%R
          /\ toR (mget res i (length (hd [] u) - 1)) = 0%R).
Proof.
  intros ne px py. destruct u as [| row0 rest]; [congruence |].
  unfold backwardEulerADI. cbv beta iota zeta.
  set (u := row0 :: rest) in *.
  set (Nx := length u) in *.
  change (length (hd [] u)) with (length row0).
  set (Ny := length row0) in *.
  set (uStar := for_up 1 (Ny - 1)
                  (fun j m => storeColumn Nx j (solve (beX_system u rx Nx j)) m)
                  (zeros2 Nx Ny)).
  assert (posx : 1 <= Nx) by (unfold Nx, u; simpl; lia).
  assert (cellx : forall i j, i < Nx -> 0 < j < Ny - 1 ->
            mget uStar i j = (solve (beX_system u rx Nx j)).[i]).
  { intros i j li rj. unfold uStar.
    rewrite (sweepColumns_mget Nx 1 (Ny - 1)
               (fun j => solve (beX_system u rx Nx j))).
    destruct (Nat.leb_spec 1 j), (Nat.ltb_spec j (Ny - 1)),
      (Nat.ltb_spec i Nx); try lia. reflexivity. }
  assert (celly : forall i j, 0 < i < Nx - 1 -> j < Ny ->
            mget (for_up 1 (Nx - 1)
                    (fun i m => storeRow Ny i (solve (beY_system uStar ry Ny i)) m)
                    (zeros2 Nx Ny)) i j
            = (solve (beY_system uStar ry Ny i)).[j]).
  { intros i j ri lj.
    rewrite (sweepRows_mget Ny 1 (Nx - 1)
               (fun i => solve (beY_system uStar ry Ny i))).
    destruct (Nat.leb_spec 1 i), (Nat.ltb_spec i (Nx - 1)),
      (Nat.ltb_spec j Ny); try lia. reflexivity. }
  assert (linex : forall j,
            toR (solve (beX_system u rx Nx j)).[0] = 0%R
            /\ toR (solve (beX_system u rx Nx j)).[Nx - 1] = 0%R
            /\ forall i, 0 < i < Nx - 1 ->
                 ((1 + 2 * toR rx) * toR (solve (beX_system u rx Nx j)).[i]
                  - toR rx * (toR (solve (beX_system u rx Nx j)).[i + 1]
                              + toR (solve (beX_system u rx Nx j)).[i - 1])
                  = toR (mget u i j))%R).
  { intro j.
    apply (dirichletSystem_equations Nx _ _ (fun i => mget u i j) _ (toR rx)
             (beX_system_rows u rx Nx j posx) posx px (toR_neg rx)).
    autorewrite with toR. reflexivity. }
  assert (liney : forall i, 1 <= Ny ->
            toR (solve (beY_system uStar ry Ny i)).[0] = 0%R
            /\ toR (solve (beY_system uStar ry Ny i)).[Ny - 1] = 0%R
            /\ forall j, 0 < j < Ny - 1 ->
                 ((1 + 2 * toR ry) * toR (solve (beY_system uStar ry Ny i)).[j]
                  - toR ry * (toR (solve (beY_system uStar ry Ny i)).[j + 1]
                              + toR (solve (beY_system uStar ry Ny i)).[j - 1])
                  = toR (mget uStar i j))%R).
  { intros i posy.
    apply (dirichletSystem_equations Ny _ _ (fun j => mget uStar i j) _ (toR ry)
             (beY_system_rows uStar ry Ny i posy) posy py (toR_neg ry)).
    autorewrite with toR. reflexivity. }
  eexists. exists uStar. split; [reflexivity |]. split; [| split; [| split]].
  - intros i j ri rj. rewrite !cellx by lia.
    apply (linex j). exact ri.
  - intros i j ri rj. rewrite !celly by lia.
    apply (liney i ltac:(lia)). exact rj.
  - intros j rj. rewrite !cellx by lia. split; apply (linex j).
  - intros i ri posy. rewrite !celly by lia. split; apply (liney i posy).
Qed.

End SplitSolves.

Lemma backwardEuler_ADI_solves_witness :
  exists res, backwardEulerADI plate (qc 1 2) (qc 1 3) = Some res.
Proof.
  destruct (backwardEuler_ADI_solves (N := QcNumber) (E := QcExact)
              plate (qc 1 2) (qc 1 3)) as (res & uStar & run & _).
  - discriminate.
  - rewrite toR_qc. lra.
  - rewrite toR_qc. lra.
  - exists res. exact run.
Defined.

(** ** The range of forward Euler is sharp *)

Section Sharp.
Context {N : Number} {E : Exact N}.
Notation "l .[ i ]" := (aget undef l i) (at level 1, format "l .[ i ]").

Lemma toR_minus_one : toR (neg one) = (- 1)%R.
Proof. rewrite toR_neg, toR_one. reflexivity. Qed.

(** X21.  In exact arithmetic the range of forward Euler is sharp: when
    the status line shows UNSTABLE, that is for [r > 1/2] in one dimension
    and for [rx + ry > 1/2] in two, there is a field with entries in
    [[-1, 1]] that one step takes out of [[-1, 1]]: the field that
    alternates between [1] and [-1], whose centre the step sends to
    [4 r - 1], or [4 (rx + ry) - 1]. *)
Theorem forwardEuler_range_is_sharp :
  (forall r : num,
     isUnstable "forward-euler" r = true ->
     exists u, bounded 1 u
               /\ toR (forwardEuler u r).[1] = (4 * toR r - 1)%R
               /\ (1 < Rabs (toR (forwardEuler u r).[1]))%R)
  /\ (forall rx ry : num,
        isUnstable2D "forward-euler" rx ry = true ->
        exists u res,
          bounded2 1 (length u) (length (hd [] u)) u
          /\ forwardEuler2D u rx ry = Some res
          /\ toR (mget res 1 1) = (4 * (toR rx + toR ry) - 1)%R
          /\ (1 < Rabs (toR (mget res 1 1)))%R).
Proof.
  split.
  - intros r unstable. unfold isUnstable in unstable. cbn [String.eqb] in unstable.
    apply andb_true_iff in unstable. destruct unstable as (_ & big).
    apply gtb_spec in big. rewrite toR_half in big.
    exists [one; neg one; one].
    assert (value : toR (forwardEuler [one; neg one; one] r).[1]
                    = (4 * toR r - 1)%R).
    { rewrite forwardEuler_interior by (simpl; lia). cbn [aget nth Nat.add Nat.sub].
      rewrite toR_minus_one, toR_one. lra. }
    split; [| split; [exact value |]].
    + intros i lt. simpl in lt.
      destruct i as [| [| [| i]]]; try lia; cbn [aget nth];
        rewrite ?toR_minus_one, ?toR_one; apply Rabs_le; lra.
    + rewrite value. rewrite Rabs_pos_eq; lra.
  - intros rx ry unstable. unfold isUnstable2D in unstable.
    cbn [String.eqb] in unstable.
    apply andb_true_iff in unstable. destruct unstable as (_ & big).
    apply gtb_spec in big. rewrite toR_half, toR_add in big.
    set (u := [[zero; one; zero]; [one; neg one; one]; [zero; one; zero]]).
    destruct (forwardEuler2D_zeroBorder u rx ry ltac:(discriminate))
      as (res & run & _).
    exists u, res.
    assert (value : toR (mget res 1 1) = (4 * (toR rx + toR ry) - 1)%R).
    { rewrite (forwardEuler2D_inner u rx ry res 1 1 run) by (simpl; lia).
      unfold mget, u. cbn [aget nth Nat.add Nat.sub].
      autorewrite with toR. rewrite ?toR_one, ?toR_zero. lra. }
    split; [| split; [exact run | split; [exact value |]]].
    + intros i j li lj. simpl in li, lj. unfold mget, u.
      destruct i as [| [| [| i]]]; try lia;
        destruct j as [| [| [| j]]]; try lia; cbn [aget nth];
        rewrite ?toR_minus_one, ?toR_one, ?toR_zero; apply Rabs_le; lra.
    + rewrite value. rewrite Rabs_pos_eq; lra.
Qed.

End Sharp.
